(** * Two-layer neural-network bandit agents ([ensemble_nn/agent_nn.py])

    A shallow embedding of the three agent classes of [agent_nn.py]
    (epsilon-greedy with its annealing subclass, dropout, ensemble sampling)
    and the properties of their forward/backward passes, regularised SGD
    update and action selection.

    Conventions of the embedding.
    - A numpy float is a real number ([R]).  Where numpy would leave the
      reals (division of an array by zero, square root of a negative number)
      the embedding stops with the outcome [Nan]; numpy itself goes on with
      [inf]/[nan] values and only warns.
    - A Python [int] is a [Z]; negative indices wrap as in Python.
    - Arrays are nested lists in row-major order; elementwise operators
      follow numpy's broadcasting rule on every axis.
    - Python exceptions are the outcome [Raise e]; attributes mutated before
      the exception stay mutated, so methods are state transformers that
      return an outcome together with the state reached.
    - [numpy.random] is an explicit generator threaded through every call,
      and every draw is appended to a ghost log. *)

From Stdlib Require Import Reals Lra Lia ZArith List.
From stdpp Require Import base list.
Import ListNotations.
Open Scope R_scope.

(** ** Outcomes of Python code *)

Inductive exn := IndexError | ValueError | ZeroDivisionError.

Inductive result (A : Type) : Type :=
| Ok (a : A)
| Raise (e : exn)
| Nan.
Arguments Ok {A} a.
Arguments Raise {A} e.
Arguments Nan {A}.

#[global] Instance result_ret : MRet result := fun A a => Ok a.
#[global] Instance result_bind : MBind result := fun A B f r =>
  match r with
  | Ok a => f a
  | Raise e => Raise e
  | Nan => Nan
  end.
#[global] Instance result_fmap : FMap result := fun A B f r =>
  match r with
  | Ok a => Ok (f a)
  | Raise e => Raise e
  | Nan => Nan
  end.

Abbreviation vec := (list R).
Abbreviation mat := (list (list R)).

(** [map] is the list instance of stdpp's [fmap] throughout. *)
Abbreviation map := (fmap (M:=list)) (only parsing).

(** ** The numpy operations used by the agents *)

Module np.

(** Traversal of a list by a fallible function, left to right. *)
Fixpoint traverse {A B} (f : A -> result B) (l : list A) : result (list B) :=
  match l with
  | [] => Ok []
  | a :: l' => b ← f a; bs ← traverse f l'; Ok (b :: bs)
  end.

Fixpoint zipM {A B C} (f : A -> B -> result C) (x : list A) (y : list B)
  : result (list C) :=
  match x, y with
  | a :: x', b :: y' => c ← f a b; cs ← zipM f x' y'; Ok (c :: cs)
  | _, _ => Ok []
  end.

(** One axis of numpy broadcasting: equal extents are paired off, an
    extent of one is stretched, anything else is a [ValueError]. *)
Definition broadcast {A B C} (f : A -> B -> result C)
    (x : list A) (y : list B) : result (list C) :=
  if Nat.eqb (length x) (length y) then zipM f x y
  else match x, y with
       | [a], _ => traverse (f a) y
       | _, [b] => traverse (fun a => f a b) x
       | _, _ => Raise ValueError
       end.

(** The same axis for an in-place operator ([x op= y]): only the right
    operand may be stretched. *)
Definition broadcast_to {A B C} (f : A -> B -> result C)
    (x : list A) (y : list B) : result (list C) :=
  if Nat.eqb (length x) (length y) then zipM f x y
  else match y with
       | [b] => traverse (fun a => f a b) x
       | _ => Raise ValueError
       end.

Definition lift2 (f : R -> R -> R) (a b : R) : result R := Ok (f a b).

Definition op1 (f : R -> R -> R) : vec -> vec -> result vec :=
  broadcast (lift2 f).
Definition op2 (f : R -> R -> R) : mat -> mat -> result mat :=
  broadcast (op1 f).
Definition op3 (f : R -> R -> R) : list mat -> list mat -> result (list mat) :=
  broadcast (op2 f).

Definition iop1 (f : R -> R -> R) : vec -> vec -> result vec :=
  broadcast_to (lift2 f).
Definition iop2 (f : R -> R -> R) : mat -> mat -> result mat :=
  broadcast_to (iop1 f).

(** [x[:, np.newaxis]] on a vector and [X[:, np.newaxis, :]] on a matrix. *)
Definition newaxis {A} (x : list A) : list (list A) := map (fun a => [a]) x.

(** [np.sum] over a 1-d array. *)
Definition sum (x : vec) : R := foldr Rplus 0 x.

(** [np.sum(_, axis=0)] of a 2-d array: the sum of its rows. *)
Definition zeros (n : nat) : vec := replicate n 0.
Definition sum_axis0 (X : mat) : vec :=
  foldr (zip_with Rplus) (zeros (length (hd [] X))) X.

(** Booleans used as numbers ([True] is [1.0]). *)
Definition of_bool (b : bool) : R := if b then 1 else 0.
Definition ge0 (a : R) : bool := if Rle_dec 0 a then true else false.
Definition lt0 (a : R) : bool := if Rlt_dec a 0 then true else false.
Definition gt (a b : R) : bool := if Rlt_dec b a then true else false.
Definition ltb (a b : R) : bool := if Rlt_dec a b then true else false.

(** [A.T] *)
Fixpoint transpose (ncols : nat) (A : mat) : mat :=
  match A with
  | [] => replicate ncols []
  | r :: A' => zip_with cons r (transpose ncols A')
  end.
Definition T (A : mat) : mat := transpose (length (hd [] A)) A.

(** [np.dot] of two 2-d arrays; the inner extents must agree. *)
Definition scale (c : R) (x : vec) : vec := map (Rmult c) x.
Definition vec_mat (r : vec) (B : mat) : vec :=
  foldr (zip_with Rplus) (zeros (length (hd [] B))) (zip_with scale r B).
Definition dot (A B : mat) : result mat :=
  if forallb (fun r => Nat.eqb (length r) (length B)) A
  then Ok (map (fun r => vec_mat r B) A)
  else Raise ValueError.

(** [np.argmax]: index of the first maximum; empty input is a [ValueError]. *)
Fixpoint argmax_from (best : R) (besti i : nat) (l : vec) : nat :=
  match l with
  | [] => besti
  | x :: l' =>
      if Rlt_dec best x then argmax_from x i (S i) l'
      else argmax_from best besti (S i) l'
  end.
Definition argmax (l : vec) : result Z :=
  match l with
  | [] => Raise ValueError
  | x :: l' => Ok (Z.of_nat (argmax_from x 0 1 l'))
  end.

(** Position of index [i] on an axis of extent [n]: negative indices count
    from the end, anything outside [-n, n) is an [IndexError]. *)
Definition index (n : nat) (i : Z) : result nat :=
  if (0 <=? i)%Z && (i <? Z.of_nat n)%Z then Ok (Z.to_nat i)
  else if (- Z.of_nat n <=? i)%Z && (i <? 0)%Z then Ok (Z.to_nat (Z.of_nat n + i))
  else Raise IndexError.

(** [a[i]] for an integer [i]. *)
Definition getitem {A} (a : list A) (i : Z) : result A :=
  k ← index (length a) i;
  match a !! k with
  | Some x => Ok x
  | None => Raise IndexError
  end.

(** [a[ind]] for an integer array [ind] (a copy of the selected items). *)
Definition take {A} (a : list A) (ind : list Z) : result (list A) :=
  traverse (getitem a) ind.

(** Python's scalar [x / y] on floats. *)
Definition truediv (x y : R) : result R :=
  if Req_dec_T y 0 then Raise ZeroDivisionError else Ok (x / y).

(** [A /= n] for a 2-d (resp. 1-d) float array and an integer. *)
Definition idiv1 (x : vec) (n : Z) : result vec :=
  if (n =? 0)%Z then Nan else Ok (map (fun a => a / IZR n) x).
Definition idiv2 (X : mat) (n : Z) : result mat :=
  if (n =? 0)%Z then Nan else Ok (map (map (fun a => a / IZR n)) X).

(** [np.sqrt] of a scalar. *)
Definition sqrt (x : R) : result R :=
  if Rlt_dec x 0 then Nan else Ok (R_sqrt.sqrt x).

(** [c * X] for a scalar [c]. *)
Definition smul1 (c : R) (x : vec) : vec := map (Rmult c) x.
Definition smul2 (c : R) (X : mat) : mat := map (smul1 c) X.

(** [range(n)] *)
Definition range (n : Z) : list Z := map Z.of_nat (seq 0 (Z.to_nat n)).

End np.

(** ** The random source ([numpy.random])

    The generator is an interface: a state [G] with one scalar draw per
    distribution the agents use, and the ranges numpy guarantees. *)

Class RandomSource (G : Type) := {
  next_rand : G -> R * G;             (* rd.rand(): uniform on [0, 1) *)
  next_randn : G -> R * G;            (* rd.randn(): standard normal *)
  next_randint : Z -> G -> Z * G;     (* rd.randint(high), for 0 < high *)
  next_rand_range : forall g, 0 <= fst (next_rand g) < 1;
  next_randint_range :
    forall high g, (0 < high)%Z -> (0 <= fst (next_randint high g) < high)%Z
}.

(** A deterministic source for running the methods on concrete inputs: a
    tape of raw numbers, one consumed per draw (an exhausted tape reads 0). *)
Definition tape_head (g : list nat) : nat * list nat :=
  match g with
  | [] => (O, [])
  | n :: g' => (n, g')
  end.

Definition tape_rand (g : list nat) : R * list nat :=
  let (n, g') := tape_head g in
  (match n with
   | 0%nat => 0
   | 1%nat => 1 / 4
   | 2%nat => 1 / 2
   | _ => 3 / 4
   end, g').

Definition tape_randn (g : list nat) : R * list nat :=
  let (n, g') := tape_head g in (IZR (Z.of_nat n - 2), g').

Definition tape_randint (high : Z) (g : list nat) : Z * list nat :=
  let (n, g') := tape_head g in ((Z.of_nat n mod high)%Z, g').

Lemma tape_rand_range (g : list nat) : 0 <= fst (tape_rand g) < 1.
Proof.
  unfold tape_rand. destruct (tape_head g) as [n g']. simpl.
  destruct n as [|[|[|k]]]; simpl; lra.
Qed.

Lemma tape_randint_range (high : Z) (g : list nat) :
  (0 < high)%Z -> (0 <= fst (tape_randint high g) < high)%Z.
Proof.
  intros Hh. unfold tape_randint. destruct (tape_head g) as [n g']. simpl.
  apply Z.mod_pos_bound, Hh.
Qed.

#[global] Instance tape_source : RandomSource (list nat) := {|
  next_rand := tape_rand;
  next_randn := tape_randn;
  next_randint := tape_randint;
  next_rand_range := tape_rand_range;
  next_randint_range := tape_randint_range
|}.

(** What was drawn, most recent draw first (ghost state). *)
Inductive draw :=
| Uniform (u : R)
| Normal (z : R)
| Integer (high v : Z).

(** ** Methods as state transformers *)

Record world (G S : Type) := World {
  self : S;            (* the agent object *)
  gen : G;             (* the process-wide generator *)
  log : list draw
}.
Arguments World {G S}.
Arguments self {G S} w.
Arguments gen {G S} w.
Arguments log {G S} w.

Definition Py (G S A : Type) : Type := world G S -> result A * world G S.

#[global] Instance Py_ret {G S} : MRet (Py G S) := fun A a w => (Ok a, w).
#[global] Instance Py_bind {G S} : MBind (Py G S) := fun A B f m w =>
  match m w with
  | (Ok a, w') => f a w'
  | (Raise e, w') => (Raise e, w')
  | (Nan, w') => (Nan, w')
  end.

Section Monad.
Context {G S : Type}.

(** A pure numpy computation inside a method. *)
Definition lift {A} (r : result A) : Py G S A := fun w => (r, w).

(** Reading and writing attributes of [self]. *)
Definition get {A} (f : S -> A) : Py G S A := fun w => (Ok (f (self w)), w).
Definition modify (f : S -> S) : Py G S unit :=
  fun w => (Ok tt, World (f (self w)) (gen w) (log w)).

(** [for x in l: body(x)] *)
Fixpoint for_ {A} (l : list A) (body : A -> Py G S unit) : Py G S unit :=
  match l with
  | [] => mret tt
  | x :: l' => _ ← body x; for_ l' body
  end.

(** [n] successive runs of [m], results in order. *)
Fixpoint replicateM {A} (n : nat) (m : Py G S A) : Py G S (list A) :=
  match n with
  | O => mret []
  | Datatypes.S n' => a ← m; l ← replicateM n' m; mret (a :: l)
  end.
End Monad.

Module rd.
Section Draws.
Context {G : Type} `{RandomSource G} {S : Type}.

Definition rand : Py G S R := fun w =>
  let (u, g) := next_rand (gen w) in
  (Ok u, World (self w) g (Uniform u :: log w)).

Definition randn : Py G S R := fun w =>
  let (z, g) := next_randn (gen w) in
  (Ok z, World (self w) g (Normal z :: log w)).

(** [rd.randint(high)]: an integer of [0, high); [ValueError] unless
    [0 < high]. *)
Definition randint (high : Z) : Py G S Z := fun w =>
  if (0 <? high)%Z then
    let (v, g) := next_randint high (gen w) in
    (Ok v, World (self w) g (Integer high v :: log w))
  else (Raise ValueError, w).

(** [rd.randint(high, size=size)]: [size] draws; a negative [size] is a
    [ValueError], and nothing is drawn (nor checked) for [size = 0]. *)
Definition randint_size (high size : Z) : Py G S (list Z) :=
  if (size <? 0)%Z then lift (Raise ValueError)
  else replicateM (Z.to_nat size) (randint high).

(** [rd.rand(rows, cols)] and [rd.randn(...)] arrays, drawn in row-major
    order. *)
Definition rand2 (rows cols : nat) : Py G S mat :=
  replicateM rows (replicateM cols rand).
Definition randn1 (n : nat) : Py G S vec := replicateM n randn.
Definition randn2 (rows cols : nat) : Py G S mat :=
  replicateM rows (randn1 cols).
Definition randn3 (k rows cols : nat) : Py G S (list mat) :=
  replicateM k (randn2 rows cols).
End Draws.
End rd.

(** ** The single-network agents

    [TwoLayerNNEpsilonGreedy] is the base class; the annealing and dropout
    classes inherit [_update_model] and [update_observation] from it.  One
    record carries the attributes of all three: [epsilon_param] is set by
    the epsilon-greedy constructor, [p] by the dropout one, and each class
    reads only its own. *)

Record agent := Agent {
  W1 : mat;                    (* hidden_dim x input_dim *)
  W2 : vec;                    (* hidden_dim *)
  actions : mat;
  num_actions : Z;
  T : Z;
  prior_var : R;
  noise_var : R;
  epsilon_param : R;
  p : R;
  lr : R;
  num_gradient_steps : Z;
  batch_size : Z;
  lr_decay : R;
  leaky_coeff : R;
  action_hist : mat;           (* T x input_dim *)
  reward_hist : vec            (* T *)
}.

Definition set_W1 (v : mat) (a : agent) : agent :=
  Agent v (W2 a) (actions a) (num_actions a) (T a) (prior_var a) (noise_var a)
    (epsilon_param a) (p a) (lr a) (num_gradient_steps a) (batch_size a)
    (lr_decay a) (leaky_coeff a) (action_hist a) (reward_hist a).
Definition set_W2 (v : vec) (a : agent) : agent :=
  Agent (W1 a) v (actions a) (num_actions a) (T a) (prior_var a) (noise_var a)
    (epsilon_param a) (p a) (lr a) (num_gradient_steps a) (batch_size a)
    (lr_decay a) (leaky_coeff a) (action_hist a) (reward_hist a).
Definition set_lr (v : R) (a : agent) : agent :=
  Agent (W1 a) (W2 a) (actions a) (num_actions a) (T a) (prior_var a) (noise_var a)
    (epsilon_param a) (p a) v (num_gradient_steps a) (batch_size a)
    (lr_decay a) (leaky_coeff a) (action_hist a) (reward_hist a).
Definition set_action_hist (v : mat) (a : agent) : agent :=
  Agent (W1 a) (W2 a) (actions a) (num_actions a) (T a) (prior_var a) (noise_var a)
    (epsilon_param a) (p a) (lr a) (num_gradient_steps a) (batch_size a)
    (lr_decay a) (leaky_coeff a) v (reward_hist a).
Definition set_reward_hist (v : vec) (a : agent) : agent :=
  Agent (W1 a) (W2 a) (actions a) (num_actions a) (T a) (prior_var a) (noise_var a)
    (epsilon_param a) (p a) (lr a) (num_gradient_steps a) (batch_size a)
    (lr_decay a) (leaky_coeff a) (action_hist a) v.

(** [A[t] = row]: the row is broadcast to the extent of [A[t]]. *)
Definition setitem_row (A : mat) (t : Z) (row : vec) : result mat :=
  k ← np.index (length A) t;
  old ← np.getitem A t;
  new ← np.broadcast_to (fun _ b => Ok b) old row;
  Ok (<[k := new]> A).

(** [a[t] = x] *)
Definition setitem {A} (a : list A) (t : Z) (x : A) : result (list A) :=
  k ← np.index (length a) t;
  Ok (<[k := x]> a).

(** [np.zeros(n)] and [np.zeros((n, m))]; a negative extent is a
    [ValueError]. *)
Definition np_zeros1 (n : Z) : result vec :=
  if (n <? 0)%Z then Raise ValueError else Ok (np.zeros (Z.to_nat n)).
Definition np_zeros2 (n m : Z) : result mat :=
  if (n <? 0)%Z || (m <? 0)%Z then Raise ValueError
  else Ok (replicate (Z.to_nat n) (np.zeros (Z.to_nat m))).

(** The Leaky-ReLU and the derivative mask
    [(affine_out >= 0) + leaky_coeff * (affine_out < 0)]. *)
Definition leaky_relu (leaky_coeff a : R) : R := Rmax (leaky_coeff * a) a.
Definition relu_mask (leaky_coeff a : R) : R :=
  np.of_bool (np.ge0 a) + leaky_coeff * np.of_bool (np.lt0 a).

(** [np.sum(input_actions[:, np.newaxis, :] * W1, axis=2)] *)
Definition affine (W1 input_actions : mat) : result mat :=
  prod ← np.op3 Rmult (np.newaxis input_actions) [W1];
  Ok (map (map np.sum) prod).

(** The two virtual methods of the base class, as [_update_model] sees them. *)
Record klass (G : Type) := Klass {
  cache : Type;
  model_forward : mat -> Py G agent (vec * cache);
  model_backward : vec -> cache -> vec -> Py G agent (mat * vec)
}.
Arguments cache {G} k.
Arguments model_forward {G} k.
Arguments model_backward {G} k.

Module TwoLayerNNEpsilonGreedy.

Definition cache : Type := mat * mat * mat.

(** The body of [_model_forward], with the attributes it reads as
    arguments. *)
Definition forward (leaky_coeff : R) (W1 : mat) (W2 : vec) (input_actions : mat)
  : result (vec * cache) :=
  affine_out ← affine W1 input_actions;
  let relu_out := map (map (leaky_relu leaky_coeff)) affine_out in
  t ← np.op2 Rmult relu_out [W2];
  let out := map np.sum t in
  Ok (out, (input_actions, affine_out, relu_out)).

(** The body of [_model_backward]. *)
Definition backward (noise_var leaky_coeff : R) (W2 : vec)
    (out : vec) (c : cache) (y : vec) : result (mat * vec) :=
  let '(input_actions, affine_out, relu_out) := c in
  s ← np.truediv 2 noise_var;
  d ← np.op1 Rminus y out;
  let dout := np.smul1 (- s) d in
  t ← np.op2 Rmult (np.newaxis dout) relu_out;
  let dW2 := np.sum_axis0 t in
  drelu_out ← np.op2 Rmult (np.newaxis dout) [W2];
  let mask := map (map (relu_mask leaky_coeff)) affine_out in
  daffine_out ← np.op2 Rmult mask drelu_out;
  dW1 ← np.dot (np.T daffine_out) input_actions;
  Ok (dW1, dW2).

Section Methods.
Context {G : Type} `{RandomSource G}.

Definition __init__ (input_dim hidden_dim : Z) (actions : mat)
    (time_horizon : Z) (prior_var noise_var epsilon_param learning_rate : R)
    (num_gradient_steps batch_size : Z) (lr_decay leaky_coeff : R)
  : Py G unit agent :=
  _ ← lift (if (hidden_dim <? 0)%Z || (input_dim <? 0)%Z
            then Raise ValueError else Ok tt);
  w1 ← rd.randn2 (Z.to_nat hidden_dim) (Z.to_nat input_dim);
  w2 ← rd.randn1 (Z.to_nat hidden_dim);
  ah ← lift (np_zeros2 time_horizon input_dim);
  rh ← lift (np_zeros1 time_horizon);
  mret (Agent (np.smul2 (1 / 100) w1) (np.smul1 (1 / 100) w2)
          actions (Z.of_nat (length actions)) time_horizon prior_var noise_var
          epsilon_param 0 learning_rate num_gradient_steps batch_size
          lr_decay leaky_coeff ah rh).

Definition _model_forward (input_actions : mat) : Py G agent (vec * cache) :=
  w1 ← get W1; lc ← get leaky_coeff; w2 ← get W2;
  lift (forward lc w1 w2 input_actions).

Definition _model_backward (out : vec) (c : cache) (y : vec)
  : Py G agent (mat * vec) :=
  nv ← get noise_var; lc ← get leaky_coeff; w2 ← get W2;
  lift (backward nv lc w2 out c y).

Definition class : klass G := Klass G cache _model_forward _model_backward.

(** One pass of the loop body of [_update_model]. *)
Definition gradient_step (k : klass G) (t : Z) : Py G agent unit :=
  bs ← get batch_size;
  batch_ind ← rd.randint_size (t + 1) bs;
  ah ← get action_hist;
  action_batch ← lift (np.take ah batch_ind);
  rh ← get reward_hist;
  reward_batch ← lift (np.take rh batch_ind);
  '(out, c) ← model_forward k action_batch;
  '(dW1, dW2) ← model_backward k out c reward_batch;
  dW1 ← lift (np.idiv2 dW1 bs);
  dW2 ← lift (np.idiv1 dW2 bs);
  pv ← get prior_var;
  c1 ← lift (np.truediv 2 (pv * IZR (t + 1)));
  w1 ← get W1;
  dW1 ← lift (np.iop2 Rplus dW1 (np.smul2 c1 w1));
  c2 ← lift (np.truediv 2 (pv * IZR (t + 1)));
  w2 ← get W2;
  dW2 ← lift (np.iop1 Rplus dW2 (np.smul1 c2 w2));
  l ← get lr;
  w1' ← lift (np.iop2 Rminus w1 (np.smul2 l dW1));
  _ ← modify (set_W1 w1');
  l ← get lr;
  w2' ← lift (np.iop1 Rminus w2 (np.smul1 l dW2));
  modify (set_W2 w2').

Definition _update_model (k : klass G) (t : Z) : Py G agent unit :=
  n ← get num_gradient_steps;
  for_ (np.range n) (fun i => gradient_step k t).

Definition update_observation (k : klass G) (observation action : Z) (reward : R)
  : Py G agent unit :=
  let t := observation in
  acts ← get actions;
  a ← lift (np.getitem acts action);
  ah ← get action_hist;
  ah' ← lift (setitem_row ah t a);
  _ ← modify (set_action_hist ah');
  rh ← get reward_hist;
  rh' ← lift (setitem rh t reward);
  _ ← modify (set_reward_hist rh');
  _ ← _update_model k t;
  l ← get lr; d ← get lr_decay;
  modify (set_lr (l * d)).

Definition pick_action (observation : Z) : Py G agent Z :=
  u ← rd.rand;
  eps ← get epsilon_param;
  if np.ltb u eps then
    n ← get num_actions; rd.randint n
  else
    acts ← get actions;
    '(model_out, _) ← _model_forward acts;
    lift (np.argmax model_out).
End Methods.
End TwoLayerNNEpsilonGreedy.

Module TwoLayerNNEpsilonGreedyAnnealing.
Section Methods.
Context {G : Type} `{RandomSource G}.

Definition pick_action (observation : Z) : Py G agent Z :=
  let t := observation in
  e ← get epsilon_param;
  epsilon ← lift (np.truediv e (e + IZR t));
  u ← rd.rand;
  if np.ltb u epsilon then
    n ← get num_actions; rd.randint n
  else
    acts ← get actions;
    '(model_out, _) ← TwoLayerNNEpsilonGreedy._model_forward acts;
    lift (np.argmax model_out).
End Methods.
End TwoLayerNNEpsilonGreedyAnnealing.

Module TwoLayerNNDropout.

Definition cache : Type := mat * mat * mat * list (list bool) * mat.

(** [_model_forward] up to the draw of the mask ... *)
Definition hidden (leaky_coeff : R) (W1 input_actions : mat) : result (mat * mat) :=
  affine_out ← affine W1 input_actions;
  Ok (affine_out, map (map (leaky_relu leaky_coeff)) affine_out).

(** ... and after it. *)
Definition readout (W2 : vec) (relu_out : mat) (dropout_mask : list (list bool))
  : result (vec * mat) :=
  dropout_out ← np.op2 Rmult relu_out (map (map np.of_bool) dropout_mask);
  t ← np.op2 Rmult dropout_out [W2];
  Ok (map np.sum t, dropout_out).

(** The forward pass for a given mask. *)
Definition forward (leaky_coeff : R) (W1 : mat) (W2 : vec) (input_actions : mat)
    (dropout_mask : list (list bool)) : result (vec * cache) :=
  '(affine_out, relu_out) ← hidden leaky_coeff W1 input_actions;
  '(out, dropout_out) ← readout W2 relu_out dropout_mask;
  Ok (out, (input_actions, affine_out, relu_out, dropout_mask, dropout_out)).

(** The body of [_model_backward]. *)
Definition backward (noise_var leaky_coeff : R) (W2 : vec)
    (out : vec) (c : cache) (y : vec) : result (mat * vec) :=
  let '(input_actions, affine_out, relu_out, dropout_mask, dropout_out) := c in
  s ← np.truediv 2 noise_var;
  d ← np.op1 Rminus y out;
  let dout := np.smul1 (- s) d in
  t ← np.op2 Rmult (np.newaxis dout) relu_out;
  let dW2 := np.sum_axis0 t in
  ddropout_out ← np.op2 Rmult (np.newaxis dout) [W2];
  drelu_out ← np.op2 Rmult ddropout_out (map (map np.of_bool) dropout_mask);
  let mask := map (map (relu_mask leaky_coeff)) affine_out in
  daffine_out ← np.op2 Rmult mask drelu_out;
  dW1 ← np.dot (np.T daffine_out) input_actions;
  Ok (dW1, dW2).

Section Methods.
Context {G : Type} `{RandomSource G}.

Definition __init__ (input_dim hidden_dim : Z) (actions : mat)
    (time_horizon : Z) (prior_var noise_var drop_prob learning_rate : R)
    (num_gradient_steps batch_size : Z) (lr_decay leaky_coeff : R)
  : Py G unit agent :=
  _ ← lift (if (hidden_dim <? 0)%Z || (input_dim <? 0)%Z
            then Raise ValueError else Ok tt);
  w1 ← rd.randn2 (Z.to_nat hidden_dim) (Z.to_nat input_dim);
  w2 ← rd.randn1 (Z.to_nat hidden_dim);
  ah ← lift (np_zeros2 time_horizon input_dim);
  rh ← lift (np_zeros1 time_horizon);
  mret (Agent (np.smul2 (1 / 100) w1) (np.smul1 (1 / 100) w2)
          actions (Z.of_nat (length actions)) time_horizon prior_var noise_var
          0 drop_prob learning_rate num_gradient_steps batch_size
          lr_decay leaky_coeff ah rh).

(** The mask [rd.rand(B, H) > self.p], of the shape [(B, H)] of [relu_out]. *)
Definition draw_mask (relu_out : mat) : Py G agent (list (list bool)) :=
  u ← rd.rand2 (length relu_out) (length (hd [] relu_out));
  q ← get p;
  mret (map (map (fun x => np.gt x q)) u).

Definition _model_forward (input_actions : mat) : Py G agent (vec * cache) :=
  w1 ← get W1; lc ← get leaky_coeff;
  '(affine_out, relu_out) ← lift (hidden lc w1 input_actions);
  dropout_mask ← draw_mask relu_out;
  w2 ← get W2;
  '(out, dropout_out) ← lift (readout w2 relu_out dropout_mask);
  mret (out, (input_actions, affine_out, relu_out, dropout_mask, dropout_out)).

Definition _model_backward (out : vec) (c : cache) (y : vec)
  : Py G agent (mat * vec) :=
  nv ← get noise_var; lc ← get leaky_coeff; w2 ← get W2;
  lift (backward nv lc w2 out c y).

Definition class : klass G := Klass G cache _model_forward _model_backward.

Definition pick_action (observation : Z) : Py G agent Z :=
  acts ← get actions;
  '(model_out, _) ← _model_forward acts;
  lift (np.argmax model_out).
End Methods.
End TwoLayerNNDropout.

(** ** The ensemble agent

    [W1_model_prior], [W2_model_prior], [W1] and [W2] are attributes that
    refer to array objects, and [W1]/[W2] are made from the priors by
    [np.copy]; the arrays therefore live in a store and the attributes hold
    their locations, so that sharing between a prior and the live weights
    would show.  The other attributes are never copied from one another and
    are held by value. *)

Module TwoLayerNNEnsembleSampling.

Abbreviation loc := nat.

Inductive ndarray :=
| Arr2 (a : mat)
| Arr3 (a : list mat).

Abbreviation store := (list ndarray).

Record ensemble := Ensemble {
  M : Z;
  W1_model_prior : loc;        (* M x hidden_dim x input_dim *)
  W2_model_prior : loc;        (* M x hidden_dim *)
  W1 : loc;
  W2 : loc;
  actions : mat;
  num_actions : Z;
  T : Z;
  prior_var : R;
  noise_var : R;
  lr : R;
  num_gradient_steps : Z;
  batch_size : Z;
  lr_decay : R;
  leaky_coeff : R;
  action_hist : mat;           (* T x input_dim *)
  model_reward_hist : mat      (* M x T *)
}.

Record state := State { obj : ensemble; heap : store }.

Definition set_lr (v : R) (a : ensemble) : ensemble :=
  Ensemble (M a) (W1_model_prior a) (W2_model_prior a) (W1 a) (W2 a) (actions a)
    (num_actions a) (T a) (prior_var a) (noise_var a) v (num_gradient_steps a)
    (batch_size a) (lr_decay a) (leaky_coeff a) (action_hist a)
    (model_reward_hist a).
Definition set_action_hist (v : mat) (a : ensemble) : ensemble :=
  Ensemble (M a) (W1_model_prior a) (W2_model_prior a) (W1 a) (W2 a) (actions a)
    (num_actions a) (T a) (prior_var a) (noise_var a) (lr a) (num_gradient_steps a)
    (batch_size a) (lr_decay a) (leaky_coeff a) v (model_reward_hist a).
Definition set_model_reward_hist (v : mat) (a : ensemble) : ensemble :=
  Ensemble (M a) (W1_model_prior a) (W2_model_prior a) (W1 a) (W2 a) (actions a)
    (num_actions a) (T a) (prior_var a) (noise_var a) (lr a) (num_gradient_steps a)
    (batch_size a) (lr_decay a) (leaky_coeff a) (action_hist a) v.

(** The array an attribute refers to.  An attribute always refers to a
    live array of its rank, so the default is never reached from a
    constructed agent. *)
Definition deref2 (h : store) (l : loc) : mat :=
  match h !! l with Some (Arr2 a) => a | _ => [] end.
Definition deref3 (h : store) (l : loc) : list mat :=
  match h !! l with Some (Arr3 a) => a | _ => [] end.

Definition cache : Type := mat * mat * mat.

(** [A[m, t] = x] *)
Definition setitem2 (A : mat) (m t : Z) (x : R) : result mat :=
  k ← np.index (length A) m;
  row ← np.getitem A m;
  row' ← setitem row t x;
  Ok (<[k := row']> A).

(** The body of [_model_forward]. *)
Definition forward (leaky_coeff : R) (W1 : list mat) (W2 : mat) (m : Z)
    (input_actions : mat) : result (vec * cache) :=
  w1m ← np.getitem W1 m;
  affine_out ← affine w1m input_actions;
  let relu_out := map (map (leaky_relu leaky_coeff)) affine_out in
  w2m ← np.getitem W2 m;
  t ← np.op2 Rmult relu_out [w2m];
  let out := map np.sum t in
  Ok (out, (input_actions, affine_out, relu_out)).

(** The body of [_model_backward]. *)
Definition backward (noise_var leaky_coeff : R) (W2 : mat) (m : Z)
    (out : vec) (c : cache) (y : vec) : result (mat * vec) :=
  let '(input_actions, affine_out, relu_out) := c in
  s ← np.truediv 2 noise_var;
  d ← np.op1 Rminus y out;
  let dout := np.smul1 (- s) d in
  t ← np.op2 Rmult (np.newaxis dout) relu_out;
  let dW2 := np.sum_axis0 t in
  w2m ← np.getitem W2 m;
  drelu_out ← np.op2 Rmult (np.newaxis dout) [w2m];
  let mask := map (map (relu_mask leaky_coeff)) affine_out in
  daffine_out ← np.op2 Rmult mask drelu_out;
  dW1 ← np.dot (np.T daffine_out) input_actions;
  Ok (dW1, dW2).

Section Methods.
Context {G : Type} `{RandomSource G}.

(** A new array object. *)
Definition alloc (a : ndarray) : Py G store loc := fun w =>
  (Ok (length (self w)), World (self w ++ [a]) (gen w) (log w)).

(** [np.copy]: a new array object with the contents of the old one. *)
Definition np_copy (l : loc) : Py G store loc := fun w =>
  match self w !! l with
  | Some a => alloc a w
  | None => (Raise ValueError, w)
  end.

Definition __init__ (input_dim hidden_dim : Z) (actions : mat)
    (time_horizon : Z) (prior_var noise_var : R) (num_models : Z)
    (learning_rate : R) (num_gradient_steps batch_size : Z)
    (lr_decay leaky_coeff : R) : Py G store ensemble :=
  s1 ← lift (np.sqrt prior_var);
  _ ← lift (if (num_models <? 0)%Z || (hidden_dim <? 0)%Z || (input_dim <? 0)%Z
            then Raise ValueError else Ok tt);
  z1 ← rd.randn3 (Z.to_nat num_models) (Z.to_nat hidden_dim) (Z.to_nat input_dim);
  w1_prior ← alloc (Arr3 (map (np.smul2 s1) z1));
  s2 ← lift (np.sqrt prior_var);
  z2 ← rd.randn2 (Z.to_nat num_models) (Z.to_nat hidden_dim);
  w2_prior ← alloc (Arr2 (np.smul2 s2 z2));
  w1 ← np_copy w1_prior;
  w2 ← np_copy w2_prior;
  ah ← lift (np_zeros2 time_horizon input_dim);
  mrh ← lift (np_zeros2 num_models time_horizon);
  mret (Ensemble num_models w1_prior w2_prior w1 w2 actions
          (Z.of_nat (length actions)) time_horizon prior_var noise_var
          learning_rate num_gradient_steps batch_size lr_decay leaky_coeff
          ah mrh).

(** Attribute access. *)
Definition attr {A} (f : ensemble -> A) : Py G state A := get (fun s => f (obj s)).
Definition load2 (f : ensemble -> loc) : Py G state mat :=
  get (fun s => deref2 (heap s) (f (obj s))).
Definition load3 (f : ensemble -> loc) : Py G state (list mat) :=
  get (fun s => deref3 (heap s) (f (obj s))).
Definition write (f : ensemble -> loc) (a : ndarray) : Py G state unit :=
  modify (fun s => State (obj s) (<[f (obj s) := a]> (heap s))).
Definition set (f : ensemble -> ensemble) : Py G state unit :=
  modify (fun s => State (f (obj s)) (heap s)).

Definition _model_forward (m : Z) (input_actions : mat) : Py G state (vec * cache) :=
  w1 ← load3 W1; lc ← attr leaky_coeff; w2 ← load2 W2;
  lift (forward lc w1 w2 m input_actions).

Definition _model_backward (m : Z) (out : vec) (c : cache) (y : vec)
  : Py G state (mat * vec) :=
  nv ← attr noise_var; lc ← attr leaky_coeff; w2 ← load2 W2;
  lift (backward nv lc w2 m out c y).

(** One pass of the loop body of [_update_model]. *)
Definition gradient_step (m t : Z) : Py G state unit :=
  bs ← attr batch_size;
  batch_ind ← rd.randint_size (t + 1) bs;
  ah ← attr action_hist;
  action_batch ← lift (np.take ah batch_ind);
  mrh ← attr model_reward_hist;
  rh ← lift (np.getitem mrh m);
  reward_batch ← lift (np.take rh batch_ind);
  '(out, c) ← _model_forward m action_batch;
  '(dW1, dW2) ← _model_backward m out c reward_batch;
  dW1 ← lift (np.idiv2 dW1 bs);
  dW2 ← lift (np.idiv1 dW2 bs);
  pv ← attr prior_var;
  c1 ← lift (np.truediv 2 (pv * IZR (t + 1)));
  w1 ← load3 W1; w1m ← lift (np.getitem w1 m);
  w1p ← load3 W1_model_prior; w1pm ← lift (np.getitem w1p m);
  r1 ← lift (np.op2 Rminus w1m w1pm);
  dW1 ← lift (np.iop2 Rplus dW1 (np.smul2 c1 r1));
  c2 ← lift (np.truediv 2 (pv * IZR (t + 1)));
  w2 ← load2 W2; w2m ← lift (np.getitem w2 m);
  w2p ← load2 W2_model_prior; w2pm ← lift (np.getitem w2p m);
  r2 ← lift (np.op1 Rminus w2m w2pm);
  dW2 ← lift (np.iop1 Rplus dW2 (np.smul1 c2 r2));
  l ← attr lr;
  w1m' ← lift (np.iop2 Rminus w1m (np.smul2 l dW1));
  w1' ← lift (setitem w1 m w1m');
  _ ← write W1 (Arr3 w1');
  w2 ← load2 W2; w2m ← lift (np.getitem w2 m);
  l ← attr lr;
  w2m' ← lift (np.iop1 Rminus w2m (np.smul1 l dW2));
  w2' ← lift (setitem w2 m w2m');
  write W2 (Arr2 w2').

Definition _update_model (m t : Z) : Py G state unit :=
  n ← attr num_gradient_steps;
  for_ (np.range n) (fun i => gradient_step m t).

Definition update_observation (observation action : Z) (reward : R)
  : Py G state unit :=
  let t := observation in
  acts ← attr actions;
  a ← lift (np.getitem acts action);
  ah ← attr action_hist;
  ah' ← lift (setitem_row ah t a);
  _ ← set (set_action_hist ah');
  k ← attr M;
  _ ← for_ (np.range k) (fun m =>
    nv ← attr noise_var;
    s ← lift (np.sqrt nv);
    z ← rd.randn;
    let m_noise := s * z in
    mrh ← attr model_reward_hist;
    mrh' ← lift (setitem2 mrh m t (reward + m_noise));
    _ ← set (set_model_reward_hist mrh');
    _update_model m t);
  l ← attr lr; d ← attr lr_decay;
  set (set_lr (l * d)).

Definition pick_action (observation : Z) : Py G state Z :=
  k ← attr M;
  m ← rd.randint k;
  acts ← attr actions;
  '(model_out, _) ← _model_forward m acts;
  lift (np.argmax model_out).
End Methods.
End TwoLayerNNEnsembleSampling.

(** * Properties *)

(** ** Relations that every step of a method respects *)

Section Keeps.
Context {G S : Type} (R : relation (world G S)) `{!PreOrder R}.

(** [m] takes every world to an [R]-related one, whatever its outcome. *)
Definition keeps {A} (m : Py G S A) : Prop := forall w, R w (snd (m w)).

Lemma keeps_ret {A} (a : A) : keeps (mret a).
Proof. intros w. reflexivity. Qed.

Lemma keeps_lift {A} (r : result A) : keeps (lift r).
Proof. intros w. reflexivity. Qed.

Lemma keeps_get {A} (f : S -> A) : keeps (get f).
Proof. intros w. reflexivity. Qed.

Lemma keeps_bind {A B} (m : Py G S A) (f : A -> Py G S B) :
  keeps m -> (forall a, keeps (f a)) -> keeps (m ≫= f).
Proof.
  intros Hm Hf w. unfold mbind, Py_bind.
  specialize (Hm w). destruct (m w) as [[a|e|] w1]; simpl in *; auto.
  etransitivity; [exact Hm|apply Hf].
Qed.

Lemma keeps_for {A} (l : list A) (body : A -> Py G S unit) :
  (forall x, keeps (body x)) -> keeps (for_ l body).
Proof.
  intros Hb. induction l as [|x l IH]; simpl.
  - apply keeps_ret.
  - apply keeps_bind; auto.
Qed.

Lemma keeps_replicateM {A} (n : nat) (m : Py G S A) :
  keeps m -> keeps (replicateM n m).
Proof.
  intros Hm. induction n as [|n IH]; simpl.
  - apply keeps_ret.
  - apply keeps_bind; [exact Hm|]. intros a.
    apply keeps_bind; [exact IH|]. intros l. apply keeps_ret.
Qed.
End Keeps.

(** Structural descent through a method body, leaving the primitive steps
    (draws and attribute writes) as goals. *)
Ltac keeps_step :=
  lazymatch goal with
  | |- keeps _ (mret _) => apply keeps_ret
  | |- keeps _ (lift _) => apply keeps_lift
  | |- keeps _ (get _) => apply keeps_get
  | |- keeps _ (_ ≫= _) => apply keeps_bind; [..|intros ?]
  | |- keeps _ (for_ _ _) => apply keeps_for; [..|intros ?]
  | |- keeps _ (replicateM _ _) => apply keeps_replicateM
  | |- PreOrder _ => apply _
  | |- keeps _ (let '(_, _) := ?x in _) => destruct x
  | |- keeps _ (if ?b then _ else _) => destruct b
  | |- keeps _ (match ?x with _ => _ end) => destruct x
  end.
Ltac keeps_auto := repeat keeps_step.

(** ** Relations on the agent object alone

    A draw changes the generator and the log, never the object; an attribute
    write changes the object alone. *)

Section OnSelf.
Context {G : Type} `{RandomSource G} {S : Type} (Q : relation S) `{!PreOrder Q}.

Definition on_self : relation (world G S) := fun w w' => Q (self w) (self w').

#[global] Instance on_self_preorder : PreOrder on_self.
Proof.
  split.
  - intros w. unfold on_self. reflexivity.
  - intros a b c H1 H2. unfold on_self in *. etransitivity; eauto.
Qed.

Lemma rand_on_self : keeps on_self rd.rand.
Proof.
  intros w. unfold rd.rand, on_self. destruct (next_rand (gen w)). reflexivity.
Qed.

Lemma randn_on_self : keeps on_self rd.randn.
Proof.
  intros w. unfold rd.randn, on_self. destruct (next_randn (gen w)). reflexivity.
Qed.

Lemma randint_on_self high : keeps on_self (rd.randint high).
Proof.
  intros w. unfold rd.randint, on_self. destruct (0 <? high)%Z; [|reflexivity].
  destruct (next_randint high (gen w)). reflexivity.
Qed.

Lemma randint_size_on_self high size : keeps on_self (rd.randint_size high size).
Proof.
  unfold rd.randint_size. destruct (size <? 0)%Z.
  - apply keeps_lift; apply _.
  - apply keeps_replicateM; [apply _|apply randint_on_self].
Qed.

Lemma rand2_on_self rows cols : keeps on_self (rd.rand2 rows cols).
Proof.
  unfold rd.rand2.
  apply keeps_replicateM; [apply _|].
  apply keeps_replicateM; [apply _|apply rand_on_self].
Qed.

Lemma modify_on_self (f : S -> S) : (forall s, Q s (f s)) -> keeps on_self (modify f).
Proof. intros Hf w. unfold modify, on_self. simpl. apply Hf. Qed.
End OnSelf.

(** The draws, for a relation on the object alone. *)
Ltac keeps_draw :=
  lazymatch goal with
  | |- keeps (on_self _) rd.rand => apply rand_on_self
  | |- keeps (on_self _) rd.randn => apply randn_on_self
  | |- keeps (on_self _) (rd.randint _) => apply randint_on_self
  | |- keeps (on_self _) (rd.randint_size _ _) => apply randint_size_on_self
  | |- keeps (on_self _) (rd.rand2 _ _) => apply rand2_on_self
  | |- PreOrder _ => apply _
  end.
Ltac keeps_on_self := repeat first [keeps_step | keeps_draw].

(** Both virtual methods of a class respect [R]. *)
Definition klass_keeps {G} (R : relation (world G agent)) (k : klass G) : Prop :=
  (forall X, keeps R (model_forward k X)) /\
  (forall out c y, keeps R (model_backward k out c y)).

Section ReadOnlyMethods.
Context {G : Type} `{RandomSource G} (Q : relation agent) `{!PreOrder Q}.

Lemma epsilon_greedy_forward_on_self X :
  keeps (G:=G) (on_self Q) (TwoLayerNNEpsilonGreedy._model_forward X).
Proof. unfold TwoLayerNNEpsilonGreedy._model_forward. keeps_auto. Qed.

Lemma epsilon_greedy_backward_on_self out c y :
  keeps (G:=G) (on_self Q) (TwoLayerNNEpsilonGreedy._model_backward out c y).
Proof. unfold TwoLayerNNEpsilonGreedy._model_backward. keeps_auto. Qed.

Lemma dropout_forward_on_self X :
  keeps (G:=G) (on_self Q) (TwoLayerNNDropout._model_forward X).
Proof.
  unfold TwoLayerNNDropout._model_forward, TwoLayerNNDropout.draw_mask.
  keeps_on_self.
Qed.

Lemma dropout_backward_on_self out c y :
  keeps (G:=G) (on_self Q) (TwoLayerNNDropout._model_backward out c y).
Proof. unfold TwoLayerNNDropout._model_backward. keeps_auto. Qed.

Lemma epsilon_greedy_class_on_self :
  klass_keeps (on_self Q) (TwoLayerNNEpsilonGreedy.class (G:=G)).
Proof.
  split; simpl; auto using epsilon_greedy_forward_on_self,
    epsilon_greedy_backward_on_self.
Qed.

Lemma dropout_class_on_self :
  klass_keeps (on_self Q) (TwoLayerNNDropout.class (G:=G)).
Proof.
  split; simpl; auto using dropout_forward_on_self, dropout_backward_on_self.
Qed.

Lemma epsilon_greedy_pick_on_self obs :
  keeps (G:=G) (on_self Q) (TwoLayerNNEpsilonGreedy.pick_action obs).
Proof.
  unfold TwoLayerNNEpsilonGreedy.pick_action. keeps_on_self;
    apply epsilon_greedy_forward_on_self.
Qed.

Lemma annealing_pick_on_self obs :
  keeps (G:=G) (on_self Q) (TwoLayerNNEpsilonGreedyAnnealing.pick_action obs).
Proof.
  unfold TwoLayerNNEpsilonGreedyAnnealing.pick_action. keeps_on_self;
    apply epsilon_greedy_forward_on_self.
Qed.

Lemma dropout_pick_on_self obs :
  keeps (G:=G) (on_self Q) (TwoLayerNNDropout.pick_action obs).
Proof.
  unfold TwoLayerNNDropout.pick_action. keeps_auto;
    auto using dropout_forward_on_self.
Qed.
End ReadOnlyMethods.

Section EnsembleReadOnlyMethods.
Context {G : Type} `{RandomSource G}
  (Q : relation TwoLayerNNEnsembleSampling.state) `{!PreOrder Q}.

Lemma ensemble_forward_on_self m X :
  keeps (G:=G) (on_self Q) (TwoLayerNNEnsembleSampling._model_forward m X).
Proof.
  unfold TwoLayerNNEnsembleSampling._model_forward,
    TwoLayerNNEnsembleSampling.attr, TwoLayerNNEnsembleSampling.load2,
    TwoLayerNNEnsembleSampling.load3.
  keeps_auto.
Qed.

Lemma ensemble_backward_on_self m out c y :
  keeps (G:=G) (on_self Q) (TwoLayerNNEnsembleSampling._model_backward m out c y).
Proof.
  unfold TwoLayerNNEnsembleSampling._model_backward,
    TwoLayerNNEnsembleSampling.attr, TwoLayerNNEnsembleSampling.load2.
  keeps_auto.
Qed.

Lemma ensemble_pick_on_self obs :
  keeps (G:=G) (on_self Q) (TwoLayerNNEnsembleSampling.pick_action obs).
Proof.
  unfold TwoLayerNNEnsembleSampling.pick_action, TwoLayerNNEnsembleSampling.attr.
  keeps_on_self; apply ensemble_forward_on_self.
Qed.
End EnsembleReadOnlyMethods.

(** C9.  [pick_action] of every agent class leaves the agent object as it
    found it, whatever it returns or raises: the weights, the ensemble's
    priors (the whole array store), the history buffers and the learning rate
    are the same before and after; only the generator (and the log of its
    draws) moves. *)
Theorem pick_action_leaves_agent_unchanged :
  forall (G : Type) (RS : RandomSource G) (observation : Z),
    (forall w : world G agent,
       self (snd (TwoLayerNNEpsilonGreedy.pick_action observation w)) = self w) /\
    (forall w : world G agent,
       self (snd (TwoLayerNNEpsilonGreedyAnnealing.pick_action observation w)) = self w) /\
    (forall w : world G agent,
       self (snd (TwoLayerNNDropout.pick_action observation w)) = self w) /\
    (forall w : world G TwoLayerNNEnsembleSampling.state,
       self (snd (TwoLayerNNEnsembleSampling.pick_action observation w)) = self w).
Proof.
  intros G RS obs. repeat split; intros w; symmetry.
  - apply (epsilon_greedy_pick_on_self eq obs w).
  - apply (annealing_pick_on_self eq obs w).
  - apply (dropout_pick_on_self eq obs w).
  - apply (ensemble_pick_on_self eq obs w).
Qed.

(** ** Postconditions of a run *)

Section Wp.
Context {G S : Type}.

(** [wp m post w]: running [m] from [w] ends in an outcome and a world that
    satisfy [post]. *)
Definition wp {A} (m : Py G S A) (post : result A -> world G S -> Prop)
    (w : world G S) : Prop :=
  post (fst (m w)) (snd (m w)).

(** What [m] must establish for [m ≫= f] to establish [post]: an exception
    (or [Nan]) ends the method at once. *)
Definition bind_post {A B} (f : A -> Py G S B) (post : result B -> world G S -> Prop)
    : result A -> world G S -> Prop :=
  fun r w =>
    match r with
    | Ok a => wp (f a) post w
    | Raise e => post (Raise e) w
    | Nan => post Nan w
    end.

Lemma wp_bind {A B} (m : Py G S A) (f : A -> Py G S B) post w :
  wp m (bind_post f post) w -> wp (m ≫= f) post w.
Proof.
  unfold wp, bind_post, mbind, Py_bind.
  destruct (m w) as [[a|e|] w1]; simpl; auto.
Qed.

Lemma wp_ret {A} (a : A) (post : result A -> world G S -> Prop) w :
  post (Ok a) w -> wp (mret a) post w.
Proof. auto. Qed.

Lemma wp_lift {A} (r : result A) (post : result A -> world G S -> Prop) w :
  post r w -> wp (lift r) post w.
Proof. auto. Qed.

Lemma wp_get {A} (f : S -> A) (post : result A -> world G S -> Prop) w :
  post (Ok (f (self w))) w -> wp (get f) post w.
Proof. auto. Qed.

Lemma wp_modify (f : S -> S) (post : result unit -> world G S -> Prop) w :
  post (Ok tt) (World (f (self w)) (gen w) (log w)) -> wp (modify f) post w.
Proof. auto. Qed.

Lemma wp_mono {A} (m : Py G S A) (post post' : result A -> world G S -> Prop) w :
  wp m post w -> (forall r w1, post r w1 -> post' r w1) -> wp m post' w.
Proof. unfold wp. auto. Qed.

Lemma wp_keeps {A} (R : relation (world G S)) (m : Py G S A)
    (post : result A -> world G S -> Prop) w :
  keeps R m -> (forall r w1, R w w1 -> post r w1) -> wp m post w.
Proof. unfold wp. intros Hk Hp. apply Hp, Hk. Qed.

Lemma wp_run {A} (m : Py G S A) (post : result A -> world G S -> Prop) w r w1 :
  m w = (r, w1) -> post r w1 -> wp m post w.
Proof. unfold wp. intros ->. auto. Qed.

Lemma wp_elim {A} (m : Py G S A) (post : result A -> world G S -> Prop) w r w1 :
  wp m post w -> m w = (r, w1) -> post r w1.
Proof. unfold wp. intros Hp E. rewrite E in Hp. exact Hp. Qed.
End Wp.

(** One step of symbolic execution through binds and the state primitives. *)
Ltac wp_step :=
  lazymatch goal with
  | |- wp (_ ≫= _) _ _ => apply wp_bind
  | |- wp (mret _) _ _ => apply wp_ret
  | |- wp (get _) _ _ => apply wp_get
  | |- wp (modify _) _ _ => apply wp_modify
  | |- wp (lift (Ok _)) _ _ => apply wp_lift
  | |- bind_post _ _ (Ok _) _ => unfold bind_post at 1; cbv beta iota
  | |- wp (let '(_, _) := ?x in _) _ _ => destruct x
  end.
Ltac wp_steps := repeat wp_step.

(** ** What an update may change *)

(** [s'] differs from [s] at most in [W1] and [W2]. *)
Definition only_weights : relation agent :=
  fun s s' => s' = set_W1 (W1 s') (set_W2 (W2 s') s).

#[global] Instance only_weights_preorder : PreOrder only_weights.
Proof.
  split.
  - intros [ ]. reflexivity.
  - intros a b c Hab Hbc. unfold only_weights in *.
    rewrite Hbc. rewrite Hab. reflexivity.
Qed.

Section UpdateFrame.
Context {G : Type} `{RandomSource G}.

Lemma gradient_step_only_weights (k : klass G) t :
  klass_keeps (on_self only_weights) k ->
  keeps (on_self only_weights) (TwoLayerNNEpsilonGreedy.gradient_step k t).
Proof.
  intros [Hf Hb]. unfold TwoLayerNNEpsilonGreedy.gradient_step.
  keeps_on_self; auto;
    apply modify_on_self; intros [ ]; reflexivity.
Qed.

Lemma update_model_only_weights (k : klass G) t :
  klass_keeps (on_self only_weights) k ->
  keeps (on_self only_weights) (TwoLayerNNEpsilonGreedy._update_model k t).
Proof.
  intros Hk. unfold TwoLayerNNEpsilonGreedy._update_model.
  keeps_auto. apply gradient_step_only_weights, Hk.
Qed.
End UpdateFrame.

(** Case analysis on the outcome of a pure step. *)
Ltac wp_lift_cases :=
  lazymatch goal with
  | |- wp (lift ?r) _ _ =>
      apply wp_lift; let E := fresh "E" in
      destruct r as [?|?|] eqn:E; unfold bind_post at 1; cbv beta iota
  end.

Section LearningRate.
Context {G : Type} `{RandomSource G}.

Lemma only_weights_lr (s s' : agent) :
  only_weights s s' -> lr s' = lr s /\ lr_decay s' = lr_decay s.
Proof. intros ->. split; reflexivity. Qed.

Lemma update_observation_lr (k : klass G) observation action reward w :
  klass_keeps (on_self only_weights) k ->
  wp (TwoLayerNNEpsilonGreedy.update_observation k observation action reward)
     (fun res w' =>
        lr (self w') = match res with
                       | Ok _ => lr (self w) * lr_decay (self w)
                       | _ => lr (self w)
                       end) w.
Proof.
  intros Hk. unfold TwoLayerNNEpsilonGreedy.update_observation.
  wp_steps. wp_lift_cases; [|reflexivity..].
  wp_steps. wp_lift_cases; [|reflexivity..].
  wp_steps. wp_lift_cases; [|reflexivity..].
  wp_steps.
  apply (wp_keeps (on_self only_weights));
    [apply update_model_only_weights, Hk|].
  intros r w1 HR. apply only_weights_lr in HR as [Hlr Hd]. simpl in Hlr, Hd.
  destruct r; unfold bind_post; [|exact Hlr..].
  wp_steps. simpl. rewrite Hlr, Hd. reflexivity.
Qed.
End LearningRate.

(** ** What an update draws *)

Section DrawsIn.
Context {G : Type} `{RandomSource G} {S : Type} (P : draw -> Prop).

(** The draws made between [w] and [w'] all satisfy [P]. *)
Definition draws_in : relation (world G S) :=
  fun w w' => exists new, log w' = new ++ log w /\ Forall P new.

#[global] Instance draws_in_preorder : PreOrder draws_in.
Proof.
  split.
  - intros w. exists []. split; [reflexivity|constructor].
  - intros a b c (n1 & E1 & F1) (n2 & E2 & F2). exists (n2 ++ n1). split.
    + rewrite E2, E1. apply app_assoc.
    + apply Forall_app. split; assumption.
Qed.

Lemma modify_draws_in (f : S -> S) : keeps draws_in (modify f).
Proof. intros w. exists []. split; [reflexivity|constructor]. Qed.

Lemma rand_draws_in :
  (forall u, 0 <= u < 1 -> P (Uniform u)) -> keeps draws_in rd.rand.
Proof.
  intros HP w. unfold rd.rand. pose proof (next_rand_range (gen w)) as Hr.
  destruct (next_rand (gen w)) as [u g]. exists [Uniform u]. split; [reflexivity|].
  repeat constructor. apply HP, Hr.
Qed.

Lemma randn_draws_in : (forall z, P (Normal z)) -> keeps draws_in rd.randn.
Proof.
  intros HP w. unfold rd.randn. destruct (next_randn (gen w)) as [z g].
  exists [Normal z]. split; [reflexivity|]. repeat constructor. apply HP.
Qed.

Lemma randint_draws_in high :
  (forall v, (0 <= v < high)%Z -> P (Integer high v)) ->
  keeps draws_in (rd.randint high).
Proof.
  intros HP w. unfold rd.randint. destruct (0 <? high)%Z eqn:Hh.
  - pose proof (next_randint_range high (gen w)) as Hr.
    destruct (next_randint high (gen w)) as [v g]. exists [Integer high v].
    split; [reflexivity|]. repeat constructor. apply HP, Hr. lia.
  - exists []. split; [reflexivity|constructor].
Qed.

Lemma randint_size_draws_in high size :
  (forall v, (0 <= v < high)%Z -> P (Integer high v)) ->
  keeps draws_in (rd.randint_size high size).
Proof.
  intros HP. unfold rd.randint_size. destruct (size <? 0)%Z.
  - apply keeps_lift; apply _.
  - apply keeps_replicateM; [apply _|apply randint_draws_in, HP].
Qed.

Lemma rand2_draws_in rows cols :
  (forall u, 0 <= u < 1 -> P (Uniform u)) -> keeps draws_in (rd.rand2 rows cols).
Proof.
  intros HP. unfold rd.rand2.
  apply keeps_replicateM; [apply _|].
  apply keeps_replicateM; [apply _|apply rand_draws_in, HP].
Qed.
End DrawsIn.

(** A draw that an update at time [t] may make: a minibatch index is drawn
    below [t + 1], so it is one of [0 .. t]. *)
Definition minibatch_draw (t : Z) (d : draw) : Prop :=
  match d with
  | Integer high v => high = (t + 1)%Z /\ (0 <= v <= t)%Z
  | Uniform u => 0 <= u < 1
  | Normal z => True
  end.

Ltac keeps_minibatch :=
  repeat first
    [ keeps_step
    | lazymatch goal with
      | |- keeps (draws_in _) (modify _) => apply modify_draws_in
      | |- keeps (draws_in _) (rd.randint_size _ _) =>
          apply randint_size_draws_in; intros ? ?; simpl; lia
      | |- keeps (draws_in _) (rd.rand2 _ _) =>
          apply rand2_draws_in; intros ? ?; simpl; assumption
      | |- keeps (draws_in _) rd.randn =>
          apply randn_draws_in; intros ?; exact I
      end ].

Section MinibatchIndices.
Context {G : Type} `{RandomSource G}.

Lemma single_update_draws (k : klass G) t action reward :
  klass_keeps (draws_in (minibatch_draw t)) k ->
  keeps (draws_in (minibatch_draw t))
    (TwoLayerNNEpsilonGreedy.update_observation k t action reward).
Proof.
  intros [Hf Hb].
  unfold TwoLayerNNEpsilonGreedy.update_observation,
    TwoLayerNNEpsilonGreedy._update_model, TwoLayerNNEpsilonGreedy.gradient_step.
  keeps_minibatch; auto.
Qed.

Lemma epsilon_greedy_class_draws t :
  klass_keeps (draws_in (minibatch_draw t)) (TwoLayerNNEpsilonGreedy.class (G:=G)).
Proof.
  split; simpl; intros;
    unfold TwoLayerNNEpsilonGreedy._model_forward,
      TwoLayerNNEpsilonGreedy._model_backward; keeps_minibatch.
Qed.

Lemma dropout_class_draws t :
  klass_keeps (draws_in (minibatch_draw t)) (TwoLayerNNDropout.class (G:=G)).
Proof.
  split; simpl; intros;
    unfold TwoLayerNNDropout._model_forward, TwoLayerNNDropout.draw_mask,
      TwoLayerNNDropout._model_backward; keeps_minibatch.
Qed.

Lemma ensemble_update_draws t action reward :
  keeps (G:=G) (draws_in (minibatch_draw t))
    (TwoLayerNNEnsembleSampling.update_observation t action reward).
Proof.
  unfold TwoLayerNNEnsembleSampling.update_observation,
    TwoLayerNNEnsembleSampling._update_model,
    TwoLayerNNEnsembleSampling.gradient_step,
    TwoLayerNNEnsembleSampling._model_forward,
    TwoLayerNNEnsembleSampling._model_backward,
    TwoLayerNNEnsembleSampling.attr, TwoLayerNNEnsembleSampling.load2,
    TwoLayerNNEnsembleSampling.load3, TwoLayerNNEnsembleSampling.write,
    TwoLayerNNEnsembleSampling.set.
  keeps_minibatch.
Qed.
End MinibatchIndices.

(** C4.  Whatever the state, the arguments and the outcome of
    [update_observation] at time [t], every integer the call draws from the
    random source is drawn below [t + 1] and lies in [0 .. t].  These draws
    are the minibatch indices of every inner gradient step (of every
    ensemble member): the methods make no other integer draw. *)
Theorem minibatch_indices_within_observed_steps :
  forall (G : Type) (RS : RandomSource G) (t action : Z) (reward : R),
    let in_range (d : draw) :=
      match d with Integer high v => high = (t + 1)%Z /\ (0 <= v <= t)%Z | _ => True end in
    (forall w : world G agent,
       exists new,
         log (snd (TwoLayerNNEpsilonGreedy.update_observation
                     TwoLayerNNEpsilonGreedy.class t action reward w)) = new ++ log w /\
         Forall in_range new) /\
    (forall w : world G agent,
       exists new,
         log (snd (TwoLayerNNEpsilonGreedy.update_observation
                     TwoLayerNNDropout.class t action reward w)) = new ++ log w /\
         Forall in_range new) /\
    (forall w : world G TwoLayerNNEnsembleSampling.state,
       exists new,
         log (snd (TwoLayerNNEnsembleSampling.update_observation t action reward w))
           = new ++ log w /\
         Forall in_range new).
Proof.
  intros G RS t action reward in_range.
  assert (Hweak : forall d, minibatch_draw t d -> in_range d).
  { intros [u|z|high v]; simpl; auto. }
  repeat split; intros w.
  - destruct (single_update_draws _ t action reward (epsilon_greedy_class_draws t) w)
      as (new & E & F).
    exists new. split; [exact E|]. eapply Forall_impl; eauto.
  - destruct (single_update_draws _ t action reward (dropout_class_draws t) w)
      as (new & E & F).
    exists new. split; [exact E|]. eapply Forall_impl; eauto.
  - destruct (ensemble_update_draws t action reward w) as (new & E & F).
    exists new. split; [exact E|]. eapply Forall_impl; eauto.
Qed.

(** ** The ensemble's priors *)

Module ES := TwoLayerNNEnsembleSampling.

(** The four array attributes refer to the same objects in [o] and [o']. *)
Definition same_refs (o o' : ES.ensemble) : Prop :=
  ES.W1 o' = ES.W1 o /\ ES.W2 o' = ES.W2 o /\
  ES.W1_model_prior o' = ES.W1_model_prior o /\
  ES.W2_model_prior o' = ES.W2_model_prior o.

(** Between [s] and [s'] no attribute was rebound to another array and no
    array other than the two that [W1] and [W2] refer to was written. *)
Definition writes_live_only : relation ES.state :=
  fun s s' =>
    same_refs (ES.obj s) (ES.obj s') /\
    forall l, l <> ES.W1 (ES.obj s) -> l <> ES.W2 (ES.obj s) ->
              ES.heap s' !! l = ES.heap s !! l.

#[global] Instance writes_live_only_preorder : PreOrder writes_live_only.
Proof.
  split.
  - intros s. repeat split; auto.
  - intros a b c [(A1 & A2 & A3 & A4) Ha] [(B1 & B2 & B3 & B4) Hb].
    split; [repeat split; congruence|].
    intros l H1 H2. rewrite Hb, Ha by congruence. reflexivity.
Qed.


Section EnsemblePriors.
Context {G : Type} `{RandomSource G}.







End EnsemblePriors.

(** ** Shapes *)

Definition shape2 (n m : nat) (X : mat) : Prop :=
  length X = n /\ Forall (fun r => length r = m) X.
Definition shape3 (k n m : nat) (X : list mat) : Prop :=
  length X = k /\ Forall (shape2 n m) X.

(** ** Draws always return *)

Section Yields.
Context {G : Type} `{RandomSource G} {S : Type}.

(** [m] returns a value satisfying [P] and leaves the object alone. *)
Definition yields {A} (P : A -> Prop) (m : Py G S A) : Prop :=
  forall w, exists a w', m w = (Ok a, w') /\ self w' = self w /\ P a.

Lemma yields_rand : yields (fun u => 0 <= u < 1) rd.rand.
Proof.
  intros w. unfold rd.rand. pose proof (next_rand_range (gen w)) as Hr.
  destruct (next_rand (gen w)) as [u g]. eauto.
Qed.

Lemma yields_randn : yields (fun _ => True) rd.randn.
Proof.
  intros w. unfold rd.randn. destruct (next_randn (gen w)) as [z g]. eauto.
Qed.

Lemma yields_randint high :
  (0 < high)%Z -> yields (fun v => (0 <= v < high)%Z) (rd.randint high).
Proof.
  intros Hh w. unfold rd.randint.
  destruct (0 <? high)%Z eqn:E; [|lia].
  pose proof (next_randint_range high (gen w) Hh) as Hr.
  destruct (next_randint high (gen w)) as [v g]. eauto.
Qed.

Lemma yields_replicateM {A} (P : A -> Prop) n (m : Py G S A) :
  yields P m -> yields (fun l => length l = n /\ Forall P l) (replicateM n m).
Proof.
  intros Hm. induction n as [|n IH]; intros w; simpl.
  - exists [], w. repeat split; auto.
  - unfold mbind, Py_bind.
    destruct (Hm w) as (a & w1 & E1 & S1 & P1). rewrite E1.
    destruct (IH w1) as (l & w2 & E2 & S2 & L2 & P2). rewrite E2.
    exists (a :: l), w2. simpl. repeat split; auto; congruence.
Qed.

Lemma yields_randint_size high size :
  (0 < high)%Z -> (0 <= size)%Z ->
  yields (fun l => length l = Z.to_nat size /\ Forall (fun v => (0 <= v < high)%Z) l)
    (rd.randint_size high size).
Proof.
  intros Hh Hs. unfold rd.randint_size.
  destruct (size <? 0)%Z eqn:E; [lia|].
  apply yields_replicateM, yields_randint, Hh.
Qed.

Lemma yields_impl {A} (P P' : A -> Prop) (m : Py G S A) :
  yields P m -> (forall a, P a -> P' a) -> yields P' m.
Proof.
  intros Hm HP w. destruct (Hm w) as (a & w' & E & Hs & Pa). eauto 6.
Qed.

Lemma yields_rand2 rows cols :
  yields (fun u => shape2 rows cols u /\ Forall (Forall (fun x => 0 <= x < 1)) u)
    (rd.rand2 rows cols).
Proof.
  unfold rd.rand2. eapply yields_impl.
  - apply yields_replicateM, yields_replicateM, yields_rand.
  - simpl. intros u [Hl Hu]. split; [split; [exact Hl|]|].
    + eapply Forall_impl; [exact Hu|]. simpl. intros r [Hr _]. exact Hr.
    + eapply Forall_impl; [exact Hu|]. simpl. intros r [_ Hr]. exact Hr.
Qed.

Lemma yields_randn1 n : yields (fun z => length z = n) (rd.randn1 n).
Proof.
  unfold rd.randn1. eapply yields_impl.
  - apply yields_replicateM, yields_randn.
  - simpl. intros z [Hl _]. exact Hl.
Qed.

Lemma yields_randn2 rows cols : yields (shape2 rows cols) (rd.randn2 rows cols).
Proof.
  unfold rd.randn2. eapply yields_impl.
  - apply yields_replicateM, yields_randn1.
  - simpl. intros z Hz. exact Hz.
Qed.

Lemma yields_randn3 k rows cols :
  yields (shape3 k rows cols) (rd.randn3 k rows cols).
Proof.
  unfold rd.randn3. eapply yields_impl.
  - apply yields_replicateM, yields_randn2.
  - simpl. intros z Hz. exact Hz.
Qed.

Lemma wp_yields {A} (P : A -> Prop) (m : Py G S A)
    (post : result A -> world G S -> Prop) w :
  yields P m ->
  (forall a w', self w' = self w -> P a -> post (Ok a) w') ->
  wp m post w.
Proof.
  intros Hm Hp. unfold wp. destruct (Hm w) as (a & w' & E & Hs & Pa).
  rewrite E. simpl. auto.
Qed.
End Yields.

Lemma shape2_smul2 n m c X : shape2 n m X -> shape2 n m (np.smul2 c X).
Proof.
  intros [Hl Hr]. unfold np.smul2, np.smul1. split.
  - rewrite length_fmap. exact Hl.
  - apply Forall_fmap. eapply Forall_impl; [exact Hr|].
    simpl. intros r Hlen. rewrite length_fmap. exact Hlen.
Qed.

Lemma shape3_smul k n m c X :
  shape3 k n m X -> shape3 k n m (map (np.smul2 c) X).
Proof.
  intros [Hl Hr]. split.
  - rewrite length_fmap. exact Hl.
  - apply Forall_fmap. eapply Forall_impl; [exact Hr|].
    simpl. intros r Hs. apply shape2_smul2, Hs.
Qed.

Lemma shape2_replicate n m (x : vec) : length x = m -> shape2 n m (replicate n x).
Proof.
  intros Hx. split; [apply length_replicate|].
  apply Forall_replicate. exact Hx.
Qed.

Lemma np_zeros2_ok n m :
  (0 <= n)%Z -> (0 <= m)%Z ->
  exists Z0, np_zeros2 n m = Ok Z0 /\ shape2 (Z.to_nat n) (Z.to_nat m) Z0.
Proof.
  intros Hn Hm. unfold np_zeros2.
  destruct (n <? 0)%Z eqn:E1; [lia|]. destruct (m <? 0)%Z eqn:E2; [lia|].
  simpl. eexists. split; [reflexivity|].
  apply shape2_replicate. apply length_replicate.
Qed.

Lemma np_sqrt_ok x : 0 <= x -> np.sqrt x = Ok (sqrt x).
Proof. intros Hx. unfold np.sqrt. destruct (Rlt_dec x 0); [lra|reflexivity]. Qed.

Section EnsembleInit.
Context {G : Type} `{RandomSource G}.

Lemma wp_alloc a (post : result ES.loc -> world G ES.store -> Prop) w :
  post (Ok (length (self w))) (World (self w ++ [a]) (gen w) (log w)) ->
  wp (ES.alloc a) post w.
Proof. auto. Qed.

Lemma wp_np_copy l a (post : result ES.loc -> world G ES.store -> Prop) w :
  self w !! l = Some a ->
  post (Ok (length (self w))) (World (self w ++ [a]) (gen w) (log w)) ->
  wp (ES.np_copy l) post w.
Proof. intros Hl Hp. unfold wp, ES.np_copy. rewrite Hl. exact Hp. Qed.

(** What the constructor returns and leaves in the store: four new arrays
    behind the arrays [h0] that were there, the two live ones with the
    contents of the two priors. *)
Lemma ensemble_init_spec input_dim hidden_dim acts time_horizon pv nv num_models
    learning_rate n_steps bs decay lc (h0 : ES.store) (g : G) (l0 : list draw) :
  0 <= pv -> (0 <= num_models)%Z -> (0 <= hidden_dim)%Z -> (0 <= input_dim)%Z ->
  (0 <= time_horizon)%Z ->
  exists p1 p2 ah mrh g' l',
    ES.__init__ input_dim hidden_dim acts time_horizon pv nv num_models
      learning_rate n_steps bs decay lc (World h0 g l0)
    = (Ok (ES.Ensemble num_models (length h0) (1 + length h0)
             (2 + length h0) (3 + length h0) acts (Z.of_nat (length acts))
             time_horizon pv nv learning_rate n_steps bs decay lc ah mrh),
       World (h0 ++ [ES.Arr3 p1; ES.Arr2 p2; ES.Arr3 p1; ES.Arr2 p2]) g' l') /\
    shape3 (Z.to_nat num_models) (Z.to_nat hidden_dim) (Z.to_nat input_dim) p1 /\
    shape2 (Z.to_nat num_models) (Z.to_nat hidden_dim) p2 /\
    shape2 (Z.to_nat time_horizon) (Z.to_nat input_dim) ah /\
    shape2 (Z.to_nat num_models) (Z.to_nat time_horizon) mrh.
Proof.
  intros Hpv HM HH HD HT.
  destruct (np_zeros2_ok time_horizon input_dim HT HD) as (ah & Eah & Sah).
  destruct (np_zeros2_ok num_models time_horizon HM HT) as (mrh & Emrh & Smrh).
  set (w0 := World h0 g l0).
  cut (wp (ES.__init__ input_dim hidden_dim acts time_horizon pv nv num_models
             learning_rate n_steps bs decay lc)
          (fun r w1 => exists p1 p2,
             r = Ok (ES.Ensemble num_models (length h0) (1 + length h0)
                       (2 + length h0) (3 + length h0) acts (Z.of_nat (length acts))
                       time_horizon pv nv learning_rate n_steps bs decay lc ah mrh) /\
             self w1 = h0 ++ [ES.Arr3 p1; ES.Arr2 p2; ES.Arr3 p1; ES.Arr2 p2] /\
             shape3 (Z.to_nat num_models) (Z.to_nat hidden_dim) (Z.to_nat input_dim) p1 /\
             shape2 (Z.to_nat num_models) (Z.to_nat hidden_dim) p2) w0).
  { unfold wp. destruct (ES.__init__ _ _ _ _ _ _ _ _ _ _ _ _ w0) as [r [h1 g' l']].
    simpl. intros (p1 & p2 & -> & -> & S1 & S2).
    exists p1, p2, ah, mrh, g', l'. auto. }
  unfold ES.__init__. rewrite np_sqrt_ok by exact Hpv.
  replace ((num_models <? 0)%Z || (hidden_dim <? 0)%Z || (input_dim <? 0)%Z)
    with false
    by (destruct (num_models <? 0)%Z eqn:E1, (hidden_dim <? 0)%Z eqn:E2,
          (input_dim <? 0)%Z eqn:E3; simpl; auto; lia).
  rewrite Eah, Emrh.
  wp_steps. eapply wp_yields; [apply yields_randn3|].
  intros z1 wa Ha Sz1. wp_steps. apply wp_alloc. wp_steps.
  eapply wp_yields; [apply yields_randn2|].
  intros z2 wb Hb Sz2. wp_steps. apply wp_alloc. wp_steps.
  simpl in Hb. rewrite Hb, Ha. simpl.
  eapply wp_np_copy.
  { simpl. rewrite <- app_assoc. simpl. apply list_lookup_middle. reflexivity. }
  wp_steps. simpl. eapply wp_np_copy.
  { simpl. rewrite <- !app_assoc. simpl.
    change (h0 ++ ?a :: ?b :: ?c) with (h0 ++ [a] ++ b :: c).
    rewrite app_assoc. apply list_lookup_middle.
    rewrite length_app. simpl. lia. }
  wp_steps. simpl.
  exists (map (np.smul2 (sqrt pv)) z1), (np.smul2 (sqrt pv) z2).
  rewrite !length_app. simpl. rewrite <- !app_assoc. simpl.
  split; [|split; [|split]].
  - f_equal. f_equal; lia.
  - reflexivity.
  - apply shape3_smul, Sz1.
  - apply shape2_smul2, Sz2.
Qed.
End EnsembleInit.



(** ** The learning rate *)

(** The learning rate and its decay factor are the same in [s] and [s']. *)
Definition same_rate : relation ES.state :=
  fun s s' =>
    ES.lr (ES.obj s') = ES.lr (ES.obj s) /\
    ES.lr_decay (ES.obj s') = ES.lr_decay (ES.obj s).

#[global] Instance same_rate_preorder : PreOrder same_rate.
Proof.
  split.
  - intros s. split; reflexivity.
  - intros a b c [A1 A2] [B1 B2]. split; congruence.
Qed.

Section EnsembleLearningRate.
Context {G : Type} `{RandomSource G}.

Lemma ensemble_gradient_step_same_rate m t :
  keeps (G:=G) (on_self same_rate) (ES.gradient_step m t).
Proof.
  unfold ES.gradient_step, ES._model_forward, ES._model_backward, ES.attr,
    ES.load2, ES.load3, ES.write.
  keeps_on_self; apply modify_on_self; intros s; split; reflexivity.
Qed.

Lemma ensemble_update_model_same_rate m t :
  keeps (G:=G) (on_self same_rate) (ES._update_model m t).
Proof.
  unfold ES._update_model, ES.attr. keeps_on_self.
  apply ensemble_gradient_step_same_rate.
Qed.

Lemma ensemble_members_same_rate t reward (members : list Z) :
  keeps (G:=G) (on_self same_rate)
    (for_ members (fun m =>
       nv ← ES.attr ES.noise_var;
       s ← lift (np.sqrt nv);
       z ← rd.randn;
       mrh ← ES.attr ES.model_reward_hist;
       mrh' ← lift (ES.setitem2 mrh m t (reward + s * z));
       _ ← ES.set (ES.set_model_reward_hist mrh');
       ES._update_model m t)).
Proof.
  unfold ES.attr, ES.set. keeps_on_self.
  - apply modify_on_self. intros s. split; reflexivity.
  - apply ensemble_update_model_same_rate.
Qed.

Lemma ensemble_update_observation_lr observation action reward w :
  wp (ES.update_observation observation action reward)
     (fun res w' =>
        ES.lr (ES.obj (self w')) =
          match res with
          | Ok _ => ES.lr (ES.obj (self w)) * ES.lr_decay (ES.obj (self w))
          | _ => ES.lr (ES.obj (self w))
          end) w.
Proof.
  unfold ES.update_observation, ES.attr, ES.set.
  wp_steps. wp_lift_cases; [|reflexivity..].
  wp_steps. wp_lift_cases; [|reflexivity..].
  wp_steps.
  apply (wp_keeps (on_self same_rate));
    [apply ensemble_members_same_rate|].
  intros r w1 [Hlr Hd]. simpl in Hlr, Hd.
  destruct r; unfold bind_post; [|exact Hlr..].
  wp_steps. simpl. rewrite Hlr, Hd. reflexivity.
Qed.
End EnsembleLearningRate.

(** ** The numpy operations on arrays of matching shapes *)

Lemma traverse_ok {A B} (f : A -> result B) (g : A -> B) (l : list A) :
  Forall (fun a => f a = Ok (g a)) l -> np.traverse f l = Ok (map g l).
Proof.
  induction 1 as [|a l Ha _ IH]; simpl; [reflexivity|].
  rewrite Ha. simpl. rewrite IH. reflexivity.
Qed.

Section Broadcast.
Context {A B C : Type}.

Lemma zipM_ok (f : A -> B -> result C) (g : A -> B -> C) x y :
  Forall2 (fun a b => f a b = Ok (g a b)) x y ->
  np.zipM f x y = Ok (zip_with g x y).
Proof.
  induction 1 as [|a b x y Hab _ IH]; simpl; [reflexivity|].
  rewrite Hab. simpl. rewrite IH. reflexivity.
Qed.

Lemma broadcast_zip (f : A -> B -> result C) (g : A -> B -> C) x y :
  Forall2 (fun a b => f a b = Ok (g a b)) x y ->
  np.broadcast f x y = Ok (zip_with g x y).
Proof.
  intros H. unfold np.broadcast.
  rewrite (Forall2_length _ _ _ H), Nat.eqb_refl. apply zipM_ok, H.
Qed.

Lemma broadcast_r1 (f : A -> B -> result C) (g : A -> B -> C) x b :
  Forall (fun a => f a b = Ok (g a b)) x ->
  np.broadcast f x [b] = Ok (map (fun a => g a b) x).
Proof.
  intros H. unfold np.broadcast.
  destruct x as [|a [|a' x]].
  - reflexivity.
  - simpl. inversion H as [|? ? Ha _]; subst. rewrite Ha. reflexivity.
  - exact (traverse_ok (fun a => f a b) (fun a => g a b) _ H).
Qed.

Lemma broadcast_l1 (f : A -> B -> result C) (g : A -> B -> C) a y :
  Forall (fun b => f a b = Ok (g a b)) y ->
  np.broadcast f [a] y = Ok (map (g a) y).
Proof.
  intros H. unfold np.broadcast.
  destruct y as [|b [|b' y]].
  - reflexivity.
  - simpl. inversion H as [|? ? Hb _]; subst. rewrite Hb. reflexivity.
  - exact (traverse_ok (f a) (g a) _ H).
Qed.

Lemma broadcast_to_zip (f : A -> B -> result C) (g : A -> B -> C) x y :
  Forall2 (fun a b => f a b = Ok (g a b)) x y ->
  np.broadcast_to f x y = Ok (zip_with g x y).
Proof.
  intros H. unfold np.broadcast_to.
  rewrite (Forall2_length _ _ _ H), Nat.eqb_refl. apply zipM_ok, H.
Qed.
End Broadcast.

Lemma Forall2_same_length_lift {A B} (P : A -> B -> Prop) (x : list A) (y : list B) :
  length x = length y -> (forall a b, a ∈ x -> b ∈ y -> P a b) -> Forall2 P x y.
Proof.
  revert y. induction x as [|a x IH]; intros [|b y] Hl HP; simpl in Hl;
    try discriminate; constructor.
  - apply HP; constructor.
  - apply IH; [lia|]. intros a' b' Ha Hb. apply HP; constructor; assumption.
Qed.

Lemma op1_same f (x y : vec) :
  length x = length y -> np.op1 f x y = Ok (zip_with f x y).
Proof.
  intros Hl. unfold np.op1. apply broadcast_zip.
  apply Forall2_same_length_lift; [exact Hl|]. reflexivity.
Qed.

Lemma op1_l1 f (a : R) (y : vec) : np.op1 f [a] y = Ok (map (f a) y).
Proof.
  unfold np.op1. apply (broadcast_l1 (np.lift2 f) f).
  apply Forall_forall. reflexivity.
Qed.

Lemma iop1_same f (x y : vec) :
  length x = length y -> np.iop1 f x y = Ok (zip_with f x y).
Proof.
  intros Hl. unfold np.iop1. apply broadcast_to_zip.
  apply Forall2_same_length_lift; [exact Hl|]. reflexivity.
Qed.

Lemma op2_same f n m (X Y : mat) :
  shape2 n m X -> shape2 n m Y ->
  np.op2 f X Y = Ok (zip_with (zip_with f) X Y).
Proof.
  intros [HX1 HX2] [HY1 HY2]. unfold np.op2. apply broadcast_zip.
  apply Forall2_same_length_lift; [congruence|].
  intros a b Ha Hb. apply op1_same.
  rewrite Forall_forall in HX2, HY2. rewrite (HX2 a Ha), (HY2 b Hb). reflexivity.
Qed.

Lemma iop2_same f n m (X Y : mat) :
  shape2 n m X -> shape2 n m Y ->
  np.iop2 f X Y = Ok (zip_with (zip_with f) X Y).
Proof.
  intros [HX1 HX2] [HY1 HY2]. unfold np.iop2. apply broadcast_to_zip.
  apply Forall2_same_length_lift; [congruence|].
  intros a b Ha Hb. apply iop1_same.
  rewrite Forall_forall in HX2, HY2. rewrite (HX2 a Ha), (HY2 b Hb). reflexivity.
Qed.

(** [X * v] for a matrix and a vector as long as its rows. *)
Lemma op2_row f (X : mat) (v : vec) :
  Forall (fun r => length r = length v) X ->
  np.op2 f X [v] = Ok (map (fun r => zip_with f r v) X).
Proof.
  intros HX. unfold np.op2.
  apply (broadcast_r1 (np.op1 f) (zip_with f)).
  eapply Forall_impl; [exact HX|]. simpl. intros r Hr. apply op1_same, Hr.
Qed.

(** [d[:, np.newaxis] * X] for a vector with one entry per row of [X]. *)
Lemma op2_col f (d : vec) (X : mat) :
  length d = length X ->
  np.op2 f (np.newaxis d) X = Ok (zip_with (fun a r => map (f a) r) d X).
Proof.
  intros Hl. unfold np.op2, np.newaxis.
  rewrite (broadcast_zip (np.op1 f)
             (fun (a : vec) (r : vec) => map (f (hd 0 a)) r)).
  - f_equal. revert X Hl. induction d as [|a d IH]; intros [|r X] Hl;
      simpl in *; try discriminate; [reflexivity|].
    f_equal. apply IH. lia.
  - revert X Hl. induction d as [|a d IH]; intros [|r X] Hl;
      simpl in *; try discriminate; constructor.
    + apply op1_l1.
    + apply IH. lia.
Qed.

(** [d[:, np.newaxis] * v]: the outer product. *)
Lemma op2_outer f (d v : vec) :
  np.op2 f (np.newaxis d) [v] = Ok (map (fun a => map (f a) v) d).
Proof.
  unfold np.op2, np.newaxis.
  rewrite (broadcast_r1 (np.op1 f) (fun (a : vec) (r : vec) => map (f (hd 0 a)) r)).
  - f_equal. rewrite <- list_fmap_compose. reflexivity.
  - apply Forall_fmap, Forall_forall. intros a _. simpl. apply op1_l1.
Qed.

(** The dot product of two vectors. *)
Definition dotp (x w : vec) : R := np.sum (zip_with Rmult x w).

Lemma affine_ok D (W1 X : mat) :
  Forall (fun w => length w = D) W1 ->
  Forall (fun x => length x = D) X ->
  affine W1 X = Ok (map (fun x => map (dotp x) W1) X).
Proof.
  intros HW HX. unfold affine, np.op3, np.newaxis.
  rewrite (broadcast_r1 (np.op2 Rmult)
             (fun (a : mat) (W : mat) => map (zip_with Rmult (hd [] a)) W)).
  - simpl. f_equal. rewrite <- !list_fmap_compose.
    apply list_fmap_ext. intros i x _. simpl.
    rewrite <- list_fmap_compose. reflexivity.
  - apply Forall_fmap. eapply Forall_impl; [exact HX|].
    simpl. intros x Hx. unfold np.op2.
    apply (broadcast_l1 (np.op1 Rmult) (zip_with Rmult)).
    eapply Forall_impl; [exact HW|]. simpl. intros w Hw.
    apply op1_same. congruence.
Qed.

(** ** Indexing *)

Lemma index_ok n i :
  (0 <= i < Z.of_nat n)%Z -> np.index n i = Ok (Z.to_nat i).
Proof.
  intros Hi. unfold np.index.
  destruct (0 <=? i)%Z eqn:E1; [|lia]. destruct (i <? Z.of_nat n)%Z eqn:E2; [|lia].
  reflexivity.
Qed.

Lemma getitem_ok {A} (a : list A) i :
  (0 <= i < Z.of_nat (length a))%Z ->
  exists x, np.getitem a i = Ok x /\ a !! Z.to_nat i = Some x.
Proof.
  intros Hi. unfold np.getitem. rewrite index_ok by exact Hi. simpl.
  destruct (lookup_lt_is_Some_2 a (Z.to_nat i)) as [x Hx]; [lia|].
  exists x. rewrite Hx. auto.
Qed.

Lemma take_ok {A} (a : list A) (ind : list Z) :
  Forall (fun i => (0 <= i < Z.of_nat (length a))%Z) ind ->
  exists l, np.take a ind = Ok l /\ length l = length ind /\ Forall (fun x => x ∈ a) l.
Proof.
  unfold np.take. induction 1 as [|i ind Hi _ (l & E & Hl & Hin)]; simpl.
  - exists []. repeat split; constructor.
  - destruct (getitem_ok a i Hi) as (x & Ex & Hx). rewrite Ex, E. simpl.
    exists (x :: l). repeat split; [simpl; lia|].
    constructor; [|exact Hin]. eapply list_elem_of_lookup_2, Hx.
Qed.

Lemma setitem_ok {A} (a : list A) t (x : A) :
  (0 <= t < Z.of_nat (length a))%Z ->
  setitem a t x = Ok (<[Z.to_nat t := x]> a).
Proof. intros Ht. unfold setitem. rewrite index_ok by exact Ht. reflexivity. Qed.

Lemma setitem_row_ok (A : mat) t (row : vec) n m :
  shape2 n m A -> length row = m -> (0 <= t < Z.of_nat n)%Z ->
  setitem_row A t row = Ok (<[Z.to_nat t := row]> A).
Proof.
  intros [Hn Hm] Hrow Ht. unfold setitem_row.
  rewrite index_ok by lia. simpl.
  destruct (getitem_ok A t) as (old & E & Hold); [lia|]. rewrite E. simpl.
  assert (length old = m) as Hlo.
  { rewrite Forall_forall in Hm. apply Hm. eapply list_elem_of_lookup_2, Hold. }
  rewrite (broadcast_to_zip (fun (_ b : R) => Ok b) (fun (_ b : R) => b)).
  - simpl. do 2 f_equal. revert row Hrow. rewrite <- Hlo. clear.
    induction old as [|o old IH]; intros [|r row] Hl; simpl in *;
      try discriminate; [reflexivity|]. f_equal. apply IH. lia.
  - apply Forall2_same_length_lift; [lia|]. reflexivity.
Qed.

Lemma shape2_insert n m (A : mat) k (row : vec) :
  shape2 n m A -> length row = m -> shape2 n m (<[k := row]> A).
Proof.
  intros [Hn Hm] Hrow. split.
  - rewrite length_insert. exact Hn.
  - apply Forall_insert; assumption.
Qed.

Lemma shape2_elem n m (A : mat) (r : vec) :
  shape2 n m A -> r ∈ A -> length r = m.
Proof. intros [_ Hm] Hr. rewrite Forall_forall in Hm. auto. Qed.

(** ** Shapes through the two passes *)

Lemma shape2_map n m (f : R -> R) (X : mat) :
  shape2 n m X -> shape2 n m (map (map f) X).
Proof.
  intros [Hl Hr]. split.
  - rewrite length_fmap. exact Hl.
  - apply Forall_fmap. eapply Forall_impl; [exact Hr|].
    simpl. intros r Hlen. rewrite length_fmap. exact Hlen.
Qed.

Lemma shape2_zip_with n m (f : R -> R -> R) (X Y : mat) :
  shape2 n m X -> shape2 n m Y -> shape2 n m (zip_with (zip_with f) X Y).
Proof.
  intros [HX1 HX2] [HY1 HY2]. split.
  - rewrite length_zip_with. lia.
  - subst n. revert Y HY1 HY2.
    induction X as [|x X IH]; intros [|y Y] HY1 HY2; simpl in *;
      try discriminate; constructor.
    + inversion HX2; inversion HY2; subst. rewrite length_zip_with. lia.
    + inversion HX2; inversion HY2; subst. apply IH; auto.
Qed.

Lemma shape2_affine B H (W1 X : mat) :
  length W1 = H -> length X = B -> shape2 B H (map (fun x => map (dotp x) W1) X).
Proof.
  intros HW HX. split.
  - rewrite length_fmap. exact HX.
  - apply Forall_fmap, Forall_forall. intros x _. simpl.
    rewrite length_fmap. exact HW.
Qed.

Lemma shape2_transpose B H (A : mat) :
  shape2 B H A -> shape2 H B (np.transpose H A).
Proof.
  intros [HB HH]. subst B. induction A as [|r A IH]; simpl.
  - split; [apply length_replicate|]. apply Forall_replicate. reflexivity.
  - inversion HH as [|? ? Hr HA]; subst. destruct (IH HA) as [IH1 IH2].
    split.
    + rewrite length_zip_with. lia.
    + clear IH HH HA. revert IH1 IH2. generalize (np.transpose (length r) A).
      induction r as [|a r IHr]; intros [|c T] H1 H2; simpl in *;
        try discriminate; constructor.
      * inversion H2; subst. simpl. lia.
      * inversion H2; subst. apply IHr; auto.
Qed.

Lemma shape2_T B H (A : mat) :
  (0 < B)%nat -> shape2 B H A -> shape2 H B (np.T A).
Proof.
  intros HB HA. unfold np.T.
  destruct A as [|r A]; [destruct HA as [HA _]; simpl in HA; lia|].
  simpl hd. replace (length r) with H; [apply shape2_transpose, HA|].
  destruct HA as [_ HA]. inversion HA; subst. reflexivity.
Qed.

Lemma length_sum_rows D (base : vec) (rows : mat) :
  length base = D -> Forall (fun r => length r = D) rows ->
  length (foldr (zip_with Rplus) base rows) = D.
Proof.
  intros Hb. induction 1 as [|r rows Hr _ IH]; simpl; [exact Hb|].
  rewrite length_zip_with. lia.
Qed.

Lemma length_sum_axis0 B H (X : mat) :
  (0 < B)%nat -> shape2 B H X -> length (np.sum_axis0 X) = H.
Proof.
  intros HB [Hl Hr]. unfold np.sum_axis0. apply length_sum_rows; [|exact Hr].
  unfold np.zeros. rewrite length_replicate.
  destruct X as [|r X]; [simpl in Hl; lia|]. inversion Hr; subst. reflexivity.
Qed.

Lemma length_vec_mat B D (r : vec) (X : mat) :
  (0 < B)%nat -> shape2 B D X -> length (np.vec_mat r X) = D.
Proof.
  intros HB [Hl Hr]. unfold np.vec_mat. apply length_sum_rows.
  - unfold np.zeros. rewrite length_replicate.
    destruct X as [|x X]; [simpl in Hl; lia|]. inversion Hr; subst. reflexivity.
  - clear Hl HB. revert r. induction Hr as [|x X Hx _ IH]; intros [|a r]; simpl;
      constructor.
    + unfold np.scale. rewrite length_fmap. exact Hx.
    + apply IH.
Qed.

Lemma dot_ok H B D (A X : mat) :
  (0 < B)%nat -> shape2 H B A -> shape2 B D X ->
  np.dot A X = Ok (map (fun r => np.vec_mat r X) A) /\
  shape2 H D (map (fun r => np.vec_mat r X) A).
Proof.
  intros HB [HA1 HA2] HX. unfold np.dot.
  replace (forallb (fun r : vec => Nat.eqb (length r) (length X)) A) with true.
  - split; [reflexivity|]. split.
    + rewrite length_fmap. exact HA1.
    + apply Forall_fmap, Forall_forall. intros r _. simpl.
      eapply length_vec_mat; eauto.
  - symmetry. apply forallb_forall. intros r Hr. apply Nat.eqb_eq.
    rewrite Forall_forall in HA2. destruct HX as [HX _].
    rewrite (HA2 r), HX; [reflexivity|]. apply list_elem_of_In, Hr.
Qed.

(** ** The two passes on arrays of matching shapes *)

Arguments np.smul1 : simpl never.
Arguments np.smul2 : simpl never.
Arguments np.newaxis : simpl never.
Arguments np.sum : simpl never.
Arguments np.sum_axis0 : simpl never.
Arguments np.T : simpl never.
Arguments np.vec_mat : simpl never.
Arguments np.dot : simpl never.
Arguments np.op1 : simpl never.
Arguments np.op2 : simpl never.
Arguments np.iop1 : simpl never.
Arguments np.iop2 : simpl never.
Arguments np.take : simpl never.
Arguments np.getitem : simpl never.
Arguments affine : simpl never.
Arguments np.truediv : simpl never.
Arguments np.idiv1 : simpl never.
Arguments np.idiv2 : simpl never.
Arguments np.sqrt : simpl never.
Arguments np.argmax : simpl never.
Arguments setitem : simpl never.
Arguments setitem_row : simpl never.

Definition affine_of (W1 X : mat) : mat := map (fun x => map (dotp x) W1) X.
Definition relu_of (lc : R) (A : mat) : mat := map (map (leaky_relu lc)) A.
Definition readout_of (W2 : vec) (Rl : mat) : vec := map (fun r => dotp r W2) Rl.
Definition dout_of (nv : R) (y out : vec) : vec :=
  np.smul1 (- (2 / nv)) (zip_with Rminus y out).
Definition dW2_of (dout : vec) (Rl : mat) : vec :=
  np.sum_axis0 (zip_with (fun a r => map (Rmult a) r) dout Rl).
Definition outer_of (dout W2 : vec) : mat := map (fun a => map (Rmult a) W2) dout.
Definition daffine_of (lc : R) (A drelu : mat) : mat :=
  zip_with (zip_with Rmult) (map (map (relu_mask lc)) A) drelu.
Definition dW1_of (daffine X : mat) : mat :=
  map (fun r => np.vec_mat r X) (np.T daffine).
Definition masked (X : mat) (mask : list (list bool)) : mat :=
  zip_with (zip_with Rmult) X (map (map np.of_bool) mask).

Lemma shape2_outer B H (d v : vec) :
  length d = B -> length v = H -> shape2 B H (outer_of d v).
Proof.
  intros Hd Hv. split.
  - unfold outer_of. rewrite length_fmap. exact Hd.
  - apply Forall_fmap, Forall_forall. intros a _. simpl.
    rewrite length_fmap. exact Hv.
Qed.

Lemma shape2_scaled_rows B H (d : vec) (X : mat) :
  length d = B -> shape2 B H X ->
  shape2 B H (zip_with (fun a r => map (Rmult a) r) d X).
Proof.
  intros Hd [HX1 HX2]. split.
  - rewrite length_zip_with. lia.
  - clear Hd HX1. revert d. induction HX2 as [|x X Hx _ IH]; intros [|a d];
      simpl; constructor.
    + rewrite length_fmap. exact Hx.
    + apply IH.
Qed.

Lemma epsilon_greedy_forward_ok lc H D B (W1 : mat) (W2 : vec) (X : mat) :
  shape2 H D W1 -> length W2 = H -> shape2 B D X ->
  TwoLayerNNEpsilonGreedy.forward lc W1 W2 X
  = Ok (readout_of W2 (relu_of lc (affine_of W1 X)),
        (X, affine_of W1 X, relu_of lc (affine_of W1 X))).
Proof.
  intros [HW1 HW1r] HW2 [HX HXr]. unfold TwoLayerNNEpsilonGreedy.forward.
  rewrite (affine_ok D) by assumption. simpl.
  fold (affine_of W1 X). fold (relu_of lc (affine_of W1 X)).
  rewrite op2_row.
  - simpl. unfold readout_of, dotp. rewrite <- list_fmap_compose. reflexivity.
  - destruct (shape2_map B H (leaky_relu lc) _ (shape2_affine B H W1 X HW1 HX))
      as [_ Hr].
    rewrite HW2. exact Hr.
Qed.

Lemma epsilon_greedy_backward_ok nv lc H D B (W2 out y : vec) (X A Rl : mat) :
  nv <> 0 -> (0 < B)%nat -> length W2 = H ->
  length out = B -> length y = B ->
  shape2 B D X -> shape2 B H A -> shape2 B H Rl ->
  TwoLayerNNEpsilonGreedy.backward nv lc W2 out (X, A, Rl) y
  = Ok (dW1_of (daffine_of lc A (outer_of (dout_of nv y out) W2)) X,
        dW2_of (dout_of nv y out) Rl) /\
  shape2 H D (dW1_of (daffine_of lc A (outer_of (dout_of nv y out) W2)) X) /\
  length (dW2_of (dout_of nv y out) Rl) = H.
Proof.
  intros Hnv HB HW2 Hout Hy HX HA HRl.
  assert (Hd : length (dout_of nv y out) = B).
  { unfold dout_of, np.smul1. rewrite length_fmap, length_zip_with. lia. }
  assert (Hda : shape2 B H (daffine_of lc A (outer_of (dout_of nv y out) W2))).
  { apply shape2_zip_with; [apply shape2_map, HA|apply shape2_outer; assumption]. }
  destruct (dot_ok H B D _ X HB (shape2_T B H _ HB Hda) HX) as [Edot Sdot].
  unfold TwoLayerNNEpsilonGreedy.backward, np.truediv.
  destruct (Req_dec_T nv 0) as [E|_]; [contradiction|]. simpl.
  rewrite op1_same by lia. simpl. fold (dout_of nv y out).
  rewrite (op2_col Rmult _ Rl) by (destruct HRl; lia). simpl.
  rewrite op2_outer. simpl. fold (outer_of (dout_of nv y out) W2).
  rewrite (op2_same Rmult B H)
    by (first [apply shape2_map, HA | apply shape2_outer; assumption]).
  simpl. fold (daffine_of lc A (outer_of (dout_of nv y out) W2)).
  rewrite Edot. simpl. split; [reflexivity|]. split; [exact Sdot|].
  apply (length_sum_axis0 B H); [exact HB|].
  apply shape2_scaled_rows; assumption.
Qed.

Lemma dropout_forward_ok lc H D B (W1 : mat) (W2 : vec) (X : mat)
    (mask : list (list bool)) :
  shape2 H D W1 -> length W2 = H -> shape2 B D X ->
  length mask = B -> Forall (fun r => length r = H) mask ->
  TwoLayerNNDropout.hidden lc W1 X
    = Ok (affine_of W1 X, relu_of lc (affine_of W1 X)) /\
  TwoLayerNNDropout.readout W2 (relu_of lc (affine_of W1 X)) mask
    = Ok (readout_of W2 (masked (relu_of lc (affine_of W1 X)) mask),
          masked (relu_of lc (affine_of W1 X)) mask).
Proof.
  intros [HW1 HW1r] HW2 [HX HXr] Hm Hmr.
  pose proof (shape2_map B H (leaky_relu lc) _ (shape2_affine B H W1 X HW1 HX)) as HRl.
  fold (affine_of W1 X) in HRl. fold (relu_of lc (affine_of W1 X)) in HRl.
  assert (HM : shape2 B H (map (map np.of_bool) mask)).
  { split; [rewrite length_fmap; exact Hm|].
    apply Forall_fmap. eapply Forall_impl; [exact Hmr|].
    simpl. intros r Hr. rewrite length_fmap. exact Hr. }
  split.
  - unfold TwoLayerNNDropout.hidden. rewrite (affine_ok D) by assumption.
    reflexivity.
  - unfold TwoLayerNNDropout.readout.
    rewrite (op2_same Rmult B H) by assumption. simpl.
    fold (masked (relu_of lc (affine_of W1 X)) mask).
    rewrite op2_row.
    + simpl. unfold readout_of, dotp. rewrite <- list_fmap_compose. reflexivity.
    + destruct (shape2_zip_with B H Rmult _ _ HRl HM) as [_ Hr].
      rewrite HW2. exact Hr.
Qed.

Lemma dropout_backward_ok nv lc H D B (W2 out y : vec) (X A Rl Dl : mat)
    (mask : list (list bool)) :
  nv <> 0 -> (0 < B)%nat -> length W2 = H ->
  length out = B -> length y = B ->
  shape2 B D X -> shape2 B H A -> shape2 B H Rl ->
  length mask = B -> Forall (fun r => length r = H) mask ->
  TwoLayerNNDropout.backward nv lc W2 out (X, A, Rl, mask, Dl) y
  = Ok (dW1_of (daffine_of lc A (masked (outer_of (dout_of nv y out) W2) mask)) X,
        dW2_of (dout_of nv y out) Rl) /\
  shape2 H D (dW1_of (daffine_of lc A
                        (masked (outer_of (dout_of nv y out) W2) mask)) X) /\
  length (dW2_of (dout_of nv y out) Rl) = H.
Proof.
  intros Hnv HB HW2 Hout Hy HX HA HRl Hm Hmr.
  assert (Hd : length (dout_of nv y out) = B).
  { unfold dout_of, np.smul1. rewrite length_fmap, length_zip_with. lia. }
  assert (HM : shape2 B H (map (map np.of_bool) mask)).
  { split; [rewrite length_fmap; exact Hm|].
    apply Forall_fmap. eapply Forall_impl; [exact Hmr|].
    simpl. intros r Hr. rewrite length_fmap. exact Hr. }
  assert (Hdr : shape2 B H (masked (outer_of (dout_of nv y out) W2) mask)).
  { apply shape2_zip_with; [apply shape2_outer; assumption|exact HM]. }
  assert (Hda : shape2 B H (daffine_of lc A
                              (masked (outer_of (dout_of nv y out) W2) mask))).
  { apply shape2_zip_with; [apply shape2_map, HA|exact Hdr]. }
  destruct (dot_ok H B D _ X HB (shape2_T B H _ HB Hda) HX) as [Edot Sdot].
  unfold TwoLayerNNDropout.backward, np.truediv.
  destruct (Req_dec_T nv 0) as [E|_]; [contradiction|]. simpl.
  rewrite op1_same by lia. simpl. fold (dout_of nv y out).
  rewrite (op2_col Rmult _ Rl) by (destruct HRl; lia). simpl.
  rewrite op2_outer. simpl. fold (outer_of (dout_of nv y out) W2).
  rewrite (op2_same Rmult B H)
    by (first [apply shape2_outer; assumption | exact HM]).
  simpl. fold (masked (outer_of (dout_of nv y out) W2) mask).
  rewrite (op2_same Rmult B H)
    by (first [apply shape2_map, HA | exact Hdr]).
  simpl. fold (daffine_of lc A (masked (outer_of (dout_of nv y out) W2) mask)).
  rewrite Edot. simpl. split; [reflexivity|]. split; [exact Sdot|].
  apply (length_sum_axis0 B H); [exact HB|].
  apply shape2_scaled_rows; assumption.
Qed.

(** ** The regularised step, as the specification words it

    The batch-summed gradient [g] is normalised by the batch size, the term
    [2 / (prior_var * (t + 1)) * (W - W_prior)] is added, and the weight moves
    against the result by the learning rate. *)

Definition regularized (batch_size : Z) (prior_var : R) (t : Z) (g W W_prior : R) : R :=
  g / IZR batch_size + 2 / (prior_var * IZR (t + 1)) * (W - W_prior).

Definition sgd_entry (batch_size : Z) (prior_var : R) (t : Z) (lr W g W_prior : R) : R :=
  W - lr * regularized batch_size prior_var t g W W_prior.

Definition zip_with3 {A B C D} (f : A -> B -> C -> D)
    (x : list A) (y : list B) (z : list C) : list D :=
  zip_with (fun h c => h c) (zip_with f x y) z.

Definition regularized_sgd1 (batch_size : Z) (prior_var : R) (t : Z) (lr : R)
    (W g W_prior : vec) : vec :=
  zip_with3 (sgd_entry batch_size prior_var t lr) W g W_prior.

Definition regularized_sgd2 (batch_size : Z) (prior_var : R) (t : Z) (lr : R)
    (W g W_prior : mat) : mat :=
  zip_with3 (regularized_sgd1 batch_size prior_var t lr) W g W_prior.

(** The implicit prior of the single-network agents. *)
Definition zeros_like1 (W : vec) : vec := map (fun _ => 0) W.
Definition zeros_like2 (W : mat) : mat := map zeros_like1 W.

Lemma sgd1_code bs pv t l (W g Wp : vec) :
  length g = length W -> length Wp = length W ->
  zip_with Rminus W
    (np.smul1 l (zip_with Rplus (map (fun a => a / IZR bs) g)
                   (np.smul1 (2 / (pv * IZR (t + 1))) (zip_with Rminus W Wp))))
  = regularized_sgd1 bs pv t l W g Wp.
Proof.
  unfold regularized_sgd1, zip_with3, np.smul1.
  revert g Wp. induction W as [|w W IH]; intros [|a g] [|b Wp] Hg Hp;
    simpl in *; try discriminate; [reflexivity|].
  f_equal. apply IH; lia.
Qed.

Lemma sgd1_code_zero bs pv t l (W g : vec) :
  length g = length W ->
  zip_with Rminus W
    (np.smul1 l (zip_with Rplus (map (fun a => a / IZR bs) g)
                   (np.smul1 (2 / (pv * IZR (t + 1))) W)))
  = regularized_sgd1 bs pv t l W g (zeros_like1 W).
Proof.
  unfold regularized_sgd1, zip_with3, np.smul1, zeros_like1.
  revert g. induction W as [|w W IH]; intros [|a g] Hg;
    simpl in *; try discriminate; [reflexivity|].
  f_equal; [|apply IH; lia].
  unfold sgd_entry, regularized. rewrite Rminus_0_r. reflexivity.
Qed.

Lemma sgd2_code bs pv t l n m (W g Wp : mat) :
  shape2 n m W -> shape2 n m g -> shape2 n m Wp ->
  zip_with (zip_with Rminus) W
    (np.smul2 l (zip_with (zip_with Rplus) (map (map (fun a => a / IZR bs)) g)
                   (np.smul2 (2 / (pv * IZR (t + 1)))
                      (zip_with (zip_with Rminus) W Wp))))
  = regularized_sgd2 bs pv t l W g Wp.
Proof.
  intros [HW1 HW2] [Hg1 Hg2] [Hp1 Hp2].
  unfold regularized_sgd2, zip_with3, np.smul2. subst n.
  revert g Wp Hg1 Hg2 Hp1 Hp2.
  induction W as [|w W IH]; intros [|a g] [|b Wp] Hg1 Hg2 Hp1 Hp2;
    simpl in *; try discriminate; [reflexivity|].
  inversion HW2; inversion Hg2; inversion Hp2; subst.
  f_equal; [apply sgd1_code; congruence|].
  apply IH; auto.
Qed.

Lemma sgd2_code_zero bs pv t l n m (W g : mat) :
  shape2 n m W -> shape2 n m g ->
  zip_with (zip_with Rminus) W
    (np.smul2 l (zip_with (zip_with Rplus) (map (map (fun a => a / IZR bs)) g)
                   (np.smul2 (2 / (pv * IZR (t + 1))) W)))
  = regularized_sgd2 bs pv t l W g (zeros_like2 W).
Proof.
  intros [HW1 HW2] [Hg1 Hg2].
  unfold regularized_sgd2, zip_with3, np.smul2, zeros_like2. subst n.
  revert g Hg1 Hg2.
  induction W as [|w W IH]; intros [|a g] Hg1 Hg2;
    simpl in *; try discriminate; [reflexivity|].
  inversion HW2; inversion Hg2; subst.
  f_equal; [apply sgd1_code_zero; congruence|].
  apply IH; auto.
Qed.

Lemma length_regularized_sgd1 bs pv t l (W g Wp : vec) :
  length g = length W -> length Wp = length W ->
  length (regularized_sgd1 bs pv t l W g Wp) = length W.
Proof.
  intros Hg Hp. unfold regularized_sgd1, zip_with3.
  rewrite !length_zip_with. lia.
Qed.

Lemma shape2_regularized_sgd2 bs pv t l n m (W g Wp : mat) :
  shape2 n m W -> shape2 n m g -> shape2 n m Wp ->
  shape2 n m (regularized_sgd2 bs pv t l W g Wp).
Proof.
  intros HW Hg Hp. rewrite <- (sgd2_code bs pv t l n m) by assumption.
  apply shape2_zip_with; [exact HW|]. apply shape2_smul2.
  apply shape2_zip_with; [apply shape2_map, Hg|].
  apply shape2_smul2, shape2_zip_with; assumption.
Qed.

Lemma length_zeros_like1 (W : vec) : length (zeros_like1 W) = length W.
Proof. apply length_fmap. Qed.

Lemma shape2_zeros_like2 n m (W : mat) : shape2 n m W -> shape2 n m (zeros_like2 W).
Proof.
  intros [H1 H2]. split; [unfold zeros_like2; rewrite length_fmap; exact H1|].
  apply Forall_fmap. eapply Forall_impl; [exact H2|]. simpl.
  intros r Hr. rewrite length_zeros_like1. exact Hr.
Qed.

(** ** One gradient step of a single-network agent *)

(** The arrays of the agent have the shapes its constructor gives them. *)
Definition wf_agent (H D Tn : nat) (a : agent) : Prop :=
  shape2 H D (W1 a) /\ length (W2 a) = H /\
  shape2 Tn D (action_hist a) /\ length (reward_hist a) = Tn.

Section SingleStep.
Context {G : Type} {RS : RandomSource G}.

(** On a non-empty batch of the right width the two passes of class [k]
    return, touch no attribute, and give gradients of the weights' shapes. *)
Definition klass_total (H D : nat) (k : klass G) : Prop :=
  forall (w : world G agent) (X : mat) (y : vec) (B : nat),
    shape2 H D (W1 (self w)) -> length (W2 (self w)) = H ->
    noise_var (self w) <> 0 -> (0 < B)%nat -> shape2 B D X -> length y = B ->
    exists out c w1 dW1 dW2 w2,
      model_forward k X w = (Ok (out, c), w1) /\ self w1 = self w /\
      model_backward k out c y w1 = (Ok (dW1, dW2), w2) /\ self w2 = self w /\
      shape2 H D dW1 /\ length dW2 = H.

(** One pass of the loop of [_update_model] at time [t], from [w] to [w']:
    a minibatch of indices of [0 .. t], the two passes on it, and both
    weight arrays moved by the regularised step towards the zero prior. *)
Definition sgd_step (k : klass G) (t : Z) (w w' : world G agent) : Prop :=
  let a := self w in
  exists batch_ind w1 action_batch reward_batch out c w2 dW1 dW2 w3,
    rd.randint_size (t + 1) (batch_size a) w = (Ok batch_ind, w1) /\
    Forall (fun i => (0 <= i <= t)%Z) batch_ind /\
    np.take (action_hist a) batch_ind = Ok action_batch /\
    np.take (reward_hist a) batch_ind = Ok reward_batch /\
    model_forward k action_batch w1 = (Ok (out, c), w2) /\
    model_backward k out c reward_batch w2 = (Ok (dW1, dW2), w3) /\
    w' = World
           (set_W2 (regularized_sgd1 (batch_size a) (prior_var a) t (lr a)
                      (W2 a) dW2 (zeros_like1 (W2 a)))
              (set_W1 (regularized_sgd2 (batch_size a) (prior_var a) t (lr a)
                         (W1 a) dW1 (zeros_like2 (W1 a))) a))
           (gen w3) (log w3).

Lemma truediv_ok x y : y <> 0 -> np.truediv x y = Ok (x / y).
Proof. intros Hy. unfold np.truediv. destruct (Req_dec_T y 0); [contradiction|reflexivity]. Qed.

Lemma idiv2_ok X n : (n <> 0)%Z -> np.idiv2 X n = Ok (map (map (fun a => a / IZR n)) X).
Proof. intros Hn. unfold np.idiv2. destruct (n =? 0)%Z eqn:E; [lia|reflexivity]. Qed.

Lemma idiv1_ok x n : (n <> 0)%Z -> np.idiv1 x n = Ok (map (fun a => a / IZR n) x).
Proof. intros Hn. unfold np.idiv1. destruct (n =? 0)%Z eqn:E; [lia|reflexivity]. Qed.

Lemma gradient_step_spec (k : klass G) H D Tn t (w : world G agent) :
  klass_total H D k -> wf_agent H D Tn (self w) ->
  (0 <= t < Z.of_nat Tn)%Z -> (0 < batch_size (self w))%Z ->
  noise_var (self w) <> 0 -> prior_var (self w) <> 0 ->
  exists w', TwoLayerNNEpsilonGreedy.gradient_step k t w = (Ok tt, w') /\
             sgd_step k t w w' /\
             wf_agent H D Tn (self w') /\ only_weights (self w) (self w').
Proof.
  intros Hk (HW1 & HW2 & Hah & Hrh) Ht Hbs Hnv Hpv.
  destruct w as [a g l]. simpl in *.
  cut (wp (TwoLayerNNEpsilonGreedy.gradient_step k t)
          (fun r w' => r = Ok tt /\ sgd_step k t (World a g l) w' /\
                       wf_agent H D Tn (self w') /\ only_weights a (self w'))
          (World a g l)).
  { unfold wp. destruct (TwoLayerNNEpsilonGreedy.gradient_step k t _) as [r w'].
    simpl. intros [-> Hs]. eauto. }
  unfold TwoLayerNNEpsilonGreedy.gradient_step. wp_steps. simpl.
  destruct (yields_randint_size (S:=agent) (t + 1) (batch_size a)
              ltac:(lia) ltac:(lia) (World a g l))
    as (batch_ind & [a1 g1 l1] & Edraw & Hs1 & Hlen & Hrange).
  simpl in Hs1. subst a1.
  eapply wp_run; [exact Edraw|]. wp_steps. simpl.
  destruct (take_ok (action_hist a) batch_ind) as (ab & Eab & Lab & Iab).
  { eapply Forall_impl; [exact Hrange|]. simpl. destruct Hah as [-> _]. lia. }
  destruct (take_ok (reward_hist a) batch_ind) as (rb & Erb & Lrb & _).
  { eapply Forall_impl; [exact Hrange|]. simpl. rewrite Hrh. lia. }
  rewrite Eab. wp_steps. simpl. rewrite Erb. wp_steps.
  assert (HB : (0 < length batch_ind)%nat) by lia.
  destruct (Hk (World a g1 l1) ab rb (length batch_ind))
    as (out & c & [a2 g2 l2] & dW1 & dW2 & [a3 g3 l3] & Ef & Hs2 & Eb & Hs3 & SdW1 & LdW2);
    simpl; auto.
  { split; [exact Lab|]. eapply Forall_impl; [exact Iab|]. simpl.
    intros r Hr. eapply shape2_elem; eauto. }
  simpl in Hs2, Hs3. subst a2 a3.
  eapply wp_run; [exact Ef|]. wp_steps.
  eapply wp_run; [exact Eb|]. wp_steps.
  rewrite idiv2_ok by lia. wp_steps. rewrite idiv1_ok by lia. wp_steps. simpl.
  assert (Hden : prior_var a * IZR (t + 1) <> 0).
  { apply Rmult_integral_contrapositive_currified; [exact Hpv|].
    apply not_0_IZR. lia. }
  rewrite truediv_ok by exact Hden. wp_steps. simpl.
  rewrite (iop2_same Rplus H D)
    by (first [apply shape2_map, SdW1 | apply shape2_smul2, HW1]).
  wp_steps. simpl.
  rewrite iop1_same
    by (unfold np.smul1; rewrite !length_fmap; congruence).
  wp_steps. simpl.
  rewrite (iop2_same Rminus H D).
  2: exact HW1.
  2: { apply shape2_smul2, shape2_zip_with;
         [apply shape2_map, SdW1|apply shape2_smul2, HW1]. }
  wp_steps. simpl.
  rewrite iop1_same
    by (unfold np.smul1; rewrite !length_fmap, length_zip_with, !length_fmap; lia).
  wp_steps. simpl.
  rewrite (sgd2_code_zero _ _ _ _ H D) by assumption.
  rewrite sgd1_code_zero by congruence.
  split; [reflexivity|]. split; [|split].
  - exists batch_ind, (World a g1 l1), ab, rb, out, c, (World a g2 l2), dW1, dW2,
      (World a g3 l3).
    simpl. repeat split; auto.
    eapply Forall_impl; [exact Hrange|]. simpl. lia.
  - simpl. split; [|split; [|split]]; simpl.
    + apply (shape2_regularized_sgd2 _ _ _ _ H D); auto.
      apply shape2_zeros_like2, HW1.
    + rewrite length_regularized_sgd1; auto;
        [congruence|apply length_zeros_like1].
    + exact Hah.
    + exact Hrh.
  - reflexivity.
Qed.
End SingleStep.

Arguments TwoLayerNNEpsilonGreedy.forward : simpl never.
Arguments TwoLayerNNEpsilonGreedy.backward : simpl never.
Arguments TwoLayerNNDropout.hidden : simpl never.
Arguments TwoLayerNNDropout.readout : simpl never.
Arguments TwoLayerNNDropout.backward : simpl never.
Arguments ES.forward : simpl never.
Arguments ES.backward : simpl never.

Lemma run_of_wp {G S A} (m : Py G S A) w r w' :
  wp m (fun r1 w1 => r1 = r /\ w1 = w') w -> m w = (r, w').
Proof. unfold wp. destruct (m w) as [r1 w1]. simpl. intros [-> ->]. reflexivity. Qed.

Lemma shape2_hd B H (X : mat) :
  (0 < B)%nat -> shape2 B H X -> length (hd [] X) = H.
Proof.
  intros HB [H1 H2]. destruct X as [|r X]; [simpl in H1; lia|].
  inversion H2 as [|? ? Hr _]. exact Hr.
Qed.

Section Classes.
Context {G : Type} {RS : RandomSource G}.

Lemma length_readout_of W2 Rl : length (readout_of W2 Rl) = length Rl.
Proof. apply length_fmap. Qed.

Lemma shape2_hidden lc B H (W1 X : mat) :
  length W1 = H -> length X = B ->
  shape2 B H (affine_of W1 X) /\ shape2 B H (relu_of lc (affine_of W1 X)).
Proof.
  intros HW HX. pose proof (shape2_affine B H W1 X HW HX) as HA.
  split; [exact HA|]. apply shape2_map, HA.
Qed.

Lemma epsilon_greedy_class_total H D :
  klass_total H D (TwoLayerNNEpsilonGreedy.class (G:=G)).
Proof.
  intros [a g l] X y B HW1 HW2 Hnv HB HX Hy. simpl in *.
  destruct (shape2_hidden (leaky_coeff a) B H (W1 a) X) as [HA HRl];
    [apply HW1|apply HX|].
  destruct (epsilon_greedy_backward_ok (noise_var a) (leaky_coeff a) H D B (W2 a)
              (readout_of (W2 a) (relu_of (leaky_coeff a) (affine_of (W1 a) X)))
              y X _ _ Hnv HB HW2
              ltac:(rewrite length_readout_of; apply HRl) Hy HX HA HRl)
    as (Eb & S1 & S2).
  eexists _, _, (World a g l), _, _, (World a g l).
  split; [|split; [reflexivity|split; [|split; [reflexivity|split]]]].
  - apply run_of_wp. unfold TwoLayerNNEpsilonGreedy._model_forward.
    wp_steps. simpl.
    rewrite (epsilon_greedy_forward_ok _ H D B) by assumption.
    wp_steps. split; reflexivity.
  - apply run_of_wp. unfold TwoLayerNNEpsilonGreedy._model_backward.
    wp_steps. simpl. rewrite Eb. wp_steps. split; reflexivity.
  - exact S1.
  - exact S2.
Qed.

Lemma dropout_class_total H D :
  klass_total H D (TwoLayerNNDropout.class (G:=G)).
Proof.
  intros [a g l] X y B HW1 HW2 Hnv HB HX Hy. simpl in *.
  destruct (shape2_hidden (leaky_coeff a) B H (W1 a) X) as [HA HRl];
    [apply HW1|apply HX|].
  set (Rl := relu_of (leaky_coeff a) (affine_of (W1 a) X)) in *.
  assert (Hcols : length (hd [] Rl) = H) by (eapply shape2_hd; eauto).
  destruct (yields_rand2 (S:=agent) (length Rl) (length (hd [] Rl)) (World a g l))
    as (u & [a1 g1 l1] & Eu & Hs1 & [Su1 Su2] & _).
  simpl in Hs1. subst a1.
  set (mask := map (map (fun x => np.gt x (p a))) u).
  assert (Hm1 : length mask = B).
  { unfold mask. rewrite length_fmap. destruct HRl as [<- _]. exact Su1. }
  assert (Hm2 : Forall (fun r => length r = H) mask).
  { unfold mask. apply Forall_fmap. eapply Forall_impl; [exact Su2|].
    simpl. intros r Hr. rewrite length_fmap. congruence. }
  destruct (dropout_forward_ok (leaky_coeff a) H D B (W1 a) (W2 a) X mask
              HW1 HW2 HX Hm1 Hm2) as [Eh Er].
  fold Rl in Eh, Er.
  destruct (dropout_backward_ok (noise_var a) (leaky_coeff a) H D B (W2 a)
              (readout_of (W2 a) (masked Rl mask)) y X (affine_of (W1 a) X) Rl
              (masked Rl mask) mask Hnv HB HW2) as (Eb & S1 & S2); auto.
  { rewrite length_readout_of. unfold masked. rewrite length_zip_with, length_fmap.
    destruct HRl as [-> _]. lia. }
  eexists _, _, (World a g1 l1), _, _, (World a g1 l1).
  split; [|split; [reflexivity|split; [|split; [reflexivity|split]]]].
  - apply run_of_wp.
    unfold TwoLayerNNDropout._model_forward, TwoLayerNNDropout.draw_mask.
    wp_steps. simpl. rewrite Eh. wp_steps.
    eapply wp_run; [exact Eu|]. wp_steps. simpl. fold mask.
    rewrite Er. wp_steps. split; reflexivity.
  - apply run_of_wp. unfold TwoLayerNNDropout._model_backward.
    wp_steps. simpl. rewrite Eb. wp_steps. split; reflexivity.
  - exact S1.
  - exact S2.
Qed.
End Classes.

(** ** The whole update of a single-network agent *)

(** [n] successive steps. *)
Inductive steps {W : Type} (step : relation W) : nat -> relation W :=
| steps_O w : steps step 0 w w
| steps_S n w w1 w2 : step w w1 -> steps step n w1 w2 -> steps step (S n) w w2.

Lemma only_weights_hyper (s s' : agent) :
  only_weights s s' ->
  batch_size s' = batch_size s /\ noise_var s' = noise_var s /\
  prior_var s' = prior_var s /\ num_gradient_steps s' = num_gradient_steps s /\
  actions s' = actions s /\ num_actions s' = num_actions s /\
  action_hist s' = action_hist s /\ reward_hist s' = reward_hist s.
Proof. intros ->. repeat split; reflexivity. Qed.

Section SingleUpdate.
Context {G : Type} {RS : RandomSource G}.

Lemma for_gradient_steps (k : klass G) H D Tn t {A} (l : list A) (w : world G agent) :
  klass_total H D k -> wf_agent H D Tn (self w) ->
  (0 <= t < Z.of_nat Tn)%Z -> (0 < batch_size (self w))%Z ->
  noise_var (self w) <> 0 -> prior_var (self w) <> 0 ->
  exists w', for_ l (fun _ => TwoLayerNNEpsilonGreedy.gradient_step k t) w = (Ok tt, w') /\
             steps (sgd_step k t) (length l) w w' /\
             wf_agent H D Tn (self w') /\ only_weights (self w) (self w').
Proof.
  intros Hk. revert w. induction l as [|x l IH]; intros w Hwf Ht Hbs Hnv Hpv.
  - exists w. repeat split; try apply Hwf; [constructor|reflexivity].
  - destruct (gradient_step_spec k H D Tn t w Hk Hwf Ht Hbs Hnv Hpv)
      as (w1 & E1 & S1 & Wf1 & O1).
    destruct (only_weights_hyper _ _ O1) as (Hb & Hn & Hp & _).
    assert (Hbs1 : (0 < batch_size (self w1))%Z) by (rewrite Hb; exact Hbs).
    assert (Hnv1 : noise_var (self w1) <> 0) by (rewrite Hn; exact Hnv).
    assert (Hpv1 : prior_var (self w1) <> 0) by (rewrite Hp; exact Hpv).
    destruct (IH w1 Wf1 Ht Hbs1 Hnv1 Hpv1) as (w2 & E2 & S2 & Wf2 & O2).
    exists w2. split; [|split; [|split]].
    + simpl. unfold mbind, Py_bind. rewrite E1. exact E2.
    + simpl. econstructor; eauto.
    + exact Wf2.
    + etransitivity; eauto.
Qed.

Lemma length_range n : length (np.range n) = Z.to_nat n.
Proof. unfold np.range. rewrite length_fmap, length_seq. reflexivity. Qed.

Lemma update_model_spec (k : klass G) H D Tn t (w : world G agent) :
  klass_total H D k -> wf_agent H D Tn (self w) ->
  (0 <= t < Z.of_nat Tn)%Z -> (0 < batch_size (self w))%Z ->
  noise_var (self w) <> 0 -> prior_var (self w) <> 0 ->
  exists w', TwoLayerNNEpsilonGreedy._update_model k t w = (Ok tt, w') /\
             steps (sgd_step k t) (Z.to_nat (num_gradient_steps (self w))) w w' /\
             wf_agent H D Tn (self w') /\ only_weights (self w) (self w').
Proof.
  intros Hk Hwf Ht Hbs Hnv Hpv.
  destruct (for_gradient_steps k H D Tn t (np.range (num_gradient_steps (self w)))
              w Hk Hwf Ht Hbs Hnv Hpv) as (w' & E & S & Wf & O).
  rewrite length_range in S. exists w'. split; [|auto].
  unfold TwoLayerNNEpsilonGreedy._update_model, mbind, Py_bind, get. simpl.
  exact E.
Qed.

(** The state in which [update_observation] runs [_update_model]: the
    observation is recorded at index [t] of both history buffers. *)
Definition recorded (t : Z) (row : vec) (reward : R) (a : agent) : agent :=
  set_reward_hist (<[Z.to_nat t := reward]> (reward_hist a))
    (set_action_hist (<[Z.to_nat t := row]> (action_hist a)) a).

Lemma update_observation_spec (k : klass G) H D Tn t action reward
    (w : world G agent) :
  klass_total H D k -> wf_agent H D Tn (self w) ->
  Forall (fun x => length x = D) (actions (self w)) ->
  (0 <= action < Z.of_nat (length (actions (self w))))%Z ->
  (0 <= t < Z.of_nat Tn)%Z -> (0 < batch_size (self w))%Z ->
  noise_var (self w) <> 0 -> prior_var (self w) <> 0 ->
  exists row w1 w',
    actions (self w) !! Z.to_nat action = Some row /\
    steps (sgd_step k t) (Z.to_nat (num_gradient_steps (self w)))
      (World (recorded t row reward (self w)) (gen w) (log w)) w1 /\
    w' = World (set_lr (lr (self w) * lr_decay (self w)) (self w1)) (gen w1) (log w1) /\
    TwoLayerNNEpsilonGreedy.update_observation k t action reward w = (Ok tt, w') /\
    wf_agent H D Tn (self w').
Proof.
  intros Hk (HW1 & HW2 & Hah & Hrh) Hacts Haction Ht Hbs Hnv Hpv.
  destruct w as [a g l]. simpl in *.
  destruct (getitem_ok (actions a) action Haction) as (row & Erow & Hrow).
  assert (Lrow : length row = D).
  { rewrite Forall_forall in Hacts. apply Hacts.
    eapply list_elem_of_lookup_2, Hrow. }
  assert (Wf1 : wf_agent H D Tn (recorded t row reward a)).
  { split; [|split; [|split]]; simpl; auto.
    - apply shape2_insert; assumption.
    - rewrite length_insert. exact Hrh. }
  destruct (update_model_spec k H D Tn t
              (World (recorded t row reward a) g l) Hk Wf1 Ht Hbs Hnv Hpv)
    as ([a1 g1 l1] & E1 & S1 & Wf2 & O1).
  simpl in *.
  destruct (only_weights_lr _ _ O1) as [Hlr Hd]. simpl in Hlr, Hd.
  exists row, (World a1 g1 l1), (World (set_lr (lr a * lr_decay a) a1) g1 l1).
  split; [exact Hrow|]. split; [exact S1|]. split; [reflexivity|]. split.
  - apply run_of_wp. unfold TwoLayerNNEpsilonGreedy.update_observation.
    wp_steps. simpl. rewrite Erow. wp_steps. simpl.
    rewrite (setitem_row_ok _ _ _ Tn D) by (auto; lia). wp_steps. simpl.
    rewrite setitem_ok by lia. wp_steps. simpl.
    eapply wp_run; [exact E1|]. wp_steps. simpl.
    rewrite Hlr, Hd. split; reflexivity.
  - destruct Wf2 as (A1 & A2 & A3 & A4). split; [|split; [|split]]; simpl; auto.
Qed.
End SingleUpdate.

(** ** One gradient step of an ensemble member *)

Lemma ensemble_forward_member lc (W1 : list mat) (W2 : mat) m X w1m w2m :
  np.getitem W1 m = Ok w1m -> np.getitem W2 m = Ok w2m ->
  ES.forward lc W1 W2 m X = TwoLayerNNEpsilonGreedy.forward lc w1m w2m X.
Proof.
  intros E1 E2. unfold ES.forward, TwoLayerNNEpsilonGreedy.forward.
  rewrite E1. simpl. destruct (affine w1m X); simpl; [|reflexivity..].
  rewrite E2. reflexivity.
Qed.

Lemma ensemble_backward_member nv lc (W2 : mat) m out c y w2m :
  np.getitem W2 m = Ok w2m ->
  ES.backward nv lc W2 m out c y = TwoLayerNNEpsilonGreedy.backward nv lc w2m out c y.
Proof.
  intros E. unfold ES.backward, TwoLayerNNEpsilonGreedy.backward.
  destruct c as [[X A] Rl].
  destruct (np.truediv 2 nv); simpl; [|reflexivity..].
  destruct (np.op1 Rminus y out); simpl; [|reflexivity..].
  destruct (np.op2 Rmult _ Rl); simpl; [|reflexivity..].
  rewrite E. reflexivity.
Qed.

(** The arrays of the ensemble have the shapes its constructor gives them,
    and the live weights are not the priors. *)
Definition wf_ensemble (Mn H D Tn : nat) (s : ES.state) : Prop :=
  let o := ES.obj s in
  exists w1 w2 p1 p2,
    ES.heap s !! ES.W1 o = Some (ES.Arr3 w1) /\
    ES.heap s !! ES.W2 o = Some (ES.Arr2 w2) /\
    ES.heap s !! ES.W1_model_prior o = Some (ES.Arr3 p1) /\
    ES.heap s !! ES.W2_model_prior o = Some (ES.Arr2 p2) /\
    ES.W1 o <> ES.W1_model_prior o /\ ES.W2 o <> ES.W2_model_prior o /\
    shape3 Mn H D w1 /\ shape2 Mn H w2 /\ shape3 Mn H D p1 /\ shape2 Mn H p2 /\
    shape2 Tn D (ES.action_hist o) /\ shape2 Mn Tn (ES.model_reward_hist o).

Section EnsembleStep.
Context {G : Type} {RS : RandomSource G}.

(** One pass of the loop of [_update_model(m, t)], from [w] to [w']: a
    minibatch of indices of [0 .. t], rewards read from row [m] of
    [model_reward_hist], the two passes of member [m], and row [m] of both
    live weight arrays moved by the regularised step towards row [m] of the
    priors; nothing else changes. *)
Definition ensemble_sgd_step (m t : Z) (w w' : world G ES.state) : Prop :=
  let o := ES.obj (self w) in
  let h := ES.heap (self w) in
  let k := Z.to_nat m in
  exists batch_ind w1 action_batch rewards reward_batch out c dW1 dW2
         w1m w2m w1pm w2pm,
    rd.randint_size (t + 1) (ES.batch_size o) w = (Ok batch_ind, w1) /\
    Forall (fun i => (0 <= i <= t)%Z) batch_ind /\
    np.take (ES.action_hist o) batch_ind = Ok action_batch /\
    ES.model_reward_hist o !! k = Some rewards /\
    np.take rewards batch_ind = Ok reward_batch /\
    ES.forward (ES.leaky_coeff o) (ES.deref3 h (ES.W1 o)) (ES.deref2 h (ES.W2 o))
      m action_batch = Ok (out, c) /\
    ES.backward (ES.noise_var o) (ES.leaky_coeff o) (ES.deref2 h (ES.W2 o))
      m out c reward_batch = Ok (dW1, dW2) /\
    ES.deref3 h (ES.W1 o) !! k = Some w1m /\
    ES.deref2 h (ES.W2 o) !! k = Some w2m /\
    ES.deref3 h (ES.W1_model_prior o) !! k = Some w1pm /\
    ES.deref2 h (ES.W2_model_prior o) !! k = Some w2pm /\
    w' = World
           (ES.State o
              (<[ES.W2 o := ES.Arr2
                   (<[k := regularized_sgd1 (ES.batch_size o) (ES.prior_var o) t
                             (ES.lr o) w2m dW2 w2pm]> (ES.deref2 h (ES.W2 o)))]>
                 (<[ES.W1 o := ES.Arr3
                      (<[k := regularized_sgd2 (ES.batch_size o) (ES.prior_var o) t
                                (ES.lr o) w1m dW1 w1pm]> (ES.deref3 h (ES.W1 o)))]>
                    h)))
           (gen w1) (log w1).

Lemma shape3_lookup Mn H D (X : list mat) k x :
  shape3 Mn H D X -> X !! k = Some x -> shape2 H D x.
Proof.
  intros [_ HX] Hk. rewrite Forall_forall in HX. apply HX.
  eapply list_elem_of_lookup_2, Hk.
Qed.

Lemma shape3_insert Mn H D (X : list mat) k x :
  shape3 Mn H D X -> shape2 H D x -> shape3 Mn H D (<[k := x]> X).
Proof.
  intros [H1 H2] Hx. split; [rewrite length_insert; exact H1|].
  apply Forall_insert; assumption.
Qed.

Lemma ensemble_gradient_step_spec Mn H D Tn m t (w : world G ES.state) :
  wf_ensemble Mn H D Tn (self w) ->
  (0 <= m < Z.of_nat Mn)%Z -> (0 <= t < Z.of_nat Tn)%Z ->
  (0 < ES.batch_size (ES.obj (self w)))%Z ->
  ES.noise_var (ES.obj (self w)) <> 0 -> ES.prior_var (ES.obj (self w)) <> 0 ->
  exists w', ES.gradient_step m t w = (Ok tt, w') /\
             ensemble_sgd_step m t w w' /\
             wf_ensemble Mn H D Tn (self w') /\
             ES.obj (self w') = ES.obj (self w).
Proof.
  intros (a1 & a2 & p1 & p2 & L1 & L2 & L3 & L4 & N1 & N2 & S1 & S2 & S3 & S4 & Sah & Smrh)
    Hm Ht Hbs Hnv Hpv.
  destruct w as [[o h] g l]. simpl in *.
  assert (N12 : ES.W1 o <> ES.W2 o) by (intros E; rewrite E in L1; congruence).
  assert (N14 : ES.W1 o <> ES.W2_model_prior o)
    by (intros E; rewrite E in L1; congruence).
  assert (N23 : ES.W2 o <> ES.W1_model_prior o)
    by (intros E; rewrite E in L2; congruence).
  assert (D1 : ES.deref3 h (ES.W1 o) = a1) by (unfold ES.deref3; rewrite L1; reflexivity).
  assert (D2 : ES.deref2 h (ES.W2 o) = a2) by (unfold ES.deref2; rewrite L2; reflexivity).
  assert (D3 : ES.deref3 h (ES.W1_model_prior o) = p1)
    by (unfold ES.deref3; rewrite L3; reflexivity).
  assert (D4 : ES.deref2 h (ES.W2_model_prior o) = p2)
    by (unfold ES.deref2; rewrite L4; reflexivity).
  destruct (getitem_ok a1 m) as (w1m & G1 & K1); [destruct S1; lia|].
  destruct (getitem_ok a2 m) as (w2m & G2 & K2); [destruct S2; lia|].
  destruct (getitem_ok p1 m) as (w1pm & G3 & K3); [destruct S3; lia|].
  destruct (getitem_ok p2 m) as (w2pm & G4 & K4); [destruct S4; lia|].
  destruct (getitem_ok (ES.model_reward_hist o) m) as (rh & G5 & K5);
    [destruct Smrh; lia|].
  pose proof (shape3_lookup _ _ _ _ _ _ S1 K1) as Sw1m.
  pose proof (shape3_lookup _ _ _ _ _ _ S3 K3) as Sw1pm.
  assert (Lw2m : length w2m = H)
    by (eapply shape2_elem; [exact S2|eapply list_elem_of_lookup_2, K2]).
  assert (Lw2pm : length w2pm = H)
    by (eapply shape2_elem; [exact S4|eapply list_elem_of_lookup_2, K4]).
  assert (Lrh : length rh = Tn)
    by (eapply shape2_elem; [exact Smrh|eapply list_elem_of_lookup_2, K5]).
  cut (wp (ES.gradient_step m t)
          (fun r w' => r = Ok tt /\
                       ensemble_sgd_step m t (World (ES.State o h) g l) w' /\
                       wf_ensemble Mn H D Tn (self w') /\ ES.obj (self w') = o)
          (World (ES.State o h) g l)).
  { unfold wp. destruct (ES.gradient_step m t _) as [r w']. simpl.
    intros [-> Hs]. eauto. }
  unfold ES.gradient_step, ES._model_forward, ES._model_backward, ES.attr,
    ES.load2, ES.load3, ES.write.
  wp_steps. simpl.
  destruct (yields_randint_size (S:=ES.state) (t + 1) (ES.batch_size o)
              ltac:(lia) ltac:(lia) (World (ES.State o h) g l))
    as (batch_ind & [s1 g1 l1] & Edraw & Hs1 & Hlen & Hrange).
  simpl in Hs1. subst s1.
  eapply wp_run; [exact Edraw|]. wp_steps. simpl.
  destruct (take_ok (ES.action_hist o) batch_ind) as (ab & Eab & Lab & Iab).
  { eapply Forall_impl; [exact Hrange|]. simpl. destruct Sah as [-> _]. lia. }
  destruct (take_ok rh batch_ind) as (rb & Erb & Lrb & _).
  { eapply Forall_impl; [exact Hrange|]. simpl. rewrite Lrh. lia. }
  assert (HB : (0 < length batch_ind)%nat) by lia.
  assert (Sab : shape2 (length batch_ind) D ab).
  { split; [exact Lab|]. eapply Forall_impl; [exact Iab|]. simpl.
    intros r Hr. eapply shape2_elem; [exact Sah|exact Hr]. }
  destruct (shape2_hidden (ES.leaky_coeff o) (length batch_ind) H w1m ab)
    as [HA HRl]; [apply Sw1m|apply Sab|].
  pose proof (epsilon_greedy_forward_ok (ES.leaky_coeff o) H D (length batch_ind)
                w1m w2m ab Sw1m Lw2m Sab) as Ef.
  destruct (epsilon_greedy_backward_ok (ES.noise_var o) (ES.leaky_coeff o) H D
              (length batch_ind) w2m
              (readout_of w2m (relu_of (ES.leaky_coeff o) (affine_of w1m ab)))
              rb ab _ _ Hnv HB Lw2m
              ltac:(rewrite length_readout_of; apply HRl) Lrb Sab HA HRl)
    as (Eb & SdW1 & LdW2).
  rewrite <- (ensemble_forward_member _ a1 a2 m ab w1m w2m G1 G2) in Ef.
  rewrite <- (ensemble_backward_member _ _ a2 m _ _ _ w2m G2) in Eb.
  set (out := readout_of w2m (relu_of (ES.leaky_coeff o) (affine_of w1m ab))) in *.
  set (dW1 := dW1_of _ ab) in *. set (dW2 := dW2_of _ _) in *.
  rewrite Eab. wp_steps. simpl. rewrite G5. wp_steps. rewrite Erb. wp_steps. simpl.
  rewrite D1, D2, Ef. wp_steps. simpl. rewrite D2, Eb. wp_steps.
  rewrite idiv2_ok by lia. wp_steps. rewrite idiv1_ok by lia. wp_steps. simpl.
  assert (Hden : ES.prior_var o * IZR (t + 1) <> 0).
  { apply Rmult_integral_contrapositive_currified; [exact Hpv|].
    apply not_0_IZR. lia. }
  rewrite truediv_ok by exact Hden. wp_steps. simpl.
  rewrite D1, G1. wp_steps. simpl. rewrite D3, G3. wp_steps.
  rewrite (op2_same Rminus H D) by assumption. wp_steps.
  rewrite (iop2_same Rplus H D)
    by (first [apply shape2_map, SdW1
              | apply shape2_smul2, shape2_zip_with; assumption]).
  wp_steps. simpl. rewrite D2, G2. wp_steps. simpl. rewrite D4, G4. wp_steps.
  rewrite op1_same by congruence. wp_steps.
  rewrite iop1_same
    by (unfold np.smul1; rewrite !length_fmap, length_zip_with; lia).
  wp_steps. simpl.
  rewrite (iop2_same Rminus H D).
  2: exact Sw1m.
  2: { apply shape2_smul2, shape2_zip_with; [apply shape2_map, SdW1|].
       apply shape2_smul2, shape2_zip_with; assumption. }
  wp_steps. rewrite setitem_ok by (destruct S1; lia). wp_steps. simpl.
  assert (D2' : forall x, ES.deref2 (<[ES.W1 o := x]> h) (ES.W2 o) = a2).
  { intros x. unfold ES.deref2. rewrite list_lookup_insert_ne by exact N12.
    rewrite L2. reflexivity. }
  rewrite D2', G2. wp_steps. simpl.
  rewrite iop1_same
    by (unfold np.smul1; rewrite !length_fmap, !length_zip_with, !length_fmap,
          length_zip_with; lia).
  wp_steps. rewrite setitem_ok by (destruct S2; lia). wp_steps. simpl.
  rewrite (sgd2_code _ _ _ _ H D) by assumption.
  rewrite sgd1_code by congruence.
  split; [reflexivity|]. split; [|split; [|reflexivity]].
  - exists batch_ind, (World (ES.State o h) g1 l1), ab, rh, rb, out,
      (ab, affine_of w1m ab, relu_of (ES.leaky_coeff o) (affine_of w1m ab)),
      dW1, dW2, w1m, w2m, w1pm, w2pm.
    simpl. rewrite D1, D2, D3, D4.
    repeat split; auto.
    eapply Forall_impl; [exact Hrange|]. simpl. lia.
  - unfold wf_ensemble. simpl. eexists _, _, p1, p2.
    split; [|split; [|split; [|split; [|split; [|split;
      [|split; [|split; [|split; [|split; [|split]]]]]]]]]].
    + rewrite list_lookup_insert_ne by (apply not_eq_sym, N12).
      apply list_lookup_insert_eq. eapply lookup_lt_Some, L1.
    + apply list_lookup_insert_eq. rewrite length_insert.
      eapply lookup_lt_Some, L2.
    + rewrite !list_lookup_insert_ne by assumption. exact L3.
    + rewrite !list_lookup_insert_ne by assumption. exact L4.
    + exact N1.
    + exact N2.
    + apply shape3_insert; [exact S1|].
      apply (shape2_regularized_sgd2 _ _ _ _ H D); assumption.
    + apply shape2_insert; [exact S2|].
      rewrite length_regularized_sgd1; congruence.
    + exact S3.
    + exact S4.
    + exact Sah.
    + exact Smrh.
Qed.
End EnsembleStep.

(** ** The whole update of the ensemble *)

(** Successive steps, one per element of a list. *)
Inductive chain {W A : Type} (step : A -> relation W) : list A -> relation W :=
| chain_nil w : chain step [] w w
| chain_cons x l w w1 w2 :
    step x w w1 -> chain step l w1 w2 -> chain step (x :: l) w w2.

Section EnsembleUpdate.
Context {G : Type} {RS : RandomSource G}.

Lemma ensemble_for_gradient_steps Mn H D Tn m t {A} (l : list A)
    (w : world G ES.state) :
  wf_ensemble Mn H D Tn (self w) ->
  (0 <= m < Z.of_nat Mn)%Z -> (0 <= t < Z.of_nat Tn)%Z ->
  (0 < ES.batch_size (ES.obj (self w)))%Z ->
  ES.noise_var (ES.obj (self w)) <> 0 -> ES.prior_var (ES.obj (self w)) <> 0 ->
  exists w', for_ l (fun _ => ES.gradient_step m t) w = (Ok tt, w') /\
             steps (ensemble_sgd_step m t) (length l) w w' /\
             wf_ensemble Mn H D Tn (self w') /\
             ES.obj (self w') = ES.obj (self w).
Proof.
  intros Hwf Hm Ht. revert w Hwf. induction l as [|x l IH]; intros w Hwf Hbs Hnv Hpv.
  - exists w. repeat split; auto. constructor.
  - destruct (ensemble_gradient_step_spec Mn H D Tn m t w Hwf Hm Ht Hbs Hnv Hpv)
      as (w1 & E1 & S1 & Wf1 & O1).
    destruct (IH w1 Wf1) as (w2 & E2 & S2 & Wf2 & O2); try (rewrite O1; assumption).
    exists w2. split; [|split; [|split]].
    + simpl. unfold mbind, Py_bind. rewrite E1. exact E2.
    + simpl. econstructor; eauto.
    + exact Wf2.
    + congruence.
Qed.

Lemma ensemble_update_model_spec Mn H D Tn m t (w : world G ES.state) :
  wf_ensemble Mn H D Tn (self w) ->
  (0 <= m < Z.of_nat Mn)%Z -> (0 <= t < Z.of_nat Tn)%Z ->
  (0 < ES.batch_size (ES.obj (self w)))%Z ->
  ES.noise_var (ES.obj (self w)) <> 0 -> ES.prior_var (ES.obj (self w)) <> 0 ->
  exists w', ES._update_model m t w = (Ok tt, w') /\
             steps (ensemble_sgd_step m t)
               (Z.to_nat (ES.num_gradient_steps (ES.obj (self w)))) w w' /\
             wf_ensemble Mn H D Tn (self w') /\
             ES.obj (self w') = ES.obj (self w).
Proof.
  intros Hwf Hm Ht Hbs Hnv Hpv.
  destruct (ensemble_for_gradient_steps Mn H D Tn m t
              (np.range (ES.num_gradient_steps (ES.obj (self w))))
              w Hwf Hm Ht Hbs Hnv Hpv) as (w' & E & S & Wf & O).
  rewrite length_range in S. exists w'. split; [|auto].
  unfold ES._update_model, ES.attr, mbind, Py_bind, get. simpl. exact E.
Qed.

(** What [update_observation] does for member [m]: one fresh normal draw
    [z], the reward perturbed by [sqrt(noise_var) * z] stored at
    [model_reward_hist[m][t]], then the gradient steps of member [m]. *)
Definition member_update (t : Z) (reward : R) (m : Z) (w w' : world G ES.state) : Prop :=
  let o := ES.obj (self w) in
  exists z w1 rewards,
    rd.randn w = (Ok z, w1) /\
    ES.model_reward_hist o !! Z.to_nat m = Some rewards /\
    steps (ensemble_sgd_step m t) (Z.to_nat (ES.num_gradient_steps o))
      (World (ES.State
                (ES.set_model_reward_hist
                   (<[Z.to_nat m :=
                        <[Z.to_nat t := reward + sqrt (ES.noise_var o) * z]> rewards]>
                      (ES.model_reward_hist o)) o)
                (ES.heap (self w)))
             (gen w1) (log w1))
      w'.

(** The attributes that no update rebinds. *)
Definition same_config (o o' : ES.ensemble) : Prop :=
  o' = ES.set_model_reward_hist (ES.model_reward_hist o') o.

Lemma same_config_refl o : same_config o o.
Proof. destruct o. reflexivity. Qed.

Lemma same_config_trans a b c : same_config a b -> same_config b c -> same_config a c.
Proof.
  unfold same_config. intros Hb Hc. rewrite Hc.
  generalize (ES.model_reward_hist c). intros x.
  rewrite Hb. reflexivity.
Qed.

Lemma setitem2_ok (A : mat) m t x n k row :
  shape2 n k A -> (0 <= m < Z.of_nat n)%Z -> (0 <= t < Z.of_nat k)%Z ->
  A !! Z.to_nat m = Some row ->
  ES.setitem2 A m t x = Ok (<[Z.to_nat m := <[Z.to_nat t := x]> row]> A).
Proof.
  intros [Hn Hk] Hm Ht Hrow. unfold ES.setitem2.
  rewrite index_ok by lia. simpl.
  destruct (getitem_ok A m) as (row' & E & Hrow'); [lia|].
  rewrite E. simpl. assert (row' = row) as -> by congruence.
  rewrite setitem_ok; [reflexivity|].
  rewrite Forall_forall in Hk. rewrite (Hk row); [lia|].
  eapply list_elem_of_lookup_2, Hrow.
Qed.

Lemma ensemble_member_spec Mn H D Tn m t reward (w : world G ES.state) :
  wf_ensemble Mn H D Tn (self w) ->
  (0 <= m < Z.of_nat Mn)%Z -> (0 <= t < Z.of_nat Tn)%Z ->
  (0 < ES.batch_size (ES.obj (self w)))%Z ->
  0 < ES.noise_var (ES.obj (self w)) -> ES.prior_var (ES.obj (self w)) <> 0 ->
  exists w',
    (nv ← ES.attr ES.noise_var;
     s ← lift (np.sqrt nv);
     z ← rd.randn;
     mrh ← ES.attr ES.model_reward_hist;
     mrh' ← lift (ES.setitem2 mrh m t (reward + s * z));
     _ ← ES.set (ES.set_model_reward_hist mrh');
     ES._update_model m t) w = (Ok tt, w') /\
    member_update t reward m w w' /\
    wf_ensemble Mn H D Tn (self w') /\
    same_config (ES.obj (self w)) (ES.obj (self w')).
Proof.
  intros Hwf Hm Ht Hbs Hnv Hpv. destruct w as [[o h] g l]. simpl in *.
  destruct (yields_randn (S:=ES.state) (World (ES.State o h) g l))
    as (z & [s1 g1 l1] & Ez & Hs1 & _).
  simpl in Hs1. subst s1.
  assert (Smrh : shape2 Mn Tn (ES.model_reward_hist o)).
  { destruct Hwf as (? & ? & ? & ? & Hwf). simpl in Hwf. apply Hwf. }
  destruct (lookup_lt_is_Some_2 (ES.model_reward_hist o) (Z.to_nat m))
    as [rewards Hrow]; [destruct Smrh; lia|].
  set (mrh' := <[Z.to_nat m :=
                  <[Z.to_nat t := reward + sqrt (ES.noise_var o) * z]> rewards]>
                 (ES.model_reward_hist o)).
  assert (Wf1 : wf_ensemble Mn H D Tn
                  (ES.State (ES.set_model_reward_hist mrh' o) h)).
  { destruct Hwf as (a1 & a2 & p1 & p2 & Hwf). simpl in Hwf.
    exists a1, a2, p1, p2. simpl.
    repeat (split; [apply Hwf|]).
    apply shape2_insert; [exact Smrh|]. rewrite length_insert.
    eapply shape2_elem; [exact Smrh|]. eapply list_elem_of_lookup_2, Hrow. }
  destruct (ensemble_update_model_spec Mn H D Tn m t
              (World (ES.State (ES.set_model_reward_hist mrh' o) h) g1 l1)
              Wf1 Hm Ht Hbs ltac:(simpl; lra) Hpv)
    as (w' & E & S & Wf & O).
  simpl in O. exists w'. split; [|split; [|split]].
  - apply run_of_wp. unfold ES.attr, ES.set. wp_steps. simpl.
    rewrite np_sqrt_ok by lra. wp_steps.
    eapply wp_run; [exact Ez|]. wp_steps. simpl.
    rewrite (setitem2_ok _ _ _ _ Mn Tn rewards) by assumption.
    wp_steps. simpl. fold mrh'.
    eapply wp_run; [exact E|]. split; reflexivity.
  - exists z, (World (ES.State o h) g1 l1), rewards.
    split; [exact Ez|]. split; [exact Hrow|]. exact S.
  - exact Wf.
  - rewrite O. reflexivity.
Qed.

Lemma ensemble_members_spec Mn H D Tn t reward (members : list Z)
    (w : world G ES.state) :
  wf_ensemble Mn H D Tn (self w) ->
  Forall (fun m => (0 <= m < Z.of_nat Mn)%Z) members ->
  (0 <= t < Z.of_nat Tn)%Z ->
  (0 < ES.batch_size (ES.obj (self w)))%Z ->
  0 < ES.noise_var (ES.obj (self w)) -> ES.prior_var (ES.obj (self w)) <> 0 ->
  exists w',
    for_ members (fun m =>
      nv ← ES.attr ES.noise_var;
      s ← lift (np.sqrt nv);
      z ← rd.randn;
      mrh ← ES.attr ES.model_reward_hist;
      mrh' ← lift (ES.setitem2 mrh m t (reward + s * z));
      _ ← ES.set (ES.set_model_reward_hist mrh');
      ES._update_model m t) w = (Ok tt, w') /\
    chain (member_update t reward) members w w' /\
    wf_ensemble Mn H D Tn (self w') /\
    same_config (ES.obj (self w)) (ES.obj (self w')).
Proof.
  intros Hwf Hmem Ht. revert w Hwf.
  induction Hmem as [|m members Hm _ IH]; intros w Hwf Hbs Hnv Hpv.
  - exists w. repeat split; auto; [constructor|apply same_config_refl].
  - destruct (ensemble_member_spec Mn H D Tn m t reward w Hwf Hm Ht Hbs Hnv Hpv)
      as (w1 & E1 & S1 & Wf1 & C1).
    destruct (IH w1 Wf1) as (w2 & E2 & S2 & Wf2 & C2);
      try (rewrite C1; simpl; assumption).
    exists w2. split; [|split; [|split]].
    + change (for_ (m :: members) ?body) with (_ ← body m; for_ members body).
      unfold mbind at 1, Py_bind at 1. rewrite E1. exact E2.
    + econstructor; eauto.
    + exact Wf2.
    + eapply same_config_trans; eauto.
Qed.
End EnsembleUpdate.

Lemma range_bounds n : Forall (fun m => (0 <= m < Z.of_nat (Z.to_nat n))%Z) (np.range n).
Proof.
  unfold np.range. apply Forall_fmap, Forall_forall. intros i Hi. simpl.
  apply elem_of_seq in Hi. lia.
Qed.

Section EnsembleObservation.
Context {G : Type} {RS : RandomSource G}.

Lemma ensemble_update_observation_spec Mn H D Tn t action reward
    (w : world G ES.state) :
  let o := ES.obj (self w) in
  wf_ensemble Mn H D Tn (self w) -> ES.M o = Z.of_nat Mn ->
  Forall (fun x => length x = D) (ES.actions o) ->
  (0 <= action < Z.of_nat (length (ES.actions o)))%Z ->
  (0 <= t < Z.of_nat Tn)%Z -> (0 < ES.batch_size o)%Z ->
  0 < ES.noise_var o -> ES.prior_var o <> 0 ->
  exists row w1 w',
    ES.actions o !! Z.to_nat action = Some row /\
    chain (member_update t reward) (np.range (ES.M o))
      (World (ES.State
                (ES.set_action_hist (<[Z.to_nat t := row]> (ES.action_hist o)) o)
                (ES.heap (self w)))
             (gen w) (log w))
      w1 /\
    w' = World (ES.State (ES.set_lr (ES.lr o * ES.lr_decay o) (ES.obj (self w1)))
                  (ES.heap (self w1)))
           (gen w1) (log w1) /\
    ES.update_observation t action reward w = (Ok tt, w') /\
    wf_ensemble Mn H D Tn (self w').
Proof.
  intros o Hwf HM Hacts Haction Ht Hbs Hnv Hpv. subst o.
  destruct w as [[o h] g l]. simpl in *.
  destruct (getitem_ok (ES.actions o) action Haction) as (row & Erow & Hrow).
  assert (Lrow : length row = D).
  { rewrite Forall_forall in Hacts. apply Hacts.
    eapply list_elem_of_lookup_2, Hrow. }
  assert (Sah : shape2 Tn D (ES.action_hist o)).
  { destruct Hwf as (? & ? & ? & ? & Hwf). simpl in Hwf. apply Hwf. }
  set (ah' := <[Z.to_nat t := row]> (ES.action_hist o)).
  assert (Wf1 : wf_ensemble Mn H D Tn (ES.State (ES.set_action_hist ah' o) h)).
  { destruct Hwf as (a1 & a2 & p1 & p2 & Hwf). simpl in Hwf.
    exists a1, a2, p1, p2. simpl.
    do 10 (split; [apply Hwf|]). split; [|apply Hwf].
    apply shape2_insert; assumption. }
  destruct (ensemble_members_spec Mn H D Tn t reward (np.range (ES.M o))
              (World (ES.State (ES.set_action_hist ah' o) h) g l) Wf1)
    as ([[o1 h1] g1 l1] & E1 & C1 & Wf2 & Cfg); simpl; auto.
  { rewrite HM. pose proof (range_bounds (Z.of_nat Mn)) as Hr.
    rewrite Nat2Z.id in Hr. exact Hr. }
  simpl in *.
  exists row, (World (ES.State o1 h1) g1 l1),
    (World (ES.State (ES.set_lr (ES.lr o * ES.lr_decay o) o1) h1) g1 l1).
  split; [exact Hrow|]. split; [exact C1|]. split; [reflexivity|]. split.
  - apply run_of_wp. unfold ES.update_observation, ES.attr, ES.set.
    wp_steps. simpl. rewrite Erow. wp_steps. simpl.
    rewrite (setitem_row_ok _ _ _ Tn D) by (auto; lia). wp_steps. simpl.
    fold ah'. eapply wp_run; [exact E1|]. wp_steps. simpl.
    rewrite Cfg. simpl. split; reflexivity.
  - destruct Wf2 as (a1 & a2 & p1 & p2 & Wf2). simpl in Wf2.
    exists a1, a2, p1, p2. simpl. exact Wf2.
Qed.
End EnsembleObservation.

(** ** Action selection *)

(** [i] is the position of the first maximum of [l]. *)
Definition first_max (l : vec) (i : nat) : Prop :=
  exists v, l !! i = Some v /\ Forall (fun x => x <= v) l /\
            forall j x, (j < i)%nat -> l !! j = Some x -> x < v.

Lemma argmax_from_spec best besti i (l : vec) :
  (np.argmax_from best besti i l = besti /\ Forall (fun x => x <= best) l) \/
  (exists k v, np.argmax_from best besti i l = (i + k)%nat /\ l !! k = Some v /\
               best < v /\ Forall (fun x => x <= v) l /\
               forall j x, (j < k)%nat -> l !! j = Some x -> x < v).
Proof.
  revert best besti i. induction l as [|x l IH]; intros best besti i; simpl.
  - left. split; [reflexivity|constructor].
  - destruct (Rlt_dec best x) as [Hlt|Hge].
    + right. destruct (IH x i (S i)) as [[Er Hall]|(k & v & Er & Hk & Hv & Hall & Hfirst)].
      * exists O, x. rewrite Er. repeat split; auto.
        -- constructor; [lra|exact Hall].
        -- intros j y Hj. lia.
      * exists (S k), v. rewrite Er. split; [lia|]. split; [exact Hk|].
        split; [lra|]. split; [constructor; [lra|exact Hall]|].
        intros [|j] y Hj Hy; simpl in Hy.
        -- inversion Hy; subst. exact Hv.
        -- apply (Hfirst j); [lia|exact Hy].
    + destruct (IH best besti (S i)) as [[Er Hall]|(k & v & Er & Hk & Hv & Hall & Hfirst)].
      * left. split; [exact Er|]. constructor; [lra|exact Hall].
      * right. exists (S k), v. rewrite Er. split; [lia|]. split; [exact Hk|].
        split; [exact Hv|]. split; [constructor; [lra|exact Hall]|].
        intros [|j] y Hj Hy; simpl in Hy.
        -- inversion Hy; subst. lra.
        -- apply (Hfirst j); [lia|exact Hy].
Qed.

Lemma argmax_ok (l : vec) :
  l <> [] ->
  exists i, np.argmax l = Ok (Z.of_nat i) /\ (i < length l)%nat /\ first_max l i.
Proof.
  destruct l as [|x l]; [congruence|]. intros _. unfold np.argmax.
  exists (np.argmax_from x 0 1 l). split; [reflexivity|].
  destruct (argmax_from_spec x 0 1 l)
    as [[Er Hall]|(k & v & Er & Hk & Hv & Hall & Hfirst)]; rewrite Er.
  - split; [simpl; lia|]. exists x. repeat split.
    + constructor; [lra|exact Hall].
    + intros j y Hj. lia.
  - split; [simpl; apply lookup_lt_Some in Hk; lia|].
    exists v. split; [exact Hk|]. split; [constructor; [lra|exact Hall]|].
    intros [|j] y Hj Hy; simpl in Hy.
    + inversion Hy; subst. exact Hv.
    + apply (Hfirst j); [lia|exact Hy].
Qed.

(** The weights and the action set have matching shapes, and [num_actions]
    is the number of actions, as the constructor leaves them. *)
Definition wf_policy (H D : nat) (a : agent) : Prop :=
  shape2 H D (W1 a) /\ length (W2 a) = H /\
  Forall (fun x => length x = D) (actions a) /\
  num_actions a = Z.of_nat (length (actions a)) /\ actions a <> [].

Section PickAction.
Context {G : Type} {RS : RandomSource G}.

(** The exploit branch of the epsilon-greedy classes. *)
Definition exploit (a : agent) : result Z :=
  '(model_out, _) ← TwoLayerNNEpsilonGreedy.forward (leaky_coeff a) (W1 a) (W2 a)
                      (actions a);
  np.argmax model_out.

Lemma exploit_ok H D (a : agent) :
  wf_policy H D a ->
  exists out c i,
    TwoLayerNNEpsilonGreedy.forward (leaky_coeff a) (W1 a) (W2 a) (actions a)
      = Ok (out, c) /\
    exploit a = Ok (Z.of_nat i) /\ (i < length (actions a))%nat /\ first_max out i.
Proof.
  intros (HW1 & HW2 & Hacts & Hnum & Hne). unfold exploit.
  rewrite (epsilon_greedy_forward_ok _ H D (length (actions a)))
    by (first [assumption | split; [reflexivity|assumption]]).
  set (out := readout_of _ _).
  assert (Lout : length out = length (actions a)).
  { unfold out, readout_of, relu_of, affine_of. rewrite !length_fmap. reflexivity. }
  destruct (argmax_ok out) as (i & Ei & Hi & Hmax).
  { intros E. rewrite E in Lout. destruct (actions a); [congruence|discriminate]. }
  eexists out, _, i. split; [reflexivity|]. simpl. rewrite Ei.
  split; [reflexivity|]. split; [lia|exact Hmax].
Qed.

Lemma epsilon_greedy_pick_exploit obs (w : world G agent) u g' :
  next_rand (gen w) = (u, g') -> ~ u < epsilon_param (self w) ->
  TwoLayerNNEpsilonGreedy.pick_action obs w
  = (exploit (self w), World (self w) g' (Uniform u :: log w)).
Proof.
  intros Eu Hu. apply run_of_wp. unfold TwoLayerNNEpsilonGreedy.pick_action.
  wp_steps. eapply wp_run; [unfold rd.rand; rewrite Eu; reflexivity|].
  wp_steps. simpl. unfold np.ltb. destruct (Rlt_dec u _); [contradiction|].
  unfold TwoLayerNNEpsilonGreedy._model_forward. wp_steps. simpl.
  unfold exploit.
  destruct (TwoLayerNNEpsilonGreedy.forward _ _ _ _) as [[out c]| |];
    unfold wp, lift, bind_post; simpl; auto.
  unfold wp. simpl. auto.
Qed.

Lemma epsilon_greedy_pick_explore obs (w : world G agent) u g' :
  next_rand (gen w) = (u, g') -> u < epsilon_param (self w) ->
  TwoLayerNNEpsilonGreedy.pick_action obs w
  = rd.randint (num_actions (self w)) (World (self w) g' (Uniform u :: log w)).
Proof.
  intros Eu Hu. unfold TwoLayerNNEpsilonGreedy.pick_action.
  unfold mbind at 1, Py_bind at 1. unfold rd.rand at 1. rewrite Eu.
  unfold mbind at 1, Py_bind at 1. unfold get at 1. simpl.
  unfold np.ltb. destruct (Rlt_dec u _); [|contradiction].
  reflexivity.
Qed.
End PickAction.

Section PickRange.
Context {G : Type} {RS : RandomSource G}.

(** The two branches of the epsilon-greedy policies, [u] and the threshold
    being whatever they are. *)
Lemma epsilon_greedy_branches_in_range H D (b : bool) (w : world G agent) :
  wf_policy H D (self w) ->
  wp (if b then n ← get num_actions; rd.randint n
      else acts ← get actions;
           '(model_out, _) ← TwoLayerNNEpsilonGreedy._model_forward acts;
           lift (np.argmax model_out))
     (fun r _ => exists i, r = Ok i /\ (0 <= i < num_actions (self w))%Z) w.
Proof.
  intros Hwf. pose proof Hwf as (HW1 & HW2 & Hacts & Hnum & Hne).
  assert (Hpos : (0 < num_actions (self w))%Z).
  { rewrite Hnum. destruct (actions (self w)); [congruence|simpl; lia]. }
  destruct b.
  - wp_steps. eapply wp_yields; [apply yields_randint, Hpos|].
    intros v w1 _ Hv. exists v. split; [reflexivity|exact Hv].
  - unfold TwoLayerNNEpsilonGreedy._model_forward. wp_steps.
    destruct (exploit_ok H D (self w) Hwf) as (out & c & i & Ef & Ee & Hi & _).
    unfold exploit in Ee. rewrite Ef in Ee. simpl in Ee.
    rewrite Ef. wp_steps. apply wp_lift. exists (Z.of_nat i).
    split; [exact Ee|]. lia.
Qed.

Lemma epsilon_greedy_pick_in_range H D obs (w : world G agent) :
  wf_policy H D (self w) ->
  exists i, fst (TwoLayerNNEpsilonGreedy.pick_action obs w) = Ok i /\
            (0 <= i < num_actions (self w))%Z.
Proof.
  intros Hwf. change (wp (TwoLayerNNEpsilonGreedy.pick_action obs)
    (fun r _ => exists i, r = Ok i /\ (0 <= i < num_actions (self w))%Z) w).
  unfold TwoLayerNNEpsilonGreedy.pick_action. wp_steps.
  eapply wp_yields; [apply yields_rand|]. intros u w1 Hs _. wp_steps.
  rewrite <- Hs. apply (epsilon_greedy_branches_in_range H D).
  rewrite Hs. exact Hwf.
Qed.

Lemma annealing_pick_in_range H D obs (w : world G agent) :
  wf_policy H D (self w) -> epsilon_param (self w) + IZR obs <> 0 ->
  exists i, fst (TwoLayerNNEpsilonGreedyAnnealing.pick_action obs w) = Ok i /\
            (0 <= i < num_actions (self w))%Z.
Proof.
  intros Hwf He. change (wp (TwoLayerNNEpsilonGreedyAnnealing.pick_action obs)
    (fun r _ => exists i, r = Ok i /\ (0 <= i < num_actions (self w))%Z) w).
  unfold TwoLayerNNEpsilonGreedyAnnealing.pick_action. wp_steps.
  rewrite truediv_ok by exact He. wp_steps.
  eapply wp_yields; [apply yields_rand|]. intros u w1 Hs _. wp_steps.
  rewrite <- Hs. apply (epsilon_greedy_branches_in_range H D).
  rewrite Hs. exact Hwf.
Qed.

Lemma dropout_pick_in_range H D obs (w : world G agent) :
  wf_policy H D (self w) ->
  exists i, fst (TwoLayerNNDropout.pick_action obs w) = Ok i /\
            (0 <= i < num_actions (self w))%Z.
Proof.
  intros (HW1 & HW2 & Hacts & Hnum & Hne).
  change (wp (TwoLayerNNDropout.pick_action obs)
    (fun r _ => exists i, r = Ok i /\ (0 <= i < num_actions (self w))%Z) w).
  destruct w as [a g l]. simpl in *.
  set (B := length (actions a)).
  assert (HB : (0 < B)%nat) by (unfold B; destruct (actions a); [congruence|simpl; lia]).
  assert (HX : shape2 B D (actions a)) by (split; [reflexivity|exact Hacts]).
  destruct (shape2_hidden (leaky_coeff a) B H (W1 a) (actions a)) as [HA HRl];
    [apply HW1|reflexivity|].
  set (Rl := relu_of (leaky_coeff a) (affine_of (W1 a) (actions a))) in *.
  assert (Hcols : length (hd [] Rl) = H) by (eapply shape2_hd; eauto).
  destruct (yields_rand2 (S:=agent) (length Rl) (length (hd [] Rl)) (World a g l))
    as (u & [a1 g1 l1] & Eu & Hs1 & [Su1 Su2] & _).
  simpl in Hs1. subst a1.
  set (mask := map (map (fun x => np.gt x (p a))) u).
  assert (Hm1 : length mask = B).
  { unfold mask. rewrite length_fmap. destruct HRl as [<- _]. exact Su1. }
  assert (Hm2 : Forall (fun r => length r = H) mask).
  { unfold mask. apply Forall_fmap. eapply Forall_impl; [exact Su2|].
    simpl. intros r Hr. rewrite length_fmap. congruence. }
  destruct (dropout_forward_ok (leaky_coeff a) H D B (W1 a) (W2 a) (actions a) mask
              HW1 HW2 HX Hm1 Hm2) as [Eh Er].
  fold Rl in Eh, Er.
  set (out := readout_of (W2 a) (masked Rl mask)) in *.
  assert (Lout : length out = B).
  { unfold out, masked. rewrite length_readout_of, length_zip_with, length_fmap.
    destruct HRl as [-> _]. lia. }
  destruct (argmax_ok out) as (i & Ei & Hi & _).
  { intros E. rewrite E in Lout. simpl in Lout. lia. }
  unfold TwoLayerNNDropout.pick_action, TwoLayerNNDropout._model_forward,
    TwoLayerNNDropout.draw_mask.
  wp_steps. simpl. rewrite Eh. wp_steps.
  eapply wp_run; [exact Eu|]. wp_steps. simpl. fold mask.
  rewrite Er. wp_steps. apply wp_lift.
  exists (Z.of_nat i). split; [exact Ei|]. rewrite Hnum. fold B. lia.
Qed.

Lemma ensemble_pick_in_range Mn H D Tn obs (w : world G ES.state) :
  let o := ES.obj (self w) in
  wf_ensemble Mn H D Tn (self w) -> ES.M o = Z.of_nat Mn -> (0 < Mn)%nat ->
  Forall (fun x => length x = D) (ES.actions o) ->
  ES.num_actions o = Z.of_nat (length (ES.actions o)) -> ES.actions o <> [] ->
  exists i, fst (ES.pick_action obs w) = Ok i /\ (0 <= i < ES.num_actions o)%Z.
Proof.
  intros o (a1 & a2 & p1 & p2 & L1 & L2 & _ & _ & _ & _ & S1 & S2 & _)
    HM HMn Hacts Hnum Hne.
  change (wp (ES.pick_action obs)
    (fun r _ => exists i, r = Ok i /\ (0 <= i < ES.num_actions o)%Z) w).
  subst o. destruct w as [[o h] g l]. simpl in *.
  unfold ES.pick_action, ES._model_forward, ES.attr, ES.load2, ES.load3.
  wp_steps. simpl.
  eapply wp_yields; [apply yields_randint; lia|].
  intros m [[o1 h1] g1 l1] Hs Hm. simpl in Hs. inversion Hs; subst o1 h1.
  wp_steps. simpl.
  assert (D1 : ES.deref3 h (ES.W1 o) = a1) by (unfold ES.deref3; rewrite L1; reflexivity).
  assert (D2 : ES.deref2 h (ES.W2 o) = a2) by (unfold ES.deref2; rewrite L2; reflexivity).
  rewrite D1, D2.
  destruct (getitem_ok a1 m) as (w1m & G1 & K1); [destruct S1; lia|].
  destruct (getitem_ok a2 m) as (w2m & G2 & K2); [destruct S2; lia|].
  rewrite (ensemble_forward_member _ a1 a2 m _ w1m w2m G1 G2).
  rewrite (epsilon_greedy_forward_ok _ H D (length (ES.actions o))).
  2: eapply shape3_lookup; eauto.
  2: eapply shape2_elem; [exact S2|eapply list_elem_of_lookup_2, K2].
  2: split; [reflexivity|exact Hacts].
  set (out := readout_of _ _).
  assert (Lout : length out = length (ES.actions o)).
  { unfold out, readout_of, relu_of, affine_of. rewrite !length_fmap. reflexivity. }
  destruct (argmax_ok out) as (i & Ei & Hi & _).
  { intros E. rewrite E in Lout. destruct (ES.actions o); [congruence|discriminate]. }
  wp_steps. apply wp_lift. exists (Z.of_nat i). split; [exact Ei|]. lia.
Qed.
End PickRange.

(** ** Entries of the regularised step *)

Lemma regularized_sgd1_lookup bs pv t l (W g Wp : vec) i w a b :
  W !! i = Some w -> g !! i = Some a -> Wp !! i = Some b ->
  regularized_sgd1 bs pv t l W g Wp !! i
  = Some (w - l * (a / IZR bs + 2 / (pv * IZR (t + 1)) * (w - b))).
Proof.
  intros HW Hg Hp. unfold regularized_sgd1, zip_with3.
  rewrite !lookup_zip_with, HW, Hg, Hp. reflexivity.
Qed.

Lemma regularized_sgd2_lookup bs pv t l (W g Wp : mat) i j rw rg rp w a b :
  W !! i = Some rw -> g !! i = Some rg -> Wp !! i = Some rp ->
  rw !! j = Some w -> rg !! j = Some a -> rp !! j = Some b ->
  exists row, regularized_sgd2 bs pv t l W g Wp !! i = Some row /\
              row !! j = Some (w - l * (a / IZR bs + 2 / (pv * IZR (t + 1)) * (w - b))).
Proof.
  intros HW Hg Hp Hw Ha Hb. unfold regularized_sgd2, zip_with3.
  rewrite !lookup_zip_with, HW, Hg, Hp. simpl. eexists. split; [reflexivity|].
  apply regularized_sgd1_lookup; assumption.
Qed.

Lemma zeros_like2_lookup (W : mat) i j rw w :
  W !! i = Some rw -> rw !! j = Some w ->
  exists rz, zeros_like2 W !! i = Some rz /\ rz !! j = Some 0.
Proof.
  intros HW Hw. unfold zeros_like2, zeros_like1.
  rewrite list_lookup_fmap, HW. simpl. eexists. split; [reflexivity|].
  rewrite list_lookup_fmap, Hw. reflexivity.
Qed.

(** ** Concrete agents *)

(** One hidden unit, one input, one action, one time step, and a batch size
    of two. *)
Definition small_agent : agent :=
  {| W1 := [[1]]; W2 := [1]; actions := [[1]]; num_actions := 1; T := 1;
     prior_var := 1; noise_var := 1; epsilon_param := 0; p := 1 / 2;
     lr := 1 / 10; num_gradient_steps := 1; batch_size := 2; lr_decay := 1;
     leaky_coeff := 1 / 100; action_hist := [[0]]; reward_hist := [0] |}.

Definition small_world : world (list nat) agent := World small_agent [] [].

Definition small_ensemble : ES.state :=
  ES.State
    {| ES.M := 1; ES.W1_model_prior := 0; ES.W2_model_prior := 1;
       ES.W1 := 2; ES.W2 := 3; ES.actions := [[1]]; ES.num_actions := 1;
       ES.T := 1; ES.prior_var := 1; ES.noise_var := 1; ES.lr := 1 / 10;
       ES.num_gradient_steps := 1; ES.batch_size := 2; ES.lr_decay := 1;
       ES.leaky_coeff := 1 / 100; ES.action_hist := [[0]];
       ES.model_reward_hist := [[0]] |}
    [ES.Arr3 [[[1]]]; ES.Arr2 [[1]]; ES.Arr3 [[[1]]]; ES.Arr2 [[1]]].

Definition small_ensemble_world : world (list nat) ES.state :=
  World small_ensemble [] [].

Lemma small_agent_wf : wf_agent 1 1 1 small_agent.
Proof. repeat split; repeat constructor. Qed.

Lemma small_agent_wf_policy : wf_policy 1 1 small_agent.
Proof. repeat split; try repeat constructor. discriminate. Qed.

Lemma small_ensemble_wf : wf_ensemble 1 1 1 1 small_ensemble.
Proof.
  exists [[[1]]], [[1]], [[[1]]], [[1]]. simpl.
  repeat split; try reflexivity; try lia; repeat constructor.
Qed.

(** ** The update returns *)

(** [update_observation] of class [k] returns on every well-formed agent,
    also when the batch is larger than the history. *)
Definition update_returns {G} `{RandomSource G} (k : klass G) : Prop :=
  forall (H D Tn : nat) (t action : Z) (reward : R) (w : world G agent),
    wf_agent H D Tn (self w) ->
    Forall (fun x => length x = D) (actions (self w)) ->
    (0 <= action < Z.of_nat (length (actions (self w))))%Z ->
    (0 <= t < Z.of_nat Tn)%Z ->
    (t + 1 < batch_size (self w))%Z ->
    noise_var (self w) <> 0 -> prior_var (self w) <> 0 ->
    fst (TwoLayerNNEpsilonGreedy.update_observation k t action reward w) = Ok tt.

Lemma update_returns_of_total {G} `{RandomSource G} (k : klass G) :
  (forall H D, klass_total H D k) -> update_returns k.
Proof.
  intros Hk H0 D Tn t action reward w Hwf Hacts Ha Ht Hbs Hnv Hpv.
  destruct (update_observation_spec k H0 D Tn t action reward w (Hk H0 D) Hwf Hacts Ha Ht
              ltac:(lia) Hnv Hpv) as (row & w1 & w' & _ & _ & _ & E & _).
  rewrite E. reflexivity.
Qed.

(** C3, as the code has it.  On a well-formed agent (arrays of the
    constructor's shapes, a valid time step and action index, non-zero
    variances; a positive noise variance for the ensemble),
    [update_observation] called with [batch_size > t + 1] does not raise: it
    returns normally, for every agent class.  Minibatch indices are drawn
    with replacement, so a batch larger than the history is no error. *)
Theorem update_returns_when_batch_exceeds_history :
  forall (G : Type) (RS : RandomSource G),
    update_returns TwoLayerNNEpsilonGreedy.class /\
    update_returns TwoLayerNNDropout.class /\
    (forall (Mn H D Tn : nat) (t action : Z) (reward : R) (w : world G ES.state),
       wf_ensemble Mn H D Tn (self w) ->
       ES.M (ES.obj (self w)) = Z.of_nat Mn ->
       Forall (fun x => length x = D) (ES.actions (ES.obj (self w))) ->
       (0 <= action < Z.of_nat (length (ES.actions (ES.obj (self w)))))%Z ->
       (0 <= t < Z.of_nat Tn)%Z ->
       (t + 1 < ES.batch_size (ES.obj (self w)))%Z ->
       0 < ES.noise_var (ES.obj (self w)) -> ES.prior_var (ES.obj (self w)) <> 0 ->
       fst (ES.update_observation t action reward w) = Ok tt).
Proof.
  intros G RS. split; [|split].
  - apply update_returns_of_total. intros H D. apply epsilon_greedy_class_total.
  - apply update_returns_of_total. intros H D. apply dropout_class_total.
  - intros Mn H D Tn t action reward w Hwf HM Hacts Ha Ht Hbs Hnv Hpv.
    destruct (ensemble_update_observation_spec Mn H D Tn t action reward w Hwf HM
                Hacts Ha Ht ltac:(lia) Hnv Hpv) as (row & w1 & w' & _ & _ & _ & E & _).
    rewrite E. reflexivity.
Qed.

Lemma update_returns_when_batch_exceeds_history_witness :
  fst (TwoLayerNNEpsilonGreedy.update_observation TwoLayerNNEpsilonGreedy.class
         0 0 1 small_world) = Ok tt /\
  fst (TwoLayerNNEpsilonGreedy.update_observation TwoLayerNNDropout.class
         0 0 1 small_world) = Ok tt /\
  fst (ES.update_observation 0 0 1 small_ensemble_world) = Ok tt.
Proof.
  destruct (update_returns_when_batch_exceeds_history (list nat) tape_source)
    as (He & Hd & Hens).
  split; [|split].
  - apply (He 1%nat 1%nat 1%nat); simpl;
      first [apply small_agent_wf | lia | lra | repeat constructor].
  - apply (Hd 1%nat 1%nat 1%nat); simpl;
      first [apply small_agent_wf | lia | lra | repeat constructor].
  - apply (Hens 1%nat 1%nat 1%nat 1%nat); simpl;
      first [apply small_ensemble_wf | lia | lra | repeat constructor].
Defined.

(** C3, as the specification words it, fails on the code: at time 0 with a
    batch size of 2 (more than the one observation seen so far) the update
    raises nothing and returns. *)
Lemma update_with_batch_larger_than_history_returns :
  (batch_size small_agent > 0 + 1)%Z /\
  (forall e, fst (TwoLayerNNEpsilonGreedy.update_observation
                    TwoLayerNNEpsilonGreedy.class 0 0 1 small_world) <> Raise e) /\
  fst (TwoLayerNNEpsilonGreedy.update_observation
         TwoLayerNNEpsilonGreedy.class 0 0 1 small_world) = Ok tt.
Proof.
  assert (E : fst (TwoLayerNNEpsilonGreedy.update_observation
                     TwoLayerNNEpsilonGreedy.class 0 0 1 small_world) = Ok tt).
  { apply (update_returns_of_total TwoLayerNNEpsilonGreedy.class
             (fun H D => epsilon_greedy_class_total H D) 1%nat 1%nat 1%nat); simpl;
      first [apply small_agent_wf | lia | lra | repeat constructor]. }
  split; [simpl; lia|]. split; [|exact E].
  intros e. rewrite E. discriminate.
Qed.

(** ** The regularisation term *)

(** On a well-formed agent of class [k], [_update_model] returns and is
    [num_gradient_steps] regularised steps towards the zero prior. *)
Definition regularized_towards_zero {G} `{RandomSource G} (k : klass G) : Prop :=
  forall (H D Tn : nat) (t : Z) (w : world G agent),
    wf_agent H D Tn (self w) -> (0 <= t < Z.of_nat Tn)%Z ->
    (0 < batch_size (self w))%Z ->
    noise_var (self w) <> 0 -> prior_var (self w) <> 0 ->
    exists w',
      TwoLayerNNEpsilonGreedy._update_model k t w = (Ok tt, w') /\
      steps (sgd_step k t) (Z.to_nat (num_gradient_steps (self w))) w w'.

Lemma regularized_towards_zero_of_total {G} `{RandomSource G} (k : klass G) :
  (forall H D, klass_total H D k) -> regularized_towards_zero k.
Proof.
  intros Hk H0 D Tn t w Hwf Ht Hbs Hnv Hpv.
  destruct (update_model_spec k H0 D Tn t w (Hk H0 D) Hwf Ht Hbs Hnv Hpv)
    as (w' & E & S & _).
  exists w'. split; assumption.
Qed.

(** C2.  Every inner gradient step of an update at time [t] moves each
    weight array [W] to
    [W - lr * (g / batch_size + 2 / (prior_var * (t + 1)) * (W - W_prior))],
    where [g] is the batch-summed gradient returned by the backward pass on
    the minibatch: with [W_prior = 0] for the epsilon-greedy and dropout
    agents ([sgd_step]), and with [W_prior] the member's row of the prior
    arrays for an ensemble member ([ensemble_sgd_step]). *)
Theorem regularization_added_in_every_gradient_step :
  forall (G : Type) (RS : RandomSource G),
    regularized_towards_zero TwoLayerNNEpsilonGreedy.class /\
    regularized_towards_zero TwoLayerNNDropout.class /\
    (forall (Mn H D Tn : nat) (m t : Z) (w : world G ES.state),
       wf_ensemble Mn H D Tn (self w) ->
       (0 <= m < Z.of_nat Mn)%Z -> (0 <= t < Z.of_nat Tn)%Z ->
       (0 < ES.batch_size (ES.obj (self w)))%Z ->
       ES.noise_var (ES.obj (self w)) <> 0 -> ES.prior_var (ES.obj (self w)) <> 0 ->
       exists w',
         ES._update_model m t w = (Ok tt, w') /\
         steps (ensemble_sgd_step m t)
           (Z.to_nat (ES.num_gradient_steps (ES.obj (self w)))) w w').
Proof.
  intros G RS. split; [|split].
  - apply regularized_towards_zero_of_total. intros H D.
    apply epsilon_greedy_class_total.
  - apply regularized_towards_zero_of_total. intros H D.
    apply dropout_class_total.
  - intros Mn H D Tn m t w Hwf Hm Ht Hbs Hnv Hpv.
    destruct (ensemble_update_model_spec Mn H D Tn m t w Hwf Hm Ht Hbs Hnv Hpv)
      as (w' & E & S & _).
    exists w'. split; assumption.
Qed.

Lemma regularization_added_in_every_gradient_step_witness :
  (exists w',
     TwoLayerNNEpsilonGreedy._update_model TwoLayerNNEpsilonGreedy.class 0 small_world
       = (Ok tt, w') /\
     steps (sgd_step TwoLayerNNEpsilonGreedy.class 0) 1 small_world w') /\
  (exists w',
     TwoLayerNNEpsilonGreedy._update_model TwoLayerNNDropout.class 0 small_world
       = (Ok tt, w') /\
     steps (sgd_step TwoLayerNNDropout.class 0) 1 small_world w') /\
  (exists w',
     ES._update_model 0 0 small_ensemble_world = (Ok tt, w') /\
     steps (ensemble_sgd_step 0 0) 1 small_ensemble_world w').
Proof.
  destruct (regularization_added_in_every_gradient_step (list nat) tape_source)
    as (He & Hd & Hens).
  split; [|split].
  - apply (He 1%nat 1%nat 1%nat 0%Z small_world); simpl;
      first [apply small_agent_wf | lia | lra].
  - apply (Hd 1%nat 1%nat 1%nat 0%Z small_world); simpl;
      first [apply small_agent_wf | lia | lra].
  - apply (Hens 1%nat 1%nat 1%nat 1%nat 0%Z 0%Z small_ensemble_world); simpl;
      first [apply small_ensemble_wf | lia | lra].
Defined.

(** ** The ensemble's update *)

(** A step of member [m] leaves the rows of the other members in both live
    weight arrays, the priors, and every attribute as they were. *)
Lemma ensemble_sgd_step_frame {G} `{RandomSource G} Mn H0 D Tn m t
    (w w' : world G ES.state) :
  wf_ensemble Mn H0 D Tn (self w) -> ensemble_sgd_step m t w w' ->
  ES.obj (self w') = ES.obj (self w) /\
  (forall j, j <> Z.to_nat m ->
     ES.deref3 (ES.heap (self w')) (ES.W1 (ES.obj (self w))) !! j
       = ES.deref3 (ES.heap (self w)) (ES.W1 (ES.obj (self w))) !! j /\
     ES.deref2 (ES.heap (self w')) (ES.W2 (ES.obj (self w))) !! j
       = ES.deref2 (ES.heap (self w)) (ES.W2 (ES.obj (self w))) !! j) /\
  ES.deref3 (ES.heap (self w')) (ES.W1_model_prior (ES.obj (self w)))
    = ES.deref3 (ES.heap (self w)) (ES.W1_model_prior (ES.obj (self w))) /\
  ES.deref2 (ES.heap (self w')) (ES.W2_model_prior (ES.obj (self w)))
    = ES.deref2 (ES.heap (self w)) (ES.W2_model_prior (ES.obj (self w))).
Proof.
  intros (a1 & a2 & p1 & p2 & L1 & L2 & L3 & L4 & N1 & N2 & _)
    (bi & w1 & ab & rw & rb & out & c & dW1 & dW2 & w1m & w2m & w1pm & w2pm & Hs).
  destruct Hs as (_ & _ & _ & _ & _ & _ & _ & _ & _ & _ & _ & ->). simpl.
  assert (N12 : ES.W1 (ES.obj (self w)) <> ES.W2 (ES.obj (self w)))
    by (intros E; rewrite E in L1; congruence).
  assert (N14 : ES.W1 (ES.obj (self w)) <> ES.W2_model_prior (ES.obj (self w)))
    by (intros E; rewrite E in L1; congruence).
  assert (N23 : ES.W2 (ES.obj (self w)) <> ES.W1_model_prior (ES.obj (self w)))
    by (intros E; rewrite E in L2; congruence).
  split; [reflexivity|]. unfold ES.deref3, ES.deref2. split; [|split].
  - intros j Hj.
    rewrite (list_lookup_insert_ne _ (ES.W2 _) (ES.W1 _)) by (apply not_eq_sym, N12).
    rewrite list_lookup_insert_eq by (eapply lookup_lt_Some, L1).
    rewrite list_lookup_insert_eq
      by (rewrite length_insert; eapply lookup_lt_Some, L2).
    rewrite L1, L2. rewrite !list_lookup_insert_ne by (apply not_eq_sym, Hj).
    split; reflexivity.
  - rewrite !list_lookup_insert_ne by assumption. reflexivity.
  - rewrite !list_lookup_insert_ne by assumption. reflexivity.
Qed.

(** C5.  On a well-formed ensemble, [update_observation(t, action, reward)]
    returns, and between recording the action and decaying the learning rate
    it does, for the members [0, ..., M-1] in turn ([member_update]): one
    fresh draw [z] of the normal source, [reward + sqrt(noise_var) * z]
    stored at [model_reward_hist[m][t]], then the regularised SGD steps of
    member [m], whose minibatch rewards are read from row [m] of
    [model_reward_hist] and which write row [m] of the live weights only
    ([ensemble_sgd_step]). *)
Theorem ensemble_update_perturbs_and_trains_each_member :
  forall (G : Type) (RS : RandomSource G) (Mn H D Tn : nat) (t action : Z)
         (reward : R) (w : world G ES.state),
    let o := ES.obj (self w) in
    wf_ensemble Mn H D Tn (self w) -> ES.M o = Z.of_nat Mn ->
    Forall (fun x => length x = D) (ES.actions o) ->
    (0 <= action < Z.of_nat (length (ES.actions o)))%Z ->
    (0 <= t < Z.of_nat Tn)%Z -> (0 < ES.batch_size o)%Z ->
    0 < ES.noise_var o -> ES.prior_var o <> 0 ->
    exists row w1 w',
      ES.update_observation t action reward w = (Ok tt, w') /\
      ES.actions o !! Z.to_nat action = Some row /\
      chain (member_update t reward) (np.range (ES.M o))
        (World (ES.State
                  (ES.set_action_hist (<[Z.to_nat t := row]> (ES.action_hist o)) o)
                  (ES.heap (self w)))
               (gen w) (log w))
        w1 /\
      w' = World (ES.State (ES.set_lr (ES.lr o * ES.lr_decay o) (ES.obj (self w1)))
                    (ES.heap (self w1)))
             (gen w1) (log w1).
Proof.
  intros G RS Mn H D Tn t action reward w o Hwf HM Hacts Ha Ht Hbs Hnv Hpv.
  destruct (ensemble_update_observation_spec Mn H D Tn t action reward w Hwf HM
              Hacts Ha Ht Hbs Hnv Hpv) as (row & w1 & w' & Hrow & C & Ew & E & _).
  exists row, w1, w'. auto.
Qed.

Lemma ensemble_update_perturbs_and_trains_each_member_witness :
  exists row w1 w',
    ES.update_observation 0 0 1 small_ensemble_world = (Ok tt, w') /\
    ES.actions (ES.obj small_ensemble) !! Z.to_nat 0 = Some row /\
    chain (member_update 0 1) (np.range (ES.M (ES.obj small_ensemble)))
      (World (ES.State
                (ES.set_action_hist
                   (<[Z.to_nat 0 := row]> (ES.action_hist (ES.obj small_ensemble)))
                   (ES.obj small_ensemble))
                (ES.heap small_ensemble))
             [] [])
      w1 /\
    w' = World (ES.State
                  (ES.set_lr (ES.lr (ES.obj small_ensemble)
                              * ES.lr_decay (ES.obj small_ensemble))
                     (ES.obj (self w1)))
                  (ES.heap (self w1)))
           (gen w1) (log w1).
Proof.
  apply (ensemble_update_perturbs_and_trains_each_member (list nat) tape_source
           1%nat 1%nat 1%nat 1%nat 0%Z 0%Z 1 small_ensemble_world); simpl;
    first [apply small_ensemble_wf | lia | lra | repeat constructor].
Defined.

(** ** The learning rate *)

(** Two hidden units and two actions over two time steps; every update runs
    two gradient steps and halves the learning rate. *)
Definition decaying_agent : agent :=
  {| W1 := [[1]; [1 / 2]]; W2 := [1; 1]; actions := [[1]; [2]]; num_actions := 2;
     T := 2; prior_var := 1; noise_var := 1; epsilon_param := 0; p := 1 / 2;
     lr := 1 / 10; num_gradient_steps := 2; batch_size := 2; lr_decay := 1 / 2;
     leaky_coeff := 1 / 100; action_hist := [[0]; [0]]; reward_hist := [0; 0] |}.

Definition decaying_world : world (list nat) agent := World decaying_agent [] [].

(** The same for an ensemble of two members. *)
Definition decaying_ensemble : ES.state :=
  ES.State
    {| ES.M := 2; ES.W1_model_prior := 0; ES.W2_model_prior := 1;
       ES.W1 := 2; ES.W2 := 3; ES.actions := [[1]; [2]]; ES.num_actions := 2;
       ES.T := 2; ES.prior_var := 1; ES.noise_var := 1; ES.lr := 1 / 10;
       ES.num_gradient_steps := 2; ES.batch_size := 2; ES.lr_decay := 1 / 2;
       ES.leaky_coeff := 1 / 100; ES.action_hist := [[0]; [0]];
       ES.model_reward_hist := [[0; 0]; [0; 0]] |}
    [ES.Arr3 [[[1]]; [[1]]]; ES.Arr2 [[1]; [1]];
     ES.Arr3 [[[1]]; [[1]]]; ES.Arr2 [[1]; [1]]].

Definition decaying_ensemble_world : world (list nat) ES.state :=
  World decaying_ensemble [] [].

Lemma decaying_agent_wf : wf_agent 2 1 2 decaying_agent.
Proof. repeat split; repeat constructor. Qed.

Lemma decaying_ensemble_wf : wf_ensemble 2 1 1 2 decaying_ensemble.
Proof.
  exists [[[1]]; [[1]]], [[1]; [1]], [[[1]]; [[1]]], [[1]; [1]]. simpl.
  repeat split; try reflexivity; try lia; repeat constructor.
Qed.

(** The gradient steps of an update leave the learning rate alone. *)
Lemma sgd_steps_rate {G} {RS : RandomSource G} (k : klass G) t n
    (w w' : world G agent) :
  steps (sgd_step k t) n w w' -> lr (self w') = lr (self w).
Proof.
  intros S. induction S as [w|n w w1 w2 Hs _ IH]; [reflexivity|].
  rewrite IH.
  destruct Hs as (bi & u1 & ab & rb & out & c & u2 & dW1 & dW2 & u3 &
                  _ & _ & _ & _ & _ & _ & ->).
  reflexivity.
Qed.

Lemma ensemble_sgd_steps_obj {G} {RS : RandomSource G} m t n
    (w w' : world G ES.state) :
  steps (ensemble_sgd_step m t) n w w' -> ES.obj (self w') = ES.obj (self w).
Proof.
  intros S. induction S as [w|n w w1 w2 Hs _ IH]; [reflexivity|].
  rewrite IH.
  destruct Hs as (bi & u1 & ab & rs & rb & out & c & dW1 & dW2 &
                  w1m & w2m & w1pm & w2pm &
                  _ & _ & _ & _ & _ & _ & _ & _ & _ & _ & _ & ->).
  reflexivity.
Qed.

(** Neither do the updates of the members of the ensemble. *)
Lemma member_chain_rate {G} {RS : RandomSource G} t reward ms
    (w w' : world G ES.state) :
  chain (member_update t reward) ms w w' ->
  ES.lr (ES.obj (self w')) = ES.lr (ES.obj (self w)).
Proof.
  intros C. induction C as [w|m ms w w1 w2 Hm _ IH]; [reflexivity|].
  rewrite IH.
  destruct Hm as (z & u1 & rewards & _ & _ & S).
  rewrite (ensemble_sgd_steps_obj _ _ _ _ _ S). reflexivity.
Qed.

(** The learning rate of an agent of class [k] over one call of
    [update_observation]:
    - a call on a well-formed agent, with a valid action and time step, a
      positive [batch_size] and non-zero variances, returns; the learning
      rate is still the one of the call's start when the
      [num_gradient_steps] gradient steps are over, and is that rate times
      [lr_decay] in the agent the call leaves;
    - a call that raises an exception leaves the rate as it was;
    - no gradient step and no call of [_update_model] changes the rate,
      whatever its outcome. *)
Definition decays_once {G} `{RandomSource G} (k : klass G) : Prop :=
  (forall (H D Tn : nat) (t action : Z) (reward : R) (w : world G agent),
     wf_agent H D Tn (self w) ->
     Forall (fun x => length x = D) (actions (self w)) ->
     (0 <= action < Z.of_nat (length (actions (self w))))%Z ->
     (0 <= t < Z.of_nat Tn)%Z -> (0 < batch_size (self w))%Z ->
     noise_var (self w) <> 0 -> prior_var (self w) <> 0 ->
     exists row w1 w',
       TwoLayerNNEpsilonGreedy.update_observation k t action reward w = (Ok tt, w') /\
       actions (self w) !! Z.to_nat action = Some row /\
       steps (sgd_step k t) (Z.to_nat (num_gradient_steps (self w)))
         (World (recorded t row reward (self w)) (gen w) (log w)) w1 /\
       lr (self w1) = lr (self w) /\
       lr (self w') = lr (self w) * lr_decay (self w)) /\
  (forall (t action : Z) (reward : R) (w : world G agent) (e : exn),
     fst (TwoLayerNNEpsilonGreedy.update_observation k t action reward w) = Raise e ->
     lr (self (snd (TwoLayerNNEpsilonGreedy.update_observation k t action reward w)))
     = lr (self w)) /\
  (forall t w0, lr (self (snd (TwoLayerNNEpsilonGreedy.gradient_step k t w0)))
                = lr (self w0)) /\
  (forall t w0, lr (self (snd (TwoLayerNNEpsilonGreedy._update_model k t w0)))
                = lr (self w0)).

Lemma decays_once_of_total {G} `{RandomSource G} (k : klass G) :
  (forall H D, klass_total H D k) -> klass_keeps (on_self only_weights) k ->
  decays_once k.
Proof.
  intros Hk Hkk. split; [|split; [|split]].
  - intros H0 D Tn t action reward w Hwf Hacts Ha Ht Hbs Hnv Hpv.
    destruct (update_observation_spec k H0 D Tn t action reward w (Hk H0 D) Hwf
                Hacts Ha Ht Hbs Hnv Hpv) as (row & w1 & w' & Hrow & S & Ew & E & _).
    exists row, w1, w'.
    pose proof (sgd_steps_rate k t _ _ _ S) as L. simpl in L.
    repeat split; try assumption.
    subst w'. reflexivity.
  - intros t action reward w e E.
    pose proof (update_observation_lr k t action reward w Hkk) as L.
    unfold wp in L.
    destruct (TwoLayerNNEpsilonGreedy.update_observation k t action reward w)
      as [res w'].
    simpl in *. subst res. exact L.
  - intros t w0.
    apply (only_weights_lr _ _ (gradient_step_only_weights k t Hkk w0)).
  - intros t w0.
    apply (only_weights_lr _ _ (update_model_only_weights k t Hkk w0)).
Qed.

(** C7.  [update_observation] multiplies the learning rate by [lr_decay]
    exactly once, as its last statement.  For the epsilon-greedy and the
    dropout agent, and for the ensemble: a call on a well-formed agent with a
    valid action and time step, a positive batch size and usable variances
    returns, the rate is unchanged when all gradient steps of the call (of
    every member, for the ensemble) are over, and the agent the call leaves
    has the rate times [lr_decay]; a call that raises an exception leaves
    the rate as it was; and no gradient step or [_update_model] call, of any
    member, ever changes it. *)
Theorem learning_rate_decays_once_per_update :
  forall (G : Type) (RS : RandomSource G),
    decays_once TwoLayerNNEpsilonGreedy.class /\
    decays_once TwoLayerNNDropout.class /\
    (forall (Mn H D Tn : nat) (t action : Z) (reward : R) (w : world G ES.state),
       let o := ES.obj (self w) in
       wf_ensemble Mn H D Tn (self w) -> ES.M o = Z.of_nat Mn ->
       Forall (fun x => length x = D) (ES.actions o) ->
       (0 <= action < Z.of_nat (length (ES.actions o)))%Z ->
       (0 <= t < Z.of_nat Tn)%Z -> (0 < ES.batch_size o)%Z ->
       0 < ES.noise_var o -> ES.prior_var o <> 0 ->
       exists row w1 w',
         ES.update_observation t action reward w = (Ok tt, w') /\
         ES.actions o !! Z.to_nat action = Some row /\
         chain (member_update t reward) (np.range (ES.M o))
           (World (ES.State
                     (ES.set_action_hist (<[Z.to_nat t := row]> (ES.action_hist o)) o)
                     (ES.heap (self w)))
                  (gen w) (log w))
           w1 /\
         ES.lr (ES.obj (self w1)) = ES.lr o /\
         ES.lr (ES.obj (self w')) = ES.lr o * ES.lr_decay o) /\
    (forall (t action : Z) (reward : R) (w : world G ES.state) (e : exn),
       fst (ES.update_observation t action reward w) = Raise e ->
       ES.lr (ES.obj (self (snd (ES.update_observation t action reward w))))
       = ES.lr (ES.obj (self w))) /\
    (forall m t w0, ES.lr (ES.obj (self (snd (ES.gradient_step m t w0))))
                    = ES.lr (ES.obj (self w0))) /\
    (forall m t w0, ES.lr (ES.obj (self (snd (ES._update_model m t w0))))
                    = ES.lr (ES.obj (self w0))).
Proof.
  intros G RS. split; [|split; [|split; [|split; [|split]]]].
  - apply decays_once_of_total;
      [apply epsilon_greedy_class_total
      |apply epsilon_greedy_class_on_self; apply _].
  - apply decays_once_of_total;
      [apply dropout_class_total
      |apply dropout_class_on_self; apply _].
  - intros Mn H D Tn t action reward w o Hwf HM Hacts Ha Ht Hbs Hnv Hpv.
    destruct (ensemble_update_observation_spec Mn H D Tn t action reward w Hwf HM
                Hacts Ha Ht Hbs Hnv Hpv) as (row & w1 & w' & Hrow & C & Ew & E & _).
    exists row, w1, w'.
    pose proof (member_chain_rate _ _ _ _ _ C) as L. simpl in L.
    repeat split; try assumption.
    subst w'. reflexivity.
  - intros t action reward w e E.
    pose proof (ensemble_update_observation_lr t action reward w) as L.
    unfold wp in L.
    destruct (ES.update_observation t action reward w) as [res w'].
    simpl in *. subst res. exact L.
  - intros m t w0. apply (ensemble_gradient_step_same_rate m t w0).
  - intros m t w0. apply (ensemble_update_model_same_rate m t w0).
Qed.

Lemma learning_rate_decays_once_per_update_witness :
  (exists row w1 w',
     TwoLayerNNEpsilonGreedy.update_observation TwoLayerNNEpsilonGreedy.class
       1 1 1 decaying_world = (Ok tt, w') /\
     actions decaying_agent !! Z.to_nat 1 = Some row /\
     steps (sgd_step TwoLayerNNEpsilonGreedy.class 1) 2
       (World (recorded 1 row 1 decaying_agent) [] []) w1 /\
     lr (self w1) = 1 / 10 /\
     lr (self w') = 1 / 10 * (1 / 2)) /\
  (exists row w1 w',
     TwoLayerNNEpsilonGreedy.update_observation TwoLayerNNDropout.class
       1 1 1 decaying_world = (Ok tt, w') /\
     actions decaying_agent !! Z.to_nat 1 = Some row /\
     steps (sgd_step TwoLayerNNDropout.class 1) 2
       (World (recorded 1 row 1 decaying_agent) [] []) w1 /\
     lr (self w1) = 1 / 10 /\
     lr (self w') = 1 / 10 * (1 / 2)) /\
  (exists row w1 w',
     ES.update_observation 1 1 1 decaying_ensemble_world = (Ok tt, w') /\
     ES.actions (ES.obj decaying_ensemble) !! Z.to_nat 1 = Some row /\
     chain (member_update 1 1) (np.range 2)
       (World (ES.State
                 (ES.set_action_hist
                    (<[Z.to_nat 1 := row]> (ES.action_hist (ES.obj decaying_ensemble)))
                    (ES.obj decaying_ensemble))
                 (ES.heap decaying_ensemble))
              [] [])
       w1 /\
     ES.lr (ES.obj (self w1)) = 1 / 10 /\
     ES.lr (ES.obj (self w')) = 1 / 10 * (1 / 2)).
Proof.
  destruct (learning_rate_decays_once_per_update (list nat) tape_source)
    as (He & Hd & Hens & _).
  split; [|split].
  - apply (proj1 He 2%nat 1%nat 2%nat 1%Z 1%Z 1 decaying_world); simpl;
      first [apply decaying_agent_wf | lia | lra | repeat constructor].
  - apply (proj1 Hd 2%nat 1%nat 2%nat 1%Z 1%Z 1 decaying_world); simpl;
      first [apply decaying_agent_wf | lia | lra | repeat constructor].
  - apply (Hens 2%nat 1%nat 1%nat 2%nat 1%Z 1%Z 1 decaying_ensemble_world); simpl;
      first [apply decaying_ensemble_wf | lia | lra | repeat constructor].
Defined.

(** ** The policies *)

(** C8.  With [epsilon_param = 0], [pick_action] of the fixed epsilon-greedy
    agent takes the exploit branch whatever the generator hands out: its
    outcome is that of the forward pass on the action set followed by
    [np.argmax]; on a well-formed agent this is the position of the first
    maximum of the predictions. *)
Theorem zero_epsilon_picks_argmax :
  forall (G : Type) (RS : RandomSource G) (H D : nat) (observation : Z)
         (w : world G agent),
    epsilon_param (self w) = 0 -> wf_policy H D (self w) ->
    fst (TwoLayerNNEpsilonGreedy.pick_action observation w) = exploit (self w) /\
    exists out c i,
      TwoLayerNNEpsilonGreedy.forward (leaky_coeff (self w)) (W1 (self w))
        (W2 (self w)) (actions (self w)) = Ok (out, c) /\
      fst (TwoLayerNNEpsilonGreedy.pick_action observation w) = Ok (Z.of_nat i) /\
      first_max out i.
Proof.
  intros G RS H D obs w Heps Hwf.
  destruct (next_rand (gen w)) as [u g'] eqn:Eu.
  pose proof (next_rand_range (gen w)) as Hu. rewrite Eu in Hu. simpl in Hu.
  assert (E : fst (TwoLayerNNEpsilonGreedy.pick_action obs w) = exploit (self w)).
  { rewrite (epsilon_greedy_pick_exploit obs w u g' Eu); [reflexivity|].
    rewrite Heps. lra. }
  split; [exact E|].
  destruct (exploit_ok H D (self w) Hwf) as (out & c & i & Ef & Ee & _ & Hmax).
  exists out, c, i. rewrite E. auto.
Qed.

Lemma zero_epsilon_picks_argmax_witness :
  fst (TwoLayerNNEpsilonGreedy.pick_action 0 small_world) = exploit small_agent /\
  exists out c i,
    TwoLayerNNEpsilonGreedy.forward (leaky_coeff small_agent) (W1 small_agent)
      (W2 small_agent) (actions small_agent) = Ok (out, c) /\
    fst (TwoLayerNNEpsilonGreedy.pick_action 0 small_world) = Ok (Z.of_nat i) /\
    first_max out i.
Proof.
  apply (zero_epsilon_picks_argmax (list nat) tape_source 1%nat 1%nat 0%Z small_world).
  - reflexivity.
  - apply small_agent_wf_policy.
Defined.

(** C10, as the code has it.  On a well-formed agent with a non-empty action
    set, [pick_action] returns an index [i] with [0 <= i < num_actions] for
    the fixed epsilon-greedy and the dropout agents; for the annealing agent
    when [epsilon_param + t] is not zero; and for the ensemble agent when it
    has at least one member. *)
Theorem pick_action_returns_valid_index :
  forall (G : Type) (RS : RandomSource G) (observation : Z),
    (forall (H D : nat) (w : world G agent),
       wf_policy H D (self w) ->
       (exists i, fst (TwoLayerNNEpsilonGreedy.pick_action observation w) = Ok i /\
                  (0 <= i < num_actions (self w))%Z) /\
       (epsilon_param (self w) + IZR observation <> 0 ->
        exists i, fst (TwoLayerNNEpsilonGreedyAnnealing.pick_action observation w) = Ok i /\
                  (0 <= i < num_actions (self w))%Z) /\
       (exists i, fst (TwoLayerNNDropout.pick_action observation w) = Ok i /\
                  (0 <= i < num_actions (self w))%Z)) /\
    (forall (Mn H D Tn : nat) (w : world G ES.state),
       wf_ensemble Mn H D Tn (self w) ->
       ES.M (ES.obj (self w)) = Z.of_nat Mn -> (0 < Mn)%nat ->
       Forall (fun x => length x = D) (ES.actions (ES.obj (self w))) ->
       ES.num_actions (ES.obj (self w))
         = Z.of_nat (length (ES.actions (ES.obj (self w)))) ->
       ES.actions (ES.obj (self w)) <> [] ->
       exists i, fst (ES.pick_action observation w) = Ok i /\
                 (0 <= i < ES.num_actions (ES.obj (self w)))%Z).
Proof.
  intros G RS obs. split.
  - intros H D w Hwf. split; [|split].
    + apply (epsilon_greedy_pick_in_range H D), Hwf.
    + intros He. apply (annealing_pick_in_range H D); assumption.
    + apply (dropout_pick_in_range H D), Hwf.
  - intros Mn H D Tn w Hwf HM HMn Hacts Hnum Hne.
    apply (ensemble_pick_in_range Mn H D Tn); assumption.
Qed.

Lemma pick_action_returns_valid_index_witness :
  (exists i, fst (TwoLayerNNEpsilonGreedy.pick_action 1 small_world) = Ok i /\
             (0 <= i < num_actions small_agent)%Z) /\
  (exists i, fst (TwoLayerNNEpsilonGreedyAnnealing.pick_action 1 small_world) = Ok i /\
             (0 <= i < num_actions small_agent)%Z) /\
  (exists i, fst (TwoLayerNNDropout.pick_action 1 small_world) = Ok i /\
             (0 <= i < num_actions small_agent)%Z) /\
  (exists i, fst (ES.pick_action 1 small_ensemble_world) = Ok i /\
             (0 <= i < ES.num_actions (ES.obj small_ensemble))%Z).
Proof.
  destruct (pick_action_returns_valid_index (list nat) tape_source 1) as [Hs He].
  destruct (Hs 1%nat 1%nat small_world small_agent_wf_policy) as (H1 & H2 & H3).
  split; [exact H1|]. split; [apply H2; simpl; lra|]. split; [exact H3|].
  apply (He 1%nat 1%nat 1%nat 1%nat small_ensemble_world); simpl;
    first [apply small_ensemble_wf | lia | discriminate | repeat constructor].
Defined.

(** C10, as the specification words it, fails on the code: the annealing
    agent built with the default [epsilon_param = 0.0] and a non-empty action
    set raises [ZeroDivisionError] in [pick_action] at time step 0, where it
    divides [epsilon_param] by [epsilon_param + t]. *)
Lemma annealing_pick_action_raises_at_step_zero :
  actions small_agent <> [] /\ epsilon_param small_agent = 0 /\
  fst (TwoLayerNNEpsilonGreedyAnnealing.pick_action 0 small_world)
    = Raise ZeroDivisionError.
Proof.
  split; [discriminate|]. split; [reflexivity|].
  unfold TwoLayerNNEpsilonGreedyAnnealing.pick_action, mbind, Py_bind, get, lift.
  simpl. unfold np.truediv.
  destruct (Req_dec_T (0 + 0) 0) as [_|Hne]; [reflexivity|].
  exfalso. apply Hne. lra.
Qed.

(** ** The gradient of the loss *)

(** The squared-error loss whose derivative with respect to the prediction
    is [dout = -(2 / noise_var) * (y - out)]. *)
Definition squared_error (noise_var : R) (y out : vec) : R :=
  np.sum (map (fun e => e * e) (zip_with Rminus y out)) / noise_var.

(** The loss of the plain forward pass, as a function of the weights. *)
Definition plain_loss (noise_var leaky_coeff : R) (W1 : mat) (W2 : vec)
    (X : mat) (y : vec) : R :=
  match TwoLayerNNEpsilonGreedy.forward leaky_coeff W1 W2 X with
  | Ok (out, _) => squared_error noise_var y out
  | _ => 0
  end.

(** The loss of the dropout forward pass for a fixed mask. *)
Definition dropout_loss (noise_var leaky_coeff : R) (W1 : mat) (W2 : vec)
    (X : mat) (mask : list (list bool)) (y : vec) : R :=
  match TwoLayerNNDropout.forward leaky_coeff W1 W2 X mask with
  | Ok (out, _) => squared_error noise_var y out
  | _ => 0
  end.

Lemma leaky_relu_pos lc a : lc <= 1 -> 0 <= a -> leaky_relu lc a = a.
Proof.
  intros Hlc Ha. unfold leaky_relu, Rmax.
  destruct (Rle_dec (lc * a) a) as [_|Hn]; [reflexivity|].
  exfalso. apply Hn. nra.
Qed.

Lemma leaky_relu_neg lc a : lc <= 1 -> a <= 0 -> leaky_relu lc a = lc * a.
Proof.
  intros Hlc Ha. unfold leaky_relu, Rmax.
  destruct (Rle_dec (lc * a) a) as [Hle|_]; [|reflexivity].
  nra.
Qed.

Lemma dropout_forward_closed lc H D B (W1 : mat) (W2 : vec) (X : mat)
    (mask : list (list bool)) :
  shape2 H D W1 -> length W2 = H -> shape2 B D X ->
  length mask = B -> Forall (fun r => length r = H) mask ->
  TwoLayerNNDropout.forward lc W1 W2 X mask
  = Ok (readout_of W2 (masked (relu_of lc (affine_of W1 X)) mask),
        (X, affine_of W1 X, relu_of lc (affine_of W1 X), mask,
         masked (relu_of lc (affine_of W1 X)) mask)).
Proof.
  intros HW1 HW2 HX Hm Hmr.
  destruct (dropout_forward_ok lc H D B W1 W2 X mask HW1 HW2 HX Hm Hmr) as [Eh Er].
  unfold TwoLayerNNDropout.forward. rewrite Eh. simpl. rewrite Er. reflexivity.
Qed.

(** The inputs on which the dropout backward pass is run below: the one
    hidden unit is dropped. *)
Definition dropped_unit_cache : TwoLayerNNDropout.cache :=
  ([[1]], [[1 * 1 + 0]], [[leaky_relu (1 / 100) (1 * 1 + 0)]], [[false]],
   [[leaky_relu (1 / 100) (1 * 1 + 0) * 0]]).

Lemma dropped_unit_forward (w : R) :
  TwoLayerNNDropout.forward (1 / 100) [[1]] [w] [[1]] [[false]]
  = Ok ([leaky_relu (1 / 100) (1 * 1 + 0) * 0 * w + 0], dropped_unit_cache).
Proof.
  rewrite (dropout_forward_closed _ 1 1 1); repeat constructor.
Qed.

Lemma dropped_unit_loss (w : R) :
  dropout_loss 1 (1 / 100) [[1]] [w] [[1]] [[false]] [1] = 1.
Proof.
  unfold dropout_loss. rewrite dropped_unit_forward.
  unfold squared_error, np.sum. simpl. lra.
Qed.

Lemma dropped_unit_backward :
  exists dW1,
    TwoLayerNNDropout.backward 1 (1 / 100) [1]
      [leaky_relu (1 / 100) (1 * 1 + 0) * 0 * 1 + 0] dropped_unit_cache [1]
    = Ok (dW1, [- (2 / 1) * (1 - (leaky_relu (1 / 100) (1 * 1 + 0) * 0 * 1 + 0))
                * leaky_relu (1 / 100) (1 * 1 + 0) + 0]).
Proof.
  destruct (dropout_backward_ok 1 (1 / 100) 1 1 1 [1]
              [leaky_relu (1 / 100) (1 * 1 + 0) * 0 * 1 + 0] [1]
              [[1]] [[1 * 1 + 0]] [[leaky_relu (1 / 100) (1 * 1 + 0)]]
              [[leaky_relu (1 / 100) (1 * 1 + 0) * 0]] [[false]])
    as (E & _ & _); try lra; try lia; try reflexivity; repeat constructor.
  eexists. exact E.
Qed.

Lemma small_world_drops_the_unit :
  fst (TwoLayerNNDropout._model_forward [[1]] small_world)
  = Ok ([leaky_relu (1 / 100) (1 * 1 + 0) * 0 * 1 + 0], dropped_unit_cache).
Proof.
  change (wp (TwoLayerNNDropout._model_forward [[1]])
            (fun r _ => r = Ok ([leaky_relu (1 / 100) (1 * 1 + 0) * 0 * 1 + 0],
                                dropped_unit_cache)) small_world).
  unfold TwoLayerNNDropout._model_forward, TwoLayerNNDropout.draw_mask.
  wp_steps. simpl.
  destruct (dropout_forward_ok (1 / 100) 1 1 1 [[1]] [1] [[1]] [[false]])
    as [Eh Er]; try reflexivity; repeat constructor.
  rewrite Eh. wp_steps.
  eapply wp_run; [reflexivity|]. wp_steps. simpl.
  unfold np.gt. destruct (Rlt_dec (1 / 2) 0) as [Hlt|_]; [lra|].
  simpl in Er. rewrite Er. wp_steps. reflexivity.
Qed.

(** C1 on the code.  The dropout agent with one hidden unit, weights
    [W1 = [[1]]], [W2 = [1]], the batch [[[1]]] with target [[1]] and
    [noise_var = 1]: the generator hands out [u = 0 <= p], so the unit is
    dropped and the prediction is [0] whatever [W2] is.  The loss is then
    constant in [W2] and its derivative is [0], while [_model_backward]
    returns [dW2 = [-2]]: it multiplies [dout] by [relu_out] where the
    gradient of the masked pass has [dropout_out]. *)
Theorem dropout_backward_dW2_ignores_mask :
  exists out c dW1 dW2,
    fst (TwoLayerNNDropout._model_forward [[1]] small_world) = Ok (out, c) /\
    TwoLayerNNDropout.forward (1 / 100) [[1]] [1] [[1]] [[false]] = Ok (out, c) /\
    out = [0] /\
    TwoLayerNNDropout.backward 1 (1 / 100) [1] out c [1] = Ok (dW1, dW2) /\
    dW2 = [-2] /\
    derivable_pt_lim
      (fun w => dropout_loss 1 (1 / 100) [[1]] [w] [[1]] [[false]] [1]) 1 0 /\
    ~ derivable_pt_lim
        (fun w => dropout_loss 1 (1 / 100) [[1]] [w] [[1]] [[false]] [1]) 1 (-2).
Proof.
  destruct dropped_unit_backward as (dW1 & Eb).
  assert (Hrelu : leaky_relu (1 / 100) (1 * 1 + 0) = 1).
  { rewrite leaky_relu_pos; lra. }
  assert (Hd : derivable_pt_lim
                 (fun w => dropout_loss 1 (1 / 100) [[1]] [w] [[1]] [[false]] [1]) 1 0).
  { intros eps Heps. exists (mkposreal 1 Rlt_0_1). intros h Hh _.
    rewrite !dropped_unit_loss.
    replace ((1 - 1) / h - 0) with 0 by (field; exact Hh).
    rewrite Rabs_R0. exact Heps. }
  eexists _, _, dW1, _.
  split; [exact small_world_drops_the_unit|].
  split; [exact (dropped_unit_forward 1)|].
  split; [f_equal; lra|].
  split; [exact Eb|].
  split; [f_equal; rewrite Hrelu; lra|].
  split; [exact Hd|].
  intros Hd'. pose proof (uniqueness_limite _ _ _ _ Hd Hd'). lra.
Qed.

(** ** The constructors establish the shapes *)

Section Constructors.
Context {G : Type} {RS : RandomSource G}.

Lemma np_zeros1_ok n :
  (0 <= n)%Z -> np_zeros1 n = Ok (np.zeros (Z.to_nat n)).
Proof. intros Hn. unfold np_zeros1. destruct (n <? 0)%Z eqn:E; [lia|reflexivity]. Qed.

Lemma length_smul1 c (x : vec) : length (np.smul1 c x) = length x.
Proof. unfold np.smul1. apply length_fmap. Qed.

Lemma epsilon_greedy_init_wf input_dim hidden_dim acts time_horizon pv nv eps
    learning_rate n_steps bs decay lc (w0 : world G unit) :
  (0 <= input_dim)%Z -> (0 <= hidden_dim)%Z -> (0 <= time_horizon)%Z ->
  exists a w1,
    TwoLayerNNEpsilonGreedy.__init__ input_dim hidden_dim acts time_horizon pv nv
      eps learning_rate n_steps bs decay lc w0 = (Ok a, w1) /\
    wf_agent (Z.to_nat hidden_dim) (Z.to_nat input_dim) (Z.to_nat time_horizon) a /\
    actions a = acts /\ num_actions a = Z.of_nat (length acts) /\
    epsilon_param a = eps /\ batch_size a = bs /\ prior_var a = pv /\
    noise_var a = nv.
Proof.
  intros HD HH HT.
  destruct (np_zeros2_ok time_horizon input_dim HT HD) as (ah & Eah & Sah).
  cut (wp (TwoLayerNNEpsilonGreedy.__init__ input_dim hidden_dim acts time_horizon
             pv nv eps learning_rate n_steps bs decay lc)
          (fun r _ => exists a, r = Ok a /\
             wf_agent (Z.to_nat hidden_dim) (Z.to_nat input_dim)
               (Z.to_nat time_horizon) a /\
             actions a = acts /\ num_actions a = Z.of_nat (length acts) /\
             epsilon_param a = eps /\ batch_size a = bs /\ prior_var a = pv /\
             noise_var a = nv) w0).
  { unfold wp. destruct (TwoLayerNNEpsilonGreedy.__init__ _ _ _ _ _ _ _ _ _ _ _ _ w0)
      as [r w1]. simpl. intros (a & -> & Ha). eauto. }
  unfold TwoLayerNNEpsilonGreedy.__init__.
  replace ((hidden_dim <? 0)%Z || (input_dim <? 0)%Z) with false
    by (destruct (hidden_dim <? 0)%Z eqn:E1, (input_dim <? 0)%Z eqn:E2; simpl; auto; lia).
  rewrite Eah, np_zeros1_ok by exact HT.
  wp_steps. eapply wp_yields; [apply yields_randn2|]. intros z1 wa _ Sz1.
  wp_steps. eapply wp_yields; [apply yields_randn1|]. intros z2 wb _ Lz2.
  wp_steps. eexists. split; [reflexivity|]. unfold wf_agent. simpl.
  split; [|repeat split; reflexivity].
  split; [apply shape2_smul2, Sz1|]. split; [rewrite length_smul1; exact Lz2|].
  split; [exact Sah|]. unfold np.zeros. apply length_replicate.
Qed.

Lemma dropout_init_wf input_dim hidden_dim acts time_horizon pv nv drop_prob
    learning_rate n_steps bs decay lc (w0 : world G unit) :
  (0 <= input_dim)%Z -> (0 <= hidden_dim)%Z -> (0 <= time_horizon)%Z ->
  exists a w1,
    TwoLayerNNDropout.__init__ input_dim hidden_dim acts time_horizon pv nv
      drop_prob learning_rate n_steps bs decay lc w0 = (Ok a, w1) /\
    wf_agent (Z.to_nat hidden_dim) (Z.to_nat input_dim) (Z.to_nat time_horizon) a /\
    actions a = acts /\ num_actions a = Z.of_nat (length acts) /\
    p a = drop_prob /\ batch_size a = bs /\ prior_var a = pv /\ noise_var a = nv.
Proof.
  intros HD HH HT.
  destruct (np_zeros2_ok time_horizon input_dim HT HD) as (ah & Eah & Sah).
  cut (wp (TwoLayerNNDropout.__init__ input_dim hidden_dim acts time_horizon
             pv nv drop_prob learning_rate n_steps bs decay lc)
          (fun r _ => exists a, r = Ok a /\
             wf_agent (Z.to_nat hidden_dim) (Z.to_nat input_dim)
               (Z.to_nat time_horizon) a /\
             actions a = acts /\ num_actions a = Z.of_nat (length acts) /\
             p a = drop_prob /\ batch_size a = bs /\ prior_var a = pv /\
             noise_var a = nv) w0).
  { unfold wp. destruct (TwoLayerNNDropout.__init__ _ _ _ _ _ _ _ _ _ _ _ _ w0)
      as [r w1]. simpl. intros (a & -> & Ha). eauto. }
  unfold TwoLayerNNDropout.__init__.
  replace ((hidden_dim <? 0)%Z || (input_dim <? 0)%Z) with false
    by (destruct (hidden_dim <? 0)%Z eqn:E1, (input_dim <? 0)%Z eqn:E2; simpl; auto; lia).
  rewrite Eah, np_zeros1_ok by exact HT.
  wp_steps. eapply wp_yields; [apply yields_randn2|]. intros z1 wa _ Sz1.
  wp_steps. eapply wp_yields; [apply yields_randn1|]. intros z2 wb _ Lz2.
  wp_steps. eexists. split; [reflexivity|]. unfold wf_agent. simpl.
  split; [|repeat split; reflexivity].
  split; [apply shape2_smul2, Sz1|]. split; [rewrite length_smul1; exact Lz2|].
  split; [exact Sah|]. unfold np.zeros. apply length_replicate.
Qed.

Lemma ensemble_init_wf input_dim hidden_dim acts time_horizon pv nv num_models
    learning_rate n_steps bs decay lc (h0 : ES.store) (g : G) (l0 : list draw) :
  0 <= pv -> (0 <= num_models)%Z -> (0 <= hidden_dim)%Z -> (0 <= input_dim)%Z ->
  (0 <= time_horizon)%Z ->
  exists e h1 g1 l1,
    ES.__init__ input_dim hidden_dim acts time_horizon pv nv num_models
      learning_rate n_steps bs decay lc (World h0 g l0) = (Ok e, World h1 g1 l1) /\
    wf_ensemble (Z.to_nat num_models) (Z.to_nat hidden_dim) (Z.to_nat input_dim)
      (Z.to_nat time_horizon) (ES.State e h1) /\
    ES.M e = num_models /\ ES.actions e = acts /\
    ES.num_actions e = Z.of_nat (length acts).
Proof.
  intros Hpv HM HH HD HT.
  destruct (ensemble_init_spec input_dim hidden_dim acts time_horizon pv nv
              num_models learning_rate n_steps bs decay lc h0 g l0
              Hpv HM HH HD HT)
    as (p1 & p2 & ah & mrh & g1 & l1 & E & S1 & S2 & Sah & Smrh).
  eexists _, _, g1, l1. split; [exact E|]. split; [|repeat split; reflexivity].
  exists p1, p2, p1, p2. simpl.
  assert (L0 : (h0 ++ [ES.Arr3 p1; ES.Arr2 p2; ES.Arr3 p1; ES.Arr2 p2])
               !! length h0 = Some (ES.Arr3 p1)).
  { apply list_lookup_middle. reflexivity. }
  assert (L1 : (h0 ++ [ES.Arr3 p1; ES.Arr2 p2; ES.Arr3 p1; ES.Arr2 p2])
               !! S (length h0) = Some (ES.Arr2 p2)).
  { change (h0 ++ ?a :: ?r) with (h0 ++ [a] ++ r). rewrite app_assoc.
    apply list_lookup_middle. rewrite length_app. simpl. lia. }
  assert (L2 : (h0 ++ [ES.Arr3 p1; ES.Arr2 p2; ES.Arr3 p1; ES.Arr2 p2])
               !! S (S (length h0)) = Some (ES.Arr3 p1)).
  { change (h0 ++ ?a :: ?b :: ?r) with (h0 ++ [a; b] ++ r). rewrite app_assoc.
    apply list_lookup_middle. rewrite length_app. simpl. lia. }
  assert (L3 : (h0 ++ [ES.Arr3 p1; ES.Arr2 p2; ES.Arr3 p1; ES.Arr2 p2])
               !! S (S (S (length h0))) = Some (ES.Arr2 p2)).
  { change (h0 ++ ?a :: ?b :: ?c :: ?r) with (h0 ++ [a; b; c] ++ r).
    rewrite app_assoc. apply list_lookup_middle. rewrite length_app. simpl. lia. }
  repeat (split; [first [assumption | lia]|]). exact Smrh.
Qed.
End Constructors.

(** ** Derivatives of the forward pass *)

Lemma derivable_pt_lim_pointwise (f g : R -> R) x l :
  (forall w, f w = g w) -> derivable_pt_lim f x l -> derivable_pt_lim g x l.
Proof.
  intros Hfg Hf eps Heps. destruct (Hf eps Heps) as [delta Hd].
  exists delta. intros h Hh Hlt. rewrite <- !Hfg. apply Hd; assumption.
Qed.

(** The Leaky-ReLU away from its kink, for a slope of at most one. *)
Lemma leaky_relu_derivative lc a :
  lc <= 1 -> a <> 0 -> derivable_pt_lim (leaky_relu lc) a (relu_mask lc a).
Proof.
  intros Hlc Ha. unfold relu_mask, np.of_bool, np.ge0, np.lt0.
  destruct (Rle_dec 0 a) as [Hpos|Hneg]; destruct (Rlt_dec a 0) as [Hlt|Hge];
    try lra.
  - assert (Hap : 0 < a) by lra.
    intros eps Heps. exists (mkposreal a Hap). intros h Hh Hlt. simpl in Hlt.
    assert (0 <= a + h).
    { destruct (Rcase_abs h) as [Hn|Hp].
      - rewrite (Rabs_left h Hn) in Hlt. lra.
      - lra. }
    rewrite !leaky_relu_pos by lra.
    replace ((a + h - a) / h - (1 + lc * 0)) with 0 by (field; exact Hh).
    rewrite Rabs_R0. exact Heps.
  - assert (Han : 0 < - a) by lra.
    intros eps Heps. exists (mkposreal (- a) Han). intros h Hh Hlt'. simpl in Hlt'.
    assert (a + h <= 0).
    { destruct (Rcase_abs h) as [Hn|Hp].
      - lra.
      - rewrite (Rabs_right h Hp) in Hlt'. lra. }
    rewrite !leaky_relu_neg by lra.
    replace ((lc * (a + h) - lc * a) / h - (0 + lc * 1)) with 0 by (field; exact Hh).
    rewrite Rabs_R0. exact Heps.
Qed.

Lemma dotp_cons a x b w : dotp (a :: x) (b :: w) = a * b + dotp x w.
Proof. reflexivity. Qed.

(** [dotp] is affine in each entry of either argument. *)
Lemma dotp_insert_l (r v : vec) h rh vh w :
  r !! h = Some rh -> v !! h = Some vh ->
  dotp (<[h := w]> r) v = dotp r v + (w - rh) * vh.
Proof.
  revert v h. induction r as [|a r IH]; intros [|b v] [|h] Hr Hv; simpl in *;
    try discriminate.
  - inversion Hr; inversion Hv; subst. rewrite !dotp_cons. lra.
  - rewrite !dotp_cons, (IH v h) by assumption. lra.
Qed.

Lemma dotp_insert_r (r v : vec) h rh vh w :
  r !! h = Some rh -> v !! h = Some vh ->
  dotp r (<[h := w]> v) = dotp r v + rh * (w - vh).
Proof.
  revert v h. induction r as [|a r IH]; intros [|b v] [|h] Hr Hv; simpl in *;
    try discriminate.
  - inversion Hr; inversion Hv; subst. rewrite !dotp_cons. lra.
  - rewrite !dotp_cons, (IH v h) by assumption. lra.
Qed.

Lemma derivable_affine (c k w0 x : R) :
  derivable_pt_lim (fun w => c + k * (w - w0)) x k.
Proof.
  intros eps Heps. exists (mkposreal 1 Rlt_0_1). intros h Hh _.
  replace ((c + k * (x + h - w0) - (c + k * (x - w0))) / h - k) with 0
    by (field; exact Hh).
  rewrite Rabs_R0. exact Heps.
Qed.

Lemma derivable_shift_scale (f : R -> R) x l c k m :
  derivable_pt_lim f x l -> derivable_pt_lim (fun w => c + (f w - k) * m) x (l * m).
Proof.
  intros Hf.
  replace (l * m) with (0 + ((l - 0) * m + (f x - k) * 0)) by ring.
  apply (derivable_pt_lim_plus (fun _ => c) (fun w => (f w - k) * m)).
  - apply derivable_pt_lim_const.
  - apply (derivable_pt_lim_mult (fun w => f w - k) (fun _ => m)).
    + apply (derivable_pt_lim_minus f (fun _ => k)); [exact Hf|].
      apply derivable_pt_lim_const.
    + apply derivable_pt_lim_const.
Qed.

(** The prediction for one sample, and its hidden activations. *)
Definition hidden_of (lc : R) (W1 : mat) (x : vec) : vec :=
  map (leaky_relu lc) (map (dotp x) W1).
Definition predict (lc : R) (W1 : mat) (W2 x : vec) : R :=
  dotp (hidden_of lc W1 x) W2.

Lemma readout_is_predict lc W1 W2 X :
  readout_of W2 (relu_of lc (affine_of W1 X)) = map (predict lc W1 W2) X.
Proof.
  unfold readout_of, relu_of, affine_of, predict, hidden_of.
  rewrite <- !list_fmap_compose. reflexivity.
Qed.

Lemma relu_is_hidden lc W1 X :
  relu_of lc (affine_of W1 X) = map (hidden_of lc W1) X.
Proof.
  unfold relu_of, affine_of, hidden_of. rewrite <- list_fmap_compose. reflexivity.
Qed.

(** The prediction as a function of one entry of [W2] ... *)
Lemma predict_W2_derivative lc W1 W2 x h w2h rh :
  W2 !! h = Some w2h -> hidden_of lc W1 x !! h = Some rh ->
  derivable_pt_lim (fun w => predict lc W1 (<[h := w]> W2) x) w2h rh.
Proof.
  intros Hw Hr. unfold predict.
  eapply derivable_pt_lim_pointwise.
  - intros w. symmetry. apply (dotp_insert_r _ _ h rh w2h w Hr Hw).
  - apply derivable_affine.
Qed.

(** ... and of one entry of [W1], where the unit's pre-activation is not
    zero. *)
Lemma predict_W1_derivative lc W1 W2 x h d row w1hd xd w2h :
  lc <= 1 ->
  W1 !! h = Some row -> row !! d = Some w1hd -> x !! d = Some xd ->
  W2 !! h = Some w2h -> dotp x row <> 0 ->
  derivable_pt_lim (fun w => predict lc (<[h := <[d := w]> row]> W1) W2 x) w1hd
    (relu_mask lc (dotp x row) * xd * w2h).
Proof.
  intros Hlc Hrow Hw Hx Hw2 Hne. unfold predict, hidden_of.
  assert (Hh : hidden_of lc W1 x !! h = Some (leaky_relu lc (dotp x row))).
  { unfold hidden_of. rewrite !list_lookup_fmap, Hrow. reflexivity. }
  eapply derivable_pt_lim_pointwise.
  - intros w. symmetry. rewrite !list_fmap_insert.
    apply (dotp_insert_l _ _ h _ w2h _ Hh Hw2).
  - fold (hidden_of lc W1 x). fold (predict lc W1 W2 x).
    set (inner := fun w => dotp x row + xd * (w - w1hd)).
    assert (Hinner : derivable_pt_lim inner w1hd xd) by apply derivable_affine.
    assert (Hcomp : derivable_pt_lim (fun w => leaky_relu lc (inner w)) w1hd
                      (relu_mask lc (dotp x row) * xd)).
    { apply (derivable_pt_lim_comp inner (leaky_relu lc)); [exact Hinner|].
      unfold inner. replace (dotp x row + xd * (w1hd - w1hd)) with (dotp x row) by lra.
      apply leaky_relu_derivative; assumption. }
    eapply derivable_pt_lim_pointwise with
      (f := fun w => predict lc W1 W2 x
                     + (leaky_relu lc (inner w) - leaky_relu lc (dotp x row)) * w2h).
    + intros w. unfold inner.
      rewrite (dotp_insert_r _ _ d xd w1hd w Hx Hw). reflexivity.
    + apply (derivable_shift_scale (fun w => leaky_relu lc (inner w))), Hcomp.
Qed.

(** ** The loss as a sum over the batch *)

Lemma sum_cons a (x : vec) : np.sum (a :: x) = a + np.sum x.
Proof. reflexivity. Qed.

Section ZipAlgebra.
Context {A B C D E : Type}.

Lemma map_zip_with_both (f : C -> D) (g : A -> B -> C) (y : list A) (X : list B) :
  map f (zip_with g y X) = zip_with (fun a b => f (g a b)) y X.
Proof.
  revert X. induction y as [|a y IH]; intros [|b X]; simpl; try reflexivity.
  f_equal. apply IH.
Qed.

Lemma zip_with_zip_map (f : C -> D -> E) (g : A -> B -> C) (q : B -> D)
    (y : list A) (X : list B) :
  zip_with f (zip_with g y X) (map q X) = zip_with (fun a b => f (g a b) (q b)) y X.
Proof.
  revert X. induction y as [|a y IH]; intros [|b X]; simpl; try reflexivity.
  f_equal. apply IH.
Qed.

Lemma zip_with_map_zip (f : D -> C -> E) (g : A -> B -> C) (q : B -> D)
    (y : list A) (X : list B) :
  length y = length X ->
  zip_with f (map q X) (zip_with g y X) = zip_with (fun a b => f (q b) (g a b)) y X.
Proof.
  revert X. induction y as [|a y IH]; intros [|b X] Hl; simpl in *;
    try discriminate; try reflexivity.
  f_equal. apply IH. lia.
Qed.

Lemma zip_with_zip_self (f : C -> B -> E) (g : A -> B -> C) (y : list A) (X : list B) :
  zip_with f (zip_with g y X) X = zip_with (fun a b => f (g a b) b) y X.
Proof.
  revert X. induction y as [|a y IH]; intros [|b X]; simpl; try reflexivity.
  f_equal. apply IH.
Qed.

Lemma zip_with_map_r (f : A -> D -> E) (q : B -> D) (y : list A) (X : list B) :
  zip_with f y (map q X) = zip_with (fun a b => f a (q b)) y X.
Proof.
  revert X. induction y as [|a y IH]; intros [|b X]; simpl; try reflexivity.
  f_equal. apply IH.
Qed.
End ZipAlgebra.

Lemma zip_with_ext_in {A B C} (f g : A -> B -> C) (y : list A) (X : list B) :
  Forall2 (fun a b => f a b = g a b) y X -> zip_with f y X = zip_with g y X.
Proof. induction 1 as [|a b y X Hab _ IH]; simpl; [reflexivity|]. f_equal; assumption. Qed.

(** The loss of one sample. *)
Definition sample_loss (nv lc : R) (W1 : mat) (W2 : vec) (yb : R) (x : vec) : R :=
  (yb - predict lc W1 W2 x) * (yb - predict lc W1 W2 x) / nv.

Lemma sum_div nv (l : vec) : np.sum (map (fun e => e / nv) l) = np.sum l / nv.
Proof.
  induction l as [|a l IH].
  - unfold np.sum. simpl. unfold Rdiv. ring.
  - rewrite fmap_cons, !sum_cons, IH. unfold Rdiv. ring.
Qed.

Lemma plain_loss_closed nv lc H D B (W1 : mat) (W2 : vec) (X : mat) (y : vec) :
  shape2 H D W1 -> length W2 = H -> shape2 B D X ->
  plain_loss nv lc W1 W2 X y = np.sum (zip_with (sample_loss nv lc W1 W2) y X).
Proof.
  intros HW1 HW2 HX. unfold plain_loss.
  rewrite (epsilon_greedy_forward_ok lc H D B) by assumption.
  unfold squared_error. rewrite readout_is_predict, <- sum_div.
  rewrite zip_with_map_r, !map_zip_with_both. reflexivity.
Qed.

Lemma sample_loss_derivative nv (o : R -> R) x o' yb :
  derivable_pt_lim o x o' ->
  derivable_pt_lim (fun w => (yb - o w) * (yb - o w) / nv) x
    (- (2 / nv) * (yb - o x) * o').
Proof.
  intros Ho.
  assert (Hd : derivable_pt_lim (fun w => yb - o w) x (0 - o')).
  { apply (derivable_pt_lim_minus (fun _ => yb) o); [|exact Ho].
    apply derivable_pt_lim_const. }
  replace (- (2 / nv) * (yb - o x) * o')
    with (((0 - o') * (yb - o x) + (yb - o x) * (0 - o')) * / nv
          + (yb - o x) * (yb - o x) * 0)
    by (unfold Rdiv; ring).
  apply (derivable_pt_lim_mult (fun w => (yb - o w) * (yb - o w)) (fun _ => / nv)).
  - apply (derivable_pt_lim_mult (fun w => yb - o w) (fun w => yb - o w)); exact Hd.
  - apply derivable_pt_lim_const.
Qed.

Lemma sum_zip_derivative {A B} (F : R -> A -> B -> R) (F' : A -> B -> R)
    (la : list A) (lb : list B) x :
  Forall2 (fun a b => derivable_pt_lim (fun w => F w a b) x (F' a b)) la lb ->
  derivable_pt_lim (fun w => np.sum (zip_with (F w) la lb)) x
    (np.sum (zip_with F' la lb)).
Proof.
  induction 1 as [|a b la lb Hab _ IH]; simpl.
  - apply derivable_pt_lim_const.
  - eapply derivable_pt_lim_pointwise.
    + intros w. symmetry. apply sum_cons.
    + rewrite sum_cons.
      apply (derivable_pt_lim_plus (fun w => F w a b)
               (fun w => np.sum (zip_with (F w) la lb))); assumption.
Qed.

(** ** Entries of the gradients the backward pass returns *)

Definition entry (r : vec) (h : nat) : R := default 0 (r !! h).

Lemma entry_of_lookup (r : vec) h v : r !! h = Some v -> entry r h = v.
Proof. intros Hr. unfold entry. rewrite Hr. reflexivity. Qed.

Lemma entry_scaled c (x : vec) d : entry (map (Rmult c) x) d = c * entry x d.
Proof.
  unfold entry. rewrite list_lookup_fmap. destruct (x !! d); simpl; [reflexivity|ring].
Qed.

Lemma zip_with_ext_all {A B C} (f g : A -> B -> C) (y : list A) (X : list B) :
  (forall a b, f a b = g a b) -> zip_with f y X = zip_with g y X.
Proof.
  intros Hfg. revert X. induction y as [|a y IH]; intros [|b X]; simpl;
    try reflexivity. f_equal; [apply Hfg|apply IH].
Qed.

Lemma sum_rows_lookup H (M : mat) h :
  Forall (fun r => length r = H) M -> (h < H)%nat ->
  foldr (zip_with Rplus) (np.zeros H) M !! h
  = Some (np.sum (map (fun r => entry r h) M)).
Proof.
  intros HM Hh. induction HM as [|r M Hr _ IH].
  - simpl. unfold np.zeros. rewrite lookup_replicate_2 by exact Hh. reflexivity.
  - rewrite fmap_cons, sum_cons. simpl. rewrite lookup_zip_with, IH.
    destruct (lookup_lt_is_Some_2 r h) as [v Hv]; [lia|].
    rewrite Hv, (entry_of_lookup r h v Hv). reflexivity.
Qed.

Lemma sum_axis0_lookup B H (M : mat) h :
  (0 < B)%nat -> shape2 B H M -> (h < H)%nat ->
  np.sum_axis0 M !! h = Some (np.sum (map (fun r => entry r h) M)).
Proof.
  intros HB HM Hh. unfold np.sum_axis0. rewrite (shape2_hd B H M HB HM).
  apply sum_rows_lookup; [apply HM|exact Hh].
Qed.

Lemma transpose_lookup H (A : mat) h :
  Forall (fun r => length r = H) A -> (h < H)%nat ->
  np.transpose H A !! h = Some (map (fun r => entry r h) A).
Proof.
  intros HA Hh. induction HA as [|r A Hr _ IH]; simpl.
  - rewrite lookup_replicate_2 by exact Hh. reflexivity.
  - rewrite lookup_zip_with, IH.
    destruct (lookup_lt_is_Some_2 r h) as [v Hv]; [lia|].
    rewrite Hv, (entry_of_lookup r h v Hv). reflexivity.
Qed.

Lemma T_lookup B H (A : mat) h :
  (0 < B)%nat -> shape2 B H A -> (h < H)%nat ->
  np.T A !! h = Some (map (fun r => entry r h) A).
Proof.
  intros HB HA Hh. unfold np.T. rewrite (shape2_hd B H A HB HA).
  apply transpose_lookup; [apply HA|exact Hh].
Qed.

Lemma vec_mat_lookup B D (r : vec) (X : mat) d :
  (0 < B)%nat -> shape2 B D X -> (d < D)%nat ->
  np.vec_mat r X !! d = Some (np.sum (zip_with (fun c x => c * entry x d) r X)).
Proof.
  intros HB HX Hd. unfold np.vec_mat. rewrite (shape2_hd B D X HB HX).
  assert (HF : Forall (fun r0 : vec => length r0 = D) (zip_with np.scale r X)).
  { destruct HX as [_ HX]. clear HB. revert r.
    induction HX as [|x X Hx _ IH]; intros [|c r]; simpl; constructor.
    - unfold np.scale. rewrite length_fmap. exact Hx.
    - apply IH. }
  rewrite (sum_rows_lookup D _ d HF Hd).
  rewrite map_zip_with_both. do 2 f_equal.
  apply zip_with_ext_all. intros c x. apply entry_scaled.
Qed.

(** The error signal of the batch, sample by sample. *)
Definition dout_at (nv lc : R) (W1 : mat) (W2 : vec) (yb : R) (x : vec) : R :=
  - (2 / nv) * (yb - predict lc W1 W2 x).

Lemma dout_closed nv lc W1 W2 (X : mat) (y : vec) :
  dout_of nv y (map (predict lc W1 W2) X) = zip_with (dout_at nv lc W1 W2) y X.
Proof.
  unfold dout_of, np.smul1. rewrite zip_with_map_r, map_zip_with_both. reflexivity.
Qed.

Lemma dW2_entry nv lc H B (W1 : mat) (W2 : vec) (X : mat) (y : vec) h :
  (0 < B)%nat -> length W1 = H -> length X = B -> length y = B -> (h < H)%nat ->
  dW2_of (dout_of nv y (map (predict lc W1 W2) X)) (map (hidden_of lc W1) X) !! h
  = Some (np.sum (zip_with (fun yb x => dout_at nv lc W1 W2 yb x
                                        * entry (hidden_of lc W1 x) h) y X)).
Proof.
  intros HB HW1 HX Hy Hh. unfold dW2_of.
  rewrite dout_closed, zip_with_zip_map.
  assert (HS : shape2 B H
                 (zip_with (fun yb x => map (Rmult (dout_at nv lc W1 W2 yb x))
                                          (hidden_of lc W1 x)) y X)).
  { split; [rewrite length_zip_with; lia|].
    subst H. clear. revert X. induction y as [|yb y IH]; intros [|x X]; simpl;
      constructor.
    - unfold hidden_of. rewrite !length_fmap. reflexivity.
    - apply IH. }
  rewrite (sum_axis0_lookup B H _ h HB HS Hh).
  rewrite map_zip_with_both. do 2 f_equal.
  apply zip_with_ext_all. intros yb x. apply entry_scaled.
Qed.

(** ** The plain backward pass returns the gradient of the loss *)

Lemma Forall2_of_lengths {A B} (P : A -> B -> Prop) (y : list A) (X : list B) :
  length y = length X -> (forall a b, b ∈ X -> P a b) -> Forall2 P y X.
Proof.
  intros Hl HP. apply Forall2_same_length_lift; [exact Hl|].
  intros a b _ Hb. apply HP, Hb.
Qed.

(** [dW2[h]] is the partial derivative of the loss in [W2[h]]. *)
Lemma plain_dW2_gradient nv lc H D B (W1 : mat) (W2 : vec)
    (X : mat) (y : vec) h w2h :
  nv <> 0 -> (0 < B)%nat ->
  shape2 H D W1 -> length W2 = H -> shape2 B D X -> length y = B ->
  W2 !! h = Some w2h ->
  exists out c dW1 dW2 g,
    TwoLayerNNEpsilonGreedy.forward lc W1 W2 X = Ok (out, c) /\
    TwoLayerNNEpsilonGreedy.backward nv lc W2 out c y = Ok (dW1, dW2) /\
    dW2 !! h = Some g /\
    derivable_pt_lim (fun w => plain_loss nv lc W1 (<[h := w]> W2) X y) w2h g.
Proof.
  intros Hnv HB HW1 HW2 HX Hy Hw.
  assert (Hh : (h < H)%nat) by (rewrite <- HW2; eapply lookup_lt_Some, Hw).
  destruct (shape2_hidden lc B H W1 X) as [HA HRl]; [apply HW1|apply HX|].
  destruct (epsilon_greedy_backward_ok nv lc H D B W2
              (readout_of W2 (relu_of lc (affine_of W1 X))) y X _ _ Hnv HB HW2
              ltac:(rewrite length_readout_of; apply HRl) Hy HX HA HRl)
    as (Eb & _ & _).
  eexists _, _, _, _, _.
  split; [apply (epsilon_greedy_forward_ok lc H D B); assumption|].
  split; [exact Eb|].
  rewrite readout_is_predict, relu_is_hidden.
  split.
  - apply (dW2_entry nv lc H B); auto; [apply HW1|apply HX].
  - eapply derivable_pt_lim_pointwise.
    + intros w. symmetry. apply (plain_loss_closed nv lc H D B); auto.
      rewrite length_insert. exact HW2.
    + apply (sum_zip_derivative
               (fun w yb x => sample_loss nv lc W1 (<[h := w]> W2) yb x)).
      apply Forall2_of_lengths; [destruct HX; lia|].
      intros yb x Hx. unfold sample_loss, dout_at.
      destruct (lookup_lt_is_Some_2 (hidden_of lc W1 x) h) as [rh Hrh].
      { unfold hidden_of. rewrite !length_fmap. destruct HW1 as [-> _]. exact Hh. }
      rewrite (entry_of_lookup _ _ _ Hrh).
      pose proof (sample_loss_derivative nv
                    (fun w => predict lc W1 (<[h := w]> W2) x) w2h rh yb
                    (predict_W2_derivative lc W1 W2 x h w2h rh Hw Hrh)) as Hd.
      simpl in Hd. rewrite (list_insert_id W2 h w2h Hw) in Hd. exact Hd.
Qed.

(** The row of [daffine_out] of one sample. *)
Definition daffine_row (nv lc : R) (W1 : mat) (W2 : vec) (yb : R) (x : vec) : vec :=
  zip_with Rmult (map (relu_mask lc) (map (dotp x) W1))
    (map (Rmult (dout_at nv lc W1 W2 yb x)) W2).

Lemma daffine_closed nv lc W1 W2 (X : mat) (y : vec) :
  length y = length X ->
  daffine_of lc (affine_of W1 X)
    (outer_of (dout_of nv y (map (predict lc W1 W2) X)) W2)
  = zip_with (daffine_row nv lc W1 W2) y X.
Proof.
  intros Hl. unfold daffine_of, outer_of, affine_of.
  rewrite dout_closed, map_zip_with_both, <- list_fmap_compose.
  rewrite zip_with_map_zip by exact Hl. reflexivity.
Qed.

Lemma shape2_daffine nv lc H B W1 W2 (X : mat) (y : vec) :
  length W1 = H -> length W2 = H -> length X = B -> length y = B ->
  shape2 B H (zip_with (daffine_row nv lc W1 W2) y X).
Proof.
  intros HW1 HW2 HX Hy. split; [rewrite length_zip_with; lia|].
  clear HX Hy. revert X. induction y as [|yb y IH]; intros [|x X]; simpl; constructor.
  - unfold daffine_row. rewrite length_zip_with, !length_fmap. lia.
  - apply IH.
Qed.

Lemma dW1_entry nv lc H D B (W1 : mat) (W2 : vec) (X : mat) (y : vec) h d :
  (0 < B)%nat -> length W1 = H -> length W2 = H -> shape2 B D X -> length y = B ->
  (h < H)%nat -> (d < D)%nat ->
  exists grow,
    dW1_of (daffine_of lc (affine_of W1 X)
              (outer_of (dout_of nv y (map (predict lc W1 W2) X)) W2)) X !! h
    = Some grow /\
    grow !! d
    = Some (np.sum (zip_with (fun yb x => entry (daffine_row nv lc W1 W2 yb x) h
                                          * entry x d) y X)).
Proof.
  intros HB HW1 HW2 HX Hy Hh Hd.
  rewrite daffine_closed by (destruct HX; lia).
  pose proof (shape2_daffine nv lc H B W1 W2 X y HW1 HW2 ltac:(apply HX) Hy) as HS.
  unfold dW1_of. rewrite list_lookup_fmap, (T_lookup B H _ h HB HS Hh). simpl.
  eexists. split; [reflexivity|].
  rewrite (vec_mat_lookup B D _ X d HB HX Hd).
  rewrite map_zip_with_both, zip_with_zip_self. reflexivity.
Qed.

(** [dW1[h][d]] is the partial derivative of the loss in [W1[h][d]], when
    the slope is at most one and the pre-activation of unit [h] is non-zero
    on every sample of the batch (the loss is not differentiable at the kink
    of the Leaky-ReLU). *)
Lemma plain_dW1_gradient nv lc H D B (W1 : mat) (W2 : vec)
    (X : mat) (y : vec) h d row w1hd :
  nv <> 0 -> lc <= 1 -> (0 < B)%nat ->
  shape2 H D W1 -> length W2 = H -> shape2 B D X -> length y = B ->
  W1 !! h = Some row -> row !! d = Some w1hd ->
  (forall x, x ∈ X -> dotp x row <> 0) ->
  exists out c dW1 dW2 grow g,
    TwoLayerNNEpsilonGreedy.forward lc W1 W2 X = Ok (out, c) /\
    TwoLayerNNEpsilonGreedy.backward nv lc W2 out c y = Ok (dW1, dW2) /\
    dW1 !! h = Some grow /\ grow !! d = Some g /\
    derivable_pt_lim
      (fun w => plain_loss nv lc (<[h := <[d := w]> row]> W1) W2 X y) w1hd g.
Proof.
  intros Hnv Hlc HB HW1 HW2 HX Hy Hrow Hw Hne.
  assert (Hh : (h < H)%nat) by (destruct HW1 as [<- _]; eapply lookup_lt_Some, Hrow).
  assert (Lrow : length row = D)
    by (eapply shape2_elem; [exact HW1|eapply list_elem_of_lookup_2, Hrow]).
  assert (Hd : (d < D)%nat) by (rewrite <- Lrow; eapply lookup_lt_Some, Hw).
  destruct (lookup_lt_is_Some_2 W2 h) as [w2h Hw2]; [lia|].
  destruct (shape2_hidden lc B H W1 X) as [HA HRl]; [apply HW1|apply HX|].
  destruct (epsilon_greedy_backward_ok nv lc H D B W2
              (readout_of W2 (relu_of lc (affine_of W1 X))) y X _ _ Hnv HB HW2
              ltac:(rewrite length_readout_of; apply HRl) Hy HX HA HRl)
    as (Eb & _ & _).
  destruct (dW1_entry nv lc H D B W1 W2 X y h d HB ltac:(apply HW1) HW2 HX Hy Hh Hd)
    as (grow & Egrow & Eg).
  eexists _, _, _, _, grow, _.
  split; [apply (epsilon_greedy_forward_ok lc H D B); assumption|].
  split; [exact Eb|].
  rewrite readout_is_predict.
  split; [exact Egrow|]. split; [exact Eg|].
  eapply derivable_pt_lim_pointwise.
  - intros w. symmetry. apply (plain_loss_closed nv lc H D B); auto.
    apply shape2_insert; [exact HW1|]. rewrite length_insert. exact Lrow.
  - rewrite (zip_with_ext_in _
               (fun yb x => - (2 / nv) * (yb - predict lc W1 W2 x)
                            * (relu_mask lc (dotp x row) * entry x d * w2h)) y X).
    + apply (sum_zip_derivative
               (fun w yb x => sample_loss nv lc (<[h := <[d := w]> row]> W1) W2 yb x)).
      apply Forall2_of_lengths; [destruct HX; lia|].
      intros yb x Hx. unfold sample_loss.
      destruct (lookup_lt_is_Some_2 x d) as [xd Hxd].
      { rewrite (shape2_elem B D X x HX Hx). exact Hd. }
      rewrite (entry_of_lookup _ _ _ Hxd).
      pose proof (sample_loss_derivative nv
                    (fun w => predict lc (<[h := <[d := w]> row]> W1) W2 x) w1hd _ yb
                    (predict_W1_derivative lc W1 W2 x h d row w1hd xd w2h
                       Hlc Hrow Hw Hxd Hw2 (Hne x Hx))) as Hder.
      simpl in Hder.
      rewrite (list_insert_id row d w1hd Hw), (list_insert_id W1 h row Hrow) in Hder.
      exact Hder.
    + apply Forall2_of_lengths; [destruct HX; lia|].
      intros yb x Hx. unfold daffine_row, entry at 1.
      rewrite lookup_zip_with, !list_lookup_fmap, Hrow, Hw2. simpl.
      unfold dout_at. ring.
Qed.

(** ** The dropout backward pass: [dW1] is the gradient of the masked loss *)

(** A sample of the masked pass: the input and its row of the mask. *)
Definition predict_masked (lc : R) (W1 : mat) (W2 : vec) (s : vec * list bool) : R :=
  dotp (zip_with Rmult (hidden_of lc W1 (fst s)) (map np.of_bool (snd s))) W2.

Definition dout_masked (nv lc : R) (W1 : mat) (W2 : vec) (yb : R)
    (s : vec * list bool) : R :=
  - (2 / nv) * (yb - predict_masked lc W1 W2 s).

Definition daffine_masked_row (nv lc : R) (W1 : mat) (W2 : vec) (yb : R)
    (s : vec * list bool) : vec :=
  zip_with Rmult (map (relu_mask lc) (map (dotp (fst s)) W1))
    (zip_with Rmult (map (Rmult (dout_masked nv lc W1 W2 yb s)) W2)
       (map np.of_bool (snd s))).

Lemma masked_closed lc W1 (X : mat) (mask : list (list bool)) :
  masked (relu_of lc (affine_of W1 X)) mask
  = map (fun s => zip_with Rmult (hidden_of lc W1 (fst s)) (map np.of_bool (snd s)))
      (zip X mask).
Proof.
  unfold masked. rewrite relu_is_hidden, zip_with_fmap_l, zip_with_fmap_r, zip_with_zip.
  apply list_fmap_ext. intros i [x m] _. reflexivity.
Qed.

Lemma dropout_readout_closed lc W1 W2 (X : mat) (mask : list (list bool)) :
  readout_of W2 (masked (relu_of lc (affine_of W1 X)) mask)
  = map (predict_masked lc W1 W2) (zip X mask).
Proof.
  rewrite masked_closed. unfold readout_of. rewrite <- list_fmap_compose. reflexivity.
Qed.

Lemma dropout_loss_closed nv lc H D B (W1 : mat) (W2 : vec) (X : mat)
    (mask : list (list bool)) (y : vec) :
  shape2 H D W1 -> length W2 = H -> shape2 B D X ->
  length mask = B -> Forall (fun r => length r = H) mask ->
  dropout_loss nv lc W1 W2 X mask y
  = np.sum (zip_with (fun yb s => (yb - predict_masked lc W1 W2 s)
                                  * (yb - predict_masked lc W1 W2 s) / nv)
              y (zip X mask)).
Proof.
  intros HW1 HW2 HX Hm Hmr. unfold dropout_loss.
  rewrite (dropout_forward_closed lc H D B) by assumption.
  unfold squared_error. rewrite dropout_readout_closed, <- sum_div.
  rewrite zip_with_map_r, !map_zip_with_both. reflexivity.
Qed.

Lemma predict_masked_W1_derivative lc W1 W2 (s : vec * list bool)
    h d row w1hd xd w2h mh :
  lc <= 1 ->
  W1 !! h = Some row -> row !! d = Some w1hd -> fst s !! d = Some xd ->
  W2 !! h = Some w2h -> snd s !! h = Some mh -> dotp (fst s) row <> 0 ->
  derivable_pt_lim
    (fun w => predict_masked lc (<[h := <[d := w]> row]> W1) W2 s) w1hd
    (relu_mask lc (dotp (fst s) row) * xd * (np.of_bool mh * w2h)).
Proof.
  intros Hlc Hrow Hw Hx Hw2 Hm Hne. destruct s as [x m]. simpl in *.
  unfold predict_masked. simpl.
  set (mR := map np.of_bool m).
  assert (HmR : mR !! h = Some (np.of_bool mh)).
  { unfold mR. rewrite list_lookup_fmap, Hm. reflexivity. }
  assert (Hh : hidden_of lc W1 x !! h = Some (leaky_relu lc (dotp x row))).
  { unfold hidden_of. rewrite !list_lookup_fmap, Hrow. reflexivity. }
  assert (Hrm : zip_with Rmult (hidden_of lc W1 x) mR !! h
                = Some (leaky_relu lc (dotp x row) * np.of_bool mh)).
  { rewrite lookup_zip_with, Hh, HmR. reflexivity. }
  set (inner := fun w => dotp x row + xd * (w - w1hd)).
  assert (Hcomp : derivable_pt_lim (fun w => leaky_relu lc (inner w)) w1hd
                    (relu_mask lc (dotp x row) * xd)).
  { apply (derivable_pt_lim_comp inner (leaky_relu lc)).
    - apply derivable_affine.
    - unfold inner. replace (dotp x row + xd * (w1hd - w1hd)) with (dotp x row) by lra.
      apply leaky_relu_derivative; assumption. }
  eapply derivable_pt_lim_pointwise with
    (f := fun w => dotp (zip_with Rmult (hidden_of lc W1 x) mR) W2
                   + (leaky_relu lc (inner w) - leaky_relu lc (dotp x row))
                     * (np.of_bool mh * w2h)).
  - intros w. unfold hidden_of at 2. rewrite !list_fmap_insert.
    fold (hidden_of lc W1 x).
    rewrite <- (list_insert_id mR h (np.of_bool mh) HmR) at 2.
    rewrite <- insert_zip_with.
    rewrite (dotp_insert_l _ _ h _ w2h _ Hrm Hw2).
    unfold inner. rewrite (dotp_insert_r _ _ d xd w1hd w Hx Hw). ring.
  - apply (derivable_shift_scale (fun w => leaky_relu lc (inner w))), Hcomp.
Qed.

Lemma dout_masked_closed nv lc W1 W2 (S : list (vec * list bool)) (y : vec) :
  dout_of nv y (map (predict_masked lc W1 W2) S)
  = zip_with (dout_masked nv lc W1 W2) y S.
Proof.
  unfold dout_of, np.smul1. rewrite zip_with_map_r, map_zip_with_both. reflexivity.
Qed.

Lemma daffine_masked_closed nv lc W1 W2 (X : mat) (mask : list (list bool)) (y : vec) :
  length X = length mask -> length y = length X ->
  daffine_of lc (affine_of W1 X)
    (masked (outer_of (dout_of nv y (map (predict_masked lc W1 W2) (zip X mask))) W2)
       mask)
  = zip_with (daffine_masked_row nv lc W1 W2) y (zip X mask).
Proof.
  intros HXm Hy. unfold daffine_of, masked, outer_of, affine_of.
  rewrite dout_masked_closed, map_zip_with_both.
  rewrite <- (snd_zip X mask) at 2 by lia.
  rewrite <- (fst_zip X mask) at 1 by lia.
  rewrite <- !list_fmap_compose.
  rewrite zip_with_zip_map.
  rewrite zip_with_map_zip by (rewrite length_zip_with; lia).
  reflexivity.
Qed.

Lemma shape2_daffine_masked nv lc H B W1 W2 (S : list (vec * list bool)) (y : vec) :
  length W1 = H -> length W2 = H -> length S = B -> length y = B ->
  Forall (fun s => length (snd s) = H) S ->
  shape2 B H (zip_with (daffine_masked_row nv lc W1 W2) y S).
Proof.
  intros HW1 HW2 HS Hy Hm. split; [rewrite length_zip_with; lia|].
  clear HS Hy. revert y. induction Hm as [|s S Hs _ IH]; intros [|yb y]; simpl;
    constructor.
  - unfold daffine_masked_row. rewrite !length_zip_with, !length_fmap. lia.
  - apply IH.
Qed.

Lemma zip_mask_rows H (X : mat) (mask : list (list bool)) :
  Forall (fun r => length r = H) mask ->
  Forall (fun s : vec * list bool => length (snd s) = H) (zip X mask).
Proof.
  intros Hm. apply Forall_forall. intros [x m] Hs. simpl.
  apply elem_of_zip_r in Hs. rewrite Forall_forall in Hm. apply Hm, Hs.
Qed.

Lemma dropout_dW1_entry nv lc H D B (W1 : mat) (W2 : vec) (X : mat)
    (mask : list (list bool)) (y : vec) h d :
  (0 < B)%nat -> length W1 = H -> length W2 = H -> shape2 B D X -> length y = B ->
  length mask = B -> Forall (fun r => length r = H) mask ->
  (h < H)%nat -> (d < D)%nat ->
  exists grow,
    dW1_of (daffine_of lc (affine_of W1 X)
              (masked (outer_of (dout_of nv y (map (predict_masked lc W1 W2)
                                                 (zip X mask))) W2) mask)) X !! h
    = Some grow /\
    grow !! d
    = Some (np.sum (zip_with
                      (fun yb s => entry (daffine_masked_row nv lc W1 W2 yb s) h
                                   * entry (fst s) d) y (zip X mask))).
Proof.
  intros HB HW1 HW2 HX Hy Hm Hmr Hh Hd.
  assert (LX : length X = B) by apply HX.
  rewrite daffine_masked_closed by lia.
  assert (LS : length (zip X mask) = B) by (rewrite length_zip_with; lia).
  pose proof (shape2_daffine_masked nv lc H B W1 W2 (zip X mask) y HW1 HW2 LS Hy
                (zip_mask_rows H X mask Hmr)) as HS.
  unfold dW1_of. rewrite list_lookup_fmap, (T_lookup B H _ h HB HS Hh). simpl.
  eexists. split; [reflexivity|].
  rewrite (vec_mat_lookup B D _ X d HB HX Hd).
  rewrite map_zip_with_both.
  rewrite <- (fst_zip X mask) at 2 by lia.
  rewrite zip_with_map_r, zip_with_zip_self. reflexivity.
Qed.

(** With the mask held fixed, [dW1[h][d]] of the dropout pass is the partial
    derivative of the masked loss in [W1[h][d]] (slope at most one,
    pre-activation of unit [h] non-zero on the batch): the mask reaches
    [dW1] through [ddropout_out], only [dW2] misses it. *)
Lemma dropout_dW1_gradient nv lc H D B (W1 : mat) (W2 : vec)
    (X : mat) (mask : list (list bool)) (y : vec) h d row w1hd :
  nv <> 0 -> lc <= 1 -> (0 < B)%nat ->
  shape2 H D W1 -> length W2 = H -> shape2 B D X -> length y = B ->
  length mask = B -> Forall (fun r => length r = H) mask ->
  W1 !! h = Some row -> row !! d = Some w1hd ->
  (forall x, x ∈ X -> dotp x row <> 0) ->
  exists out c dW1 dW2 grow g,
    TwoLayerNNDropout.forward lc W1 W2 X mask = Ok (out, c) /\
    TwoLayerNNDropout.backward nv lc W2 out c y = Ok (dW1, dW2) /\
    dW1 !! h = Some grow /\ grow !! d = Some g /\
    derivable_pt_lim
      (fun w => dropout_loss nv lc (<[h := <[d := w]> row]> W1) W2 X mask y) w1hd g.
Proof.
  intros Hnv Hlc HB HW1 HW2 HX Hy Hm Hmr Hrow Hw Hne.
  assert (Hh : (h < H)%nat) by (destruct HW1 as [<- _]; eapply lookup_lt_Some, Hrow).
  assert (Lrow : length row = D)
    by (eapply shape2_elem; [exact HW1|eapply list_elem_of_lookup_2, Hrow]).
  assert (Hd : (d < D)%nat) by (rewrite <- Lrow; eapply lookup_lt_Some, Hw).
  assert (LX : length X = B) by apply HX.
  destruct (lookup_lt_is_Some_2 W2 h) as [w2h Hw2]; [lia|].
  destruct (shape2_hidden lc B H W1 X) as [HA HRl]; [apply HW1|apply HX|].
  destruct (dropout_backward_ok nv lc H D B W2
              (readout_of W2 (masked (relu_of lc (affine_of W1 X)) mask)) y X
              (affine_of W1 X) (relu_of lc (affine_of W1 X))
              (masked (relu_of lc (affine_of W1 X)) mask) mask Hnv HB HW2
              ltac:(rewrite dropout_readout_closed, length_fmap, length_zip_with; lia)
              Hy HX HA HRl Hm Hmr)
    as (Eb & _ & _).
  destruct (dropout_dW1_entry nv lc H D B W1 W2 X mask y h d HB ltac:(apply HW1)
              HW2 HX Hy Hm Hmr Hh Hd) as (grow & Egrow & Eg).
  eexists _, _, _, _, grow, _.
  split; [apply (dropout_forward_closed lc H D B); assumption|].
  split; [exact Eb|].
  rewrite dropout_readout_closed.
  split; [exact Egrow|]. split; [exact Eg|].
  eapply derivable_pt_lim_pointwise.
  - intros w. symmetry. apply (dropout_loss_closed nv lc H D B); auto.
    apply shape2_insert; [exact HW1|]. rewrite length_insert. exact Lrow.
  - rewrite (zip_with_ext_in _
               (fun yb s => - (2 / nv) * (yb - predict_masked lc W1 W2 s)
                            * (relu_mask lc (dotp (fst s) row) * entry (fst s) d
                               * (np.of_bool (default false (snd s !! h)) * w2h)))
               y (zip X mask)).
    + apply (sum_zip_derivative
               (fun w yb s =>
                  (yb - predict_masked lc (<[h := <[d := w]> row]> W1) W2 s)
                  * (yb - predict_masked lc (<[h := <[d := w]> row]> W1) W2 s) / nv)).
      apply Forall2_of_lengths; [rewrite length_zip_with; lia|].
      intros yb [x m] Hs. simpl.
      pose proof (elem_of_zip_l _ _ _ _ Hs) as Hx.
      pose proof (elem_of_zip_r _ _ _ _ Hs) as Hmm.
      destruct (lookup_lt_is_Some_2 x d) as [xd Hxd].
      { rewrite (shape2_elem B D X x HX Hx). exact Hd. }
      destruct (lookup_lt_is_Some_2 m h) as [mh Hmh].
      { rewrite Forall_forall in Hmr. rewrite (Hmr m Hmm). exact Hh. }
      rewrite (entry_of_lookup _ _ _ Hxd), Hmh. simpl.
      pose proof (sample_loss_derivative nv
                    (fun w => predict_masked lc (<[h := <[d := w]> row]> W1) W2 (x, m))
                    w1hd _ yb
                    (predict_masked_W1_derivative lc W1 W2 (x, m) h d row w1hd xd w2h mh
                       Hlc Hrow Hw Hxd Hw2 Hmh (Hne x Hx))) as Hder.
      simpl in Hder.
      rewrite (list_insert_id row d w1hd Hw), (list_insert_id W1 h row Hrow) in Hder.
      exact Hder.
    + apply Forall2_of_lengths; [rewrite length_zip_with; lia|].
      intros yb [x m] Hs. simpl.
      pose proof (elem_of_zip_r _ _ _ _ Hs) as Hmm.
      destruct (lookup_lt_is_Some_2 m h) as [mh Hmh].
      { rewrite Forall_forall in Hmr. rewrite (Hmr m Hmm). exact Hh. }
      unfold daffine_masked_row, entry at 1. simpl.
      rewrite !lookup_zip_with, !list_lookup_fmap, Hrow, Hw2, Hmh. simpl.
      unfold dout_masked. ring.
Qed.

(** * Further properties of the agents *)

(** ** Action selection at the ends of the exploration range *)

Section ExploreBranch.
Context {G : Type} {RS : RandomSource G}.

(** The explore branch: one uniform draw, then one integer draw. *)
Definition explores (high : Z) (w : world G agent) (r : result Z * world G agent) : Prop :=
  exists u g1 v g2,
    next_rand (gen w) = (u, g1) /\ next_randint high g1 = (v, g2) /\
    (0 <= v < high)%Z /\
    r = (Ok v, World (self w) g2 (Integer high v :: Uniform u :: log w)).

Lemma randint_explores (w : world G agent) u g1 :
  next_rand (gen w) = (u, g1) -> (0 < num_actions (self w))%Z ->
  explores (num_actions (self w)) w
    (rd.randint (num_actions (self w)) (World (self w) g1 (Uniform u :: log w))).
Proof.
  intros Eu Hn. unfold rd.randint. simpl.
  destruct (0 <? num_actions (self w))%Z eqn:E; [|lia].
  pose proof (next_randint_range (num_actions (self w)) g1 Hn) as Hv.
  destruct (next_randint (num_actions (self w)) g1) as [v g2] eqn:Ev.
  exists u, g1, v, g2. auto.
Qed.

Lemma annealing_pick_explore obs (w : world G agent) eps u g' :
  np.truediv (epsilon_param (self w)) (epsilon_param (self w) + IZR obs) = Ok eps ->
  next_rand (gen w) = (u, g') -> u < eps ->
  TwoLayerNNEpsilonGreedyAnnealing.pick_action obs w
  = rd.randint (num_actions (self w)) (World (self w) g' (Uniform u :: log w)).
Proof.
  intros Ee Eu Hu. unfold TwoLayerNNEpsilonGreedyAnnealing.pick_action.
  unfold mbind at 1, Py_bind at 1. unfold get at 1. simpl.
  unfold mbind at 1, Py_bind at 1. unfold lift at 1. rewrite Ee.
  unfold mbind at 1, Py_bind at 1. unfold rd.rand at 1. simpl. rewrite Eu.
  unfold np.ltb. destruct (Rlt_dec u eps); [|contradiction].
  reflexivity.
Qed.

Lemma annealing_pick_exploit obs (w : world G agent) eps u g' :
  np.truediv (epsilon_param (self w)) (epsilon_param (self w) + IZR obs) = Ok eps ->
  next_rand (gen w) = (u, g') -> ~ u < eps ->
  TwoLayerNNEpsilonGreedyAnnealing.pick_action obs w
  = (exploit (self w), World (self w) g' (Uniform u :: log w)).
Proof.
  intros Ee Eu Hu. apply run_of_wp.
  unfold TwoLayerNNEpsilonGreedyAnnealing.pick_action.
  wp_steps. rewrite Ee. wp_steps.
  eapply wp_run; [unfold rd.rand; rewrite Eu; reflexivity|].
  wp_steps. simpl. unfold np.ltb. destruct (Rlt_dec u eps); [contradiction|].
  unfold TwoLayerNNEpsilonGreedy._model_forward. wp_steps. simpl.
  unfold exploit.
  destruct (TwoLayerNNEpsilonGreedy.forward _ _ _ _) as [[out c]| |];
    unfold wp, lift, bind_post; simpl; auto.
  unfold wp. simpl. auto.
Qed.
End ExploreBranch.

(** A second concrete agent: two actions, two time steps, and the given
    exploration and dropout parameters. *)
Definition two_action_agent (eps drop : R) : agent :=
  {| W1 := [[1]]; W2 := [1]; actions := [[1]; [2]]; num_actions := 2; T := 2;
     prior_var := 1; noise_var := 1; epsilon_param := eps; p := drop;
     lr := 1 / 10; num_gradient_steps := 1; batch_size := 2; lr_decay := 1 / 2;
     leaky_coeff := 1 / 100; action_hist := [[0]; [0]]; reward_hist := [0; 0] |}.

(** X1.  With [epsilon_param >= 1] the fixed epsilon-greedy agent always
    explores: whatever the uniform draw, [pick_action] returns the integer it
    draws next from [0, num_actions), the network is not evaluated, and the
    agent is as before. *)
Theorem unit_epsilon_always_explores :
  forall (G : Type) (RS : RandomSource G) (observation : Z) (w : world G agent),
    1 <= epsilon_param (self w) -> (0 < num_actions (self w))%Z ->
    explores (num_actions (self w)) w
      (TwoLayerNNEpsilonGreedy.pick_action observation w).
Proof.
  intros G RS obs w Heps Hn.
  destruct (next_rand (gen w)) as [u g1] eqn:Eu.
  pose proof (next_rand_range (gen w)) as Hu. rewrite Eu in Hu. simpl in Hu.
  rewrite (epsilon_greedy_pick_explore obs w u g1 Eu) by lra.
  apply randint_explores; assumption.
Qed.

Lemma unit_epsilon_always_explores_witness :
  explores 2 (World (two_action_agent 1 0) [2%nat; 5%nat] [])
    (TwoLayerNNEpsilonGreedy.pick_action 0
       (World (two_action_agent 1 0) [2%nat; 5%nat] [])).
Proof.
  apply (unit_epsilon_always_explores (list nat) tape_source 0
           (World (two_action_agent 1 0) [2%nat; 5%nat] [])); simpl;
    [lra|lia].
Defined.

(** X2.  The two ends of the annealing schedule
    [epsilon_param / (epsilon_param + t)].  At time step 0 with a positive
    [epsilon_param] the threshold is 1 and the agent always explores; with
    [epsilon_param = 0] at any other time step it is 0 and the agent always
    exploits, whatever the uniform draw. *)
Theorem annealing_schedule_end_points :
  forall (G : Type) (RS : RandomSource G) (w : world G agent),
    (0 < epsilon_param (self w) -> (0 < num_actions (self w))%Z ->
     explores (num_actions (self w)) w
       (TwoLayerNNEpsilonGreedyAnnealing.pick_action 0 w)) /\
    (forall t : Z, epsilon_param (self w) = 0 -> t <> 0%Z ->
       exists u g1,
         next_rand (gen w) = (u, g1) /\
         TwoLayerNNEpsilonGreedyAnnealing.pick_action t w
         = (exploit (self w), World (self w) g1 (Uniform u :: log w))).
Proof.
  intros G RS w.
  destruct (next_rand (gen w)) as [u g1] eqn:Eu.
  pose proof (next_rand_range (gen w)) as Hu. rewrite Eu in Hu. simpl in Hu.
  split.
  - intros Heps Hn.
    rewrite (annealing_pick_explore 0 w 1 u g1); [| |exact Eu|lra].
    + apply randint_explores; assumption.
    + rewrite truediv_ok by (simpl; lra). f_equal. simpl. field. lra.
  - intros t Heps Ht. exists u, g1. split; [reflexivity|].
    apply (annealing_pick_exploit t w 0 u g1); [|exact Eu|lra].
    rewrite Heps, truediv_ok.
    + f_equal. unfold Rdiv. ring.
    + rewrite Rplus_0_l. apply not_0_IZR, Ht.
Qed.

Lemma annealing_schedule_end_points_witness :
  explores 2 (World (two_action_agent (1 / 2) 0) [3%nat; 1%nat] [])
    (TwoLayerNNEpsilonGreedyAnnealing.pick_action 0
       (World (two_action_agent (1 / 2) 0) [3%nat; 1%nat] [])) /\
  exists u g1,
    next_rand [0%nat] = (u, g1) /\
    TwoLayerNNEpsilonGreedyAnnealing.pick_action 3
      (World (two_action_agent 0 0) [0%nat] [])
    = (exploit (two_action_agent 0 0),
       World (two_action_agent 0 0) g1 [Uniform u]).
Proof.
  split.
  - apply (proj1 (annealing_schedule_end_points (list nat) tape_source
                    (World (two_action_agent (1 / 2) 0) [3%nat; 1%nat] []))); simpl;
      [lra|lia].
  - apply (proj2 (annealing_schedule_end_points (list nat) tape_source
                    (World (two_action_agent 0 0) [0%nat] [])) 3%Z); simpl;
      [reflexivity|lia].
Defined.

(** ** An action array with no rows *)

Lemma forward_no_rows lc (W1 : mat) (W2 : vec) :
  TwoLayerNNEpsilonGreedy.forward lc W1 W2 [] = Ok ([], ([], [], [])).
Proof. reflexivity. Qed.

Lemma exploit_no_rows (a : agent) : actions a = [] -> exploit a = Raise ValueError.
Proof. intros Ha. unfold exploit. rewrite Ha, forward_no_rows. reflexivity. Qed.

Section NoActions.
Context {G : Type} {RS : RandomSource G}.

Lemma randint_not_positive {S} high (w : world G S) :
  (high <= 0)%Z -> rd.randint high w = (Raise ValueError, w).
Proof. intros Hh. unfold rd.randint. destruct (0 <? high)%Z eqn:E; [lia|reflexivity]. Qed.

Lemma epsilon_greedy_branches_no_rows (b : bool) (w : world G agent) :
  actions (self w) = [] -> num_actions (self w) = 0%Z ->
  wp (if b then n ← get num_actions; rd.randint n
      else acts ← get actions;
           '(model_out, _) ← TwoLayerNNEpsilonGreedy._model_forward acts;
           lift (np.argmax model_out))
     (fun r _ => r = Raise ValueError) w.
Proof.
  intros Ha Hn. destruct b.
  - wp_steps. rewrite Hn. eapply wp_run; [apply randint_not_positive; lia|].
    reflexivity.
  - unfold TwoLayerNNEpsilonGreedy._model_forward. wp_steps.
    rewrite Ha, forward_no_rows. wp_steps. apply wp_lift. reflexivity.
Qed.

Lemma epsilon_greedy_pick_no_rows obs (w : world G agent) :
  actions (self w) = [] -> num_actions (self w) = 0%Z ->
  fst (TwoLayerNNEpsilonGreedy.pick_action obs w) = Raise ValueError.
Proof.
  intros Ha Hn. change (wp (TwoLayerNNEpsilonGreedy.pick_action obs)
                          (fun r _ => r = Raise ValueError) w).
  unfold TwoLayerNNEpsilonGreedy.pick_action. wp_steps.
  eapply wp_yields; [apply yields_rand|]. intros u w1 Hs _. wp_steps.
  apply epsilon_greedy_branches_no_rows; rewrite Hs; assumption.
Qed.

Lemma annealing_pick_no_rows obs (w : world G agent) :
  actions (self w) = [] -> num_actions (self w) = 0%Z ->
  epsilon_param (self w) + IZR obs <> 0 ->
  fst (TwoLayerNNEpsilonGreedyAnnealing.pick_action obs w) = Raise ValueError.
Proof.
  intros Ha Hn He. change (wp (TwoLayerNNEpsilonGreedyAnnealing.pick_action obs)
                             (fun r _ => r = Raise ValueError) w).
  unfold TwoLayerNNEpsilonGreedyAnnealing.pick_action. wp_steps.
  rewrite truediv_ok by exact He. wp_steps.
  eapply wp_yields; [apply yields_rand|]. intros u w1 Hs _. wp_steps.
  apply epsilon_greedy_branches_no_rows; rewrite Hs; assumption.
Qed.

Lemma dropout_pick_no_rows obs (w : world G agent) :
  actions (self w) = [] ->
  fst (TwoLayerNNDropout.pick_action obs w) = Raise ValueError.
Proof.
  intros Ha. change (wp (TwoLayerNNDropout.pick_action obs)
                       (fun r _ => r = Raise ValueError) w).
  unfold TwoLayerNNDropout.pick_action, TwoLayerNNDropout._model_forward,
    TwoLayerNNDropout.draw_mask.
  wp_steps. rewrite Ha.
  change (TwoLayerNNDropout.hidden (leaky_coeff (self w)) (W1 (self w)) [])
    with (Ok ([] : mat, [] : mat)).
  wp_steps. simpl. unfold rd.rand2. simpl. wp_steps. simpl.
  change (TwoLayerNNDropout.readout (W2 (self w)) [] [])
    with (Ok ([] : vec, [] : mat)).
  wp_steps. apply wp_lift. reflexivity.
Qed.

Lemma ensemble_pick_no_rows Mn H D Tn obs (w : world G ES.state) :
  wf_ensemble Mn H D Tn (self w) -> ES.M (ES.obj (self w)) = Z.of_nat Mn ->
  ES.actions (ES.obj (self w)) = [] ->
  fst (ES.pick_action obs w) = Raise ValueError.
Proof.
  intros (a1 & a2 & p1 & p2 & L1 & L2 & _ & _ & _ & _ & S1 & S2 & _) HM Ha.
  change (wp (ES.pick_action obs) (fun r _ => r = Raise ValueError) w).
  destruct w as [[o h] g l]. simpl in *.
  unfold ES.pick_action, ES._model_forward, ES.attr, ES.load2, ES.load3.
  wp_steps. simpl.
  destruct Mn as [|Mn].
  { eapply wp_run; [apply randint_not_positive; lia|]. reflexivity. }
  eapply wp_yields; [apply yields_randint; lia|].
  intros m [[o1 h1] g1 l1] Hs Hm. simpl in Hs. inversion Hs; subst o1 h1.
  wp_steps. simpl.
  assert (D1 : ES.deref3 h (ES.W1 o) = a1) by (unfold ES.deref3; rewrite L1; reflexivity).
  assert (D2 : ES.deref2 h (ES.W2 o) = a2) by (unfold ES.deref2; rewrite L2; reflexivity).
  rewrite D1, D2, Ha.
  destruct (getitem_ok a1 m) as (w1m & G1 & K1); [destruct S1; lia|].
  destruct (getitem_ok a2 m) as (w2m & G2 & K2); [destruct S2; lia|].
  rewrite (ensemble_forward_member _ a1 a2 m _ w1m w2m G1 G2), forward_no_rows.
  wp_steps. apply wp_lift. reflexivity.
Qed.
End NoActions.

(** X3.  With an action array of no rows (and [num_actions = 0], as the
    constructors set it) [pick_action] raises [ValueError] in every class and
    in both branches: [rd.randint(0)] when exploring, [np.argmax] of an empty
    prediction when exploiting.  (For the annealing agent when the division
    is defined; for the ensemble on the arrays of its constructor.) *)
Theorem pick_action_without_actions_raises :
  forall (G : Type) (RS : RandomSource G) (observation : Z),
    (forall w : world G agent,
       actions (self w) = [] -> num_actions (self w) = 0%Z ->
       fst (TwoLayerNNEpsilonGreedy.pick_action observation w) = Raise ValueError /\
       fst (TwoLayerNNDropout.pick_action observation w) = Raise ValueError /\
       (epsilon_param (self w) + IZR observation <> 0 ->
        fst (TwoLayerNNEpsilonGreedyAnnealing.pick_action observation w)
        = Raise ValueError)) /\
    (forall (Mn H D Tn : nat) (w : world G ES.state),
       wf_ensemble Mn H D Tn (self w) -> ES.M (ES.obj (self w)) = Z.of_nat Mn ->
       ES.actions (ES.obj (self w)) = [] ->
       fst (ES.pick_action observation w) = Raise ValueError).
Proof.
  intros G RS obs. split.
  - intros w Ha Hn. split; [|split].
    + apply epsilon_greedy_pick_no_rows; assumption.
    + apply dropout_pick_no_rows; assumption.
    + intros He. apply annealing_pick_no_rows; assumption.
  - intros Mn H D Tn w Hwf HM Ha. apply (ensemble_pick_no_rows Mn H D Tn); assumption.
Qed.

(** The concrete agents without their action. *)
Definition no_action_agent : agent :=
  {| W1 := [[1]]; W2 := [1]; actions := []; num_actions := 0; T := 1;
     prior_var := 1; noise_var := 1; epsilon_param := 1 / 2; p := 1 / 2;
     lr := 1 / 10; num_gradient_steps := 1; batch_size := 2; lr_decay := 1;
     leaky_coeff := 1 / 100; action_hist := [[0]]; reward_hist := [0] |}.

Definition no_action_ensemble : ES.state :=
  ES.State
    {| ES.M := 1; ES.W1_model_prior := 0; ES.W2_model_prior := 1;
       ES.W1 := 2; ES.W2 := 3; ES.actions := []; ES.num_actions := 0;
       ES.T := 1; ES.prior_var := 1; ES.noise_var := 1; ES.lr := 1 / 10;
       ES.num_gradient_steps := 1; ES.batch_size := 2; ES.lr_decay := 1;
       ES.leaky_coeff := 1 / 100; ES.action_hist := [[0]];
       ES.model_reward_hist := [[0]] |}
    [ES.Arr3 [[[1]]]; ES.Arr2 [[1]]; ES.Arr3 [[[1]]]; ES.Arr2 [[1]]].

Lemma no_action_ensemble_wf : wf_ensemble 1 1 1 1 no_action_ensemble.
Proof.
  exists [[[1]]], [[1]], [[[1]]], [[1]]. simpl.
  repeat split; try reflexivity; try lia; repeat constructor.
Qed.

Lemma pick_action_without_actions_raises_witness :
  (fst (TwoLayerNNEpsilonGreedy.pick_action 1 (World no_action_agent [1%nat] []))
   = Raise ValueError /\
   fst (TwoLayerNNDropout.pick_action 1 (World no_action_agent [1%nat] []))
   = Raise ValueError /\
   fst (TwoLayerNNEpsilonGreedyAnnealing.pick_action 1
          (World no_action_agent [1%nat] []))
   = Raise ValueError) /\
  fst (ES.pick_action 1 (World no_action_ensemble [1%nat] [])) = Raise ValueError.
Proof.
  destruct (pick_action_without_actions_raises (list nat) tape_source 1) as [Hs He].
  destruct (Hs (World no_action_agent [1%nat] []) eq_refl eq_refl) as (H1 & H2 & H3).
  split; [split; [exact H1|split; [exact H2|apply H3; simpl; lra]]|].
  apply (He 1%nat 1%nat 1%nat 1%nat (World no_action_ensemble [1%nat] []));
    [apply no_action_ensemble_wf|reflexivity|reflexivity].
Defined.

(** ** The dropout policy at the ends of the range of [drop_prob] *)


Lemma row_all_kept (r : vec) (m : list bool) :
  length r = length m -> Forall (fun b => b = true) m ->
  zip_with Rmult r (map np.of_bool m) = r.
Proof.
  intros Hl Hm. revert r Hl. induction Hm as [|b m -> _ IH]; intros [|a r] Hl;
    try discriminate; [reflexivity|].
  simpl in Hl. rewrite fmap_cons. simpl. f_equal; [ring|apply IH; lia].
Qed.


Lemma masked_all_kept B H (Rl : mat) (mask : list (list bool)) :
  shape2 B H Rl -> length mask = B -> Forall (fun r => length r = H) mask ->
  Forall (Forall (fun b => b = true)) mask ->
  masked Rl mask = Rl.
Proof.
  intros [HRl HRr] Hm Hmr Hall. revert B Rl HRl HRr Hm Hmr.
  induction Hall as [|m mask Hrow _ IH]; intros B [|r Rl] HRl HRr Hm Hmr;
    simpl in *; subst B; try discriminate; [reflexivity|].
  change (masked (r :: Rl) (m :: mask))
    with (zip_with Rmult r (map np.of_bool m) :: masked Rl mask).
  inversion HRr; subst. inversion Hmr; subst.
  rewrite row_all_kept by (first [congruence | exact Hrow]). f_equal.
  apply (IH (length Rl)); auto.
Qed.



Section DropoutPick.
Context {G : Type} {RS : RandomSource G}.

(** The dropout policy in terms of the uniform numbers it draws: on a
    well-formed agent it draws one per action and hidden unit and returns
    the arg-max of the read-out of the units whose number exceeds [p]. *)
Lemma dropout_pick_masked H D obs (w : world G agent) :
  wf_policy H D (self w) ->
  let a := self w in
  let B := length (actions a) in
  exists u w1,
    rd.rand2 B H w = (Ok u, w1) /\ self w1 = a /\
    shape2 B H u /\ Forall (Forall (fun x => 0 <= x < 1)) u /\
    TwoLayerNNDropout.pick_action obs w
    = (np.argmax (readout_of (W2 a)
                    (masked (relu_of (leaky_coeff a) (affine_of (W1 a) (actions a)))
                       (map (map (fun x => np.gt x (p a))) u))),
       w1).
Proof.
  intros (HW1 & HW2 & Hacts & Hnum & Hne). simpl.
  destruct w as [a g l]. simpl in *.
  set (B := length (actions a)).
  assert (HB : (0 < B)%nat) by (unfold B; destruct (actions a); [congruence|simpl; lia]).
  assert (HX : shape2 B D (actions a)) by (split; [reflexivity|exact Hacts]).
  destruct (shape2_hidden (leaky_coeff a) B H (W1 a) (actions a)) as [HA HRl];
    [apply HW1|reflexivity|].
  set (Rl := relu_of (leaky_coeff a) (affine_of (W1 a) (actions a))) in *.
  assert (Hcols : length (hd [] Rl) = H) by (eapply shape2_hd; eauto).
  assert (Hrows : length Rl = B) by apply HRl.
  destruct (yields_rand2 (S:=agent) B H (World a g l))
    as (u & [a1 g1 l1] & Eu & Hs1 & [Su1 Su2] & Hu).
  simpl in Hs1. subst a1.
  exists u, (World a g1 l1).
  split; [exact Eu|]. split; [reflexivity|]. split; [split; assumption|].
  split; [exact Hu|].
  set (mask := map (map (fun x => np.gt x (p a))) u).
  assert (Hm1 : length mask = B) by (unfold mask; rewrite length_fmap; exact Su1).
  assert (Hm2 : Forall (fun r => length r = H) mask).
  { unfold mask. apply Forall_fmap. eapply Forall_impl; [exact Su2|].
    simpl. intros r Hr. rewrite length_fmap. exact Hr. }
  destruct (dropout_forward_ok (leaky_coeff a) H D B (W1 a) (W2 a) (actions a) mask
              HW1 HW2 HX Hm1 Hm2) as [Eh Er].
  fold Rl in Eh, Er.
  apply run_of_wp.
  unfold TwoLayerNNDropout.pick_action, TwoLayerNNDropout._model_forward,
    TwoLayerNNDropout.draw_mask.
  wp_steps. simpl. rewrite Eh. wp_steps. rewrite Hrows, Hcols.
  eapply wp_run; [exact Eu|]. wp_steps. simpl. fold mask.
  rewrite Er. wp_steps. apply wp_lift. split; reflexivity.
Qed.
End DropoutPick.


Lemma two_action_agent_wf_policy eps drop : wf_policy 1 1 (two_action_agent eps drop).
Proof. repeat split; try repeat constructor. discriminate. Qed.


(** X5.  With a negative [drop_prob] no unit is ever dropped, and as the
    forward pass does not rescale the kept units the dropout agent picks the
    action the plain network's arg-max picks. *)
Theorem negative_drop_prob_is_greedy :
  forall (G : Type) (RS : RandomSource G) (H D : nat) (observation : Z)
         (w : world G agent),
    wf_policy H D (self w) -> p (self w) < 0 ->
    fst (TwoLayerNNDropout.pick_action observation w) = exploit (self w).
Proof.
  intros G RS H D obs w Hwf Hp.
  destruct (dropout_pick_masked H D obs w Hwf) as (u & w1 & _ & _ & [Su1 Su2] & Hu & E).
  rewrite E. simpl.
  destruct Hwf as (HW1 & HW2 & Hacts & _ & _).
  destruct (shape2_hidden (leaky_coeff (self w)) (length (actions (self w))) H
              (W1 (self w)) (actions (self w))) as [_ HRl];
    [apply HW1|reflexivity|].
  rewrite (masked_all_kept (length (actions (self w))) H).
  - unfold exploit.
    rewrite (epsilon_greedy_forward_ok _ H D (length (actions (self w))))
      by (first [assumption | split; [reflexivity|assumption]]).
    reflexivity.
  - exact HRl.
  - rewrite length_fmap. exact Su1.
  - apply Forall_fmap. eapply Forall_impl; [exact Su2|]. simpl. intros r Hr.
    rewrite length_fmap. exact Hr.
  - apply Forall_fmap. eapply Forall_impl; [exact Hu|]. simpl. intros r Hr.
    apply Forall_fmap. eapply Forall_impl; [exact Hr|]. simpl. intros x Hx.
    unfold np.gt. destruct (Rlt_dec (p (self w)) x); [reflexivity|lra].
Qed.

Lemma negative_drop_prob_is_greedy_witness :
  fst (TwoLayerNNDropout.pick_action 0
         (World (two_action_agent 0 (-1)) [0%nat; 3%nat] []))
  = exploit (two_action_agent 0 (-1)).
Proof.
  apply (negative_drop_prob_is_greedy (list nat) tape_source 1%nat 1%nat 0
           (World (two_action_agent 0 (-1)) [0%nat; 3%nat] [])).
  - apply two_action_agent_wf_policy.
  - simpl. lra.
Defined.

(** ** The ensemble policy *)

(** X6.  [pick_action] of the ensemble agent makes one draw, the index [m]
    of a member out of [0, M), and returns what the arg-max of the plain
    forward pass with that member's weights [W1[m]], [W2[m]] returns; the
    other members play no part and the agent is as before. *)
Theorem ensemble_pick_is_greedy_for_drawn_member :
  forall (G : Type) (RS : RandomSource G) (Mn H D Tn : nat) (observation : Z)
         (w : world G ES.state),
    let o := ES.obj (self w) in
    let h := ES.heap (self w) in
    wf_ensemble Mn H D Tn (self w) -> ES.M o = Z.of_nat Mn -> (0 < Mn)%nat ->
    exists m g1 w1m w2m,
      next_randint (ES.M o) (gen w) = (m, g1) /\ (0 <= m < ES.M o)%Z /\
      ES.deref3 h (ES.W1 o) !! Z.to_nat m = Some w1m /\
      ES.deref2 h (ES.W2 o) !! Z.to_nat m = Some w2m /\
      ES.pick_action observation w
      = ('(model_out, _) ← TwoLayerNNEpsilonGreedy.forward (ES.leaky_coeff o)
                             w1m w2m (ES.actions o);
         np.argmax model_out,
         World (self w) g1 (Integer (ES.M o) m :: log w)).
Proof.
  intros G RS Mn H D Tn obs w o h
    (a1 & a2 & p1 & p2 & L1 & L2 & _ & _ & _ & _ & S1 & S2 & _) HM HMn.
  subst o h. destruct w as [[o h] g l]. simpl in *.
  assert (Hpos : (0 < ES.M o)%Z) by lia.
  pose proof (next_randint_range (ES.M o) g Hpos) as Hm.
  destruct (next_randint (ES.M o) g) as [m g1] eqn:Em. simpl in Hm.
  assert (D1 : ES.deref3 h (ES.W1 o) = a1) by (unfold ES.deref3; rewrite L1; reflexivity).
  assert (D2 : ES.deref2 h (ES.W2 o) = a2) by (unfold ES.deref2; rewrite L2; reflexivity).
  destruct (getitem_ok a1 m) as (w1m & G1 & K1); [destruct S1; lia|].
  destruct (getitem_ok a2 m) as (w2m & G2 & K2); [destruct S2; lia|].
  exists m, g1, w1m, w2m. rewrite D1, D2.
  split; [reflexivity|]. split; [exact Hm|]. split; [exact K1|]. split; [exact K2|].
  apply run_of_wp.
  unfold ES.pick_action, ES._model_forward, ES.attr, ES.load2, ES.load3.
  wp_steps. simpl.
  eapply wp_run.
  { unfold rd.randint. simpl. destruct (0 <? ES.M o)%Z eqn:E; [|lia].
    rewrite Em. reflexivity. }
  wp_steps. simpl. rewrite D1, D2.
  rewrite (ensemble_forward_member _ a1 a2 m _ w1m w2m G1 G2).
  destruct (TwoLayerNNEpsilonGreedy.forward _ _ _ _) as [[out c]| |];
    unfold wp, lift, bind_post; simpl; auto.
  unfold wp. simpl. auto.
Qed.

Lemma ensemble_pick_is_greedy_for_drawn_member_witness :
  exists m g1 w1m w2m,
    next_randint 1 [4%nat] = (m, g1) /\ (0 <= m < 1)%Z /\
    ES.deref3 (ES.heap small_ensemble) 2 !! Z.to_nat m = Some w1m /\
    ES.deref2 (ES.heap small_ensemble) 3 !! Z.to_nat m = Some w2m /\
    ES.pick_action 0 (World small_ensemble [4%nat] [])
    = ('(model_out, _) ← TwoLayerNNEpsilonGreedy.forward (1 / 100) w1m w2m [[1]];
       np.argmax model_out,
       World small_ensemble g1 [Integer 1 m]).
Proof.
  apply (ensemble_pick_is_greedy_for_drawn_member (list nat) tape_source
           1%nat 1%nat 1%nat 1%nat 0 (World small_ensemble [4%nat] []));
    [apply small_ensemble_wf|reflexivity|lia].
Defined.

(** ** Indices out of range and negative indices *)

(** [i] is no index of an axis of extent [n]. *)
Definition out_of_range (n : nat) (i : Z) : Prop :=
  (i < - Z.of_nat n \/ Z.of_nat n <= i)%Z.

Lemma index_out_of_range n i : out_of_range n i -> np.index n i = Raise IndexError.
Proof.
  intros Hi. unfold out_of_range in Hi. unfold np.index.
  destruct (0 <=? i)%Z eqn:E1, (i <? Z.of_nat n)%Z eqn:E2,
    (- Z.of_nat n <=? i)%Z eqn:E3, (i <? 0)%Z eqn:E4; simpl; try reflexivity; lia.
Qed.

Lemma index_negative n i :
  (- Z.of_nat n <= i < 0)%Z -> np.index n i = Ok (Z.to_nat (Z.of_nat n + i)).
Proof.
  intros Hi. unfold np.index.
  destruct (0 <=? i)%Z eqn:E1; [lia|]. simpl.
  destruct (- Z.of_nat n <=? i)%Z eqn:E3; [|lia].
  destruct (i <? 0)%Z eqn:E4; [|lia]. reflexivity.
Qed.

Lemma getitem_out_of_range {A} (a : list A) i :
  out_of_range (length a) i -> np.getitem a i = Raise IndexError.
Proof. intros Hi. unfold np.getitem. rewrite index_out_of_range by exact Hi. reflexivity. Qed.

Lemma getitem_negative {A} (a : list A) i :
  (- Z.of_nat (length a) <= i < 0)%Z ->
  np.getitem a i = np.getitem a (Z.of_nat (length a) + i).
Proof.
  intros Hi. unfold np.getitem.
  rewrite index_negative by exact Hi. rewrite index_ok by lia. reflexivity.
Qed.

Lemma getitem_in_range {A} (a : list A) i :
  (- Z.of_nat (length a) <= i < Z.of_nat (length a))%Z ->
  exists x, np.getitem a i = Ok x.
Proof.
  intros Hi. destruct (Z_lt_dec i 0) as [Hneg|Hpos].
  - rewrite getitem_negative by lia.
    destruct (getitem_ok a (Z.of_nat (length a) + i)) as (x & E & _); [lia|]. eauto.
  - destruct (getitem_ok a i) as (x & E & _); [lia|]. eauto.
Qed.

Lemma setitem_row_out_of_range (A : mat) t row :
  out_of_range (length A) t -> setitem_row A t row = Raise IndexError.
Proof. intros Ht. unfold setitem_row. rewrite index_out_of_range by exact Ht. reflexivity. Qed.

Lemma setitem_negative {A} (a : list A) t (x : A) :
  (- Z.of_nat (length a) <= t < 0)%Z ->
  setitem a t x = Ok (<[Z.to_nat (Z.of_nat (length a) + t) := x]> a).
Proof. intros Ht. unfold setitem. rewrite index_negative by exact Ht. reflexivity. Qed.

Lemma setitem_row_negative (A : mat) t (row : vec) n m :
  shape2 n m A -> length row = m -> (- Z.of_nat n <= t < 0)%Z ->
  setitem_row A t row = Ok (<[Z.to_nat (Z.of_nat n + t) := row]> A).
Proof.
  intros HA Hrow Ht.
  rewrite <- (setitem_row_ok A (Z.of_nat n + t) row n m HA Hrow) by lia.
  destruct HA as [Hn _]. unfold setitem_row.
  rewrite index_negative, index_ok by lia. simpl.
  rewrite getitem_negative by lia. rewrite Hn. reflexivity.
Qed.

Lemma getitem_cases {A} (a : list A) i :
  (exists x, np.getitem a i = Ok x) \/ np.getitem a i = Raise IndexError.
Proof.
  destruct (Z_lt_dec i (- Z.of_nat (length a))) as [Hlo|Hlo].
  { right. apply getitem_out_of_range. left. exact Hlo. }
  destruct (Z_le_dec (Z.of_nat (length a)) i) as [Hhi|Hhi].
  { right. apply getitem_out_of_range. right. exact Hhi. }
  left. apply getitem_in_range. lia.
Qed.

Section UpdateErrors.
Context {G : Type} {RS : RandomSource G}.

Lemma single_update_out_of_range (k : klass G) t action reward (w : world G agent) :
  out_of_range (length (actions (self w))) action \/
  out_of_range (length (action_hist (self w))) t ->
  TwoLayerNNEpsilonGreedy.update_observation k t action reward w
  = (Raise IndexError, w).
Proof.
  intros Hout. apply run_of_wp. unfold TwoLayerNNEpsilonGreedy.update_observation.
  wp_steps. apply wp_lift.
  destruct (getitem_cases (actions (self w)) action) as [[row Eg]|Eg]; rewrite Eg.
  - unfold bind_post. wp_steps. apply wp_lift.
    destruct Hout as [Ha|Ht].
    + rewrite getitem_out_of_range in Eg by exact Ha. discriminate.
    + rewrite setitem_row_out_of_range by exact Ht. split; reflexivity.
  - split; reflexivity.
Qed.

Lemma ensemble_update_out_of_range t action reward (w : world G ES.state) :
  out_of_range (length (ES.actions (ES.obj (self w)))) action \/
  out_of_range (length (ES.action_hist (ES.obj (self w)))) t ->
  ES.update_observation t action reward w = (Raise IndexError, w).
Proof.
  intros Hout. apply run_of_wp. unfold ES.update_observation, ES.attr.
  wp_steps. apply wp_lift. simpl.
  destruct (getitem_cases (ES.actions (ES.obj (self w))) action) as [[row Eg]|Eg];
    rewrite Eg.
  - unfold bind_post. wp_steps. apply wp_lift. simpl.
    destruct Hout as [Ha|Ht].
    + rewrite getitem_out_of_range in Eg by exact Ha. discriminate.
    + rewrite setitem_row_out_of_range by exact Ht. split; reflexivity.
  - split; reflexivity.
Qed.

Lemma single_update_negative_action (k : klass G) t action reward (w : world G agent) :
  (- Z.of_nat (length (actions (self w))) <= action < 0)%Z ->
  TwoLayerNNEpsilonGreedy.update_observation k t action reward w
  = TwoLayerNNEpsilonGreedy.update_observation k t
      (Z.of_nat (length (actions (self w))) + action) reward w.
Proof.
  intros Ha. unfold TwoLayerNNEpsilonGreedy.update_observation.
  unfold mbind at 1, Py_bind at 1, get at 1. cbv beta iota.
  rewrite getitem_negative by exact Ha. reflexivity.
Qed.

Lemma ensemble_update_negative_action t action reward (w : world G ES.state) :
  (- Z.of_nat (length (ES.actions (ES.obj (self w)))) <= action < 0)%Z ->
  ES.update_observation t action reward w
  = ES.update_observation t
      (Z.of_nat (length (ES.actions (ES.obj (self w)))) + action) reward w.
Proof.
  intros Ha. unfold ES.update_observation, ES.attr.
  unfold mbind at 1, Py_bind at 1, get at 1. cbv beta iota.
  rewrite getitem_negative by exact Ha. reflexivity.
Qed.
End UpdateErrors.

(** X7.  An action index or a time index outside the extent of its array
    makes [update_observation] raise [IndexError] at its first statement, in
    every class: nothing is recorded, nothing is drawn, and the weights and
    the learning rate are as before. *)
Theorem update_out_of_range_changes_nothing :
  forall (G : Type) (RS : RandomSource G) (t action : Z) (reward : R),
    (forall (k : klass G) (w : world G agent),
       out_of_range (length (actions (self w))) action \/
       out_of_range (length (action_hist (self w))) t ->
       TwoLayerNNEpsilonGreedy.update_observation k t action reward w
       = (Raise IndexError, w)) /\
    (forall w : world G ES.state,
       out_of_range (length (ES.actions (ES.obj (self w)))) action \/
       out_of_range (length (ES.action_hist (ES.obj (self w)))) t ->
       ES.update_observation t action reward w = (Raise IndexError, w)).
Proof.
  intros G RS t action reward. split.
  - intros k w. apply single_update_out_of_range.
  - intros w. apply ensemble_update_out_of_range.
Qed.

Lemma update_out_of_range_changes_nothing_witness :
  TwoLayerNNEpsilonGreedy.update_observation TwoLayerNNEpsilonGreedy.class
    0 1 1 small_world = (Raise IndexError, small_world) /\
  TwoLayerNNEpsilonGreedy.update_observation TwoLayerNNDropout.class
    1 0 1 small_world = (Raise IndexError, small_world) /\
  ES.update_observation (-2) 0 1 small_ensemble_world
  = (Raise IndexError, small_ensemble_world).
Proof.
  split; [|split].
  - apply (proj1 (update_out_of_range_changes_nothing (list nat) tape_source 0 1 1)).
    left. right. simpl. lia.
  - apply (proj1 (update_out_of_range_changes_nothing (list nat) tape_source 1 0 1)).
    right. right. simpl. lia.
  - apply (proj2 (update_out_of_range_changes_nothing (list nat) tape_source (-2) 0 1)).
    right. left. simpl. lia.
Defined.

(** X8.  A negative action index counts from the end of the action array,
    as Python indexing does: for [-len(actions) <= action < 0],
    [update_observation(t, action, reward)] does exactly what
    [update_observation(t, len(actions) + action, reward)] does. *)
Theorem update_with_negative_action_counts_from_the_end :
  forall (G : Type) (RS : RandomSource G) (t action : Z) (reward : R),
    (forall (k : klass G) (w : world G agent),
       (- Z.of_nat (length (actions (self w))) <= action < 0)%Z ->
       TwoLayerNNEpsilonGreedy.update_observation k t action reward w
       = TwoLayerNNEpsilonGreedy.update_observation k t
           (Z.of_nat (length (actions (self w))) + action) reward w) /\
    (forall w : world G ES.state,
       (- Z.of_nat (length (ES.actions (ES.obj (self w)))) <= action < 0)%Z ->
       ES.update_observation t action reward w
       = ES.update_observation t
           (Z.of_nat (length (ES.actions (ES.obj (self w)))) + action) reward w).
Proof.
  intros G RS t action reward. split.
  - intros k w. apply single_update_negative_action.
  - intros w. apply ensemble_update_negative_action.
Qed.

Lemma update_with_negative_action_counts_from_the_end_witness :
  TwoLayerNNEpsilonGreedy.update_observation TwoLayerNNEpsilonGreedy.class
    0 (-1) 1 (World (two_action_agent 0 0) [] [])
  = TwoLayerNNEpsilonGreedy.update_observation TwoLayerNNEpsilonGreedy.class
      0 (Z.of_nat 2 + -1) 1 (World (two_action_agent 0 0) [] []) /\
  ES.update_observation 0 (-1) 1 small_ensemble_world
  = ES.update_observation 0 (Z.of_nat 1 + -1) 1 small_ensemble_world.
Proof.
  split.
  - apply (proj1 (update_with_negative_action_counts_from_the_end
                    (list nat) tape_source 0 (-1) 1)
             TwoLayerNNEpsilonGreedy.class (World (two_action_agent 0 0) [] [])).
    simpl. lia.
  - apply (proj2 (update_with_negative_action_counts_from_the_end
                    (list nat) tape_source 0 (-1) 1) small_ensemble_world).
    simpl. lia.
Defined.

(** ** Updates at the edges: a negative time index, no gradient step *)

Section UpdateEdges.
Context {G : Type} {RS : RandomSource G}.

Lemma randint_size_not_positive {S} high size (w : world G S) :
  (high <= 0)%Z -> (0 < size)%Z ->
  rd.randint_size high size w = (Raise ValueError, w).
Proof.
  intros Hh Hs. unfold rd.randint_size.
  destruct (size <? 0)%Z eqn:E; [lia|].
  destruct (Z.to_nat size) as [|n] eqn:En; [lia|].
  simpl. unfold mbind, Py_bind. rewrite randint_not_positive by exact Hh.
  reflexivity.
Qed.

Lemma range_positive n : (0 < n)%Z -> exists l, np.range n = 0%Z :: l.
Proof.
  intros Hn. unfold np.range. destruct (Z.to_nat n) as [|k] eqn:Ek; [lia|].
  simpl. eauto.
Qed.

Lemma range_not_positive n : (n <= 0)%Z -> np.range n = [].
Proof.
  intros Hn. unfold np.range. replace (Z.to_nat n) with 0%nat by lia. reflexivity.
Qed.

Lemma single_update_negative_time (k : klass G) D Tn t action reward
    (w : world G agent) :
  let a := self w in
  shape2 Tn D (action_hist a) -> length (reward_hist a) = Tn ->
  Forall (fun x => length x = D) (actions a) ->
  (0 <= action < Z.of_nat (length (actions a)))%Z ->
  (- Z.of_nat Tn <= t < 0)%Z ->
  (0 < num_gradient_steps a)%Z -> (0 < batch_size a)%Z ->
  exists row,
    actions a !! Z.to_nat action = Some row /\
    TwoLayerNNEpsilonGreedy.update_observation k t action reward w
    = (Raise ValueError,
       World (recorded (Z.of_nat Tn + t) row reward a) (gen w) (log w)).
Proof.
  intros a Hah Hrh Hacts Haction Ht Hn Hbs. subst a.
  destruct w as [a g l]. simpl in *.
  destruct (getitem_ok (actions a) action Haction) as (row & Erow & Hrow).
  assert (Lrow : length row = D).
  { rewrite Forall_forall in Hacts. apply Hacts.
    eapply list_elem_of_lookup_2, Hrow. }
  destruct (range_positive (num_gradient_steps a) Hn) as (rest & Er).
  exists row. split; [exact Hrow|].
  apply run_of_wp. unfold TwoLayerNNEpsilonGreedy.update_observation.
  wp_steps. simpl. rewrite Erow. wp_steps. simpl.
  rewrite (setitem_row_negative _ _ _ Tn D) by assumption. wp_steps. simpl.
  rewrite setitem_negative by lia. wp_steps. simpl.
  unfold TwoLayerNNEpsilonGreedy._update_model. wp_steps. simpl.
  rewrite Er. simpl. wp_steps.
  unfold TwoLayerNNEpsilonGreedy.gradient_step. wp_steps. simpl.
  eapply wp_run; [apply randint_size_not_positive; lia|].
  unfold recorded. simpl. rewrite Hrh. split; reflexivity.
Qed.

Lemma single_update_without_steps (k : klass G) D Tn t action reward
    (w : world G agent) :
  let a := self w in
  shape2 Tn D (action_hist a) -> length (reward_hist a) = Tn ->
  Forall (fun x => length x = D) (actions a) ->
  (0 <= action < Z.of_nat (length (actions a)))%Z ->
  (0 <= t < Z.of_nat Tn)%Z ->
  (num_gradient_steps a <= 0)%Z ->
  exists row,
    actions a !! Z.to_nat action = Some row /\
    TwoLayerNNEpsilonGreedy.update_observation k t action reward w
    = (Ok tt,
       World (set_lr (lr a * lr_decay a) (recorded t row reward a)) (gen w) (log w)).
Proof.
  intros a Hah Hrh Hacts Haction Ht Hn. subst a.
  destruct w as [a g l]. simpl in *.
  destruct (getitem_ok (actions a) action Haction) as (row & Erow & Hrow).
  assert (Lrow : length row = D).
  { rewrite Forall_forall in Hacts. apply Hacts.
    eapply list_elem_of_lookup_2, Hrow. }
  exists row. split; [exact Hrow|].
  apply run_of_wp. unfold TwoLayerNNEpsilonGreedy.update_observation.
  wp_steps. simpl. rewrite Erow. wp_steps. simpl.
  rewrite (setitem_row_ok _ _ _ Tn D) by assumption. wp_steps. simpl.
  rewrite setitem_ok by lia. wp_steps. simpl.
  unfold TwoLayerNNEpsilonGreedy._update_model. wp_steps. simpl.
  rewrite range_not_positive by exact Hn. simpl. wp_steps.
  split; reflexivity.
Qed.
End UpdateEdges.

(** X9.  A negative time index in [-T, 0) is accepted by the two history
    writes, which count it from the end of the buffers, and rejected only
    afterwards by the minibatch draw [rd.randint(t + 1, ...)]:
    [update_observation] raises [ValueError] with the observation already
    recorded at index [T + t]; no gradient step is taken and the learning
    rate is not decayed. *)
Theorem update_at_negative_time_records_then_raises :
  forall (G : Type) (RS : RandomSource G) (k : klass G) (D Tn : nat)
         (t action : Z) (reward : R) (w : world G agent),
    let a := self w in
    shape2 Tn D (action_hist a) -> length (reward_hist a) = Tn ->
    Forall (fun x => length x = D) (actions a) ->
    (0 <= action < Z.of_nat (length (actions a)))%Z ->
    (- Z.of_nat Tn <= t < 0)%Z ->
    (0 < num_gradient_steps a)%Z -> (0 < batch_size a)%Z ->
    exists row,
      actions a !! Z.to_nat action = Some row /\
      TwoLayerNNEpsilonGreedy.update_observation k t action reward w
      = (Raise ValueError,
         World (recorded (Z.of_nat Tn + t) row reward a) (gen w) (log w)).
Proof. intros G RS. exact (@single_update_negative_time G RS). Qed.

Lemma update_at_negative_time_records_then_raises_witness :
  exists row,
    actions (two_action_agent 0 0) !! Z.to_nat 1 = Some row /\
    TwoLayerNNEpsilonGreedy.update_observation TwoLayerNNEpsilonGreedy.class
      (-1) 1 5 (World (two_action_agent 0 0) [] [])
    = (Raise ValueError,
       World (recorded (Z.of_nat 2 + -1) row 5 (two_action_agent 0 0)) [] []).
Proof.
  apply (update_at_negative_time_records_then_raises (list nat) tape_source
           TwoLayerNNEpsilonGreedy.class 1%nat 2%nat (-1) 1 5
           (World (two_action_agent 0 0) [] [])); simpl;
    first [lia | reflexivity | repeat constructor].
Defined.

(** X10.  With [num_gradient_steps <= 0] the loop of [_update_model] has no
    pass: [update_observation] only records the observation at index [t] and
    decays the learning rate; it draws nothing and leaves the weights as they
    are. *)
Theorem update_without_gradient_steps_only_records :
  forall (G : Type) (RS : RandomSource G) (k : klass G) (D Tn : nat)
         (t action : Z) (reward : R) (w : world G agent),
    let a := self w in
    shape2 Tn D (action_hist a) -> length (reward_hist a) = Tn ->
    Forall (fun x => length x = D) (actions a) ->
    (0 <= action < Z.of_nat (length (actions a)))%Z ->
    (0 <= t < Z.of_nat Tn)%Z ->
    (num_gradient_steps a <= 0)%Z ->
    exists row,
      actions a !! Z.to_nat action = Some row /\
      TwoLayerNNEpsilonGreedy.update_observation k t action reward w
      = (Ok tt,
         World (set_lr (lr a * lr_decay a) (recorded t row reward a))
           (gen w) (log w)).
Proof. intros G RS. exact (@single_update_without_steps G RS). Qed.

(** The two-action agent with no gradient step. *)
Definition idle_agent : agent :=
  {| W1 := [[1]]; W2 := [1]; actions := [[1]; [2]]; num_actions := 2; T := 2;
     prior_var := 1; noise_var := 1; epsilon_param := 0; p := 0;
     lr := 1 / 10; num_gradient_steps := 0; batch_size := 2; lr_decay := 1 / 2;
     leaky_coeff := 1 / 100; action_hist := [[0]; [0]]; reward_hist := [0; 0] |}.

Lemma update_without_gradient_steps_only_records_witness :
  exists row,
    actions idle_agent !! Z.to_nat 1 = Some row /\
    TwoLayerNNEpsilonGreedy.update_observation TwoLayerNNDropout.class
      1 1 5 (World idle_agent [] [])
    = (Ok tt,
       World (set_lr (lr idle_agent * lr_decay idle_agent)
                (recorded 1 row 5 idle_agent)) [] []).
Proof.
  apply (update_without_gradient_steps_only_records (list nat) tape_source
           TwoLayerNNDropout.class 1%nat 2%nat 1 1 5 (World idle_agent [] [])); simpl;
    first [lia | reflexivity | repeat constructor].
Defined.

(** ** What an update records, and what it never touches *)

(** The attributes no method assigns after construction. *)
Definition settings (a : agent) :=
  (actions a, num_actions a, T a, prior_var a, noise_var a, epsilon_param a, p a,
   num_gradient_steps a, batch_size a, lr_decay a, leaky_coeff a).

(** [s'] has the settings of [s] and history buffers of the same length. *)
Definition same_settings : relation agent :=
  fun s s' =>
    settings s' = settings s /\
    length (action_hist s') = length (action_hist s) /\
    length (reward_hist s') = length (reward_hist s).

#[global] Instance same_settings_preorder : PreOrder same_settings.
Proof.
  split.
  - intros s. repeat split.
  - intros a b c (A1 & A2 & A3) (B1 & B2 & B3). repeat split; congruence.
Qed.

Lemma only_weights_settings (s s' : agent) : only_weights s s' -> same_settings s s'.
Proof. intros ->. repeat split. Qed.

Lemma sgd_steps_only_weights {G} {RS : RandomSource G} (k : klass G) t n
    (w w' : world G agent) :
  steps (sgd_step k t) n w w' -> only_weights (self w) (self w').
Proof.
  induction 1 as [w|n w w1 w2 Hs _ IH]; [reflexivity|].
  etransitivity; [|exact IH].
  destruct Hs as (bi & wa & ab & rb & out & c & wb & dW1 & dW2 & wc & Hs).
  destruct Hs as (_ & _ & _ & _ & _ & _ & ->). simpl.
  destruct (self w). reflexivity.
Qed.

Lemma setitem_row_length (A : mat) t row A' :
  setitem_row A t row = Ok A' -> length A' = length A.
Proof.
  unfold setitem_row. intros E.
  destruct (np.index (length A) t) as [k| |]; try discriminate. simpl in E.
  destruct (np.getitem A t) as [old| |]; try discriminate. simpl in E.
  destruct (np.broadcast_to _ old row) as [new| |]; try discriminate.
  simpl in E. inversion E. apply length_insert.
Qed.

Lemma setitem_length {A} (a : list A) t x a' :
  setitem a t x = Ok a' -> length a' = length a.
Proof.
  unfold setitem. intros E.
  destruct (np.index (length a) t) as [k| |]; try discriminate.
  simpl in E. inversion E. apply length_insert.
Qed.

Section UpdateFrameAll.
Context {G : Type} {RS : RandomSource G}.

Lemma update_observation_settings (k : klass G) t action reward :
  klass_keeps (on_self only_weights) k ->
  keeps (on_self same_settings)
    (TwoLayerNNEpsilonGreedy.update_observation k t action reward).
Proof.
  intros Hk w. unfold on_self.
  change (wp (TwoLayerNNEpsilonGreedy.update_observation k t action reward)
            (fun _ w' => same_settings (self w) (self w')) w).
  unfold TwoLayerNNEpsilonGreedy.update_observation.
  wp_steps. wp_lift_cases; [|reflexivity..].
  wp_steps. wp_lift_cases; [|reflexivity..].
  wp_steps. wp_lift_cases;
    [|split; [reflexivity|split; [simpl; eapply setitem_row_length; eauto|reflexivity]]..].
  wp_steps.
  assert (Hrec : same_settings (self w)
            (set_reward_hist a1 (set_action_hist a0 (self w)))).
  { split; [reflexivity|]. simpl. split.
    - eapply setitem_row_length; eauto.
    - eapply setitem_length; eauto. }
  apply (wp_keeps (on_self only_weights));
    [apply update_model_only_weights, Hk|].
  intros r w1 HR. unfold on_self in HR. simpl in HR.
  apply only_weights_settings in HR.
  destruct r; unfold bind_post; [|etransitivity; eauto..].
  wp_steps. simpl. etransitivity; [exact Hrec|].
  etransitivity; [exact HR|]. repeat split.
Qed.
End UpdateFrameAll.

(** The same for the ensemble agent: its attributes other than the learning
    rate and the two history buffers. *)
Definition ensemble_settings (o : ES.ensemble) :=
  (ES.M o, ES.W1_model_prior o, ES.W2_model_prior o, ES.W1 o, ES.W2 o,
   ES.actions o, ES.num_actions o, ES.T o, ES.prior_var o, ES.noise_var o,
   ES.num_gradient_steps o, ES.batch_size o, ES.lr_decay o, ES.leaky_coeff o).

Definition same_ensemble_settings : relation ES.state :=
  fun s s' => ensemble_settings (ES.obj s') = ensemble_settings (ES.obj s).

#[global] Instance same_ensemble_settings_preorder : PreOrder same_ensemble_settings.
Proof.
  split.
  - intros s. reflexivity.
  - intros a b c Hab Hbc. unfold same_ensemble_settings in *. congruence.
Qed.

Lemma ensemble_update_settings {G} {RS : RandomSource G} t action reward :
  keeps (G:=G) (on_self same_ensemble_settings)
    (ES.update_observation t action reward).
Proof.
  unfold ES.update_observation, ES._update_model, ES.gradient_step,
    ES._model_forward, ES._model_backward, ES.attr, ES.load2, ES.load3,
    ES.write, ES.set.
  keeps_on_self; apply modify_on_self; intros s; reflexivity.
Qed.

(** X11.  [update_observation] assigns only the weights, the learning rate
    and the history buffers.  Whatever it returns or raises, the action set,
    [num_actions], [T], [prior_var], [noise_var], [epsilon_param], [p],
    [num_gradient_steps], [batch_size], [lr_decay] and [leaky_coeff] (for the
    ensemble also [M] and the four array references) are as before, and the
    history buffers of the single-network agents keep their length. *)
Theorem update_never_touches_the_settings :
  forall (G : Type) (RS : RandomSource G) (t action : Z) (reward : R),
    (forall w : world G agent,
       same_settings (self w)
         (self (snd (TwoLayerNNEpsilonGreedy.update_observation
                       TwoLayerNNEpsilonGreedy.class t action reward w)))) /\
    (forall w : world G agent,
       same_settings (self w)
         (self (snd (TwoLayerNNEpsilonGreedy.update_observation
                       TwoLayerNNDropout.class t action reward w)))) /\
    (forall w : world G ES.state,
       same_ensemble_settings (self w)
         (self (snd (ES.update_observation t action reward w)))).
Proof.
  intros G RS t action reward. split; [|split]; intros w.
  - apply (update_observation_settings TwoLayerNNEpsilonGreedy.class t action reward),
      epsilon_greedy_class_on_self; apply _.
  - apply (update_observation_settings TwoLayerNNDropout.class t action reward),
      dropout_class_on_self; apply _.
  - apply (ensemble_update_settings t action reward w).
Qed.

(** ** A run of observations *)

Section Runs.
Context {G : Type} {RS : RandomSource G}.

(** A driver feeding the agent one observation after the other: the time
    step, the index of the action taken and the reward received. *)
Definition observe_all (k : klass G) (obs : list (Z * Z * R)) : Py G agent unit :=
  for_ obs (fun '(t, action, reward) =>
              TwoLayerNNEpsilonGreedy.update_observation k t action reward).

(** What a successful update leaves. *)
Lemma update_observation_result (k : klass G) H D Tn t action reward
    (w : world G agent) :
  klass_total H D k -> wf_agent H D Tn (self w) ->
  Forall (fun x => length x = D) (actions (self w)) ->
  (0 <= action < Z.of_nat (length (actions (self w))))%Z ->
  (0 <= t < Z.of_nat Tn)%Z -> (0 < batch_size (self w))%Z ->
  noise_var (self w) <> 0 -> prior_var (self w) <> 0 ->
  exists row w',
    TwoLayerNNEpsilonGreedy.update_observation k t action reward w = (Ok tt, w') /\
    actions (self w) !! Z.to_nat action = Some row /\
    wf_agent H D Tn (self w') /\
    self w' = set_lr (lr (self w) * lr_decay (self w))
                (set_W1 (W1 (self w')) (set_W2 (W2 (self w'))
                   (recorded t row reward (self w)))).
Proof.
  intros Hk Hwf Hacts Ha Ht Hbs Hnv Hpv.
  destruct (update_observation_spec k H D Tn t action reward w Hk Hwf Hacts Ha Ht
              Hbs Hnv Hpv) as (row & w1 & w' & Hrow & S & -> & E & Wf).
  exists row. eexists. split; [exact E|]. split; [exact Hrow|]. split; [exact Wf|].
  apply sgd_steps_only_weights in S. unfold only_weights in S. simpl in *.
  f_equal. exact S.
Qed.

Lemma observe_all_result (k : klass G) H D Tn (obs : list (Z * Z * R))
    (w : world G agent) :
  klass_total H D k -> wf_agent H D Tn (self w) ->
  Forall (fun x => length x = D) (actions (self w)) ->
  Forall (fun o => (0 <= snd (fst o) < Z.of_nat (length (actions (self w))))%Z /\
                   (0 <= fst (fst o) < Z.of_nat Tn)%Z) obs ->
  (0 < batch_size (self w))%Z -> noise_var (self w) <> 0 -> prior_var (self w) <> 0 ->
  exists w',
    observe_all k obs w = (Ok tt, w') /\ wf_agent H D Tn (self w') /\
    settings (self w') = settings (self w) /\
    lr (self w') = lr (self w) * lr_decay (self w) ^ length obs.
Proof.
  intros Hk. revert w.
  induction obs as [|[[t action] reward] obs IH]; intros w Hwf Hacts Hobs Hbs Hnv Hpv.
  - exists w. split; [reflexivity|]. split; [exact Hwf|]. split; [reflexivity|].
    simpl. ring.
  - inversion Hobs as [|o obs' [Ha Ht] Hrest]; subst. simpl in Ha, Ht.
    destruct (update_observation_result k H D Tn t action reward w Hk Hwf Hacts Ha Ht
                Hbs Hnv Hpv) as (row & w1 & E1 & _ & Wf1 & Es).
    assert (Hset : settings (self w1) = settings (self w)) by (rewrite Es; reflexivity).
    assert (Hlr : lr (self w1) = lr (self w) * lr_decay (self w))
      by (rewrite Es; reflexivity).
    pose proof Hset as Hset'. unfold settings in Hset'.
    inversion Hset' as [[Eacts Enum ET Epv Env Eeps Ep En Ebs Ed Elc]].
    destruct (IH w1 Wf1) as (w' & E2 & Wf2 & Hs2 & Hlr2).
    { rewrite Eacts. exact Hacts. }
    { rewrite Eacts. exact Hrest. }
    { rewrite Ebs. exact Hbs. }
    { rewrite Env. exact Hnv. }
    { rewrite Epv. exact Hpv. }
    exists w'. split; [|split; [exact Wf2|split; [congruence|]]].
    + unfold observe_all in *. simpl. unfold mbind, Py_bind. rewrite E1. exact E2.
    + rewrite Hlr2, Hlr, Ed. simpl. ring.
Qed.
End Runs.

(** The observations of a run are valid for agent [a] with [Tn] time steps. *)
Definition valid_run (Tn : nat) (a : agent) (obs : list (Z * Z * R)) : Prop :=
  Forall (fun o => (0 <= snd (fst o) < Z.of_nat (length (actions a)))%Z /\
                   (0 <= fst (fst o) < Z.of_nat Tn)%Z) obs.

(** A run of class [k] on a well-formed agent returns, keeps the agent
    well-formed and leaves the learning rate decayed once per observation. *)
Definition run_decays_rate {G} `{RandomSource G} (k : klass G) : Prop :=
  forall (H D Tn : nat) (obs : list (Z * Z * R)) (w : world G agent),
    wf_agent H D Tn (self w) ->
    Forall (fun x => length x = D) (actions (self w)) ->
    valid_run Tn (self w) obs ->
    (0 < batch_size (self w))%Z -> noise_var (self w) <> 0 -> prior_var (self w) <> 0 ->
    exists w',
      observe_all k obs w = (Ok tt, w') /\ wf_agent H D Tn (self w') /\
      lr (self w') = lr (self w) * lr_decay (self w) ^ length obs.

Lemma run_decays_rate_of_total {G} `{RandomSource G} (k : klass G) :
  (forall H D, klass_total H D k) -> run_decays_rate k.
Proof.
  intros Hk H0 D Tn obs w Hwf Hacts Hobs Hbs Hnv Hpv.
  destruct (observe_all_result k H0 D Tn obs w (Hk H0 D) Hwf Hacts Hobs Hbs Hnv Hpv)
    as (w' & E & Wf & _ & Hlr).
  exists w'. auto.
Qed.

(** X12.  Updates compose.  On an agent with the arrays of its constructor,
    a positive batch size and non-zero variances, any sequence of [n] valid
    observations (time steps within the horizon, in any order, action indices
    within the action set) is processed without an exception, leaves the
    arrays with their shapes, and leaves the learning rate at
    [lr * lr_decay ^ n]; for the epsilon-greedy and the dropout class. *)
Theorem learning_rate_after_a_run :
  forall (G : Type) (RS : RandomSource G),
    run_decays_rate TwoLayerNNEpsilonGreedy.class /\
    run_decays_rate TwoLayerNNDropout.class.
Proof.
  intros G RS. split; apply run_decays_rate_of_total; intros H D.
  - apply epsilon_greedy_class_total.
  - apply dropout_class_total.
Qed.

Lemma two_action_agent_wf eps drop : wf_agent 1 1 2 (two_action_agent eps drop).
Proof. repeat split; repeat constructor. Qed.

Lemma learning_rate_after_a_run_witness :
  (exists w',
     observe_all TwoLayerNNEpsilonGreedy.class [(0%Z, 1%Z, 1); (1%Z, 0%Z, 2); (0%Z, 0%Z, 3)]
       (World (two_action_agent 0 0) [] []) = (Ok tt, w') /\
     wf_agent 1 1 2 (self w') /\
     lr (self w') = 1 / 10 * (1 / 2) ^ 3) /\
  (exists w',
     observe_all TwoLayerNNDropout.class [(1%Z, 1%Z, 1)]
       (World (two_action_agent 0 (1 / 2)) [] []) = (Ok tt, w') /\
     wf_agent 1 1 2 (self w') /\
     lr (self w') = 1 / 10 * (1 / 2) ^ 1).
Proof.
  destruct (learning_rate_after_a_run (list nat) tape_source) as [He Hd].
  split.
  - apply (He 1%nat 1%nat 2%nat [(0%Z, 1%Z, 1); (1%Z, 0%Z, 2); (0%Z, 0%Z, 3)]
             (World (two_action_agent 0 0) [] [])); simpl;
      first [apply two_action_agent_wf | lia | lra
            | repeat constructor; simpl; lia].
  - apply (Hd 1%nat 1%nat 2%nat [(1%Z, 1%Z, 1)]
             (World (two_action_agent 0 (1 / 2)) [] [])); simpl;
      first [apply two_action_agent_wf | lia | lra
            | repeat constructor; simpl; lia].
Defined.

(** A successful update of class [k] leaves the observation at index [t] of
    both history buffers and every other index as it was. *)
Definition records_observation {G} `{RandomSource G} (k : klass G) : Prop :=
  forall (H D Tn : nat) (t action : Z) (reward : R) (w : world G agent),
    wf_agent H D Tn (self w) ->
    Forall (fun x => length x = D) (actions (self w)) ->
    (0 <= action < Z.of_nat (length (actions (self w))))%Z ->
    (0 <= t < Z.of_nat Tn)%Z -> (0 < batch_size (self w))%Z ->
    noise_var (self w) <> 0 -> prior_var (self w) <> 0 ->
    exists row w',
      TwoLayerNNEpsilonGreedy.update_observation k t action reward w = (Ok tt, w') /\
      actions (self w) !! Z.to_nat action = Some row /\
      action_hist (self w') !! Z.to_nat t = Some row /\
      reward_hist (self w') !! Z.to_nat t = Some reward /\
      forall j, j <> Z.to_nat t ->
        action_hist (self w') !! j = action_hist (self w) !! j /\
        reward_hist (self w') !! j = reward_hist (self w) !! j.

Lemma records_observation_of_total {G} `{RandomSource G} (k : klass G) :
  (forall H D, klass_total H D k) -> records_observation k.
Proof.
  intros Hk H0 D Tn t action reward w Hwf Hacts Ha Ht Hbs Hnv Hpv.
  destruct (update_observation_result k H0 D Tn t action reward w (Hk H0 D) Hwf Hacts
              Ha Ht Hbs Hnv Hpv) as (row & w' & E & Hrow & _ & Es).
  exists row, w'. split; [exact E|]. split; [exact Hrow|].
  destruct Hwf as (_ & _ & [Lah _] & Lrh).
  rewrite Es. simpl.
  split; [apply list_lookup_insert_eq; lia|].
  split; [apply list_lookup_insert_eq; lia|].
  intros j Hj. split; apply list_lookup_insert_ne; auto.
Qed.

(** X13.  Record and read back.  After a successful
    [update_observation(t, action, reward)] of the epsilon-greedy or the
    dropout class, [action_hist[t]] is the action [actions[action]] and
    [reward_hist[t]] is [reward]; every other index of the two buffers holds
    what it held before. *)
Theorem update_records_the_observation :
  forall (G : Type) (RS : RandomSource G),
    records_observation TwoLayerNNEpsilonGreedy.class /\
    records_observation TwoLayerNNDropout.class.
Proof.
  intros G RS. split; apply records_observation_of_total; intros H D.
  - apply epsilon_greedy_class_total.
  - apply dropout_class_total.
Qed.

Lemma update_records_the_observation_witness :
  (exists row w',
     TwoLayerNNEpsilonGreedy.update_observation TwoLayerNNEpsilonGreedy.class
       1 1 5 (World (two_action_agent 0 0) [] []) = (Ok tt, w') /\
     actions (two_action_agent 0 0) !! Z.to_nat 1 = Some row /\
     action_hist (self w') !! Z.to_nat 1 = Some row /\
     reward_hist (self w') !! Z.to_nat 1 = Some 5 /\
     forall j, j <> Z.to_nat 1 ->
       action_hist (self w') !! j = action_hist (two_action_agent 0 0) !! j /\
       reward_hist (self w') !! j = reward_hist (two_action_agent 0 0) !! j) /\
  (exists row w',
     TwoLayerNNEpsilonGreedy.update_observation TwoLayerNNDropout.class
       0 0 7 (World (two_action_agent 0 (1 / 2)) [] []) = (Ok tt, w') /\
     actions (two_action_agent 0 (1 / 2)) !! Z.to_nat 0 = Some row /\
     action_hist (self w') !! Z.to_nat 0 = Some row /\
     reward_hist (self w') !! Z.to_nat 0 = Some 7 /\
     forall j, j <> Z.to_nat 0 ->
       action_hist (self w') !! j = action_hist (two_action_agent 0 (1 / 2)) !! j /\
       reward_hist (self w') !! j = reward_hist (two_action_agent 0 (1 / 2)) !! j).
Proof.
  destruct (update_records_the_observation (list nat) tape_source) as [He Hd].
  split.
  - apply (He 1%nat 1%nat 2%nat 1%Z 1%Z 5 (World (two_action_agent 0 0) [] []));
      simpl; first [apply two_action_agent_wf | lia | lra | repeat constructor].
  - apply (Hd 1%nat 1%nat 2%nat 0%Z 0%Z 7 (World (two_action_agent 0 (1 / 2)) [] []));
      simpl; first [apply two_action_agent_wf | lia | lra | repeat constructor].
Defined.

(** ** The constructors *)

Section Drawn.
Context {G : Type} {RS : RandomSource G} {S : Type}.

(** [m] returns a value [a] satisfying [P] after making exactly the draws
    [tr a] (oldest first), and leaves the object alone. *)
Definition drawn {A} (P : A -> Prop) (tr : A -> list draw) (m : Py G S A) : Prop :=
  forall w, exists a w',
    m w = (Ok a, w') /\ self w' = self w /\ log w' = rev (tr a) ++ log w /\ P a.

Lemma drawn_randn : drawn (fun _ => True) (fun z => [Normal z]) rd.randn.
Proof.
  intros w. unfold rd.randn. destruct (next_randn (gen w)) as [z g].
  exists z. eexists. repeat split.
Qed.

Lemma drawn_replicateM {A} (P : A -> Prop) tr n (m : Py G S A) :
  drawn P tr m ->
  drawn (fun l => length l = n /\ Forall P l) (fun l => concat (map tr l))
    (replicateM n m).
Proof.
  intros Hm. induction n as [|n IH]; intros w; simpl.
  - exists [], w. repeat split; auto.
  - unfold mbind, Py_bind.
    destruct (Hm w) as (a & w1 & E1 & S1 & L1 & P1). rewrite E1.
    destruct (IH w1) as (l & w2 & E2 & S2 & L2 & Hl & P2). rewrite E2.
    exists (a :: l), w2. simpl. split; [reflexivity|]. split; [congruence|].
    split; [|split; [lia|constructor; assumption]].
    rewrite L2, L1, rev_app_distr, app_assoc. reflexivity.
Qed.

Lemma drawn_impl {A} (P P' : A -> Prop) tr tr' (m : Py G S A) :
  drawn P tr m -> (forall a, P a -> P' a /\ tr' a = tr a) -> drawn P' tr' m.
Proof.
  intros Hm HP w. destruct (Hm w) as (a & w' & E & Hs & Hl & Pa).
  destruct (HP a Pa) as [Pa' Et]. exists a, w'. rewrite Et. auto.
Qed.

Lemma concat_singletons {A B} (f : A -> B) (l : list A) :
  concat (map (fun a => [f a]) l) = map f l.
Proof. induction l as [|a l IH]; simpl; [reflexivity|]. f_equal. exact IH. Qed.

Lemma concat_map_map {A B} (f : A -> B) (l : list (list A)) :
  concat (map (map f) l) = map f (concat l).
Proof.
  induction l as [|a l IH]; [reflexivity|].
  rewrite !fmap_cons. simpl. rewrite fmap_app, IH. reflexivity.
Qed.

Lemma drawn_randn1 n :
  drawn (fun z => length z = n) (fun z => map Normal z) (rd.randn1 n).
Proof.
  unfold rd.randn1. eapply drawn_impl.
  - apply drawn_replicateM, drawn_randn.
  - simpl. intros z [Hl _]. split; [exact Hl|]. symmetry. apply concat_singletons.
Qed.

Lemma drawn_randn2 rows cols :
  drawn (shape2 rows cols) (fun z => map Normal (concat z)) (rd.randn2 rows cols).
Proof.
  unfold rd.randn2. eapply drawn_impl.
  - apply drawn_replicateM, drawn_randn1.
  - simpl. intros z Hz. split; [exact Hz|]. symmetry. apply concat_map_map.
Qed.

Lemma drawn_randn3 k rows cols :
  drawn (shape3 k rows cols) (fun z => map Normal (concat (concat z)))
    (rd.randn3 k rows cols).
Proof.
  unfold rd.randn3. eapply drawn_impl.
  - apply drawn_replicateM, drawn_randn2.
  - simpl. intros z Hz. split; [exact Hz|]. clear Hz.
    induction z as [|m z IH]; [reflexivity|].
    simpl. rewrite concat_app, fmap_app, IH. reflexivity.
Qed.

Lemma wp_drawn {A} (P : A -> Prop) tr (m : Py G S A)
    (post : result A -> world G S -> Prop) w :
  drawn P tr m ->
  (forall a w', self w' = self w -> log w' = rev (tr a) ++ log w -> P a ->
                post (Ok a) w') ->
  wp m post w.
Proof.
  intros Hm Hp. unfold wp. destruct (Hm w) as (a & w' & E & Hs & Hl & Pa).
  rewrite E. simpl. auto.
Qed.
End Drawn.


(** What both single-network constructors build from the standard normal
    numbers [z1] (a [hidden_dim x input_dim] array) and [z2] drawn for the
    weights: weights that are 1/100 of them, the arguments stored in their
    attributes, [num_actions] the number of actions, and history buffers of
    [time_horizon] zero rows. *)
Definition built (input_dim hidden_dim : Z) (acts : mat) (time_horizon : Z)
    (pv nv learning_rate : R) (n_steps bs : Z) (decay lc : R)
    (z1 : mat) (z2 : vec) (a : agent) : Prop :=
  shape2 (Z.to_nat hidden_dim) (Z.to_nat input_dim) z1 /\
  length z2 = Z.to_nat hidden_dim /\
  W1 a = np.smul2 (1 / 100) z1 /\ W2 a = np.smul1 (1 / 100) z2 /\
  actions a = acts /\ num_actions a = Z.of_nat (length acts) /\
  T a = time_horizon /\ prior_var a = pv /\ noise_var a = nv /\
  lr a = learning_rate /\ num_gradient_steps a = n_steps /\ batch_size a = bs /\
  lr_decay a = decay /\ leaky_coeff a = lc /\
  action_hist a = replicate (Z.to_nat time_horizon) (replicate (Z.to_nat input_dim) 0) /\
  reward_hist a = replicate (Z.to_nat time_horizon) 0.

Section SingleConstructors.
Context {G : Type} {RS : RandomSource G}.

Lemma np_zeros2_value n m :
  (0 <= n)%Z -> (0 <= m)%Z ->
  np_zeros2 n m = Ok (replicate (Z.to_nat n) (replicate (Z.to_nat m) 0)).
Proof.
  intros Hn Hm. unfold np_zeros2.
  destruct (n <? 0)%Z eqn:E1; [lia|]. destruct (m <? 0)%Z eqn:E2; [lia|].
  reflexivity.
Qed.

Lemma epsilon_greedy_init_built input_dim hidden_dim acts time_horizon pv nv eps
    learning_rate n_steps bs decay lc (w : world G unit) :
  (0 <= input_dim)%Z -> (0 <= hidden_dim)%Z -> (0 <= time_horizon)%Z ->
  exists a z1 z2 w',
    TwoLayerNNEpsilonGreedy.__init__ input_dim hidden_dim acts time_horizon pv nv
      eps learning_rate n_steps bs decay lc w = (Ok a, w') /\
    log w' = rev (map Normal (concat z1 ++ z2)) ++ log w /\
    built input_dim hidden_dim acts time_horizon pv nv learning_rate n_steps bs
      decay lc z1 z2 a /\
    epsilon_param a = eps.
Proof.
  intros HD HH HT.
  cut (wp (TwoLayerNNEpsilonGreedy.__init__ input_dim hidden_dim acts time_horizon
             pv nv eps learning_rate n_steps bs decay lc)
          (fun r w' => exists a z1 z2, r = Ok a /\
             log w' = rev (map Normal (concat z1 ++ z2)) ++ log w /\
             built input_dim hidden_dim acts time_horizon pv nv learning_rate
               n_steps bs decay lc z1 z2 a /\
             epsilon_param a = eps) w).
  { unfold wp. destruct (TwoLayerNNEpsilonGreedy.__init__ _ _ _ _ _ _ _ _ _ _ _ _ w)
      as [r w']. simpl. intros (a & z1 & z2 & -> & Ha). eauto 6. }
  unfold TwoLayerNNEpsilonGreedy.__init__.
  replace ((hidden_dim <? 0)%Z || (input_dim <? 0)%Z) with false
    by (destruct (hidden_dim <? 0)%Z eqn:E1, (input_dim <? 0)%Z eqn:E2; simpl; auto; lia).
  rewrite np_zeros2_value, np_zeros1_ok by assumption.
  wp_steps. eapply wp_drawn; [apply drawn_randn2|]. intros z1 wa _ La Sz1.
  wp_steps. eapply wp_drawn; [apply drawn_randn1|]. intros z2 wb _ Lb Lz2.
  wp_steps. eexists _, z1, z2. split; [reflexivity|]. split.
  - rewrite Lb, La, fmap_app, rev_app_distr, app_assoc. reflexivity.
  - split; [|reflexivity]. unfold built. simpl. repeat split; auto; apply Sz1.
Qed.

Lemma dropout_init_built input_dim hidden_dim acts time_horizon pv nv drop_prob
    learning_rate n_steps bs decay lc (w : world G unit) :
  (0 <= input_dim)%Z -> (0 <= hidden_dim)%Z -> (0 <= time_horizon)%Z ->
  exists a z1 z2 w',
    TwoLayerNNDropout.__init__ input_dim hidden_dim acts time_horizon pv nv
      drop_prob learning_rate n_steps bs decay lc w = (Ok a, w') /\
    log w' = rev (map Normal (concat z1 ++ z2)) ++ log w /\
    built input_dim hidden_dim acts time_horizon pv nv learning_rate n_steps bs
      decay lc z1 z2 a /\
    p a = drop_prob.
Proof.
  intros HD HH HT.
  cut (wp (TwoLayerNNDropout.__init__ input_dim hidden_dim acts time_horizon
             pv nv drop_prob learning_rate n_steps bs decay lc)
          (fun r w' => exists a z1 z2, r = Ok a /\
             log w' = rev (map Normal (concat z1 ++ z2)) ++ log w /\
             built input_dim hidden_dim acts time_horizon pv nv learning_rate
               n_steps bs decay lc z1 z2 a /\
             p a = drop_prob) w).
  { unfold wp. destruct (TwoLayerNNDropout.__init__ _ _ _ _ _ _ _ _ _ _ _ _ w)
      as [r w']. simpl. intros (a & z1 & z2 & -> & Ha). eauto 6. }
  unfold TwoLayerNNDropout.__init__.
  replace ((hidden_dim <? 0)%Z || (input_dim <? 0)%Z) with false
    by (destruct (hidden_dim <? 0)%Z eqn:E1, (input_dim <? 0)%Z eqn:E2; simpl; auto; lia).
  rewrite np_zeros2_value, np_zeros1_ok by assumption.
  wp_steps. eapply wp_drawn; [apply drawn_randn2|]. intros z1 wa _ La Sz1.
  wp_steps. eapply wp_drawn; [apply drawn_randn1|]. intros z2 wb _ Lb Lz2.
  wp_steps. eexists _, z1, z2. split; [reflexivity|]. split.
  - rewrite Lb, La, fmap_app, rev_app_distr, app_assoc. reflexivity.
  - split; [|reflexivity]. unfold built. simpl. repeat split; auto; apply Sz1.
Qed.

(** A negative extent: [rd.randn] refuses a negative [hidden_dim] or
    [input_dim] before anything is drawn; a negative [time_horizon] is
    refused by [np.zeros] only after the weights have been drawn. *)
Lemma single_init_negative_dimension input_dim hidden_dim acts time_horizon pv nv
    eps learning_rate n_steps bs decay lc (w : world G unit) :
  (hidden_dim < 0 \/ input_dim < 0)%Z ->
  TwoLayerNNEpsilonGreedy.__init__ input_dim hidden_dim acts time_horizon pv nv
    eps learning_rate n_steps bs decay lc w = (Raise ValueError, w).
Proof.
  intros Hneg. unfold TwoLayerNNEpsilonGreedy.__init__.
  replace ((hidden_dim <? 0)%Z || (input_dim <? 0)%Z) with true
    by (destruct (hidden_dim <? 0)%Z eqn:E1, (input_dim <? 0)%Z eqn:E2; simpl; auto; lia).
  reflexivity.
Qed.

Lemma single_init_negative_horizon input_dim hidden_dim acts time_horizon pv nv
    eps learning_rate n_steps bs decay lc (w : world G unit) :
  (0 <= input_dim)%Z -> (0 <= hidden_dim)%Z -> (time_horizon < 0)%Z ->
  exists z1 z2 w',
    TwoLayerNNEpsilonGreedy.__init__ input_dim hidden_dim acts time_horizon pv nv
      eps learning_rate n_steps bs decay lc w = (Raise ValueError, w') /\
    log w' = rev (map Normal (concat z1 ++ z2)) ++ log w /\
    shape2 (Z.to_nat hidden_dim) (Z.to_nat input_dim) z1 /\
    length z2 = Z.to_nat hidden_dim.
Proof.
  intros HD HH HT.
  cut (wp (TwoLayerNNEpsilonGreedy.__init__ input_dim hidden_dim acts time_horizon
             pv nv eps learning_rate n_steps bs decay lc)
          (fun r w' => exists z1 z2, r = Raise ValueError /\
             log w' = rev (map Normal (concat z1 ++ z2)) ++ log w /\
             shape2 (Z.to_nat hidden_dim) (Z.to_nat input_dim) z1 /\
             length z2 = Z.to_nat hidden_dim) w).
  { unfold wp. destruct (TwoLayerNNEpsilonGreedy.__init__ _ _ _ _ _ _ _ _ _ _ _ _ w)
      as [r w']. simpl. intros (z1 & z2 & -> & Ha). eauto 6. }
  unfold TwoLayerNNEpsilonGreedy.__init__.
  replace ((hidden_dim <? 0)%Z || (input_dim <? 0)%Z) with false
    by (destruct (hidden_dim <? 0)%Z eqn:E1, (input_dim <? 0)%Z eqn:E2; simpl; auto; lia).
  replace (np_zeros2 time_horizon input_dim) with (Raise ValueError : result mat)
    by (unfold np_zeros2; destruct (time_horizon <? 0)%Z eqn:E; [reflexivity|lia]).
  wp_steps. eapply wp_drawn; [apply drawn_randn2|]. intros z1 wa _ La Sz1.
  wp_steps. eapply wp_drawn; [apply drawn_randn1|]. intros z2 wb _ Lb Lz2.
  wp_steps. apply wp_lift. exists z1, z2. split; [reflexivity|]. split.
  - rewrite Lb, La, fmap_app, rev_app_distr, app_assoc. reflexivity.
  - split; assumption.
Qed.
End SingleConstructors.

(** X14.  The constructors of the epsilon-greedy and the dropout agent.
    For non-negative [input_dim], [hidden_dim] and [time_horizon] they
    return an agent whose weights are 1/100 of the standard normal numbers
    drawn for them ([hidden_dim * input_dim] for [W1], row by row, then
    [hidden_dim] for [W2]; nothing else is drawn), whose attributes hold the
    arguments, with [num_actions = len(actions)], and whose history buffers
    are [time_horizon] rows of zeros. *)
Theorem single_network_constructors_build_the_agent :
  forall (G : Type) (RS : RandomSource G) (input_dim hidden_dim : Z) (acts : mat)
         (time_horizon : Z) (pv nv x learning_rate : R) (n_steps bs : Z)
         (decay lc : R) (w : world G unit),
    (0 <= input_dim)%Z -> (0 <= hidden_dim)%Z -> (0 <= time_horizon)%Z ->
    (exists a z1 z2 w',
       TwoLayerNNEpsilonGreedy.__init__ input_dim hidden_dim acts time_horizon pv nv
         x learning_rate n_steps bs decay lc w = (Ok a, w') /\
       log w' = rev (map Normal (concat z1 ++ z2)) ++ log w /\
       built input_dim hidden_dim acts time_horizon pv nv learning_rate n_steps bs
         decay lc z1 z2 a /\
       epsilon_param a = x) /\
    (exists a z1 z2 w',
       TwoLayerNNDropout.__init__ input_dim hidden_dim acts time_horizon pv nv
         x learning_rate n_steps bs decay lc w = (Ok a, w') /\
       log w' = rev (map Normal (concat z1 ++ z2)) ++ log w /\
       built input_dim hidden_dim acts time_horizon pv nv learning_rate n_steps bs
         decay lc z1 z2 a /\
       p a = x).
Proof.
  intros G RS input_dim hidden_dim acts time_horizon pv nv x learning_rate n_steps bs
    decay lc w HD HH HT.
  split; [apply epsilon_greedy_init_built|apply dropout_init_built]; assumption.
Qed.

Lemma single_network_constructors_build_the_agent_witness :
  (exists a z1 z2 w',
     TwoLayerNNEpsilonGreedy.__init__ 2 1 [[1; 0]; [0; 1]] 3 1 1
       (1 / 2) (1 / 10) 1 64 1 (1 / 100) (World tt [3%nat; 1%nat; 4%nat] [])
     = (Ok a, w') /\
     log w' = rev (map Normal (concat z1 ++ z2)) ++ [] /\
     built 2 1 [[1; 0]; [0; 1]] 3 1 1 (1 / 10) 1 64 1 (1 / 100) z1 z2 a /\
     epsilon_param a = 1 / 2) /\
  (exists a z1 z2 w',
     TwoLayerNNDropout.__init__ 2 1 [[1; 0]; [0; 1]] 3 1 1
       (1 / 2) (1 / 10) 1 64 1 (1 / 100) (World tt [3%nat; 1%nat; 4%nat] [])
     = (Ok a, w') /\
     log w' = rev (map Normal (concat z1 ++ z2)) ++ [] /\
     built 2 1 [[1; 0]; [0; 1]] 3 1 1 (1 / 10) 1 64 1 (1 / 100) z1 z2 a /\
     p a = 1 / 2).
Proof.
  apply (single_network_constructors_build_the_agent (list nat) tape_source
           2 1 [[1; 0]; [0; 1]] 3 1 1 (1 / 2) (1 / 10) 1 64 1 (1 / 100)
           (World tt [3%nat; 1%nat; 4%nat] [])); lia.
Defined.

(** X15.  A negative extent passed to the epsilon-greedy constructor.  A
    negative [hidden_dim] or [input_dim] raises [ValueError] before anything
    is drawn.  A negative [time_horizon] raises [ValueError] as well, but only
    when the history buffers are allocated: by then the
    [hidden_dim * input_dim + hidden_dim] numbers of the weights have been
    drawn from the process-wide generator. *)
Theorem constructor_with_negative_extent_raises :
  forall (G : Type) (RS : RandomSource G) (input_dim hidden_dim : Z) (acts : mat)
         (time_horizon : Z) (pv nv eps learning_rate : R) (n_steps bs : Z)
         (decay lc : R) (w : world G unit),
    ((hidden_dim < 0 \/ input_dim < 0)%Z ->
     TwoLayerNNEpsilonGreedy.__init__ input_dim hidden_dim acts time_horizon pv nv
       eps learning_rate n_steps bs decay lc w = (Raise ValueError, w)) /\
    ((0 <= input_dim)%Z -> (0 <= hidden_dim)%Z -> (time_horizon < 0)%Z ->
     exists z1 z2 w',
       TwoLayerNNEpsilonGreedy.__init__ input_dim hidden_dim acts time_horizon pv nv
         eps learning_rate n_steps bs decay lc w = (Raise ValueError, w') /\
       log w' = rev (map Normal (concat z1 ++ z2)) ++ log w /\
       shape2 (Z.to_nat hidden_dim) (Z.to_nat input_dim) z1 /\
       length z2 = Z.to_nat hidden_dim).
Proof.
  intros G RS input_dim hidden_dim acts time_horizon pv nv eps learning_rate n_steps bs
    decay lc w.
  split.
  - apply single_init_negative_dimension.
  - apply single_init_negative_horizon.
Qed.

Lemma constructor_with_negative_extent_raises_witness :
  TwoLayerNNEpsilonGreedy.__init__ 2 (-1) [[1; 0]] 3 1 1 0 (1 / 10) 1 64 1 (1 / 100)
    (World tt [3%nat] []) = (Raise ValueError, World tt [3%nat] []) /\
  exists z1 z2 w',
    TwoLayerNNEpsilonGreedy.__init__ 2 1 [[1; 0]] (-3) 1 1 0 (1 / 10) 1 64 1 (1 / 100)
      (World tt [3%nat; 1%nat; 4%nat] []) = (Raise ValueError, w') /\
    log w' = rev (map Normal (concat z1 ++ z2)) ++ [] /\
    shape2 (Z.to_nat 1) (Z.to_nat 2) z1 /\ length z2 = Z.to_nat 1.
Proof.
  split.
  - apply (proj1 (constructor_with_negative_extent_raises (list nat) tape_source
                    2 (-1) [[1; 0]] 3 1 1 0 (1 / 10) 1 64 1 (1 / 100)
                    (World tt [3%nat] []))).
    left. lia.
  - apply (proj2 (constructor_with_negative_extent_raises (list nat) tape_source
                    2 1 [[1; 0]] (-3) 1 1 0 (1 / 10) 1 64 1 (1 / 100)
                    (World tt [3%nat; 1%nat; 4%nat] []))); lia.
Defined.

(** What the ensemble constructor stores in the attributes it holds by
    value. *)
Definition ensemble_built (input_dim : Z) (acts : mat) (time_horizon : Z)
    (pv nv : R) (num_models : Z) (learning_rate : R) (n_steps bs : Z)
    (decay lc : R) (e : ES.ensemble) : Prop :=
  ES.M e = num_models /\ ES.actions e = acts /\
  ES.num_actions e = Z.of_nat (length acts) /\ ES.T e = time_horizon /\
  ES.prior_var e = pv /\ ES.noise_var e = nv /\ ES.lr e = learning_rate /\
  ES.num_gradient_steps e = n_steps /\ ES.batch_size e = bs /\
  ES.lr_decay e = decay /\ ES.leaky_coeff e = lc /\
  ES.action_hist e
  = replicate (Z.to_nat time_horizon) (replicate (Z.to_nat input_dim) 0) /\
  ES.model_reward_hist e
  = replicate (Z.to_nat num_models) (replicate (Z.to_nat time_horizon) 0).

Section EnsembleConstructor.
Context {G : Type} {RS : RandomSource G}.

Lemma ensemble_init_built input_dim hidden_dim acts time_horizon pv nv num_models
    learning_rate n_steps bs decay lc (h0 : ES.store) (g : G) (l0 : list draw) :
  0 <= pv -> (0 <= num_models)%Z -> (0 <= hidden_dim)%Z -> (0 <= input_dim)%Z ->
  (0 <= time_horizon)%Z ->
  exists e z1 z2 h1 g1,
    ES.__init__ input_dim hidden_dim acts time_horizon pv nv num_models
      learning_rate n_steps bs decay lc (World h0 g l0)
    = (Ok e, World h1 g1 (rev (map Normal (concat (concat z1) ++ concat z2)) ++ l0)) /\
    shape3 (Z.to_nat num_models) (Z.to_nat hidden_dim) (Z.to_nat input_dim) z1 /\
    shape2 (Z.to_nat num_models) (Z.to_nat hidden_dim) z2 /\
    ES.deref3 h1 (ES.W1_model_prior e) = map (np.smul2 (sqrt pv)) z1 /\
    ES.deref2 h1 (ES.W2_model_prior e) = np.smul2 (sqrt pv) z2 /\
    ES.deref3 h1 (ES.W1 e) = map (np.smul2 (sqrt pv)) z1 /\
    ES.deref2 h1 (ES.W2 e) = np.smul2 (sqrt pv) z2 /\
    ensemble_built input_dim acts time_horizon pv nv num_models learning_rate
      n_steps bs decay lc e.
Proof.
  intros Hpv HM HH HD HT.
  set (w0 := World h0 g l0).
  cut (wp (ES.__init__ input_dim hidden_dim acts time_horizon pv nv num_models
             learning_rate n_steps bs decay lc)
          (fun r w1 => exists e z1 z2,
             r = Ok e /\
             log w1 = rev (map Normal (concat (concat z1) ++ concat z2)) ++ l0 /\
             shape3 (Z.to_nat num_models) (Z.to_nat hidden_dim) (Z.to_nat input_dim) z1 /\
             shape2 (Z.to_nat num_models) (Z.to_nat hidden_dim) z2 /\
             ES.deref3 (self w1) (ES.W1_model_prior e) = map (np.smul2 (sqrt pv)) z1 /\
             ES.deref2 (self w1) (ES.W2_model_prior e) = np.smul2 (sqrt pv) z2 /\
             ES.deref3 (self w1) (ES.W1 e) = map (np.smul2 (sqrt pv)) z1 /\
             ES.deref2 (self w1) (ES.W2 e) = np.smul2 (sqrt pv) z2 /\
             ensemble_built input_dim acts time_horizon pv nv num_models learning_rate
               n_steps bs decay lc e) w0).
  { unfold wp. destruct (ES.__init__ _ _ _ _ _ _ _ _ _ _ _ _ w0) as [r [h1 g' l']].
    simpl. intros (e & z1 & z2 & -> & -> & Ha).
    exists e, z1, z2, h1, g'. split; [reflexivity|exact Ha]. }
  unfold ES.__init__. rewrite np_sqrt_ok by exact Hpv.
  replace ((num_models <? 0)%Z || (hidden_dim <? 0)%Z || (input_dim <? 0)%Z)
    with false
    by (destruct (num_models <? 0)%Z eqn:E1, (hidden_dim <? 0)%Z eqn:E2,
          (input_dim <? 0)%Z eqn:E3; simpl; auto; lia).
  rewrite !np_zeros2_value by assumption.
  wp_steps. eapply wp_drawn; [apply drawn_randn3|].
  intros z1 wa Ha La Sz1. wp_steps. apply wp_alloc. wp_steps.
  eapply wp_drawn; [apply drawn_randn2|].
  intros z2 wb Hb Lb Sz2. wp_steps. apply wp_alloc. wp_steps.
  simpl in Hb, Lb. rewrite Hb, Ha. simpl.
  eapply wp_np_copy.
  { simpl. rewrite <- app_assoc. simpl. apply list_lookup_middle. reflexivity. }
  wp_steps. simpl. eapply wp_np_copy.
  { simpl. rewrite <- !app_assoc. simpl.
    change (h0 ++ ?a :: ?b :: ?c) with (h0 ++ [a] ++ b :: c).
    rewrite app_assoc. apply list_lookup_middle.
    rewrite length_app. simpl. lia. }
  wp_steps. simpl.
  eexists _, z1, z2. split; [reflexivity|].
  rewrite !length_app. simpl. rewrite <- !app_assoc. simpl.
  set (p1 := map (np.smul2 (sqrt pv)) z1). set (p2 := np.smul2 (sqrt pv) z2).
  assert (L0 : (h0 ++ [ES.Arr3 p1; ES.Arr2 p2; ES.Arr3 p1; ES.Arr2 p2])
               !! length h0 = Some (ES.Arr3 p1)).
  { apply list_lookup_middle. reflexivity. }
  assert (L1 : (h0 ++ [ES.Arr3 p1; ES.Arr2 p2; ES.Arr3 p1; ES.Arr2 p2])
               !! (length h0 + 1)%nat = Some (ES.Arr2 p2)).
  { change (h0 ++ ?a :: ?r) with (h0 ++ [a] ++ r). rewrite app_assoc.
    apply list_lookup_middle. rewrite length_app. simpl. lia. }
  assert (L2 : (h0 ++ [ES.Arr3 p1; ES.Arr2 p2; ES.Arr3 p1; ES.Arr2 p2])
               !! (length h0 + 1 + 1)%nat = Some (ES.Arr3 p1)).
  { change (h0 ++ ?a :: ?b :: ?r) with (h0 ++ [a; b] ++ r). rewrite app_assoc.
    apply list_lookup_middle. rewrite length_app. simpl. lia. }
  assert (L3 : (h0 ++ [ES.Arr3 p1; ES.Arr2 p2; ES.Arr3 p1; ES.Arr2 p2])
               !! (length h0 + 1 + 1 + 1)%nat = Some (ES.Arr2 p2)).
  { change (h0 ++ ?a :: ?b :: ?c :: ?r) with (h0 ++ [a; b; c] ++ r).
    rewrite app_assoc. apply list_lookup_middle. rewrite length_app. simpl. lia. }
  unfold ES.deref3, ES.deref2. rewrite L0, L1, L2, L3.
  split.
  { rewrite Lb, La, fmap_app, rev_app_distr, app_assoc. reflexivity. }
  repeat (split; [first [assumption | reflexivity]|]).
  unfold ensemble_built. simpl. repeat split; reflexivity.
Qed.
End EnsembleConstructor.

(** X16.  The ensemble constructor.  For non-negative [prior_var],
    [num_models], [hidden_dim], [input_dim] and [time_horizon] it draws
    [M * hidden_dim * input_dim] standard normal numbers [z1] and then
    [M * hidden_dim] numbers [z2], nothing else; both priors and both live
    weight arrays hold [sqrt(prior_var)] times these numbers; the attributes
    hold the arguments; [action_hist] is [T x input_dim] zeros and
    [model_reward_hist] is [M x T] zeros. *)
Theorem ensemble_constructor_builds_the_agent :
  forall (G : Type) (RS : RandomSource G) (input_dim hidden_dim : Z) (acts : mat)
         (time_horizon : Z) (pv nv : R) (num_models : Z) (learning_rate : R)
         (n_steps bs : Z) (decay lc : R) (h0 : ES.store) (g : G) (l0 : list draw),
    0 <= pv -> (0 <= num_models)%Z -> (0 <= hidden_dim)%Z -> (0 <= input_dim)%Z ->
    (0 <= time_horizon)%Z ->
    exists e z1 z2 h1 g1,
      ES.__init__ input_dim hidden_dim acts time_horizon pv nv num_models
        learning_rate n_steps bs decay lc (World h0 g l0)
      = (Ok e, World h1 g1 (rev (map Normal (concat (concat z1) ++ concat z2)) ++ l0)) /\
      shape3 (Z.to_nat num_models) (Z.to_nat hidden_dim) (Z.to_nat input_dim) z1 /\
      shape2 (Z.to_nat num_models) (Z.to_nat hidden_dim) z2 /\
      ES.deref3 h1 (ES.W1_model_prior e) = map (np.smul2 (sqrt pv)) z1 /\
      ES.deref2 h1 (ES.W2_model_prior e) = np.smul2 (sqrt pv) z2 /\
      ES.deref3 h1 (ES.W1 e) = map (np.smul2 (sqrt pv)) z1 /\
      ES.deref2 h1 (ES.W2 e) = np.smul2 (sqrt pv) z2 /\
      ensemble_built input_dim acts time_horizon pv nv num_models learning_rate
        n_steps bs decay lc e.
Proof. intros G RS. exact (@ensemble_init_built G RS). Qed.

Lemma ensemble_constructor_builds_the_agent_witness :
  exists e z1 z2 h1 g1,
    ES.__init__ 1 1 [[1]] 2 4 1 2 (1 / 10) 1 2 1 (1 / 100)
      (World [] [3%nat; 1%nat; 0%nat; 4%nat] [])
    = (Ok e, World h1 g1 (rev (map Normal (concat (concat z1) ++ concat z2)) ++ [])) /\
    shape3 (Z.to_nat 2) (Z.to_nat 1) (Z.to_nat 1) z1 /\
    shape2 (Z.to_nat 2) (Z.to_nat 1) z2 /\
    ES.deref3 h1 (ES.W1_model_prior e) = map (np.smul2 (sqrt 4)) z1 /\
    ES.deref2 h1 (ES.W2_model_prior e) = np.smul2 (sqrt 4) z2 /\
    ES.deref3 h1 (ES.W1 e) = map (np.smul2 (sqrt 4)) z1 /\
    ES.deref2 h1 (ES.W2 e) = np.smul2 (sqrt 4) z2 /\
    ensemble_built 1 [[1]] 2 4 1 2 (1 / 10) 1 2 1 (1 / 100) e.
Proof.
  apply (ensemble_constructor_builds_the_agent (list nat) tape_source
           1 1 [[1]] 2 4 1 2 (1 / 10) 1 2 1 (1 / 100) []
           [3%nat; 1%nat; 0%nat; 4%nat] []); first [lra | lia].
Defined.

(** ** The forward passes *)

(** X17.  The forward passes compute the two-layer network.  On weights
    [W1] ([H x D]) and [W2] ([H]) and a batch of rows of width [D] the plain
    pass returns, for each row [x], the prediction
    [sum_h W2[h] * leaky_relu (sum_d W1[h][d] * x[d])] ([predict]); the dropout
    pass with mask [m] returns the same sum over the units kept by the mask,
    without rescaling ([predict_masked]); the pass of member [m] of the
    ensemble is the plain pass on [W1[m]], [W2[m]].  None of them raises. *)
Theorem forward_passes_compute_the_network :
  forall (lc : R) (H D B : nat) (X : mat),
    shape2 B D X ->
    (forall (W1 : mat) (W2 : vec),
       shape2 H D W1 -> length W2 = H ->
       (exists c, TwoLayerNNEpsilonGreedy.forward lc W1 W2 X
                  = Ok (map (predict lc W1 W2) X, c)) /\
       (forall mask : list (list bool),
          length mask = B -> Forall (fun r => length r = H) mask ->
          exists c, TwoLayerNNDropout.forward lc W1 W2 X mask
                    = Ok (map (predict_masked lc W1 W2) (zip X mask), c))) /\
    (forall (Mn : nat) (W1 : list mat) (W2 : mat) (m : Z),
       shape3 Mn H D W1 -> shape2 Mn H W2 -> (0 <= m < Z.of_nat Mn)%Z ->
       exists w1m w2m c,
         W1 !! Z.to_nat m = Some w1m /\ W2 !! Z.to_nat m = Some w2m /\
         ES.forward lc W1 W2 m X = Ok (map (predict lc w1m w2m) X, c)).
Proof.
  intros lc H D B X HX. split.
  - intros W1 W2 HW1 HW2. split.
    + eexists. rewrite (epsilon_greedy_forward_ok lc H D B) by assumption.
      rewrite readout_is_predict. reflexivity.
    + intros mask Hm Hmr. eexists.
      rewrite (dropout_forward_closed lc H D B) by assumption.
      rewrite dropout_readout_closed. reflexivity.
  - intros Mn W1 W2 m S1 S2 Hm.
    destruct (getitem_ok W1 m) as (w1m & G1 & K1); [destruct S1; lia|].
    destruct (getitem_ok W2 m) as (w2m & G2 & K2); [destruct S2; lia|].
    exists w1m, w2m. eexists. split; [exact K1|]. split; [exact K2|].
    rewrite (ensemble_forward_member _ W1 W2 m _ w1m w2m G1 G2).
    rewrite (epsilon_greedy_forward_ok lc H D B).
    + rewrite readout_is_predict. reflexivity.
    + eapply shape3_lookup; eauto.
    + eapply shape2_elem; [exact S2|eapply list_elem_of_lookup_2, K2].
    + exact HX.
Qed.

Lemma forward_passes_compute_the_network_witness :
  (exists c, TwoLayerNNEpsilonGreedy.forward (1 / 100) [[1; -1]] [2] [[1; 0]; [0; 1]]
             = Ok (map (predict (1 / 100) [[1; -1]] [2]) [[1; 0]; [0; 1]], c)) /\
  (exists c, TwoLayerNNDropout.forward (1 / 100) [[1; -1]] [2] [[1; 0]; [0; 1]]
               [[true]; [false]]
             = Ok (map (predict_masked (1 / 100) [[1; -1]] [2])
                     (zip [[1; 0]; [0; 1]] [[true]; [false]]), c)) /\
  (exists w1m w2m c,
     [[[1; -1]]; [[0; 3]]] !! Z.to_nat 1 = Some w1m /\
     [[2]; [5]] !! Z.to_nat 1 = Some w2m /\
     ES.forward (1 / 100) [[[1; -1]]; [[0; 3]]] [[2]; [5]] 1 [[1; 0]; [0; 1]]
     = Ok (map (predict (1 / 100) w1m w2m) [[1; 0]; [0; 1]], c)).
Proof.
  assert (HX : shape2 2 2 [[1; 0]; [0; 1]]) by (repeat constructor).
  destruct (forward_passes_compute_the_network (1 / 100) 1%nat 2%nat 2%nat
              [[1; 0]; [0; 1]] HX) as [Hs He].
  destruct (Hs [[1; -1]] [2]) as [Hp Hd]; [repeat constructor|reflexivity|].
  split; [exact Hp|]. split.
  - apply Hd; [reflexivity|repeat constructor].
  - apply (He 2%nat [[[1; -1]]; [[0; 3]]] [[2]; [5]] 1%Z);
      [repeat constructor|repeat constructor|lia].
Defined.

(** ** Widths that do not match *)

Lemma op1_mismatch f (x y : vec) :
  length x <> length y -> length x <> 1%nat -> length y <> 1%nat ->
  np.op1 f x y = Raise ValueError.
Proof.
  intros Hxy Hx Hy. unfold np.op1, np.broadcast.
  destruct (Nat.eqb_spec (length x) (length y)) as [E|_]; [contradiction|].
  destruct x as [|a [|a' x]], y as [|b [|b' y]]; simpl in *;
    first [reflexivity | contradiction | lia].
Qed.

Lemma traverse_first_raises {A B} (f : A -> result B) a l e :
  f a = Raise e -> np.traverse f (a :: l) = Raise e.
Proof. intros E. simpl. rewrite E. reflexivity. Qed.

Lemma op2_first_rows_mismatch f (x w : vec) (W : mat) :
  np.op1 f x w = Raise ValueError -> np.op2 f [x] (w :: W) = Raise ValueError.
Proof.
  intros E. unfold np.op2, np.broadcast.
  destruct W as [|w' W]; simpl; rewrite E; reflexivity.
Qed.

Lemma affine_mismatch (W1 X : mat) D D' :
  Forall (fun w => length w = D) W1 -> Forall (fun x => length x = D') X ->
  W1 <> [] -> X <> [] -> D <> D' -> D <> 1%nat -> D' <> 1%nat ->
  affine W1 X = Raise ValueError.
Proof.
  intros HW HX HW0 HX0 HD H1 H1'.
  destruct W1 as [|w W1]; [congruence|]. destruct X as [|x X]; [congruence|].
  inversion HW; subst. inversion HX; subst.
  assert (E : np.op2 Rmult [x] (w :: W1) = Raise ValueError).
  { apply op2_first_rows_mismatch, op1_mismatch; congruence. }
  unfold affine, np.op3, np.broadcast, np.newaxis.
  destruct X as [|x' X]; simpl; rewrite E; reflexivity.
Qed.

(** An input of width one against weights of any width. *)
Definition affine_stretched (W1 X : mat) : mat :=
  map (fun x => map (fun w => entry x 0 * np.sum w) W1) X.

Lemma sum_scaled a (w : vec) : np.sum (map (Rmult a) w) = a * np.sum w.
Proof.
  induction w as [|b w IH]; [unfold np.sum; simpl; ring|].
  rewrite fmap_cons, !sum_cons, IH. ring.
Qed.

Lemma affine_width_one (W1 X : mat) :
  Forall (fun x => length x = 1%nat) X ->
  affine W1 X = Ok (affine_stretched W1 X).
Proof.
  intros HX. unfold affine, np.op3, np.newaxis.
  rewrite (broadcast_r1 (np.op2 Rmult)
             (fun (a : mat) (W : mat) => map (fun w => map (Rmult (entry (hd [] a) 0)) w) W)).
  - simpl. f_equal. unfold affine_stretched. rewrite <- !list_fmap_compose.
    apply list_fmap_ext. intros i x _. simpl.
    rewrite <- list_fmap_compose. apply list_fmap_ext. intros j w _. simpl.
    apply sum_scaled.
  - apply Forall_fmap. eapply Forall_impl; [exact HX|].
    simpl. intros x Hx. destruct x as [|a [|b x]]; try discriminate.
    unfold np.op2.
    apply (broadcast_l1 (np.op1 Rmult) (fun (r w : vec) => map (Rmult (entry r 0)) w)).
    apply Forall_forall. intros w _. apply op1_l1.
Qed.

Lemma forward_of_affine lc (W1 : mat) (W2 : vec) (X A : mat) :
  affine W1 X = Ok A -> Forall (fun r => length r = length W2) A ->
  TwoLayerNNEpsilonGreedy.forward lc W1 W2 X
  = Ok (readout_of W2 (relu_of lc A), (X, A, relu_of lc A)).
Proof.
  intros EA HA. unfold TwoLayerNNEpsilonGreedy.forward. rewrite EA. simpl.
  fold (relu_of lc A). rewrite op2_row.
  - simpl. unfold readout_of, dotp. rewrite <- list_fmap_compose. reflexivity.
  - unfold relu_of. apply Forall_fmap. eapply Forall_impl; [exact HA|].
    simpl. intros r Hr. rewrite length_fmap. exact Hr.
Qed.

(** X18.  The width of the input is checked only by numpy's broadcasting
    rule.  Against weights [W1] of width [D], a non-empty batch of rows of
    another width [D'] makes the forward pass raise [ValueError] when neither
    width is 1; but rows of width 1 are accepted for every [D]: the single
    entry is stretched, and the pre-activation of unit [h] is
    [x[0] * sum_d W1[h][d]]. *)
Theorem input_width_is_checked_by_broadcasting_only :
  forall (lc : R) (H D : nat) (W1 : mat) (W2 : vec) (X : mat),
    shape2 H D W1 -> length W2 = H ->
    (forall D' : nat,
       Forall (fun x => length x = D') X -> (0 < H)%nat -> X <> [] ->
       D <> D' -> D <> 1%nat -> D' <> 1%nat ->
       TwoLayerNNEpsilonGreedy.forward lc W1 W2 X = Raise ValueError) /\
    (Forall (fun x => length x = 1%nat) X ->
     TwoLayerNNEpsilonGreedy.forward lc W1 W2 X
     = Ok (readout_of W2 (relu_of lc (affine_stretched W1 X)),
           (X, affine_stretched W1 X, relu_of lc (affine_stretched W1 X)))).
Proof.
  intros lc H D W1 W2 X [HW1 HW1r] HW2. split.
  - intros D' HX HH HX0 HD H1 H1'.
    unfold TwoLayerNNEpsilonGreedy.forward.
    rewrite (affine_mismatch W1 X D D'); auto.
    intros ->. simpl in HW1. lia.
  - intros HX. apply forward_of_affine; [apply affine_width_one, HX|].
    unfold affine_stretched. apply Forall_fmap, Forall_forall. intros x _. simpl.
    rewrite length_fmap. congruence.
Qed.

Lemma input_width_is_checked_by_broadcasting_only_witness :
  TwoLayerNNEpsilonGreedy.forward (1 / 100) [[1; 2]] [1] [[1; 2; 3]]
  = Raise ValueError /\
  TwoLayerNNEpsilonGreedy.forward (1 / 100) [[1; 2]] [1] [[5]]
  = Ok (readout_of [1] (relu_of (1 / 100) (affine_stretched [[1; 2]] [[5]])),
        ([[5]], affine_stretched [[1; 2]] [[5]],
         relu_of (1 / 100) (affine_stretched [[1; 2]] [[5]]))).
Proof.
  assert (HW : shape2 1 2 [[1; 2]]) by (repeat constructor).
  split.
  - apply (proj1 (input_width_is_checked_by_broadcasting_only (1 / 100) 1%nat 2%nat
                    [[1; 2]] [1] [[1; 2; 3]] HW eq_refl) 3%nat);
      first [lia | discriminate | repeat constructor].
  - apply (proj2 (input_width_is_checked_by_broadcasting_only (1 / 100) 1%nat 2%nat
                    [[1; 2]] [1] [[5]] HW eq_refl)).
    repeat constructor.
Defined.

(** ** The backward passes and the gradient of the loss *)

(** X19.  The plain backward pass, second layer: for weights and a batch
    of matching shapes, [dW2[h]] is the partial derivative of the loss
    [sum_b (y[b] - out[b])^2 / noise_var] of the plain forward pass in
    [W2[h]], at every weight configuration. *)
Theorem plain_backward_dW2_is_gradient :
  forall (nv lc : R) (H D B : nat) (W1 : mat) (W2 : vec) (X : mat) (y : vec)
         (h : nat) (w2h : R),
    nv <> 0 -> (0 < B)%nat ->
    shape2 H D W1 -> length W2 = H -> shape2 B D X -> length y = B ->
    W2 !! h = Some w2h ->
    exists out c dW1 dW2 g,
      TwoLayerNNEpsilonGreedy.forward lc W1 W2 X = Ok (out, c) /\
      TwoLayerNNEpsilonGreedy.backward nv lc W2 out c y = Ok (dW1, dW2) /\
      dW2 !! h = Some g /\
      derivable_pt_lim (fun w => plain_loss nv lc W1 (<[h := w]> W2) X y) w2h g.
Proof. exact plain_dW2_gradient. Qed.

Lemma identity_batch_off_the_kink (row : vec) :
  row = [1; -1] -> forall x : vec, x ∈ [[1; 0]; [0; 1]] -> dotp x row <> 0.
Proof.
  intros -> x Hx.
  apply elem_of_cons in Hx as [->|Hx]; [unfold dotp, np.sum; simpl; lra|].
  apply elem_of_cons in Hx as [->|Hx]; [unfold dotp, np.sum; simpl; lra|].
  inversion Hx.
Qed.

Lemma plain_backward_dW2_is_gradient_witness :
  exists out c dW1 dW2 g,
    TwoLayerNNEpsilonGreedy.forward (1 / 100) [[1; -1]] [2] [[1; 0]; [0; 1]]
    = Ok (out, c) /\
    TwoLayerNNEpsilonGreedy.backward 1 (1 / 100) [2] out c [1; 0] = Ok (dW1, dW2) /\
    dW2 !! 0%nat = Some g /\
    derivable_pt_lim
      (fun w => plain_loss 1 (1 / 100) [[1; -1]] (<[0%nat := w]> [2])
                  [[1; 0]; [0; 1]] [1; 0]) 2 g.
Proof.
  apply (plain_backward_dW2_is_gradient 1 (1 / 100) 1%nat 2%nat 2%nat
           [[1; -1]] [2] [[1; 0]; [0; 1]] [1; 0] 0%nat 2);
    first [lra | lia | reflexivity | repeat constructor].
Defined.

(** X20.  The plain backward pass, first layer: [dW1[h][d]] is the partial
    derivative of the same loss in [W1[h][d]], provided the slope
    [leaky_coeff] is at most one and the pre-activation of unit [h] is
    non-zero on every row of the batch (at zero the Leaky-ReLU, and with it
    the loss, has no derivative). *)
Theorem plain_backward_dW1_is_gradient :
  forall (nv lc : R) (H D B : nat) (W1 : mat) (W2 : vec) (X : mat) (y : vec)
         (h d : nat) (row : vec) (w1hd : R),
    nv <> 0 -> lc <= 1 -> (0 < B)%nat ->
    shape2 H D W1 -> length W2 = H -> shape2 B D X -> length y = B ->
    W1 !! h = Some row -> row !! d = Some w1hd ->
    (forall x, x ∈ X -> dotp x row <> 0) ->
    exists out c dW1 dW2 grow g,
      TwoLayerNNEpsilonGreedy.forward lc W1 W2 X = Ok (out, c) /\
      TwoLayerNNEpsilonGreedy.backward nv lc W2 out c y = Ok (dW1, dW2) /\
      dW1 !! h = Some grow /\ grow !! d = Some g /\
      derivable_pt_lim
        (fun w => plain_loss nv lc (<[h := <[d := w]> row]> W1) W2 X y) w1hd g.
Proof. exact plain_dW1_gradient. Qed.

Lemma plain_backward_dW1_is_gradient_witness :
  exists out c dW1 dW2 grow g,
    TwoLayerNNEpsilonGreedy.forward (1 / 100) [[1; -1]] [2] [[1; 0]; [0; 1]]
    = Ok (out, c) /\
    TwoLayerNNEpsilonGreedy.backward 1 (1 / 100) [2] out c [1; 0] = Ok (dW1, dW2) /\
    dW1 !! 0%nat = Some grow /\ grow !! 1%nat = Some g /\
    derivable_pt_lim
      (fun w => plain_loss 1 (1 / 100) (<[0%nat := <[1%nat := w]> [1; -1]]> [[1; -1]])
                  [2] [[1; 0]; [0; 1]] [1; 0]) (-1) g.
Proof.
  apply (plain_backward_dW1_is_gradient 1 (1 / 100) 1%nat 2%nat 2%nat
           [[1; -1]] [2] [[1; 0]; [0; 1]] [1; 0] 0%nat 1%nat [1; -1] (-1));
    first [lra | lia | reflexivity | apply identity_batch_off_the_kink; reflexivity
          | repeat constructor].
Defined.

(** X21.  The dropout backward pass, first layer: with the mask of the
    forward pass held fixed, [dW1[h][d]] is the partial derivative of the
    loss of the masked forward pass in [W1[h][d]] (same provisos): the
    gradient does flow back through the mask on its way to [W1]. *)
Theorem dropout_backward_dW1_is_gradient :
  forall (nv lc : R) (H D B : nat) (W1 : mat) (W2 : vec) (X : mat)
         (mask : list (list bool)) (y : vec) (h d : nat) (row : vec) (w1hd : R),
    nv <> 0 -> lc <= 1 -> (0 < B)%nat ->
    shape2 H D W1 -> length W2 = H -> shape2 B D X -> length y = B ->
    length mask = B -> Forall (fun r => length r = H) mask ->
    W1 !! h = Some row -> row !! d = Some w1hd ->
    (forall x, x ∈ X -> dotp x row <> 0) ->
    exists out c dW1 dW2 grow g,
      TwoLayerNNDropout.forward lc W1 W2 X mask = Ok (out, c) /\
      TwoLayerNNDropout.backward nv lc W2 out c y = Ok (dW1, dW2) /\
      dW1 !! h = Some grow /\ grow !! d = Some g /\
      derivable_pt_lim
        (fun w => dropout_loss nv lc (<[h := <[d := w]> row]> W1) W2 X mask y) w1hd g.
Proof. exact dropout_dW1_gradient. Qed.

Lemma dropout_backward_dW1_is_gradient_witness :
  exists out c dW1 dW2 grow g,
    TwoLayerNNDropout.forward (1 / 100) [[1; -1]] [2] [[1; 0]; [0; 1]]
      [[true]; [false]] = Ok (out, c) /\
    TwoLayerNNDropout.backward 1 (1 / 100) [2] out c [1; 0] = Ok (dW1, dW2) /\
    dW1 !! 0%nat = Some grow /\ grow !! 0%nat = Some g /\
    derivable_pt_lim
      (fun w => dropout_loss 1 (1 / 100) (<[0%nat := <[0%nat := w]> [1; -1]]> [[1; -1]])
                  [2] [[1; 0]; [0; 1]] [[true]; [false]] [1; 0]) 1 g.
Proof.
  apply (dropout_backward_dW1_is_gradient 1 (1 / 100) 1%nat 2%nat 2%nat
           [[1; -1]] [2] [[1; 0]; [0; 1]] [[true]; [false]] [1; 0]
           0%nat 0%nat [1; -1] 1);
    first [lra | lia | reflexivity | apply identity_batch_off_the_kink; reflexivity
          | repeat constructor].
Defined.

(** ** The passes of an ensemble member *)

(** The loss of member [m] on a batch, as a function of the two weight
    arrays of the whole ensemble. *)
Definition ensemble_loss (noise_var leaky_coeff : R) (W1 : list mat) (W2 : mat)
    (m : Z) (X : mat) (y : vec) : R :=
  match ES.forward leaky_coeff W1 W2 m X with
  | Ok (out, _) => squared_error noise_var y out
  | _ => 0
  end.

Lemma getitem_insert {A} (a : list A) m (x : A) :
  (0 <= m < Z.of_nat (length a))%Z -> np.getitem (<[Z.to_nat m := x]> a) m = Ok x.
Proof.
  intros Hm. unfold np.getitem.
  rewrite length_insert, index_ok by exact Hm. simpl.
  rewrite list_lookup_insert_eq by lia. reflexivity.
Qed.

Lemma getitem_lookup {A} (a : list A) m (x : A) :
  (0 <= m)%Z -> a !! Z.to_nat m = Some x -> np.getitem a m = Ok x.
Proof.
  intros Hm Hx. destruct (getitem_ok a m) as (x' & E & Hx').
  - apply lookup_lt_Some in Hx. lia.
  - congruence.
Qed.

Lemma ensemble_loss_W2 nv lc (W1 : list mat) (W2 : mat) m X y w1m v :
  (0 <= m < Z.of_nat (length W2))%Z -> W1 !! Z.to_nat m = Some w1m ->
  ensemble_loss nv lc W1 (<[Z.to_nat m := v]> W2) m X y = plain_loss nv lc w1m v X y.
Proof.
  intros Hm H1. unfold ensemble_loss, plain_loss.
  rewrite (ensemble_forward_member lc W1 _ m X w1m v);
    [reflexivity|apply getitem_lookup; [lia|exact H1]|apply getitem_insert, Hm].
Qed.

Lemma ensemble_loss_W1 nv lc (W1 : list mat) (W2 : mat) m X y w2m v :
  (0 <= m < Z.of_nat (length W1))%Z -> W2 !! Z.to_nat m = Some w2m ->
  ensemble_loss nv lc (<[Z.to_nat m := v]> W1) W2 m X y = plain_loss nv lc v w2m X y.
Proof.
  intros Hm H2. unfold ensemble_loss, plain_loss.
  rewrite (ensemble_forward_member lc _ W2 m X v w2m);
    [reflexivity|apply getitem_insert, Hm|apply getitem_lookup; [lia|exact H2]].
Qed.

(** X22.  The backward pass of the ensemble agent returns the gradient of
    the loss of the member it is called for.  With [W1] and [W2] the weight
    arrays of the whole ensemble and [m] a member, [dW2[h]] is the partial
    derivative of member [m]'s loss in [W2[m][h]], and [dW1[h][d]] the one in
    [W1[m][h][d]] (for a slope of at most one and a pre-activation of unit
    [h] that is non-zero on the batch). *)
Theorem ensemble_backward_is_gradient_for_member :
  forall (nv lc : R) (Mn H D B : nat) (W1 : list mat) (W2 : mat) (m : Z)
         (X : mat) (y : vec) (w1m : mat) (w2m : vec),
    nv <> 0 -> (0 < B)%nat ->
    shape3 Mn H D W1 -> shape2 Mn H W2 -> (0 <= m < Z.of_nat Mn)%Z ->
    shape2 B D X -> length y = B ->
    W1 !! Z.to_nat m = Some w1m -> W2 !! Z.to_nat m = Some w2m ->
    exists out c dW1 dW2,
      ES.forward lc W1 W2 m X = Ok (out, c) /\
      ES.backward nv lc W2 m out c y = Ok (dW1, dW2) /\
      (forall h w2h, w2m !! h = Some w2h ->
         exists g,
           dW2 !! h = Some g /\
           derivable_pt_lim
             (fun w => ensemble_loss nv lc W1 (<[Z.to_nat m := <[h := w]> w2m]> W2)
                         m X y) w2h g) /\
      (lc <= 1 ->
       forall h d row w1hd,
         w1m !! h = Some row -> row !! d = Some w1hd ->
         (forall x, x ∈ X -> dotp x row <> 0) ->
         exists grow g,
           dW1 !! h = Some grow /\ grow !! d = Some g /\
           derivable_pt_lim
             (fun w => ensemble_loss nv lc
                         (<[Z.to_nat m := <[h := <[d := w]> row]> w1m]> W1) W2 m X y)
             w1hd g).
Proof.
  intros nv lc Mn H D B W1 W2 m X y w1m w2m Hnv HB S1 S2 Hm HX Hy K1 K2.
  assert (G1 : np.getitem W1 m = Ok w1m) by (apply getitem_lookup; [lia|exact K1]).
  assert (G2 : np.getitem W2 m = Ok w2m) by (apply getitem_lookup; [lia|exact K2]).
  assert (Sw1 : shape2 H D w1m) by (eapply shape3_lookup; eauto).
  assert (Lw2 : length w2m = H)
    by (eapply shape2_elem; [exact S2|eapply list_elem_of_lookup_2, K2]).
  destruct (shape2_hidden lc B H w1m X) as [HA HRl]; [apply Sw1|apply HX|].
  destruct (epsilon_greedy_backward_ok nv lc H D B w2m
              (readout_of w2m (relu_of lc (affine_of w1m X))) y X _ _ Hnv HB Lw2
              ltac:(rewrite length_readout_of; apply HRl) Hy HX HA HRl)
    as (Eb & _ & _).
  pose proof (epsilon_greedy_forward_ok lc H D B w1m w2m X Sw1 Lw2 HX) as Ef.
  eexists _, _, _, _.
  split; [rewrite (ensemble_forward_member lc W1 W2 m X w1m w2m G1 G2); exact Ef|].
  split; [rewrite (ensemble_backward_member nv lc W2 m _ _ y w2m G2); exact Eb|].
  split.
  - intros h w2h Hw.
    destruct (plain_dW2_gradient nv lc H D B w1m w2m X y h w2h Hnv HB Sw1 Lw2 HX Hy Hw)
      as (out & c & dW1 & dW2 & g & Ef' & Eb' & Hg & Hder).
    rewrite Ef in Ef'. inversion Ef'; subst out c.
    rewrite Eb in Eb'. inversion Eb' as [[E1 E2]].
    exists g. split; [rewrite E2; exact Hg|].
    eapply derivable_pt_lim_pointwise; [|exact Hder].
    intros w. symmetry. apply ensemble_loss_W2; [destruct S2; lia|exact K1].
  - intros Hlc h d row w1hd Hrow Hw Hne.
    destruct (plain_dW1_gradient nv lc H D B w1m w2m X y h d row w1hd Hnv Hlc HB Sw1
                Lw2 HX Hy Hrow Hw Hne)
      as (out & c & dW1 & dW2 & grow & g & Ef' & Eb' & Hgrow & Hg & Hder).
    rewrite Ef in Ef'. inversion Ef'; subst out c.
    rewrite Eb in Eb'. inversion Eb' as [[E1 E2]].
    exists grow, g. split; [rewrite E1; exact Hgrow|]. split; [exact Hg|].
    eapply derivable_pt_lim_pointwise; [|exact Hder].
    intros w. symmetry. apply ensemble_loss_W1; [destruct S1; lia|exact K2].
Qed.

Lemma ensemble_backward_is_gradient_for_member_witness :
  exists out c dW1 dW2,
    ES.forward (1 / 100) [[[0; 3]]; [[1; -1]]] [[5]; [2]] 1 [[1; 0]; [0; 1]]
    = Ok (out, c) /\
    ES.backward 1 (1 / 100) [[5]; [2]] 1 out c [1; 0] = Ok (dW1, dW2) /\
    (forall h w2h, [2] !! h = Some w2h ->
       exists g,
         dW2 !! h = Some g /\
         derivable_pt_lim
           (fun w => ensemble_loss 1 (1 / 100) [[[0; 3]]; [[1; -1]]]
                       (<[Z.to_nat 1 := <[h := w]> [2]]> [[5]; [2]])
                       1 [[1; 0]; [0; 1]] [1; 0]) w2h g) /\
    (1 / 100 <= 1 ->
     forall h d row w1hd,
       [[1; -1]] !! h = Some row -> row !! d = Some w1hd ->
       (forall x, x ∈ [[1; 0]; [0; 1]] -> dotp x row <> 0) ->
       exists grow g,
         dW1 !! h = Some grow /\ grow !! d = Some g /\
         derivable_pt_lim
           (fun w => ensemble_loss 1 (1 / 100)
                       (<[Z.to_nat 1 := <[h := <[d := w]> row]> [[1; -1]]]>
                          [[[0; 3]]; [[1; -1]]])
                       [[5]; [2]] 1 [[1; 0]; [0; 1]] [1; 0])
           w1hd g).
Proof.
  apply (ensemble_backward_is_gradient_for_member 1 (1 / 100) 2%nat 1%nat 2%nat 2%nat
           [[[0; 3]]; [[1; -1]]] [[5]; [2]] 1 [[1; 0]; [0; 1]] [1; 0]
           [[1; -1]] [2]);
    first [lra | lia | reflexivity | repeat constructor].
Defined.

(** ** All-zero weights *)












Section ZeroWeights.
Context {G : Type} {RS : RandomSource G}.


End ZeroWeights.




(** ** The dropout backward pass, second layer *)

Lemma dW2_of_lookup B H (d : vec) (Rl : mat) h :
  (0 < B)%nat -> length d = B -> shape2 B H Rl -> (h < H)%nat ->
  dW2_of d Rl !! h = Some (np.sum (zip_with (fun a r => a * entry r h) d Rl)).
Proof.
  intros HB Hd HRl Hh. unfold dW2_of.
  rewrite (sum_axis0_lookup B H _ h HB (shape2_scaled_rows B H d Rl Hd HRl) Hh).
  rewrite map_zip_with_both. do 2 f_equal.
  apply zip_with_ext_all. intros a r. apply entry_scaled.
Qed.

Lemma predict_masked_W2_derivative lc W1 W2 (s : vec * list bool) h w2h rh mh :
  W2 !! h = Some w2h -> hidden_of lc W1 (fst s) !! h = Some rh ->
  snd s !! h = Some mh ->
  derivable_pt_lim (fun w => predict_masked lc W1 (<[h := w]> W2) s) w2h
    (rh * np.of_bool mh).
Proof.
  intros Hw Hr Hm. unfold predict_masked.
  eapply derivable_pt_lim_pointwise.
  - intros w. symmetry.
    apply (dotp_insert_r _ _ h (rh * np.of_bool mh) w2h w); [|exact Hw].
    rewrite lookup_zip_with, Hr, list_lookup_fmap, Hm. reflexivity.
  - apply derivable_affine.
Qed.

(** X24.  The extent of the slip in the dropout backward pass.  [dW2] is
    computed from [relu_out], not from [dropout_out]; for a hidden unit [h]
    that the mask keeps on every row of the batch the two agree, and
    [dW2[h]] is the partial derivative of the loss of the masked forward pass
    in [W2[h]].  (For a dropped unit it is not.) *)
Theorem dropout_backward_dW2_is_gradient_for_kept_units :
  forall (nv lc : R) (H D B : nat) (W1 : mat) (W2 : vec) (X : mat)
         (mask : list (list bool)) (y : vec) (h : nat) (w2h : R),
    nv <> 0 -> (0 < B)%nat ->
    shape2 H D W1 -> length W2 = H -> shape2 B D X -> length y = B ->
    length mask = B -> Forall (fun r => length r = H) mask ->
    W2 !! h = Some w2h ->
    Forall (fun r => r !! h = Some true) mask ->
    exists out c dW1 dW2 g,
      TwoLayerNNDropout.forward lc W1 W2 X mask = Ok (out, c) /\
      TwoLayerNNDropout.backward nv lc W2 out c y = Ok (dW1, dW2) /\
      dW2 !! h = Some g /\
      derivable_pt_lim
        (fun w => dropout_loss nv lc W1 (<[h := w]> W2) X mask y) w2h g.
Proof.
  intros nv lc H D B W1 W2 X mask y h w2h Hnv HB HW1 HW2 HX Hy Hm Hmr Hw Hkept.
  assert (Hh : (h < H)%nat) by (rewrite <- HW2; eapply lookup_lt_Some, Hw).
  assert (LX : length X = B) by apply HX.
  destruct (shape2_hidden lc B H W1 X) as [HA HRl]; [apply HW1|apply HX|].
  destruct (dropout_backward_ok nv lc H D B W2
              (readout_of W2 (masked (relu_of lc (affine_of W1 X)) mask)) y X
              (affine_of W1 X) (relu_of lc (affine_of W1 X))
              (masked (relu_of lc (affine_of W1 X)) mask) mask Hnv HB HW2
              ltac:(rewrite dropout_readout_closed, length_fmap, length_zip_with; lia)
              Hy HX HA HRl Hm Hmr)
    as (Eb & _ & _).
  eexists _, _, _, _, _.
  split; [apply (dropout_forward_closed lc H D B); assumption|].
  split; [exact Eb|].
  rewrite dropout_readout_closed, dout_masked_closed.
  split.
  - apply (dW2_of_lookup B H); auto. rewrite length_zip_with, length_zip_with. lia.
  - rewrite relu_is_hidden.
    rewrite <- (fst_zip X mask) at 2 by lia.
    rewrite <- list_fmap_compose, zip_with_zip_map.
    eapply derivable_pt_lim_pointwise.
    + intros w. symmetry. apply (dropout_loss_closed nv lc H D B); auto.
      rewrite length_insert. exact HW2.
    + rewrite (zip_with_ext_in _
                 (fun yb s => - (2 / nv) * (yb - predict_masked lc W1 W2 s)
                              * (entry (hidden_of lc W1 (fst s)) h * 1))
                 y (zip X mask)).
      * apply (sum_zip_derivative
                 (fun w yb s =>
                    (yb - predict_masked lc W1 (<[h := w]> W2) s)
                    * (yb - predict_masked lc W1 (<[h := w]> W2) s) / nv)).
        apply Forall2_of_lengths; [rewrite length_zip_with; lia|].
        intros yb [x m] Hs. simpl.
        pose proof (elem_of_zip_r _ _ _ _ Hs) as Hmm.
        assert (Hmh : m !! h = Some true)
          by (rewrite Forall_forall in Hkept; apply Hkept, Hmm).
        destruct (lookup_lt_is_Some_2 (hidden_of lc W1 x) h) as [rh Hrh].
        { unfold hidden_of. rewrite !length_fmap. destruct HW1 as [-> _]. exact Hh. }
        rewrite (entry_of_lookup _ _ _ Hrh).
        pose proof (sample_loss_derivative nv
                      (fun w => predict_masked lc W1 (<[h := w]> W2) (x, m)) w2h _ yb
                      (predict_masked_W2_derivative lc W1 W2 (x, m) h w2h rh true
                         Hw Hrh Hmh)) as Hder.
        simpl in Hder. rewrite (list_insert_id W2 h w2h Hw) in Hder. exact Hder.
      * apply Forall2_of_lengths; [rewrite length_zip_with; lia|].
        intros yb s _. simpl. unfold dout_masked. ring.
Qed.

Lemma dropout_backward_dW2_is_gradient_for_kept_units_witness :
  exists out c dW1 dW2 g,
    TwoLayerNNDropout.forward (1 / 100) [[1; -1]; [0; 2]] [2; 3] [[1; 0]; [0; 1]]
      [[true; false]; [true; true]] = Ok (out, c) /\
    TwoLayerNNDropout.backward 1 (1 / 100) [2; 3] out c [1; 0] = Ok (dW1, dW2) /\
    dW2 !! 0%nat = Some g /\
    derivable_pt_lim
      (fun w => dropout_loss 1 (1 / 100) [[1; -1]; [0; 2]] (<[0%nat := w]> [2; 3])
                  [[1; 0]; [0; 1]] [[true; false]; [true; true]] [1; 0]) 2 g.
Proof.
  apply (dropout_backward_dW2_is_gradient_for_kept_units 1 (1 / 100)
           2%nat 2%nat 2%nat [[1; -1]; [0; 2]] [2; 3] [[1; 0]; [0; 1]]
           [[true; false]; [true; true]] [1; 0] 0%nat 2);
    first [lra | lia | reflexivity | repeat constructor].
Defined.

(** ** From construction to action *)

Section Lifecycle.
Context {G : Type} {RS : RandomSource G}.

(** Construct, observe, pick: the three steps of a driver, on one
    generator. *)
Definition drive (init : Py G unit agent) (k : klass G) (obs : list (Z * Z * R))
    (pick : Z -> Py G agent Z) (t : Z) (w : world G unit) : result Z :=
  match init w with
  | (Ok a, w0) =>
      match observe_all k obs (World a (gen w0) (log w0)) with
      | (Ok _, w1) => fst (pick t w1)
      | (Raise e, _) => Raise e
      | (Nan, _) => Nan
      end
  | (Raise e, _) => Raise e
  | (Nan, _) => Nan
  end.

Lemma drive_in_range (init : Py G unit agent) (k : klass G) (pick : Z -> Py G agent Z)
    H D Tn (acts : mat) obs t (w : world G unit) :
  klass_total H D k ->
  (forall (w1 : world G agent), wf_policy H D (self w1) ->
     exists i, fst (pick t w1) = Ok i /\ (0 <= i < num_actions (self w1))%Z) ->
  (exists a w0, init w = (Ok a, w0) /\ wf_agent H D Tn a /\
     actions a = acts /\ num_actions a = Z.of_nat (length acts) /\
     (0 < batch_size a)%Z /\ prior_var a <> 0 /\ noise_var a <> 0) ->
  Forall (fun x => length x = D) acts -> acts <> [] ->
  Forall (fun o => (0 <= snd (fst o) < Z.of_nat (length acts))%Z /\
                   (0 <= fst (fst o) < Z.of_nat Tn)%Z) obs ->
  exists i, drive init k obs pick t w = Ok i /\ (0 <= i < Z.of_nat (length acts))%Z.
Proof.
  intros Hk Hpick (a & w0 & Ei & Hwf & Ha & Hn & Hbs & Hpv & Hnv) Hacts Hne Hobs.
  unfold drive. rewrite Ei.
  destruct (observe_all_result k H D Tn obs (World a (gen w0) (log w0)) Hk)
    as (w1 & E1 & Wf1 & Hs1 & _); simpl; try assumption;
    try (rewrite Ha; assumption).
  rewrite E1.
  unfold settings in Hs1. simpl in Hs1.
  inversion Hs1 as [[Eacts Enum ET Epv Env Eeps Ep En Ebs Ed Elc]].
  destruct (Hpick w1) as (i & Ep' & Hi).
  { destruct Wf1 as (S1 & L2 & _). split; [exact S1|]. split; [exact L2|].
    rewrite Eacts, Enum, Ha. auto. }
  exists i. split; [exact Ep'|]. rewrite Enum, Hn in Hi. exact Hi.
Qed.
End Lifecycle.

(** X25.  A freshly constructed agent can be driven.  Built with
    non-negative dimensions, a non-empty action array of width [input_dim], a
    positive batch size and non-zero variances, the epsilon-greedy and the
    dropout agent process any sequence of valid observations and then pick
    an action without raising, and the action is an index of the action
    array. *)
Theorem constructed_agent_can_be_driven :
  forall (G : Type) (RS : RandomSource G) (input_dim hidden_dim : Z) (acts : mat)
         (time_horizon : Z) (pv nv x learning_rate : R) (n_steps bs : Z)
         (decay lc : R) (obs : list (Z * Z * R)) (t : Z) (w : world G unit),
    (0 <= input_dim)%Z -> (0 <= hidden_dim)%Z -> (0 <= time_horizon)%Z ->
    Forall (fun a => length a = Z.to_nat input_dim) acts -> acts <> [] ->
    (0 < bs)%Z -> pv <> 0 -> nv <> 0 ->
    Forall (fun o => (0 <= snd (fst o) < Z.of_nat (length acts))%Z /\
                     (0 <= fst (fst o) < Z.of_nat (Z.to_nat time_horizon))%Z) obs ->
    (exists i,
       drive (TwoLayerNNEpsilonGreedy.__init__ input_dim hidden_dim acts time_horizon
                pv nv x learning_rate n_steps bs decay lc)
         TwoLayerNNEpsilonGreedy.class obs TwoLayerNNEpsilonGreedy.pick_action t w
       = Ok i /\ (0 <= i < Z.of_nat (length acts))%Z) /\
    (exists i,
       drive (TwoLayerNNDropout.__init__ input_dim hidden_dim acts time_horizon
                pv nv x learning_rate n_steps bs decay lc)
         TwoLayerNNDropout.class obs TwoLayerNNDropout.pick_action t w
       = Ok i /\ (0 <= i < Z.of_nat (length acts))%Z).
Proof.
  intros G RS input_dim hidden_dim acts time_horizon pv nv x learning_rate n_steps bs
    decay lc obs t w HD HH HT Hacts Hne Hbs Hpv Hnv Hobs.
  split.
  - apply (drive_in_range _ _ _ (Z.to_nat hidden_dim) (Z.to_nat input_dim)
             (Z.to_nat time_horizon) acts); auto.
    + apply epsilon_greedy_class_total.
    + intros w1 Hw1. apply (epsilon_greedy_pick_in_range _ _ t w1 Hw1).
    + destruct (epsilon_greedy_init_wf input_dim hidden_dim acts time_horizon pv nv x
                  learning_rate n_steps bs decay lc w HD HH HT)
        as (a & w0 & E & Hwf & Ha & Hn & _ & Eb & Ep & En).
      exists a, w0. rewrite Eb, Ep, En. auto 10.
  - apply (drive_in_range _ _ _ (Z.to_nat hidden_dim) (Z.to_nat input_dim)
             (Z.to_nat time_horizon) acts); auto.
    + apply dropout_class_total.
    + intros w1 Hw1. apply (dropout_pick_in_range _ _ t w1 Hw1).
    + destruct (dropout_init_wf input_dim hidden_dim acts time_horizon pv nv x
                  learning_rate n_steps bs decay lc w HD HH HT)
        as (a & w0 & E & Hwf & Ha & Hn & _ & Eb & Ep & En).
      exists a, w0. rewrite Eb, Ep, En. auto 10.
Qed.

Lemma constructed_agent_can_be_driven_witness :
  (exists i,
     drive (TwoLayerNNEpsilonGreedy.__init__ 2 1 [[1; 0]; [0; 1]] 3 1 1
              (1 / 2) (1 / 10) 2 4 (1 / 2) (1 / 100))
       TwoLayerNNEpsilonGreedy.class [(0%Z, 1%Z, 1); (1%Z, 0%Z, 2)]
       TwoLayerNNEpsilonGreedy.pick_action 2 (World tt [3%nat; 1%nat] [])
     = Ok i /\ (0 <= i < Z.of_nat 2)%Z) /\
  (exists i,
     drive (TwoLayerNNDropout.__init__ 2 1 [[1; 0]; [0; 1]] 3 1 1
              (1 / 2) (1 / 10) 2 4 (1 / 2) (1 / 100))
       TwoLayerNNDropout.class [(0%Z, 1%Z, 1); (1%Z, 0%Z, 2)]
       TwoLayerNNDropout.pick_action 2 (World tt [3%nat; 1%nat] [])
     = Ok i /\ (0 <= i < Z.of_nat 2)%Z).
Proof.
  apply (constructed_agent_can_be_driven (list nat) tape_source 2 1 [[1; 0]; [0; 1]]
           3 1 1 (1 / 2) (1 / 10) 2 4 (1 / 2) (1 / 100)
           [(0%Z, 1%Z, 1); (1%Z, 0%Z, 2)] 2 (World tt [3%nat; 1%nat] []));
    first [lia | lra | discriminate | repeat constructor; simpl; lia].
Defined.

(** ** What an update draws *)

Section DrawnMore.
Context {G : Type} {RS : RandomSource G} {S : Type}.

Lemma drawn_rand :
  drawn (S:=S) (fun u => 0 <= u < 1) (fun u => [Uniform u]) rd.rand.
Proof.
  intros w. unfold rd.rand. pose proof (next_rand_range (gen w)) as Hr.
  destruct (next_rand (gen w)) as [u g]. exists u. eexists. repeat split; apply Hr.
Qed.

Lemma drawn_rand2 rows cols :
  drawn (S:=S) (shape2 rows cols) (fun u => map Uniform (concat u)) (rd.rand2 rows cols).
Proof.
  unfold rd.rand2. eapply drawn_impl.
  - apply drawn_replicateM, drawn_replicateM, drawn_rand.
  - simpl. intros u [Hl Hu]. split.
    + split; [exact Hl|]. eapply Forall_impl; [exact Hu|]. simpl. intros r [Hr _].
      exact Hr.
    + clear. induction u as [|r u IH]; [reflexivity|].
      simpl. rewrite fmap_app, IH, concat_singletons. reflexivity.
Qed.

Lemma drawn_randint high :
  (0 < high)%Z ->
  drawn (S:=S) (fun v => (0 <= v < high)%Z) (fun v => [Integer high v]) (rd.randint high).
Proof.
  intros Hh w. unfold rd.randint. destruct (0 <? high)%Z eqn:E; [|lia].
  pose proof (next_randint_range high (gen w) Hh) as Hr.
  destruct (next_randint high (gen w)) as [v g]. exists v. eexists. repeat split; apply Hr.
Qed.

Lemma drawn_randint_size high size :
  (0 < high)%Z -> (0 <= size)%Z ->
  drawn (S:=S)
    (fun l => length l = Z.to_nat size /\ Forall (fun v => (0 <= v < high)%Z) l)
    (fun l => map (Integer high) l) (rd.randint_size high size).
Proof.
  intros Hh Hs. unfold rd.randint_size. destruct (size <? 0)%Z eqn:E; [lia|].
  eapply drawn_impl.
  - apply drawn_replicateM, drawn_randint, Hh.
  - simpl. intros l Hl. split; [exact Hl|]. symmetry. apply concat_singletons.
Qed.
End DrawnMore.

(** The draws of one pass of the loop of [_update_model] at time [t],
    oldest first: the indices of the minibatch, then the uniform numbers of
    the dropout mask (an array of no rows for the plain pass). *)
Definition step_draws (t : Z) (s : list Z * mat) : list draw :=
  map (Integer (t + 1)) (fst s) ++ map Uniform (concat (snd s)).

Section UpdateDraws.
Context {G : Type} {RS : RandomSource G}.

(** The passes of class [k] on a batch of [B] rows draw a [rows B x H]
    array of uniform numbers in the forward pass and nothing else. *)
Definition klass_traced (rows : nat -> nat) (H D : nat) (k : klass G) : Prop :=
  forall (w : world G agent) (X : mat) (B : nat) out c w1,
    shape2 H D (W1 (self w)) -> length (W2 (self w)) = H ->
    (0 < B)%nat -> shape2 B D X ->
    model_forward k X w = (Ok (out, c), w1) ->
    exists u,
      shape2 (rows B) H u /\ log w1 = rev (map Uniform (concat u)) ++ log w /\
      forall y dW w2, model_backward k out c y w1 = (Ok dW, w2) -> log w2 = log w1.

Lemma epsilon_greedy_class_traced H D :
  klass_traced (fun _ => 0%nat) H D TwoLayerNNEpsilonGreedy.class.
Proof.
  intros w X B out c w1 _ _ _ _ Ef. simpl in Ef.
  unfold TwoLayerNNEpsilonGreedy._model_forward, mbind, Py_bind, get, lift in Ef.
  simpl in Ef. inversion Ef as [[Ef' Ew]]. subst w1.
  exists []. split; [split; [reflexivity|constructor]|]. split; [reflexivity|].
  intros y dW w2 Eb. simpl in Eb.
  unfold TwoLayerNNEpsilonGreedy._model_backward, mbind, Py_bind, get, lift in Eb.
  simpl in Eb. inversion Eb. reflexivity.
Qed.

Lemma dropout_class_traced H D :
  klass_traced (fun B => B) H D TwoLayerNNDropout.class.
Proof.
  intros [a g l] X B out c w1 HW1 HW2 HB HX Ef. simpl in *.
  destruct (shape2_hidden (leaky_coeff a) B H (W1 a) X) as [HA HRl];
    [apply HW1|apply HX|].
  set (Rl := relu_of (leaky_coeff a) (affine_of (W1 a) X)) in *.
  assert (Hcols : length (hd [] Rl) = H) by (eapply shape2_hd; eauto).
  assert (Hrows : length Rl = B) by apply HRl.
  destruct (drawn_rand2 (S:=agent) B H (World a g l))
    as (u & [a1 g1 l1] & Eu & Hs1 & Hl1 & [Su1 Su2]).
  simpl in Hs1, Hl1. subst a1.
  set (mask := map (map (fun x => np.gt x (p a))) u).
  assert (Hm1 : length mask = B) by (unfold mask; rewrite length_fmap; exact Su1).
  assert (Hm2 : Forall (fun r => length r = H) mask).
  { unfold mask. apply Forall_fmap. eapply Forall_impl; [exact Su2|].
    simpl. intros r Hr. rewrite length_fmap. exact Hr. }
  destruct (dropout_forward_ok (leaky_coeff a) H D B (W1 a) (W2 a) X mask
              HW1 HW2 HX Hm1 Hm2) as [Eh Er].
  fold Rl in Eh, Er.
  assert (E : TwoLayerNNDropout._model_forward X (World a g l)
              = (Ok (readout_of (W2 a) (masked Rl mask),
                     (X, affine_of (W1 a) X, Rl, mask, masked Rl mask)),
                 World a g1 l1)).
  { apply run_of_wp.
    unfold TwoLayerNNDropout._model_forward, TwoLayerNNDropout.draw_mask.
    wp_steps. simpl. rewrite Eh. wp_steps. rewrite Hrows, Hcols.
    eapply wp_run; [exact Eu|]. wp_steps. simpl. fold mask.
    rewrite Er. wp_steps. split; reflexivity. }
  rewrite E in Ef. inversion Ef; subst.
  exists u. split; [split; assumption|]. split; [reflexivity|].
  intros y dW w2 Eb.
  unfold TwoLayerNNDropout._model_backward, mbind, Py_bind, get, lift in Eb.
  simpl in Eb.
  destruct (TwoLayerNNDropout.backward _ _ _ _ _ _) in Eb; inversion Eb; reflexivity.
Qed.

Lemma sgd_step_draws rows (k : klass G) H D Tn t (w w' : world G agent) :
  klass_traced rows H D k -> wf_agent H D Tn (self w) ->
  (0 <= t < Z.of_nat Tn)%Z -> (0 < batch_size (self w))%Z ->
  sgd_step k t w w' ->
  exists s,
    (length (fst s) = Z.to_nat (batch_size (self w)) /\
     Forall (fun i => (0 <= i <= t)%Z) (fst s) /\
     shape2 (rows (Z.to_nat (batch_size (self w)))) H (snd s)) /\
    log w' = rev (step_draws t s) ++ log w.
Proof.
  intros Hk (HW1 & HW2 & Hah & Hrh) Ht Hbs
    (bi & w1 & ab & rb & out & c & w2 & dW1 & dW2 & w3 & Ed & Hr & Eab & Erb & Ef & Eb & ->).
  destruct (drawn_randint_size (S:=agent) (t + 1) (batch_size (self w))
              ltac:(lia) ltac:(lia) w) as (bi' & w1' & Ed' & Hs1 & Hl1 & Hlen & _).
  rewrite Ed in Ed'. inversion Ed'; subst bi' w1'. clear Ed'.
  destruct (take_ok (action_hist (self w)) bi) as (ab' & Eab' & Lab & Iab).
  { eapply Forall_impl; [exact Hr|]. simpl. destruct Hah as [-> _]. lia. }
  rewrite Eab in Eab'. inversion Eab'; subst ab'. clear Eab'.
  assert (Sab : shape2 (length bi) D ab).
  { split; [exact Lab|]. eapply Forall_impl; [exact Iab|]. simpl.
    intros r Hin. eapply shape2_elem; eauto. }
  destruct (Hk w1 ab (length bi) out c w2) as (u & Su & Hl2 & Hb);
    try (rewrite Hs1; assumption); [lia|exact Sab|exact Ef|].
  specialize (Hb rb (dW1, dW2) w3 Eb).
  exists (bi, u). simpl. split.
  - split; [exact Hlen|]. split; [exact Hr|]. rewrite <- Hlen. exact Su.
  - rewrite Hb, Hl2, Hl1. unfold step_draws. simpl.
    rewrite rev_app_distr, <- app_assoc. reflexivity.
Qed.

Lemma sgd_steps_draws rows (k : klass G) H D Tn t n (w w' : world G agent) :
  klass_traced rows H D k -> klass_total H D k -> wf_agent H D Tn (self w) ->
  (0 <= t < Z.of_nat Tn)%Z -> (0 < batch_size (self w))%Z ->
  noise_var (self w) <> 0 -> prior_var (self w) <> 0 ->
  steps (sgd_step k t) n w w' ->
  exists ss,
    length ss = n /\
    Forall (fun s => length (fst s) = Z.to_nat (batch_size (self w)) /\
                     Forall (fun i => (0 <= i <= t)%Z) (fst s) /\
                     shape2 (rows (Z.to_nat (batch_size (self w)))) H (snd s)) ss /\
    log w' = rev (concat (map (step_draws t) ss)) ++ log w.
Proof.
  intros Hk Hkt Hwf Ht Hbs Hnv Hpv Hsteps. revert Hwf Hbs Hnv Hpv.
  induction Hsteps as [w|n w w1 w2 Hs _ IH]; intros Hwf Hbs Hnv Hpv.
  - exists []. repeat split; constructor.
  - destruct (sgd_step_draws rows k H D Tn t w w1 Hk Hwf Ht Hbs Hs) as (s & Ps & Ls).
    assert (O : only_weights (self w) (self w1)).
    { apply (sgd_steps_only_weights k t 1). econstructor; [exact Hs|constructor]. }
    destruct (only_weights_hyper _ _ O) as (Hb & Hn & Hp & _ & _ & _ & Hah & Hrh).
    assert (Wf1 : wf_agent H D Tn (self w1)).
    { destruct Hs as (bi & wa & ab & rb & out & c & wb & dW1 & dW2 & wc & Hs).
      destruct Hs as (Ed & Hr & Eab & Erb & Ef & Eb & ->).
      destruct (gradient_step_spec k H D Tn t w Hkt Hwf Ht Hbs Hnv Hpv)
        as (wx & Ex & Sx & Wfx & _).
      destruct Sx as (bi2 & wa2 & ab2 & rb2 & out2 & c2 & wb2 & dW12 & dW22 & wc2 & Sx).
      destruct Sx as (Ed2 & _ & Eab2 & Erb2 & Ef2 & Eb2 & ->).
      rewrite Ed in Ed2. inversion Ed2; subst bi2 wa2.
      rewrite Eab in Eab2. inversion Eab2; subst ab2.
      rewrite Erb in Erb2. inversion Erb2; subst rb2.
      rewrite Ef in Ef2. inversion Ef2; subst out2 c2 wb2.
      rewrite Eb in Eb2. inversion Eb2; subst dW12 dW22 wc2.
      exact Wfx. }
    destruct IH as (ss & Lss & Pss & Lw2); try assumption.
    { rewrite Hb. exact Hbs. }
    { rewrite Hn. exact Hnv. }
    { rewrite Hp. exact Hpv. }
    exists (s :: ss). split; [simpl; lia|]. split.
    + constructor; [exact Ps|]. rewrite <- Hb. exact Pss.
    + rewrite Lw2, Ls. simpl. rewrite rev_app_distr, <- app_assoc. reflexivity.
Qed.
End UpdateDraws.

(** A successful update of class [k] makes exactly the draws of its
    [num_gradient_steps] passes. *)
Definition update_draws {G} `{RandomSource G} (rows : nat -> nat) (k : klass G)
  : Prop :=
  forall (H D Tn : nat) (t action : Z) (reward : R) (w : world G agent),
    wf_agent H D Tn (self w) ->
    Forall (fun x => length x = D) (actions (self w)) ->
    (0 <= action < Z.of_nat (length (actions (self w))))%Z ->
    (0 <= t < Z.of_nat Tn)%Z -> (0 < batch_size (self w))%Z ->
    noise_var (self w) <> 0 -> prior_var (self w) <> 0 ->
    exists w' ss,
      TwoLayerNNEpsilonGreedy.update_observation k t action reward w = (Ok tt, w') /\
      length ss = Z.to_nat (num_gradient_steps (self w)) /\
      Forall (fun s => length (fst s) = Z.to_nat (batch_size (self w)) /\
                       Forall (fun i => (0 <= i <= t)%Z) (fst s) /\
                       shape2 (rows (Z.to_nat (batch_size (self w)))) H (snd s)) ss /\
      log w' = rev (concat (map (step_draws t) ss)) ++ log w.

Lemma update_draws_of_traced {G} `{RandomSource G} rows (k : klass G) :
  (forall H D, klass_total H D k) -> (forall H D, klass_traced rows H D k) ->
  update_draws rows k.
Proof.
  intros Hkt Hk H0 D Tn t action reward w Hwf Hacts Ha Ht Hbs Hnv Hpv.
  destruct (update_observation_spec k H0 D Tn t action reward w (Hkt H0 D) Hwf Hacts
              Ha Ht Hbs Hnv Hpv) as (row & w1 & w' & Hrow & S & -> & E & _).
  assert (Lrow : length row = D).
  { rewrite Forall_forall in Hacts. apply Hacts. eapply list_elem_of_lookup_2, Hrow. }
  destruct (sgd_steps_draws rows k H0 D Tn t
              (Z.to_nat (num_gradient_steps (self w)))
              (World (recorded t row reward (self w)) (gen w) (log w)) w1
              (Hk H0 D) (Hkt H0 D))
    as (ss & Lss & Pss & Lw1); simpl; auto.
  { destruct Hwf as (S1 & L2 & Sah & Lrh). split; [|split; [|split]]; simpl; auto.
    - apply shape2_insert; assumption.
    - rewrite length_insert. exact Lrh. }
  eexists _, ss. split; [exact E|]. split; [exact Lss|]. split; [exact Pss|exact Lw1].
Qed.

(** X26.  What a successful update draws.  [update_observation] of the
    epsilon-greedy agent draws, in each of its [num_gradient_steps] passes,
    the [batch_size] indices of the minibatch (each in [0, t]) and nothing
    else; the dropout agent draws in each pass these indices and then one
    uniform number per minibatch row and hidden unit for the mask.  No other
    number is taken from the generator. *)
Theorem update_draws_only_minibatches_and_masks :
  forall (G : Type) (RS : RandomSource G),
    update_draws (fun _ => 0%nat) TwoLayerNNEpsilonGreedy.class /\
    update_draws (fun B => B) TwoLayerNNDropout.class.
Proof.
  intros G RS. split; apply update_draws_of_traced; intros H D.
  - apply epsilon_greedy_class_total.
  - apply epsilon_greedy_class_traced.
  - apply dropout_class_total.
  - apply dropout_class_traced.
Qed.

Lemma update_draws_only_minibatches_and_masks_witness :
  (exists w' ss,
     TwoLayerNNEpsilonGreedy.update_observation TwoLayerNNEpsilonGreedy.class
       1 1 5 (World (two_action_agent 0 0) [3%nat] []) = (Ok tt, w') /\
     length ss = Z.to_nat 1 /\
     Forall (fun s => length (fst s) = Z.to_nat 2 /\
                      Forall (fun i => (0 <= i <= 1)%Z) (fst s) /\
                      shape2 0 1 (snd s)) ss /\
     log w' = rev (concat (map (step_draws 1) ss)) ++ []) /\
  (exists w' ss,
     TwoLayerNNEpsilonGreedy.update_observation TwoLayerNNDropout.class
       1 1 5 (World (two_action_agent 0 (1 / 2)) [3%nat] []) = (Ok tt, w') /\
     length ss = Z.to_nat 1 /\
     Forall (fun s => length (fst s) = Z.to_nat 2 /\
                      Forall (fun i => (0 <= i <= 1)%Z) (fst s) /\
                      shape2 (Z.to_nat 2) 1 (snd s)) ss /\
     log w' = rev (concat (map (step_draws 1) ss)) ++ []).
Proof.
  destruct (update_draws_only_minibatches_and_masks (list nat) tape_source) as [He Hd].
  split.
  - apply (He 1%nat 1%nat 2%nat 1%Z 1%Z 5 (World (two_action_agent 0 0) [3%nat] []));
      simpl; first [apply two_action_agent_wf | lia | lra | repeat constructor].
  - apply (Hd 1%nat 1%nat 2%nat 1%Z 1%Z 5
             (World (two_action_agent 0 (1 / 2)) [3%nat] []));
      simpl; first [apply two_action_agent_wf | lia | lra | repeat constructor].
Defined.
